(** * A model of [advanced-vector/vector.h]

    [RawMemory<T>] owns a block of uninitialised storage, [Vector<T>] keeps
    the first [size_] slots of such a block alive.  The development embeds
    both classes over an explicit abstract machine:

    - a heap of blocks, each a list of slots that are either raw storage or
      hold a live object of the element type;
    - a store of [Vector] objects addressed by location, so that two
      references may name the same object ([this == &rhs]);
    - the environment outside the container (allocator, element type), whose
      state is threaded through every call it receives;
    - a log of the element operations and allocator calls performed.

    A computation returns normally, leaves by an exception, or has undefined
    behaviour (access to a slot that is out of bounds or holds no live
    object). *)

From Stdlib Require Import ZArith List Lia Permutation.
From stdpp Require Import base option list gmap.

Local Open Scope Z_scope.

(** ** Machine integers *)

(** [size_t] is taken to be 64 bits wide; every arithmetic operation of the
    source on a [size_t] is followed by [wrap]. *)
Definition SIZE_MOD : Z := 2 ^ 64.
Definition PTRDIFF_MAX : Z := 2 ^ 63 - 1.
Definition wrap (z : Z) : Z := z mod SIZE_MOD.

(** ** Pointers *)

(** A [T*] is a block and an offset counted in elements.  The null pointer
    has no block. *)
Record ptr := Ptr { blk : option nat; off : Z }.

Definition nullptr : ptr := Ptr None 0.
Definition ptr_add (p : ptr) (k : Z) : ptr := Ptr (blk p) (off p + k).
Definition ptr_diff (p q : ptr) : Z := off p - off q.

#[global] Instance ptr_eq_dec : EqDecision ptr.
Proof. solve_decision. Defined.

Notation "p +ₚ k" := (ptr_add p k) (at level 50, left associativity).

(** ** The log *)

(** Where an element operation reads from or writes to: a slot of a block,
    an object of the caller, or the local [temp] of [Emplace]. *)
Inductive place := Slot (p : ptr) | Caller | Temp.

Inductive event (E : Type) :=
| EvNew (b : nat) (bytes : Z)             (* operator new returned block b *)
| EvDelete (b : nat)                      (* operator delete of block b *)
| EvConstruct (dst : place)               (* T(args...) *)
| EvCopyConstruct (dst src : place)       (* T(const T&) *)
| EvMoveConstruct (dst src : place)       (* T(T&&) *)
| EvCopyAssign (dst src : place)          (* T::operator=(const T&) *)
| EvMoveAssign (dst src : place)          (* T::operator=(T&&) *)
| EvDestroy (dst : place)                 (* ~T() *)
| EvRaise (e : E).                        (* an operation raised e *)
Arguments EvNew {E} b bytes.
Arguments EvDelete {E} b.
Arguments EvConstruct {E} dst.
Arguments EvCopyConstruct {E} dst src.
Arguments EvMoveConstruct {E} dst src.
Arguments EvCopyAssign {E} dst src.
Arguments EvMoveAssign {E} dst src.
Arguments EvDestroy {E} dst.
Arguments EvRaise {E} e.

(** ** Computations *)

(** A computation over states [S] that may leave by an exception of type
    [E] or have undefined behaviour. *)
Section Monad.

Context {S E : Type}.

Inductive result (R : Type) :=
| Ok (r : R) (s : S)
| Throw (e : E) (s : S)
| Undefined.

Definition M (R : Type) : Type := S -> result R.

Definition ret {R} (r : R) : M R := fun s => Ok R r s.

Definition bind {R R'} (m : M R) (k : R -> M R') : M R' :=
  fun s => match m s with
           | Ok _ r s' => k r s'
           | Throw _ e s' => Throw R' e s'
           | Undefined _ => Undefined R'
           end.

Definition throw {R} (e : E) : M R := fun s => Throw R e s.
Definition undefined {R} : M R := fun _ => Undefined R.

(** [try { m } catch (...) { h; throw; }]: an exception that leaves the
    handler itself replaces the one being handled. *)
Definition catch_rethrow {R} (m : M R) (h : M unit) : M R :=
  fun s => match m s with
           | Throw _ e s' =>
               match h s' with
               | Ok _ _ s'' => Throw R e s''
               | Throw _ e' s'' => Throw R e' s''
               | Undefined _ => Undefined R
               end
           | r => r
           end.

Definition get_state : M S := fun s => Ok S s s.
Definition modify (f : S -> S) : M unit := fun s => Ok unit tt (f s).

End Monad.

Arguments result S E R : clear implicits.
Arguments M S E R : clear implicits.
Arguments Ok {S E R} r s.
Arguments Throw {S E R} e s.
Arguments Undefined {S E R}.

#[global] Instance M_ret {S E} : MRet (M S E) := @ret S E.
#[global] Instance M_bind {S E} : MBind (M S E) := fun _ _ k m => bind m k.

(** ** The element type and the allocator *)

Inductive outcome (E A : Type) := Returns (a : A) | Raises (e : E).
Arguments Returns {E A} a.
Arguments Raises {E A} e.

(** What [Vector<T>] uses of [T].  [W] is the state of the world outside the
    container; an operation may read and change it (instance counters, a
    constructor that fails on its third call).  A copy takes its source
    by reference to const and leaves it as it was; a move may change its
    source, and an assignment its destination, also when it fails:
    [move_ctor] gives the source as it is afterwards, [copy_assign] the
    destination, [move_assign] the destination and the source. *)
Record ElemType (T W E A : Type) := {
  sizeof : Z;
  is_nothrow_move_constructible : bool;
  is_copy_constructible : bool;
  construct : A -> W -> W * outcome E T;
  copy_ctor : T -> W -> W * outcome E T;
  move_ctor : T -> W -> W * (T * outcome E T);
  copy_assign : T -> T -> W -> W * (T * option E);
  move_assign : T -> T -> W -> W * (T * T * option E);
  dtor : T -> W -> W
}.
Arguments sizeof {T W E A}.
Arguments is_nothrow_move_constructible {T W E A}.
Arguments is_copy_constructible {T W E A}.
Arguments construct {T W E A}.
Arguments copy_ctor {T W E A}.
Arguments move_ctor {T W E A}.
Arguments copy_assign {T W E A}.
Arguments move_assign {T W E A}.
Arguments dtor {T W E A}.

(** The global allocator: [sys_new w bytes] says whether the request is
    granted; a refused request leaves by [bad_alloc]. *)
Record Allocator (W E : Type) := {
  sys_new : Z -> W -> W * bool;
  bad_alloc : E
}.
Arguments sys_new {W E}.
Arguments bad_alloc {W E}.

(** ** References *)

(** A C++ reference to an object of type [R] that lives somewhere in [Σ]:
    how to read it and how to write it.  Two references may name the same
    object; a member function written over references then behaves as the
    source does under aliasing. *)
Record ref (Σ R : Type) := Ref { deref : Σ -> R; assign : R -> Σ -> Σ }.
Arguments Ref {Σ R} deref assign.
Arguments deref {Σ R} r σ.
Arguments assign {Σ R} r x σ.

(** A member of the referenced object. *)
Definition member {Σ R F} (r : ref Σ R) (get : R -> F) (set : F -> R -> R) : ref Σ F :=
  Ref (fun σ => get (deref r σ)) (fun x σ => assign r (set x (deref r σ)) σ).

(** References into a store extended by one local object. *)
Definition outer {Σ L R} (r : ref Σ R) : ref (Σ * L) R :=
  Ref (fun σ => deref r (fst σ)) (fun x σ => (assign r x (fst σ), snd σ)).
Definition local {Σ L} : ref (Σ * L) L :=
  Ref snd (fun x σ => (fst σ, x)).

(** ** The classes' data *)

Record RawMemory := { buffer_ : ptr; capacity_ : Z }.

Record Vector := { data_ : RawMemory; size_ : Z }.

Definition set_buffer_ (p : ptr) (m : RawMemory) : RawMemory :=
  {| buffer_ := p; capacity_ := capacity_ m |}.
Definition set_capacity_ (n : Z) (m : RawMemory) : RawMemory :=
  {| buffer_ := buffer_ m; capacity_ := n |}.
Definition set_data_ (d : RawMemory) (v : Vector) : Vector :=
  {| data_ := d; size_ := size_ v |}.
Definition set_size_ (n : Z) (v : Vector) : Vector :=
  {| data_ := data_ v; size_ := n |}.

(** Default member initialisers: [buffer_ = nullptr], [capacity_ = 0],
    [size_ = 0]. *)
Definition RawMemory_default : RawMemory := {| buffer_ := nullptr; capacity_ := 0 |}.
Definition Vector_default : Vector := {| data_ := RawMemory_default; size_ := 0 |}.

Section RawMemoryRefs.

Context {Σ : Type}.

Definition buffer_of (r : ref Σ RawMemory) : ref Σ ptr := member r buffer_ set_buffer_.
Definition capacity_of (r : ref Σ RawMemory) : ref Σ Z := member r capacity_ set_capacity_.
Definition data_of (r : ref Σ Vector) : ref Σ RawMemory := member r data_ set_data_.
Definition size_of (r : ref Σ Vector) : ref Σ Z := member r size_ set_size_.

(** [RawMemory(RawMemory&& other) noexcept]: the new object and the store
    in which [other] has been emptied. *)
Definition RawMemory_move_ctor (other : ref Σ RawMemory) (σ : Σ) : RawMemory * Σ :=
  let this := {| buffer_ := deref (buffer_of other) σ;
                 capacity_ := deref (capacity_of other) σ |} in
  let σ := assign (buffer_of other) nullptr σ in
  let σ := assign (capacity_of other) 0 σ in
  (this, σ).

(** [RawMemory& operator=(RawMemory&& rhs) noexcept].  The block [this]
    held before is not released. *)
Definition RawMemory_move_assign (this rhs : ref Σ RawMemory) (σ : Σ) : Σ :=
  let σ := assign (buffer_of this) (deref (buffer_of rhs) σ) σ in
  let σ := assign (capacity_of this) (deref (capacity_of rhs) σ) σ in
  let σ := assign (buffer_of rhs) nullptr σ in
  let σ := assign (capacity_of rhs) 0 σ in
  σ.

(** [std::swap(a, b)] on two scalars. *)
Definition std_swap {R} (a b : ref Σ R) (σ : Σ) : Σ :=
  let tmp := deref a σ in
  let σ := assign a (deref b σ) σ in
  assign b tmp σ.

(** [void RawMemory::Swap(RawMemory& other) noexcept] *)
Definition RawMemory_Swap (this other : ref Σ RawMemory) (σ : Σ) : Σ :=
  let σ := std_swap (buffer_of this) (buffer_of other) σ in
  std_swap (capacity_of this) (capacity_of other) σ.

End RawMemoryRefs.

(** [std::swap(a, b)] on two [RawMemory] objects: the class has no swap
    of its own that overload resolution would find, so this is the generic
    one, [RawMemory tmp(std::move(a)); a = std::move(b); b = std::move(tmp);].
    The result is the store and [tmp] as it is when its scope ends. *)
Definition std_swap_RawMemory {Σ} (a b : ref Σ RawMemory) (σ : Σ) : Σ * RawMemory :=
  let '(tmp, σ) := RawMemory_move_ctor a σ in
  let σ' := RawMemory_move_assign (outer a) (outer b) (σ, tmp) in
  RawMemory_move_assign (outer b) local σ'.

(** ** The abstract machine *)

(** How the new element of [EmplaceBack]/[Emplace] is initialised:
    [Emplace(pos, args...)] in general, [T(value)] for
    [PushBack(const T&)]/[Insert(pos, const T&)], [T(std::move(value))] for
    [PushBack(T&&)]/[Insert(pos, T&&)].  [value] is an object of the caller
    that is not an element of the vector. *)
Inductive init (T A : Type) := InitArgs (a : A) | InitCopy (value : T) | InitMove (value : T).
Arguments InitArgs {T A} a.
Arguments InitCopy {T A} value.
Arguments InitMove {T A} value.

(** A slot of a block: [None] is raw storage, [Some v] a live object of
    value [v]. *)
Abbreviation slot T := (option T).

Section Machine.

Context {T W E A : Type} (el : ElemType T W E A) (al : Allocator W E).

(** *** States *)

Record state := {
  world : W;
  heap : gmap nat (list (slot T));
  objs : gmap nat Vector;
  log : list (event E)
}.

Definition set_world (w : W) (s : state) : state :=
  {| world := w; heap := heap s; objs := objs s; log := log s |}.
Definition set_heap (h : gmap nat (list (slot T))) (s : state) : state :=
  {| world := world s; heap := h; objs := objs s; log := log s |}.
Definition set_objs (o : gmap nat Vector) (s : state) : state :=
  {| world := world s; heap := heap s; objs := o; log := log s |}.
Definition add_log (ev : event E) (s : state) : state :=
  {| world := world s; heap := heap s; objs := objs s; log := log s ++ [ev] |}.

Abbreviation Mach := (M state E).

Definition emit (ev : event E) : Mach unit := modify (add_log ev).

(** An operation of the environment raises [e]. *)
Definition raise {R} (e : E) : Mach R := emit (EvRaise e) ;; throw e.

(** *** Slots *)

(** The slot a pointer designates, if it points into a block of the heap. *)
Definition cell (s : state) (p : ptr) : option (slot T) :=
  match blk p with
  | Some b =>
      match heap s !! b with
      | Some cells => if decide (0 ≤ off p) then cells !! Z.to_nat (off p) else None
      | None => None
      end
  | None => None
  end.

Definition set_cell (p : ptr) (c : slot T) (s : state) : state :=
  match blk p with
  | Some b =>
      match heap s !! b with
      | Some cells => set_heap (<[b := <[Z.to_nat (off p) := c]> cells]> (heap s)) s
      | None => s
      end
  | None => s
  end.

(** Reading the object at [p]. *)
Definition load (p : ptr) : Mach T :=
  fun s => match cell s p with Some (Some v) => Ok v s | _ => Undefined end.

(** The object at [p] takes the value [v]. *)
Definition store (p : ptr) (v : T) : Mach unit :=
  fun s => match cell s p with
           | Some (Some _) => Ok tt (set_cell p (Some v) s)
           | _ => Undefined
           end.

(** [p] designates raw storage.  The model is stricter than the language
    here: constructing over a live object is an error as well. *)
Definition raw (p : ptr) : Mach unit :=
  fun s => match cell s p with Some None => Ok tt s | _ => Undefined end.

(** The lifetime of an object of value [v] begins in the raw slot [p]. *)
Definition occupy (p : ptr) (v : T) : Mach unit :=
  raw p ;; modify (set_cell p (Some v)).

(** The lifetime of the object at [p] ends. *)
Definition vacate (p : ptr) : Mach unit :=
  _ ← load p; modify (set_cell p None).

(** *** Calls into the element type *)

Definition in_world {R} (f : W -> W * R) : Mach R :=
  fun s => Ok (snd (f (world s))) (set_world (fst (f (world s))) s).

Definition finish {R} (ev : event E) (r : outcome E R) : Mach R :=
  match r with
  | Returns v => emit ev ;; mret v
  | Raises e => raise e
  end.

(** The value of the object that [T(args...)] builds at [dst]. *)
Definition initialise (dst : place) (args : init T A) : Mach T :=
  match args with
  | InitArgs a =>
      r ← in_world (construct el a); finish (EvConstruct dst) r
  | InitCopy value =>
      r ← in_world (copy_ctor el value); finish (EvCopyConstruct dst Caller) r
  | InitMove value =>
      r ← in_world (move_ctor el value); finish (EvMoveConstruct dst Caller) (snd r)
  end.

(** [new (dst) T(args...)] *)
Definition construct_at (dst : ptr) (args : init T A) : Mach unit :=
  raw dst ;; v ← initialise (Slot dst) args; occupy dst v.

(** [new (dst) T(src[0])] *)
Definition copy_construct_at (dst src : ptr) : Mach unit :=
  x ← load src;
  raw dst ;;
  r ← in_world (copy_ctor el x);
  v ← finish (EvCopyConstruct (Slot dst) (Slot src)) r;
  occupy dst v.

(** [new (dst) T(std::move(src[0]))] *)
Definition move_construct_at (dst src : ptr) : Mach unit :=
  x ← load src;
  raw dst ;;
  r ← in_world (move_ctor el x);
  store src (fst r) ;;
  v ← finish (EvMoveConstruct (Slot dst) (Slot src)) (snd r);
  occupy dst v.

Definition finish_assign (ev : event E) (e : option E) : Mach unit :=
  match e with
  | None => emit ev
  | Some e => raise e
  end.

(** [dst[0] = src[0]] *)
Definition copy_assign_at (dst src : ptr) : Mach unit :=
  d ← load dst;
  x ← load src;
  r ← in_world (copy_assign el d x);
  store dst (fst r) ;;
  finish_assign (EvCopyAssign (Slot dst) (Slot src)) (snd r).

(** [dst[0] = std::move(src[0])] *)
Definition move_assign_at (dst src : ptr) : Mach unit :=
  d ← load dst;
  x ← load src;
  r ← in_world (move_assign el d x);
  store src (snd (fst r)) ;;
  store dst (fst (fst r)) ;;
  finish_assign (EvMoveAssign (Slot dst) (Slot src)) (snd r).

(** [p->~T()], [std::destroy_at(p)] *)
Definition destroy_at (p : ptr) : Mach unit :=
  x ← load p;
  in_world (fun w => (dtor el x w, tt)) ;;
  vacate p ;;
  emit (EvDestroy (Slot p)).

(** *** The algorithms of <memory> and <algorithm> *)

(** [std::destroy_n(first, n)] *)
Fixpoint destroy_loop (first : ptr) (n : nat) : Mach unit :=
  match n with
  | O => mret tt
  | S n' => destroy_at first ;; destroy_loop (first +ₚ 1) n'
  end.

Definition destroy_n (first : ptr) (n : Z) : Mach unit :=
  destroy_loop first (Z.to_nat n).

(** [std::destroy(first, last)] *)
Definition destroy_range (first last : ptr) : Mach unit :=
  destroy_loop first (Z.to_nat (ptr_diff last first)).

(** The loop of [std::uninitialized_copy_n]/[std::uninitialized_move_n]:
    it constructs at [cur] from [first] and advances both; where it stops
    is returned along with the result. *)
Fixpoint uninitialized_loop (step : ptr -> ptr -> Mach unit)
    (first : ptr) (n : nat) (cur : ptr) (s : state) : ptr * result state E unit :=
  match n with
  | O => (cur, Ok tt s)
  | S n' =>
      match step cur first s with
      | Ok _ s' => uninitialized_loop step (first +ₚ 1) n' (cur +ₚ 1) s'
      | r => (cur, r)
      end
  end.

(** On an exception the objects constructed so far are destroyed, first
    to last, and the exception is thrown again. *)
Definition uninitialized (step : ptr -> ptr -> Mach unit)
    (first : ptr) (n : Z) (d_first : ptr) : Mach unit :=
  fun s =>
    match uninitialized_loop step first (Z.to_nat n) d_first s with
    | (cur, Throw e s') => (destroy_range d_first cur ;; throw e) s'
    | (_, r) => r
    end.

Definition uninitialized_copy_n : ptr -> Z -> ptr -> Mach unit :=
  uninitialized copy_construct_at.
Definition uninitialized_move_n : ptr -> Z -> ptr -> Mach unit :=
  uninitialized move_construct_at.

(** [for (n = last - first; n > 0; --n, ++first, ++d_first) d_first[0] = ...] *)
Fixpoint forward_loop (step : ptr -> ptr -> Mach unit)
    (first : ptr) (n : nat) (d_first : ptr) : Mach unit :=
  match n with
  | O => mret tt
  | S n' => step d_first first ;; forward_loop step (first +ₚ 1) n' (d_first +ₚ 1)
  end.

(** [std::copy(first, last, d_first)] *)
Definition std_copy (first last d_first : ptr) : Mach unit :=
  forward_loop copy_assign_at first (Z.to_nat (ptr_diff last first)) d_first.

(** [std::move(first, last, d_first)] *)
Definition std_move (first last d_first : ptr) : Mach unit :=
  forward_loop move_assign_at first (Z.to_nat (ptr_diff last first)) d_first.

(** [for (n = last - first; n > 0; --n) { --d_last; --last; d_last[0] = std::move(last[0]); }] *)
Fixpoint backward_loop (last : ptr) (n : nat) (d_last : ptr) : Mach unit :=
  match n with
  | O => mret tt
  | S n' =>
      move_assign_at (d_last +ₚ (-1)) (last +ₚ (-1)) ;;
      backward_loop (last +ₚ (-1)) n' (d_last +ₚ (-1))
  end.

(** [std::move_backward(first, last, d_last)] *)
Definition std_move_backward (first last d_last : ptr) : Mach unit :=
  backward_loop last (Z.to_nat (ptr_diff last first)) d_last.

(** *** The allocator *)

(** [operator new(bytes)]: a fresh block with room for [bytes / sizeof(T)]
    objects, or [std::bad_alloc]. *)
Definition operator_new (bytes : Z) : Mach ptr :=
  granted ← in_world (sys_new al bytes);
  if granted : bool then
    s ← get_state;
    let b := fresh (dom (heap s)) in
    modify (set_heap (<[b := replicate (Z.to_nat (bytes / sizeof el)) None]> (heap s))) ;;
    emit (EvNew b bytes) ;;
    mret (Ptr (Some b) 0)
  else raise (bad_alloc al).

(** [operator delete(p)]: nothing for the null pointer; otherwise [p] must
    be the start of a block of the heap, which is released.  Objects still
    alive in it are gone without having been destroyed. *)
Definition operator_delete (p : ptr) : Mach unit :=
  match blk p with
  | None => if decide (off p = 0) then mret tt else undefined
  | Some b =>
      s ← get_state;
      if decide (off p = 0 ∧ is_Some (heap s !! b)) then
        modify (set_heap (delete b (heap s))) ;; emit (EvDelete b)
      else undefined
  end.

(** *** RawMemory *)

(** [static T* Allocate(size_t n)] *)
Definition Allocate (n : Z) : Mach ptr :=
  if decide (n ≠ 0) then operator_new (wrap (n * sizeof el)) else mret nullptr.

(** [static void Deallocate(T* buf) noexcept] *)
Definition Deallocate (buf : ptr) : Mach unit := operator_delete buf.

(** [explicit RawMemory(size_t capacity)] *)
Definition RawMemory_ctor (capacity : Z) : Mach RawMemory :=
  buf ← Allocate capacity;
  mret {| buffer_ := buf; capacity_ := capacity |}.

(** [~RawMemory()] *)
Definition RawMemory_dtor (m : RawMemory) : Mach unit := Deallocate (buffer_ m).

(** [T* GetAddress() noexcept] *)
Definition GetAddress (m : RawMemory) : ptr := buffer_ m.

(** A local object [x] of a class with destructor [d] is in scope while
    [m] runs: an exception that leaves [m] destroys it on the way. *)
Definition unwinding {R} (d : Mach unit) (m : Mach R) : Mach R := catch_rethrow m d.

(** *** Vector: the object and its members *)

(** The [Vector] at location [this]; using a location that holds none is
    undefined. *)
Definition obj (this : nat) : Mach Vector :=
  fun s => match objs s !! this with Some v => Ok v s | None => Undefined end.

Definition vector_at (this : nat) : ref state Vector :=
  Ref (fun s => default Vector_default (objs s !! this))
      (fun v s => set_objs (<[this := v]> (objs s)) s).

(** Running a function written over references on the store of vectors. *)
Definition on_store (f : state -> state) : Mach unit := modify f.

(** The same with one local object [x] in scope; its value afterwards is
    returned. *)
Definition with_local {L} (x : L) (f : state * L -> state * L) : Mach L :=
  fun s => Ok (snd (f (s, x))) (fst (f (s, x))).

(** The same for a function with a local object [tmp] of its own, which
    is returned as it is at the end of its scope, to be destroyed. *)
Definition with_local_scope {L L'} (x : L) (f : state * L -> state * L * L') : Mach (L * L') :=
  fun s => Ok (snd (fst (f (s, x))), snd (f (s, x))) (fst (fst (f (s, x)))).

(** [size_t Size() const noexcept] *)
Definition Size (this : nat) : Mach Z := v ← obj this; mret (size_ v).

(** [size_t Capacity() const noexcept] *)
Definition Capacity (this : nat) : Mach Z := v ← obj this; mret (capacity_ (data_ v)).

(** [begin()], [cbegin()] *)
Definition begin_ (this : nat) : Mach ptr := v ← obj this; mret (GetAddress (data_ v)).

(** [end()], [cend()] *)
Definition end_ (this : nat) : Mach ptr :=
  v ← obj this; mret (GetAddress (data_ v) +ₚ size_ v).

Definition write_size_ (this : nat) (n : Z) : Mach unit :=
  _ ← obj this; on_store (assign (size_of (vector_at this)) n).

(** *** Vector: construction, destruction, assignment *)

(** [Vector(const Vector& other)]: the object constructed.  When the body
    throws, the member [data_], already constructed, is destroyed. *)
Definition Vector_copy_ctor (other : nat) : Mach Vector :=
  n ← Size other;
  data ← RawMemory_ctor n;
  unwinding (RawMemory_dtor data)
    (first ← begin_ other;
     n ← Size other;
     uninitialized_copy_n first n (GetAddress data)) ;;
  mret {| data_ := data; size_ := n |}.

(** [Vector(Vector&& other) noexcept]: the object constructed, members
    default-initialised before the body runs. *)
Definition Vector_move_ctor (other : nat) : Mach Vector :=
  _ ← obj other;
  with_local Vector_default (fun σ =>
    let σ := assign (size_of local) (deref (size_of (outer (vector_at other))) σ) σ in
    let σ := RawMemory_move_assign (data_of local) (data_of (outer (vector_at other))) σ in
    assign (size_of (outer (vector_at other))) 0 σ).

(** [Vector& operator=(Vector&& rhs) noexcept] *)
Definition Vector_move_assign (this rhs : nat) : Mach unit :=
  _ ← obj this;
  _ ← obj rhs;
  on_store (fun σ =>
    let σ := assign (size_of (vector_at this)) (deref (size_of (vector_at rhs)) σ) σ in
    let σ := RawMemory_move_assign (data_of (vector_at this)) (data_of (vector_at rhs)) σ in
    assign (size_of (vector_at rhs)) 0 σ).

(** [~Vector()], followed by the destructor of the member [data_] *)
Definition Vector_dtor (v : Vector) : Mach unit :=
  destroy_n (GetAddress (data_ v)) (size_ v) ;;
  RawMemory_dtor (data_ v).

(** [void Swap(Vector& other) noexcept], [other] a local object: its value
    afterwards is returned. *)
Definition Swap (this : nat) (other : Vector) : Mach Vector :=
  _ ← obj this;
  r ← with_local_scope other
        (std_swap_RawMemory (data_of (outer (vector_at this))) (data_of local));
  RawMemory_dtor (snd r) ;;
  with_local (fst r) (std_swap (size_of (outer (vector_at this))) (size_of local)).

(** [data_.Swap(new_data)], [new_data] a local object *)
Definition Swap_data (this : nat) (new_data : RawMemory) : Mach RawMemory :=
  _ ← obj this;
  with_local new_data (RawMemory_Swap (data_of (outer (vector_at this))) local).

(** [void Reserve(size_t new_capacity)] *)
Definition Reserve (this : nat) (new_capacity : Z) : Mach unit :=
  capacity ← Capacity this;
  if decide (new_capacity ≤ capacity) then mret tt
  else
    new_data ← RawMemory_ctor new_capacity;
    unwinding (RawMemory_dtor new_data)
      (first ← begin_ this;
       n ← Size this;
       (if is_nothrow_move_constructible el || negb (is_copy_constructible el)
        then uninitialized_move_n first n (GetAddress new_data)
        else uninitialized_copy_n first n (GetAddress new_data)) ;;
       destroy_n first n) ;;
    new_data ← Swap_data this new_data;
    RawMemory_dtor new_data.

(** [Vector& operator=(const Vector& rhs)] *)
Definition Vector_copy_assign (this rhs : nat) : Mach unit :=
  if decide (this ≠ rhs) then
    rhs_size ← Size rhs;
    capacity ← Capacity this;
    (if decide (rhs_size > capacity) then
       rhs_copy ← Vector_copy_ctor rhs;
       rhs_copy ← Swap this rhs_copy;
       Vector_dtor rhs_copy
     else
       size ← Size this;
       rhs_begin ← begin_ rhs;
       first ← begin_ this;
       if decide (rhs_size >= size) then
         std_copy rhs_begin (rhs_begin +ₚ size) first ;;
         last ← end_ this;
         uninitialized_copy_n (rhs_begin +ₚ size) (wrap (rhs_size - size)) last
       else
         rhs_end ← end_ rhs;
         std_copy rhs_begin rhs_end first ;;
         destroy_n (first +ₚ rhs_size) (wrap (size - rhs_size))) ;;
    rhs_size ← Size rhs;
    write_size_ this rhs_size
  else mret tt.

(** *** Vector: growth at the end *)

(** [void MoveOrCopy(iterator from, size_t num, iterator to)] *)
Definition MoveOrCopy (from : ptr) (num : Z) (to : ptr) : Mach unit :=
  if is_nothrow_move_constructible el || negb (is_copy_constructible el)
  then uninitialized_move_n from num to
  else uninitialized_copy_n from num to.

(** [void PlaceBackWithoutRealloc(Args&&... args)] *)
Definition PlaceBackWithoutRealloc (this : nat) (args : init T A) : Mach unit :=
  capacity ← Capacity this;
  size ← Size this;
  if decide (capacity >= wrap (size + 1)) then
    last ← end_ this;
    construct_at last args
  else mret tt.

(** [iterator PlaceWithRealloc(const_iterator pos, Args&&... args)] *)
Definition PlaceWithRealloc (this : nat) (pos : ptr) (args : init T A) : Mach ptr :=
  first ← begin_ this;
  let pos_n := wrap (ptr_diff pos first) in
  capacity ← Capacity this;
  size ← Size this;
  (if decide (capacity < wrap (size + 1)) then
     new_data ← RawMemory_ctor (if decide (size = 0) then 1 else wrap (size * 2));
     unwinding (RawMemory_dtor new_data)
       (let elem := GetAddress new_data +ₚ pos_n in
        construct_at elem args ;;
        catch_rethrow
          (MoveOrCopy first pos_n (GetAddress new_data))
          (destroy_at elem) ;;
        catch_rethrow
          (MoveOrCopy (first +ₚ pos_n) (wrap (size - pos_n))
             (GetAddress new_data +ₚ pos_n +ₚ 1))
          (destroy_at elem ;; destroy_n (GetAddress new_data) pos_n) ;;
        destroy_n first size) ;;
     new_data ← Swap_data this new_data;
     RawMemory_dtor new_data
   else mret tt) ;;
  first ← begin_ this;
  mret (first +ₚ pos_n).

(** [T& EmplaceBack(Args&&... args)]: the address of the object the
    returned reference is bound to. *)
Definition EmplaceBack (this : nat) (args : init T A) : Mach ptr :=
  capacity ← Capacity this;
  size ← Size this;
  (if decide (capacity >= wrap (size + 1)) then
     PlaceBackWithoutRealloc this args
   else
     last ← end_ this;
     PlaceWithRealloc this last args ;; mret tt) ;;
  size ← Size this;
  write_size_ this (wrap (size + 1)) ;;
  last ← end_ this;
  mret (last +ₚ (-1)).

(** [void PushBack(const T& value)] *)
Definition PushBack (this : nat) (value : T) : Mach unit :=
  EmplaceBack this (InitCopy value) ;; mret tt.

(** [void PushBack(T&& value)] *)
Definition PushBack_rvalue (this : nat) (value : T) : Mach unit :=
  EmplaceBack this (InitMove value) ;; mret tt.

(** [void PopBack() noexcept] *)
Definition PopBack (this : nat) : Mach unit :=
  last ← end_ this;
  destroy_n (last +ₚ (-1)) 1 ;;
  size ← Size this;
  if decide (size > 0) then write_size_ this (wrap (size - 1)) else mret tt.

(** *** Vector: insertion and removal *)

(** [*p = std::move(temp)] for the local [temp] of [Emplace]: [temp] as it
    is afterwards, and the exception if the assignment raised one. *)
Definition move_assign_from_temp (dst : ptr) (temp : T) : Mach (T * option E) :=
  d ← load dst;
  r ← in_world (move_assign el d temp);
  store dst (fst (fst r)) ;;
  match snd r with
  | None => emit (EvMoveAssign (Slot dst) Temp)
  | Some e => emit (EvRaise e)
  end ;;
  mret (snd (fst r), snd r).

(** The destructor of the local [temp]. *)
Definition destroy_temp (temp : T) : Mach unit :=
  in_world (fun w => (dtor el temp w, tt)) ;; emit (EvDestroy Temp).

(** [iterator Emplace(const_iterator pos, Args&&... args)] *)
Definition Emplace (this : nat) (pos : ptr) (args : init T A) : Mach ptr :=
  first ← begin_ this;
  let pos_n := wrap (ptr_diff pos first) in
  capacity ← Capacity this;
  size ← Size this;
  (if decide (capacity > size) then
     last ← end_ this;
     if decide (pos ≠ last) then
       temp ← initialise Temp args;
       unwinding (destroy_temp temp)
         (uninitialized_move_n (last +ₚ (-1)) 1 last ;;
          std_move_backward (first +ₚ pos_n) (last +ₚ (-1)) last) ;;
       r ← move_assign_from_temp (first +ₚ pos_n) temp;
       destroy_temp (fst r) ;;
       match snd r with
       | None => mret tt
       | Some e => throw e
       end
     else PlaceBackWithoutRealloc this args
   else
     PlaceWithRealloc this (first +ₚ pos_n) args ;; mret tt) ;;
  size ← Size this;
  write_size_ this (wrap (size + 1)) ;;
  first ← begin_ this;
  mret (first +ₚ pos_n).

(** [iterator Erase(const_iterator pos)] *)
Definition Erase (this : nat) (pos : ptr) : Mach ptr :=
  first ← begin_ this;
  let pos_n := wrap (ptr_diff pos first) in
  last ← end_ this;
  std_move (first +ₚ pos_n +ₚ 1) last (first +ₚ pos_n) ;;
  destroy_at (last +ₚ (-1)) ;;
  size ← Size this;
  write_size_ this (wrap (size - 1)) ;;
  mret pos.

(** [iterator Insert(const_iterator pos, const T& value)] *)
Definition Insert (this : nat) (pos : ptr) (value : T) : Mach ptr :=
  Emplace this pos (InitCopy value).

(** [iterator Insert(const_iterator pos, T&& value)] *)
Definition Insert_rvalue (this : nat) (pos : ptr) (value : T) : Mach ptr :=
  Emplace this pos (InitMove value).

End Machine.

(** ** What a state says about a vector *)

Section View.

Context {T W E A : Type} (el : ElemType T W E A) (al : Allocator W E).

(** The slots of a buffer of capacity [cap] whose live prefix holds [xs]. *)
Definition cells_of (xs : list T) (cap : Z) : list (slot T) :=
  (Some <$> xs) ++ replicate (Z.to_nat cap - length xs)%nat None.

(** The values of the first [n] slots if they are live and every other
    slot is raw. *)
Definition live_prefix (cells : list (slot T)) (n : nat) : option (list T) :=
  if decide (n ≤ length cells)%nat then
    xs ← mapM id (take n cells);
    if forallb (fun c => match c with None => true | Some _ => false end) (drop n cells)
    then Some xs else None
  else None.

(** The abstract value of the vector at [this]: its elements in order and
    its capacity, provided the object respects the class invariant
    ([size_ <= capacity_], the buffer is a block of [capacity_] slots of
    which exactly the first [size_] are live, or null when there is no
    capacity) and its block is one the allocator can have granted. *)
Definition view (s : @state T W E) (this : nat) : option (list T * Z) :=
  v ← objs s !! this;
  let buf := buffer_ (data_ v) in
  let cap := capacity_ (data_ v) in
  if decide (0 ≤ size_ v ≤ cap ∧ cap * sizeof el ≤ PTRDIFF_MAX ∧ off buf = 0) then
    match blk buf with
    | None => if decide (cap = 0) then Some ([], cap) else None
    | Some b =>
        cells ← heap s !! b;
        if decide (length cells = Z.to_nat cap) then
          xs ← live_prefix cells (Z.to_nat (size_ v)); Some (xs, cap)
        else None
    end
  else None.

(** The same as a proposition. *)
Definition owns (s : @state T W E) (buf : ptr) (cells : list (slot T)) : Prop :=
  off buf = 0 ∧
  match blk buf with
  | None => cells = []
  | Some b => heap s !! b = Some cells
  end.

Definition holds (s : @state T W E) (this : nat) (xs : list T) (cap : Z) : Prop :=
  ∃ buf,
    objs s !! this
      = Some {| data_ := {| buffer_ := buf; capacity_ := cap |};
                size_ := Z.of_nat (length xs) |} ∧
    Z.of_nat (length xs) ≤ cap ∧
    cap * sizeof el ≤ PTRDIFF_MAX ∧
    owns s buf (cells_of xs cap).

(** The buffer pointer of the vector at [this] (null if there is none). *)
Definition buffer_at (s : @state T W E) (this : nat) : ptr :=
  buffer_ (data_ (default Vector_default (objs s !! this))).

(** *** Assumptions on the environment *)

(** An object occupies at least one byte and at most [PTRDIFF_MAX], and
    the allocator grants no block larger than [PTRDIFF_MAX] bytes. *)
Record Sane : Prop := {
  sizeof_pos : 0 < sizeof el;
  sizeof_max : sizeof el ≤ PTRDIFF_MAX;
  new_bound : ∀ bytes w, snd (sys_new al bytes w) = true → bytes ≤ PTRDIFF_MAX
}.

(** Copies and moves carry the value: the object constructed or assigned
    to is equal to what the source was. *)
Record Regular : Prop := {
  copy_ctor_value : ∀ x w y, snd (copy_ctor el x w) = Returns y → y = x;
  move_ctor_value : ∀ x w y, snd (snd (move_ctor el x w)) = Returns y → y = x;
  copy_assign_value : ∀ d x w, snd (snd (copy_assign el d x w)) = None →
                               fst (snd (copy_assign el d x w)) = x;
  move_assign_value : ∀ d x w, snd (snd (move_assign el d x w)) = None →
                               fst (fst (snd (move_assign el d x w))) = x
}.

(** Some operation of the environment raised [e]. *)
Inductive env_raises (e : E) : Prop :=
| raises_new bytes w :
    snd (sys_new al bytes w) = false → e = bad_alloc al → env_raises e
| raises_construct a w :
    snd (construct el a w) = Raises e → env_raises e
| raises_copy_ctor x w :
    snd (copy_ctor el x w) = Raises e → env_raises e
| raises_move_ctor x w :
    snd (snd (move_ctor el x w)) = Raises e → env_raises e
| raises_copy_assign d x w :
    snd (snd (copy_assign el d x w)) = Some e → env_raises e
| raises_move_assign d x w :
    snd (snd (move_assign el d x w)) = Some e → env_raises e.

(** [v] is a value that [T(args...)] can produce. *)
Definition init_value (args : init T A) (v : T) : Prop :=
  match args with
  | InitArgs a => ∃ w, snd (construct el a w) = Returns v
  | InitCopy value => ∃ w, snd (copy_ctor el value w) = Returns v
  | InitMove value => ∃ w, snd (snd (move_ctor el value w)) = Returns v
  end.

(** *** Fragments of the log *)

Definition init_event (dst : place) (args : init T A) : event E :=
  match args with
  | InitArgs _ => EvConstruct dst
  | InitCopy _ => EvCopyConstruct dst Caller
  | InitMove _ => EvMoveConstruct dst Caller
  end.

(** [n] operations [mk] from [src + i] to [dst + i], [i] counting up. *)
Fixpoint ev_forward (mk : place -> place -> event E) (dst src : ptr) (n : nat)
    : list (event E) :=
  match n with
  | O => []
  | S n' => mk (Slot dst) (Slot src) :: ev_forward mk (dst +ₚ 1) (src +ₚ 1) n'
  end.

(** [n] operations [mk] from [src - i] to [dst - i], [i] counting up from 1. *)
Fixpoint ev_backward (mk : place -> place -> event E) (dst src : ptr) (n : nat)
    : list (event E) :=
  match n with
  | O => []
  | S n' => mk (Slot (dst +ₚ (-1))) (Slot (src +ₚ (-1)))
              :: ev_backward mk (dst +ₚ (-1)) (src +ₚ (-1)) n'
  end.

(** [n] destructions from [first] upwards. *)
Fixpoint ev_destroy (first : ptr) (n : nat) : list (event E) :=
  match n with
  | O => []
  | S n' => EvDestroy (Slot first) :: ev_destroy (first +ₚ 1) n'
  end.

(** The event of transferring an element on reallocation. *)
Definition ev_transfer : place -> place -> event E :=
  if is_nothrow_move_constructible el || negb (is_copy_constructible el)
  then EvMoveConstruct else EvCopyConstruct.

(** The slots in which a log begins, respectively ends, the lifetime of an
    object. *)
Definition constructed (evs : list (event E)) : list ptr :=
  flat_map (fun ev => match ev with
                      | EvConstruct (Slot p)
                      | EvCopyConstruct (Slot p) _
                      | EvMoveConstruct (Slot p) _ => [p]
                      | _ => []
                      end) evs.

Definition destroyed (evs : list (event E)) : list ptr :=
  flat_map (fun ev => match ev with
                      | EvDestroy (Slot p) => [p]
                      | _ => []
                      end) evs.

End View.

(** ** Specification vocabulary *)

Section Predicates.

Context {T W E A : Type} (el : ElemType T W E A) (al : Allocator W E).

Abbreviation state := (@state T W E).
Abbreviation Mach := (M state E).

Implicit Types (s : state) (p q : ptr) (b : nat) (cells : list (slot T)).

(** [wp m s Q X]: from [s], [m] has defined behaviour; if it returns [r]
    in [s'] then [Q r s'], if it throws [e] in [s'] then [X e s']. *)
Definition wp {R} (m : Mach R) (s : state)
    (Q : R -> state -> Prop) (X : E -> state -> Prop) : Prop :=
  match m s with
  | Ok r s' => Q r s'
  | Throw e s' => X e s'
  | Undefined => False
  end.

(** The pointer to slot [k] of block [b]. *)
Definition at_ (b : nat) (k : nat) : ptr := Ptr (Some b) (Z.of_nat k).

(** [s'] has heap [h], the objects of [s], and the log of [s] extended by
    [evs]. *)
Definition after s (h : gmap nat (list (slot T))) (evs : list (event E)) s' : Prop :=
  heap s' = h ∧ objs s' = objs s ∧ log s' = log s ++ evs.

(** A step of a transfer from block [bs] to block [bd]: [Rok x y x'] when
    it constructs [y] from [x] and leaves [x'] behind, [Rfail x x'] when it
    raises and leaves [x'] behind. *)
Definition transfer_step (step : ptr -> ptr -> Mach unit)
    (mk : place -> place -> event E)
    (Rok : T -> T -> T -> Prop) (Rfail : T -> T -> Prop) : Prop :=
  ∀ s bd bs dcells scells k j x,
    bd ≠ bs →
    heap s !! bd = Some dcells → heap s !! bs = Some scells →
    dcells !! k = Some None → scells !! j = Some (Some x) →
    wp (step (at_ bd k) (at_ bs j)) s
      (fun _ s' => ∃ y x', Rok x y x' ∧
         after s (<[bd := <[k := Some y]> dcells]> (<[bs := <[j := Some x']> scells]> (heap s)))
           [mk (Slot (at_ bd k)) (Slot (at_ bs j))] s')
      (fun e s' => env_raises el al e ∧ ∃ x', Rfail x x' ∧
         after s (<[bs := <[j := Some x']> scells]> (heap s)) [EvRaise e] s').

Definition copies (x y x' : T) : Prop :=
  x' = x ∧ ∃ w, snd (copy_ctor el x w) = Returns y.

Definition moves (x y x' : T) : Prop :=
  ∃ w, snd (snd (move_ctor el x w)) = Returns y ∧ fst (snd (move_ctor el x w)) = x'.

(** Whether reallocation moves the elements. *)
Definition moving : bool :=
  is_nothrow_move_constructible el || negb (is_copy_constructible el).

(** [y] is a value that transferring [x] can produce. *)
Definition transferred (x y : T) : Prop :=
  if moving then ∃ w, snd (snd (move_ctor el x w)) = Returns y
  else ∃ w, snd (copy_ctor el x w) = Returns y.

(** The slots [p], [p + 1], ..., [p + n - 1]. *)
Fixpoint ptr_seq (p : ptr) (n : nat) : list ptr :=
  match n with
  | O => []
  | S n' => p :: ptr_seq (p +ₚ 1) n'
  end.

(** Constructions of an object in a slot from the object in another slot. *)
Definition is_transfer (ev : event E) : bool :=
  match ev with
  | EvCopyConstruct (Slot _) (Slot _) | EvMoveConstruct (Slot _) (Slot _) => true
  | _ => false
  end.

(** Every such construction in [evs] is of the kind [mk]. *)
Definition transfers_by (mk : place -> place -> event E) (evs : list (event E)) : Prop :=
  Forall (fun ev => is_transfer ev = true → ∃ dst src, ev = mk (Slot dst) (Slot src)) evs.

(** A failed reallocation: either the allocator refused, or a block [b] was
    obtained, an operation raised [e], every object constructed in the
    meantime, all of them in [b], was destroyed, and [b] was released. *)
Definition rolled_back (e : E) (evs : list (event E)) : Prop :=
  evs = [EvRaise e] ∨
  ∃ b bytes mid,
    evs = EvNew b bytes :: mid ++ [EvDelete b] ∧
    EvRaise e ∈ mid ∧
    Forall (fun p => blk p = Some b) (constructed mid) ∧
    constructed mid ≡ₚ destroyed mid.

(** The capacity [PlaceWithRealloc] asks for. *)
Definition grown (len : Z) : Z := if decide (len = 0) then 1 else 2 * len.

(** The heap once the block of [buf] is released, and the event of it. *)
Definition released (buf : ptr) (h : gmap nat (list (slot T))) : gmap nat (list (slot T)) :=
  match blk buf with Some bo => delete bo h | None => h end.

Definition ev_release (buf : ptr) : list (event E) :=
  match blk buf with Some bo => [EvDelete bo] | None => [] end.

(** The log of an insertion where there is room: at the end the element
    is constructed in place; before the end it is built in [temp], the last
    element is move-constructed one slot up, the others are move-assigned
    one slot up from the back, and [temp] is move-assigned into the gap. *)
Definition ev_emplace_inplace (bo : nat) (n1 n2 : nat) (args : init T A) : list (event E) :=
  match n2 with
  | O => [init_event (Slot (at_ bo n1)) args]
  | S k =>
      [init_event Temp args;
       EvMoveConstruct (Slot (at_ bo (S (n1 + k)))) (Slot (at_ bo (n1 + k)))]
      ++ ev_backward EvMoveAssign (at_ bo (S (n1 + k))) (at_ bo (n1 + k)) k
      ++ [EvMoveAssign (Slot (at_ bo n1)) Temp; EvDestroy Temp]
  end.

(** What copy assignment does to the elements when the capacity suffices:
    [n] is the size of the destination, [m] that of the source. *)
Definition ev_copy_assign (dst src : ptr) (n m : nat) : list (event E) :=
  if decide (n ≤ m)%nat then
    ev_forward EvCopyAssign dst src n
    ++ ev_forward EvCopyConstruct (dst +ₚ Z.of_nat n) (src +ₚ Z.of_nat n) (m - n)
  else
    ev_forward EvCopyAssign dst src m
    ++ ev_destroy (dst +ₚ Z.of_nat m) (n - m).

(** The state in which the vector at [this] is [v]. *)
Definition with_obj (this : nat) (v : Vector) (s : state) : state :=
  set_objs (<[this := v]> (objs s)) s.

(** The capacity after an element is added at size [len], capacity [cap]. *)
Definition cap_after_push (len cap : Z) : Z :=
  if decide (len + 1 ≤ cap) then cap else grown len.

(** The capacity of a vector that started empty, without capacity, and
    has had [n] elements pushed: the least power of two that is at least
    [n]. *)
Definition pow2cap (n : Z) : Z := if decide (n = 0) then 0 else 2 ^ Z.log2_up n.

(** A client that pushes the values of a list, one after the other. *)
Fixpoint push_all (this : nat) (vs : list T) : Mach unit :=
  match vs with
  | [] => mret tt
  | v :: vs' => PushBack el al this v ;; push_all this vs'
  end.

(** The same client, reading the capacity after each push. *)
Fixpoint push_caps (this : nat) (vs : list T) : Mach (list Z) :=
  match vs with
  | [] => mret []
  | v :: vs' =>
      PushBack el al this v ;;
      c ← Capacity this;
      cs ← push_caps this vs';
      mret (c :: cs)
  end.

End Predicates.

(** ** A concrete element type *)

Module Demo.

Inductive exn := BadAlloc | CopyFailed.

(** Integers of four bytes in a world that counts the copies made; the
    copy constructor raises when the count reaches [limit].  A moved-from
    object is left holding 0. *)
Definition elem (nothrow_move copyable : bool) (limit : nat) : ElemType Z nat exn Z := {|
  sizeof := 4;
  is_nothrow_move_constructible := nothrow_move;
  is_copy_constructible := copyable;
  construct := fun a w => (w, Returns a);
  copy_ctor := fun x w =>
    (S w, if decide (S w = limit) then Raises CopyFailed else Returns x);
  move_ctor := fun x w => (w, (0, Returns x));
  copy_assign := fun d x w => (w, (x, None));
  move_assign := fun d x w => (w, (x, 0, None));
  dtor := fun x w => w
|}.

(** An allocator that grants every request of at most [PTRDIFF_MAX]
    bytes. *)
Definition alloc : Allocator nat exn := {|
  sys_new := fun bytes w => (w, bool_decide (bytes ≤ PTRDIFF_MAX));
  bad_alloc := BadAlloc
|}.

(** Copyable, with a move that may throw; the second copy fails. *)
Definition copying : ElemType Z nat exn Z := elem false true 2.

(** Nothrow-movable; no copy ever fails. *)
Definition plain : ElemType Z nat exn Z := elem true true 0.

Definition vec (b : nat) (cap size : Z) : Vector :=
  {| data_ := {| buffer_ := Ptr (Some b) 0; capacity_ := cap |}; size_ := size |}.

(** One default-constructed vector, at location 0. *)
Definition empty : @state Z nat exn :=
  {| world := 0%nat; heap := ∅; objs := {[ 0%nat := Vector_default ]}; log := [] |}.

(** The vector [10; 20] with capacity 2, at location 0. *)
Definition full : @state Z nat exn :=
  {| world := 0%nat;
     heap := {[ 1%nat := [Some 10; Some 20] ]};
     objs := {[ 0%nat := vec 1 2 2 ]};
     log := [] |}.

(** The vector [10; 20] with capacity 4 at location 0 and the vector
    [7; 8; 9] with capacity 3 at location 1. *)
Definition roomy : @state Z nat exn :=
  {| world := 0%nat;
     heap := {[ 1%nat := [Some 10; Some 20; None; None];
                2%nat := [Some 7; Some 8; Some 9] ]};
     objs := {[ 0%nat := vec 1 4 2; 1%nat := vec 2 3 3 ]};
     log := [] |}.

End Demo.

(** ** The rest of the two classes *)

Section Remainder.

Context {T W E A : Type} (el : ElemType T W E A) (al : Allocator W E).

Abbreviation state := (@state T W E).
Abbreviation Mach := (M state E).

(** [assert(c)]: a failed assertion ends the program, and where assertions
    are compiled out the access it guards is out of contract.  The model
    follows neither: both are [undefined]. *)
Definition assert_ (c : Prop) `{Decision c} : Mach unit :=
  if decide c then mret tt else undefined.

(** [T& RawMemory::operator[](size_t index) noexcept]: the address of the
    object referred to. *)
Definition RawMemory_index (m : RawMemory) (index : Z) : Mach ptr :=
  assert_ (index < capacity_ m) ;; mret (buffer_ m +ₚ index).

(** [T& Vector::operator[](size_t index) noexcept]; the overload for const
    objects calls this one. *)
Definition Vector_index (this : nat) (index : Z) : Mach ptr :=
  v ← obj this;
  assert_ (index < size_ v) ;;
  RawMemory_index (data_ v) index.

(** Running a function written over references that has a local object
    of its own, returned as it is at the end of its scope. *)
Definition with_scope {L} (f : state -> state * L) : Mach L :=
  fun s => Ok (snd (f s)) (fst (f s)).

(** [void Swap(Vector& other) noexcept], [other] an object of the store
    (possibly [this] itself). *)
Definition Swap_objs (this other : nat) : Mach unit :=
  _ ← obj this;
  _ ← obj other;
  tmp ← with_scope (std_swap_RawMemory (data_of (vector_at this)) (data_of (vector_at other)));
  RawMemory_dtor tmp ;;
  on_store (std_swap (size_of (vector_at this)) (size_of (vector_at other))).

(** The loop of [std::uninitialized_value_construct_n]: [T()] in each
    slot from [cur] on; where it stops is returned along with the result.
    [noargs] is the empty pack of constructor arguments. *)
Fixpoint value_construct_loop (noargs : A) (cur : ptr) (n : nat) (s : state)
    : ptr * result state E unit :=
  match n with
  | O => (cur, Ok tt s)
  | S n' =>
      match construct_at el cur (InitArgs noargs) s with
      | Ok _ s' => value_construct_loop noargs (cur +ₚ 1) n' s'
      | r => (cur, r)
      end
  end.

(** [std::uninitialized_value_construct_n(first, n)]: on an exception the
    objects constructed so far are destroyed and the exception is thrown
    again. *)
Definition uninitialized_value_construct_n (noargs : A) (first : ptr) (n : Z) : Mach unit :=
  fun s =>
    match value_construct_loop noargs first (Z.to_nat n) s with
    | (cur, Throw e s') => (destroy_range el first cur ;; throw e) s'
    | (_, r) => r
    end.

(** [explicit Vector(size_t size)]: the object constructed.  When the body
    throws, the member [data_], already constructed, is destroyed. *)
Definition Vector_size_ctor (noargs : A) (size : Z) : Mach Vector :=
  data ← RawMemory_ctor el al size;
  unwinding (RawMemory_dtor data)
    (uninitialized_value_construct_n noargs (GetAddress data) size) ;;
  mret {| data_ := data; size_ := size |}.

(** [void Resize(size_t new_size)] *)
Definition Resize (noargs : A) (this : nat) (new_size : Z) : Mach unit :=
  size ← Size this;
  (if decide (new_size > size) then
     Reserve el al this new_size ;;
     last ← end_ this;
     size ← Size this;
     uninitialized_value_construct_n noargs last (wrap (new_size - size))
   else if decide (new_size < size) then
     first ← begin_ this;
     size ← Size this;
     destroy_n el (first +ₚ new_size) (wrap (size - new_size))
   else mret tt) ;;
  write_size_ this new_size.

(** *** Fragments of the log, continued *)

(** [n] constructions [T(args...)] from [first] upwards. *)
Fixpoint ev_construct (first : ptr) (n : nat) : list (event E) :=
  match n with
  | O => []
  | S n' => EvConstruct (Slot first) :: ev_construct (first +ₚ 1) n'
  end.

(** The events of pushing [n] values where there is room, the first of
    them at [first]. *)
Fixpoint ev_push (first : ptr) (n : nat) : list (event E) :=
  match n with
  | O => []
  | S n' => EvCopyConstruct (Slot first) Caller :: ev_push (first +ₚ 1) n'
  end.

(** A log without copy construction and copy assignment. *)
Definition copies_nothing (evs : list (event E)) : bool :=
  forallb (fun ev => match ev with
                     | EvCopyConstruct _ _ | EvCopyAssign _ _ => false
                     | _ => true
                     end) evs.

End Remainder.

(** ** More concrete states *)

Module Demo2.

(** The vector [5] with capacity 1 at location 0 and the vector
    [7; 8; 9] with capacity 3 at location 1. *)
Definition tight : @state Z nat Demo.exn :=
  {| world := 0%nat;
     heap := {[ 1%nat := [Some 5]; 2%nat := [Some 7; Some 8; Some 9] ]};
     objs := {[ 0%nat := Demo.vec 1 1 1; 1%nat := Demo.vec 2 3 3 ]};
     log := [] |}.

End Demo2.

(** ** The environment's part in a call *)

(** What the calls that an operation makes into the allocator and the
    element type amount to, as a function of the world in which the
    operation starts: the world after the last of them, or the exception of
    the first that raises.  These functions know nothing of buffers; they
    follow the order in which the operation is specified to use the element
    type, and say when it returns and when it fails. *)

#[global] Instance outcome_ret {E : Type} : MRet (outcome E) := fun _ a => Returns a.
#[global] Instance outcome_bind {E : Type} : MBind (outcome E) :=
  fun _ _ k r => match r with Returns a => k a | Raises e => Raises e end.

Section Runs.

Context {T W E A : Type} (el : ElemType T W E A) (al : Allocator W E).

Abbreviation state := (@state T W E).
Abbreviation Mach := (M state E).

(** A request of [bytes] bytes. *)
Definition try_new (bytes : Z) (w : W) : outcome E W :=
  if snd (sys_new al bytes w) then Returns (fst (sys_new al bytes w))
  else Raises (bad_alloc al).

(** The construction [T(args...)]: the world afterwards and the object. *)
Definition try_init (args : init T A) (w : W) : outcome E (W * T) :=
  match args with
  | InitArgs a =>
      match snd (construct el a w) with
      | Returns v => Returns (fst (construct el a w), v)
      | Raises e => Raises e
      end
  | InitCopy value =>
      match snd (copy_ctor el value w) with
      | Returns v => Returns (fst (copy_ctor el value w), v)
      | Raises e => Raises e
      end
  | InitMove value =>
      match snd (snd (move_ctor el value w)) with
      | Returns v => Returns (fst (move_ctor el value w), v)
      | Raises e => Raises e
      end
  end.

(** A copy construction from [x], in the shape of a move construction:
    the source is left as it was. *)
Definition copy_of (x : T) (w : W) : W * (T * outcome E T) :=
  (fst (copy_ctor el x w), (x, snd (copy_ctor el x w))).

(** The construction that transfers [x] on reallocation. *)
Definition transfer (x : T) (w : W) : W * (T * outcome E T) :=
  if moving el then move_ctor el x w else copy_of x w.

(** One construction [f] from each of [xs], first to last: the world
    afterwards and the sources as they are left. *)
Fixpoint try_each (f : T -> W -> W * (T * outcome E T)) (xs : list T) (w : W)
    : outcome E (W * list T) :=
  match xs with
  | [] => Returns (w, [])
  | x :: xs' =>
      match snd (snd (f x w)) with
      | Returns _ =>
          r ← try_each f xs' (fst (f x w));
          mret (fst r, fst (snd (f x w)) :: snd r)
      | Raises e => Raises e
      end
  end.

(** The copy constructions from [xs], first to last. *)
Fixpoint try_copy (xs : list T) (w : W) : outcome E W :=
  match xs with
  | [] => Returns w
  | x :: xs' =>
      match snd (copy_ctor el x w) with
      | Returns _ => try_copy xs' (fst (copy_ctor el x w))
      | Raises e => Raises e
      end
  end.

(** [n] constructions [T(a)]. *)
Fixpoint try_construct (a : A) (n : nat) (w : W) : outcome E W :=
  match n with
  | O => Returns w
  | S n' =>
      match snd (construct el a w) with
      | Returns _ => try_construct a n' (fst (construct el a w))
      | Raises e => Raises e
      end
  end.

(** The destructions of [xs], first to last. *)
Definition destroy_all (xs : list T) (w : W) : W :=
  foldl (fun w x => dtor el x w) w xs.

(** The copy assignments of [xs] onto [ds], pairwise from the first, as
    far as both go. *)
Fixpoint try_assign (ds xs : list T) (w : W) : outcome E W :=
  match ds, xs with
  | d :: ds', x :: xs' =>
      match snd (snd (copy_assign el d x w)) with
      | None => try_assign ds' xs' (fst (copy_assign el d x w))
      | Some e => Raises e
      end
  | _, _ => Returns w
  end.

(** The move assignments that shift elements one slot up, the last
    element first: [back] lists the elements from the last to the first,
    [hole] is what the slot above the last holds.  The result is the world
    and what the slot of the first element is left holding. *)
Fixpoint try_shift (back : list T) (hole : T) (w : W) : outcome E (W * T) :=
  match back with
  | [] => Returns (w, hole)
  | x :: back' =>
      match snd (snd (move_assign el hole x w)) with
      | None =>
          try_shift back' (snd (fst (snd (move_assign el hole x w))))
            (fst (move_assign el hole x w))
      | Some e => Raises e
      end
  end.

(** A reallocation to [n] slots that builds a new element from [args] and
    takes over the elements [xs]: allocation, the new element, the
    transfer of the old ones in order, their destruction. *)
Definition realloc_run (n : Z) (args : init T A) (xs : list T) (w : W) : outcome E W :=
  w1 ← try_new (n * sizeof el) w;
  r ← try_init args w1;
  r' ← try_each transfer xs (fst r);
  mret (destroy_all (snd r') (fst r')).

(** [Reserve(n)] on a vector that holds [xs] with capacity [cap]. *)
Definition reserve_run (n : Z) (xs : list T) (cap : Z) (w : W) : outcome E W :=
  if decide (n ≤ cap) then Returns w
  else
    w1 ← try_new (n * sizeof el) w;
    r' ← try_each transfer xs w1;
    mret (destroy_all (snd r') (fst r')).

(** [EmplaceBack(args...)] on a vector that holds [xs] with capacity
    [cap]: the construction alone where there is room, a reallocation to
    [grown] otherwise. *)
Definition emplace_back_run (args : init T A) (xs : list T) (cap : Z) (w : W)
    : outcome E W :=
  if decide (Z.of_nat (length xs) + 1 ≤ cap) then r ← try_init args w; mret (fst r)
  else realloc_run (grown (Z.of_nat (length xs))) args xs w.

(** [Emplace(pos, args...)] where there is room, before the elements
    [xs2]: at the end the construction alone; otherwise the construction of
    [temp], the move construction of the last element one slot up, the
    shift of the others, the move assignment of [temp] into the gap and
    the destruction of [temp]. *)
Definition insert_run (args : init T A) (xs2 : list T) (w : W) : outcome E W :=
  match reverse xs2 with
  | [] => r ← try_init args w; mret (fst r)
  | l :: back =>
      r ← try_init args w;
      match snd (snd (move_ctor el l (fst r))) with
      | Raises e => Raises e
      | Returns _ =>
          h ← try_shift back (fst (snd (move_ctor el l (fst r))))
                (fst (move_ctor el l (fst r)));
          match snd (snd (move_assign el (snd h) (snd r) (fst h))) with
          | None =>
              Returns (dtor el (snd (fst (snd (move_assign el (snd h) (snd r) (fst h)))))
                         (fst (move_assign el (snd h) (snd r) (fst h))))
          | Some e => Raises e
          end
      end
  end.

(** [Emplace(pos, args...)] before the elements [xs2] of a vector that
    holds [xs1 ++ xs2] with capacity [cap]. *)
Definition emplace_run (args : init T A) (xs1 xs2 : list T) (cap : Z) (w : W)
    : outcome E W :=
  if decide (Z.of_nat (length (xs1 ++ xs2)) < cap) then insert_run args xs2 w
  else realloc_run (grown (Z.of_nat (length (xs1 ++ xs2)))) args (xs1 ++ xs2) w.

(** Copy assignment of a vector that holds [ys] to one that holds [xs]
    and has the capacity for it: the assignments onto the elements both
    have, then the copy constructions of the further elements of [ys], or
    the destruction of the further elements of [xs]. *)
Definition copy_assign_run (xs ys : list T) (w : W) : outcome E W :=
  w1 ← try_assign xs ys w;
  if decide (length xs ≤ length ys)%nat then try_copy (drop (length xs) ys) w1
  else Returns (destroy_all (drop (length ys) xs) w1).

(** The pushes of the values [vs], one after the other, onto a vector
    that holds [xs] with capacity [cap]. *)
Fixpoint push_run (vs : list T) (xs : list T) (cap : Z) (w : W) : outcome E W :=
  match vs with
  | [] => Returns w
  | v :: vs' =>
      w1 ← emplace_back_run (InitCopy v) xs cap w;
      push_run vs' (xs ++ [v]) (cap_after_push (Z.of_nat (length xs)) cap) w1
  end.

(** The capacities after each of [n] pushes onto a vector of size [len]
    and capacity [cap]. *)
Fixpoint caps_after (n : nat) (len cap : Z) : list Z :=
  match n with
  | O => []
  | S n' =>
      cap_after_push len cap :: caps_after n' (len + 1) (cap_after_push len cap)
  end.

(** The copy constructor from a vector that holds [ys]: nothing for an
    empty one. *)
Definition copy_ctor_run (ys : list T) (w : W) : outcome E W :=
  match ys with
  | [] => Returns w
  | _ => w1 ← try_new (Z.of_nat (length ys) * sizeof el) w; try_copy ys w1
  end.

(** Copy assignment from a vector that holds more than the capacity:
    the copy, then the destruction of the elements [xs] held before. *)
Definition copy_assign_realloc_run (xs ys : list T) (w : W) : outcome E W :=
  w1 ← copy_ctor_run ys w; mret (destroy_all xs w1).

(** [Vector(size)], [a] the empty pack of arguments. *)
Definition size_ctor_run (a : A) (size : Z) (w : W) : outcome E W :=
  if decide (size = 0) then Returns w
  else w1 ← try_new (size * sizeof el) w; try_construct a (Z.to_nat size) w1.

(** [Resize(n)] on a vector that holds [xs] with capacity [cap]. *)
Definition resize_run (a : A) (n : nat) (xs : list T) (cap : Z) (w : W) : outcome E W :=
  if decide (length xs < n)%nat then
    w1 ← reserve_run (Z.of_nat n) xs cap w;
    try_construct a (n - length xs) w1
  else Returns (destroy_all (drop n xs) w).

(** *** Partial correctness *)

(** [wpp m s Q X]: as [wp m s Q X], except that nothing is asked where
    [m] has undefined behaviour from [s].  It serves to follow the world
    through a call whose defined behaviour is known from elsewhere. *)
Definition wpp {R} (m : Mach R) (s : state)
    (Q : R -> state -> Prop) (X : E -> state -> Prop) : Prop :=
  match m s with
  | Ok r s' => Q r s'
  | Throw e s' => X e s'
  | Undefined => True
  end.

(** [s'] has the vectors of [s] and its heap but for the block of [p]. *)
Definition changed_at (p : ptr) (s s' : state) : Prop :=
  objs s' = objs s ∧ ∀ i, blk p ≠ Some i → heap s' !! i = heap s !! i.

(** [s'] has the vector objects of [s], and its heap has the blocks of
    the heap of [s]: from [s] to [s'] no vector object was written, and no
    block was allocated or released. *)
Definition kept (s s' : state) : Prop :=
  objs s' = objs s ∧ dom (heap s') = dom (heap s).

(** What a step of a transfer between two blocks does to the world and
    to the block it reads from, when [f] is the construction it makes. *)
Definition transfer_effect (step : ptr -> ptr -> Mach unit)
    (f : T -> W -> W * (T * outcome E T)) : Prop :=
  ∀ s bd bs scells k j x,
    bd ≠ bs →
    heap s !! bs = Some scells → scells !! j = Some (Some x) →
    wpp (step (at_ bd k) (at_ bs j)) s
      (fun _ s' =>
         (∃ y, snd (snd (f x (world s))) = Returns y) ∧
         world s' = fst (f x (world s)) ∧ objs s' = objs s ∧
         heap s' !! bs = Some (<[j := Some (fst (snd (f x (world s))))]> scells) ∧
         ∀ i, i ≠ bd → i ≠ bs → heap s' !! i = heap s !! i)
      (fun e _ => snd (snd (f x (world s))) = Raises e).

End Runs.

(** * Proofs *)

Section Logic.

Context {T W E A : Type} (el : ElemType T W E A) (al : Allocator W E).

Abbreviation state := (@state T W E).
Abbreviation Mach := (M state E).

Implicit Types (s : state) (p q : ptr) (b : nat) (cells : list (slot T)).

(** ** A program logic for the machine *)

Lemma wp_ret {R} (r : R) s Q X : Q r s → wp (mret r) s Q X.
Proof. done. Qed.

Lemma wp_bind {R R'} (m : Mach R) (k : R -> Mach R') s Q X :
  wp m s (fun r s' => wp (k r) s' Q X) X → wp (m ≫= k) s Q X.
Proof.
  unfold wp, mbind, M_bind, bind. by destruct (m s).
Qed.

Lemma wp_mono {R} (m : Mach R) s (Q Q' : R -> state -> Prop) (X X' : E -> state -> Prop) :
  wp m s Q X →
  (∀ r s', Q r s' → Q' r s') →
  (∀ e s', X e s' → X' e s') →
  wp m s Q' X'.
Proof.
  unfold wp. destruct (m s); auto.
Qed.

Lemma wp_catch {R} (m : Mach R) (h : Mach unit) s Q X :
  wp m s Q (fun e s' => wp h s' (fun _ s'' => X e s'') X) →
  wp (catch_rethrow m h) s Q X.
Proof.
  unfold wp, catch_rethrow. destruct (m s) as [r s'|e s'|]; auto.
  by destruct (h s').
Qed.

Lemma wp_eq {R} (m : Mach R) s r Q X : m s = r → 
  match r with Ok r s' => Q r s' | Throw e s' => X e s' | Undefined => False end →
  wp m s Q X.
Proof. unfold wp. by intros ->. Qed.

(** ** Pointers and slots *)

Lemma at_succ b k : at_ b k +ₚ 1 = at_ b (S k).
Proof. unfold at_, ptr_add. simpl. f_equal. lia. Qed.

Lemma at_pred b k : at_ b (S k) +ₚ (-1) = at_ b k.
Proof. unfold at_, ptr_add. simpl. f_equal. lia. Qed.

Lemma at_add b k (n : Z) : 0 ≤ n → at_ b k +ₚ n = at_ b (k + Z.to_nat n).
Proof. intros. unfold at_, ptr_add. simpl. f_equal. lia. Qed.

Lemma at_zero b : Ptr (Some b) 0 = at_ b 0.
Proof. done. Qed.

Lemma cell_at s b k cells :
  heap s !! b = Some cells → cell s (at_ b k) = cells !! k.
Proof.
  intros H. unfold cell, at_. simpl. rewrite H.
  rewrite decide_True by lia. by rewrite Nat2Z.id.
Qed.

Lemma set_cell_at s b k c cells :
  heap s !! b = Some cells →
  set_cell (at_ b k) c s = set_heap (<[b := <[k := c]> cells]> (heap s)) s.
Proof.
  intros H. unfold set_cell, at_. simpl. rewrite H. by rewrite Nat2Z.id.
Qed.

Lemma cell_negative s p : off p < 0 → cell s p = None.
Proof.
  intros H. unfold cell. destruct (blk p); [|done].
  destruct (heap s !! n); [|done]. by rewrite decide_False by lia.
Qed.

Lemma cell_null s p : blk p = None → cell s p = None.
Proof. intros H. unfold cell. by rewrite H. Qed.

(** ** The primitives *)

Lemma wp_load p s v Q X :
  cell s p = Some (Some v) → Q v s → wp (load p) s Q X.
Proof. intros H HQ. unfold wp, load. by rewrite H. Qed.

Lemma wp_store p s v0 v (Q : unit -> state -> Prop) X :
  cell s p = Some (Some v0) → Q tt (set_cell p (Some v) s) → wp (store p v) s Q X.
Proof. intros H HQ. unfold wp, store. by rewrite H. Qed.

Lemma wp_modify f s (Q : unit -> state -> Prop) X :
  Q tt (f s) → wp (modify f) s Q X.
Proof. done. Qed.

Lemma wp_get_state s (Q : state -> state -> Prop) X :
  Q s s → wp get_state s Q X.
Proof. done. Qed.

Lemma wp_emit ev s (Q : unit -> state -> Prop) X :
  Q tt (add_log ev s) → wp (emit ev) s Q X.
Proof. done. Qed.

Lemma wp_throw {R} e s (Q : R -> state -> Prop) X :
  X e s → wp (throw e) s Q X.
Proof. done. Qed.

Lemma wp_raise {R} e s (Q : R -> state -> Prop) X :
  X e (add_log (EvRaise e) s) → wp (raise e) s Q X.
Proof. done. Qed.

Lemma wp_in_world {R} (f : W -> W * R) s (Q : R -> state -> Prop) X :
  Q (snd (f (world s))) (set_world (fst (f (world s))) s) → wp (in_world f) s Q X.
Proof. done. Qed.

Lemma wp_occupy p v s (Q : unit -> state -> Prop) X :
  cell s p = Some None → Q tt (set_cell p (Some v) s) → wp (occupy p v) s Q X.
Proof. intros H HQ. unfold wp, occupy, raw, mbind, M_bind, bind. by rewrite H. Qed.

Lemma wp_vacate p v s (Q : unit -> state -> Prop) X :
  cell s p = Some (Some v) → Q tt (set_cell p None s) → wp (vacate p) s Q X.
Proof. intros H HQ. unfold wp, vacate, load, mbind, M_bind, bind. by rewrite H. Qed.

Lemma wp_raw p s (Q : unit -> state -> Prop) X :
  cell s p = Some None → Q tt s → wp (raw p) s Q X.
Proof. intros H HQ. unfold wp, raw. by rewrite H. Qed.

Lemma wp_obj this v s (Q : Vector -> state -> Prop) X :
  objs s !! this = Some v → Q v s → wp (obj this) s Q X.
Proof. intros H HQ. unfold wp, obj. by rewrite H. Qed.

(** ** The element operations on slots of known blocks *)

Lemma wp_destroy_at b k cells x s :
  heap s !! b = Some cells → cells !! k = Some (Some x) →
  wp (destroy_at el (at_ b k)) s
    (fun _ => after s (<[b := <[k := None]> cells]> (heap s)) [EvDestroy (Slot (at_ b k))])
    (fun _ _ => False).
Proof.
  intros Hb Hk. unfold destroy_at.
  apply wp_bind, (wp_load _ _ x); [by erewrite cell_at by exact Hb|].
  apply wp_bind, wp_in_world. simpl.
  apply wp_bind, (wp_vacate _ x); [by erewrite cell_at by exact Hb|].
  apply wp_emit. erewrite set_cell_at by exact Hb.
  done.
Qed.

Ltac cell_known H := erewrite cell_at by exact H.

Lemma wp_finish {R} ev (r : outcome E R) s (Q : R -> state -> Prop) X :
  match r with
  | Returns v => Q v (add_log ev s)
  | Raises e => X e (add_log (EvRaise e) s)
  end →
  wp (finish ev r) s Q X.
Proof. by destruct r. Qed.

Lemma wp_finish_assign ev (r : option E) s (Q : unit -> state -> Prop) X :
  match r with
  | None => Q tt (add_log ev s)
  | Some e => X e (add_log (EvRaise e) s)
  end →
  wp (finish_assign ev r) s Q X.
Proof. by destruct r. Qed.

Lemma wp_initialise dst args s :
  wp (initialise el dst args) s
    (fun v s' => init_value el args v ∧ after s (heap s) [init_event dst args] s')
    (fun e s' => env_raises el al e ∧ after s (heap s) [EvRaise e] s').
Proof.
  destruct args as [a|x|x]; simpl; apply wp_bind, wp_in_world, wp_finish.
  - destruct (snd (construct el a (world s))) eqn:Hr; (split; [|done]).
    + by exists (world s).
    + by eapply raises_construct.
  - destruct (snd (copy_ctor el x (world s))) eqn:Hr; (split; [|done]).
    + by exists (world s).
    + by eapply raises_copy_ctor.
  - destruct (snd (snd (move_ctor el x (world s)))) eqn:Hr; (split; [|done]).
    + by exists (world s).
    + by eapply raises_move_ctor.
Qed.

Lemma wp_construct_at b k cells args s :
  heap s !! b = Some cells → cells !! k = Some None →
  wp (construct_at el (at_ b k) args) s
    (fun _ s' => ∃ v, init_value el args v ∧
       after s (<[b := <[k := Some v]> cells]> (heap s)) [init_event (Slot (at_ b k)) args] s')
    (fun e s' => env_raises el al e ∧ after s (heap s) [EvRaise e] s').
Proof.
  intros Hb Hk. unfold construct_at.
  apply wp_bind, wp_raw; [by cell_known Hb|].
  apply wp_bind. eapply wp_mono; [apply wp_initialise| |done].
  intros v s' (Hv & Hh & Ho & Hl). simpl.
  rewrite <- Hh in Hb.
  apply wp_occupy; [by cell_known Hb|].
  exists v. split; [done|]. erewrite set_cell_at by exact Hb.
  split; [|done]. simpl. by rewrite Hh.
Qed.

Lemma copy_construct_at_step :
  transfer_step el al (copy_construct_at el) EvCopyConstruct (copies el) (fun x x' => x' = x).
Proof.
  intros s bd bs dcells scells k j x Hne Hd Hs Hk Hj. unfold copy_construct_at.
  apply wp_bind, (wp_load _ _ x); [by cell_known Hs|].
  apply wp_bind, wp_raw; [by cell_known Hd|].
  apply wp_bind, wp_in_world, wp_bind, wp_finish.
  assert (<[bs := <[j := Some x]> scells]> (heap s) = heap s) as Hid.
  { rewrite list_insert_id by done. by apply insert_id. }
  destruct (snd (copy_ctor el x (world s))) as [y|e] eqn:Hr.
  - apply wp_occupy; [by cell_known Hd|].
    exists y, x. split; [split; [done|by exists (world s)]|].
    erewrite set_cell_at by exact Hd. rewrite Hid. done.
  - split; [by eapply raises_copy_ctor|]. exists x. by rewrite Hid.
Qed.

Lemma move_construct_at_step :
  transfer_step el al (move_construct_at el) EvMoveConstruct (moves el) (fun _ _ => True).
Proof.
  intros s bd bs dcells scells k j x Hne Hd Hs Hk Hj. unfold move_construct_at.
  apply wp_bind, (wp_load _ _ x); [by cell_known Hs|].
  apply wp_bind, wp_raw; [by cell_known Hd|].
  apply wp_bind, wp_in_world.
  apply wp_bind, (wp_store _ _ x); [by cell_known Hs|].
  erewrite set_cell_at by exact Hs. simpl.
  set (x' := fst (snd (move_ctor el x (world s)))).
  assert ((<[bs := <[j := Some x']> scells]> (heap s)) !! bd = Some dcells) as Hd'.
  { by rewrite lookup_insert_ne. }
  apply wp_bind, wp_finish.
  destruct (snd (snd (move_ctor el x (world s)))) as [y|e] eqn:Hr.
  - apply wp_occupy; [by cell_known Hd'|].
    exists y, x'. split; [by exists (world s)|].
    erewrite set_cell_at by exact Hd'. done.
  - split; [by eapply raises_move_ctor|]. by exists x'.
Qed.

(** ** Lists of slots *)

Lemma insert_middle {C} (pre post : list C) c c' :
  <[length pre := c']> (pre ++ c :: post) = pre ++ c' :: post.
Proof.
  replace (length pre) with (length pre + 0)%nat by lia.
  by rewrite insert_app_r.
Qed.

Lemma lookup_middle {C} (pre post : list C) c :
  (pre ++ c :: post) !! length pre = Some c.
Proof. by apply list_lookup_middle. Qed.

(** ** Composition of state changes *)

Lemma after_refl s : after s (heap s) [] s.
Proof. unfold after. by rewrite app_nil_r. Qed.

Lemma after_same s s1 s' b C1 C2 ev1 ev2 :
  after s (<[b := C1]> (heap s)) ev1 s1 →
  after s1 (<[b := C2]> (heap s1)) ev2 s' →
  after s (<[b := C2]> (heap s)) (ev1 ++ ev2) s'.
Proof.
  intros (Hh1 & Ho1 & Hl1) (Hh2 & Ho2 & Hl2). unfold after.
  rewrite Hh2, Hh1, insert_insert_eq, Ho2, Ho1, Hl2, Hl1, app_assoc. done.
Qed.

Lemma after_two s s1 s' bd bs D1 D2 S1 S2 ev1 ev2 :
  bd ≠ bs →
  after s (<[bd := D1]> (<[bs := S1]> (heap s))) ev1 s1 →
  after s1 (<[bd := D2]> (<[bs := S2]> (heap s1))) ev2 s' →
  after s (<[bd := D2]> (<[bs := S2]> (heap s))) (ev1 ++ ev2) s'.
Proof.
  intros Hne (Hh1 & Ho1 & Hl1) (Hh2 & Ho2 & Hl2). unfold after.
  rewrite Hh2, Hh1, Ho2, Ho1, Hl2, Hl1, app_assoc. split; [|done].
  apply map_eq. intros i.
  destruct (decide (i = bd)) as [->|]; [by rewrite !lookup_insert_eq|].
  rewrite !(lookup_insert_ne _ bd) by done.
  destruct (decide (i = bs)) as [->|]; [by rewrite !lookup_insert_eq|].
  by repeat (rewrite lookup_insert_ne by done).
Qed.

(** ** The loops *)

Lemma wp_destroy_loop b post xs : ∀ pre s,
  heap s !! b = Some (pre ++ (Some <$> xs) ++ post) →
  wp (destroy_loop el (at_ b (length pre)) (length xs)) s
    (fun _ => after s (<[b := pre ++ replicate (length xs) None ++ post]> (heap s))
                (ev_destroy (at_ b (length pre)) (length xs)))
    (fun _ _ => False).
Proof.
  induction xs as [|x xs IH]; intros pre s Hb; simpl.
  - apply wp_ret. rewrite insert_id by done. apply after_refl.
  - apply wp_bind.
    eapply wp_mono; [eapply (wp_destroy_at _ _ _ x); [exact Hb|apply lookup_middle]| |done].
    intros [] s1 H1. simpl in H1. rewrite insert_middle in H1.
    rewrite at_succ.
    replace (S (length pre)) with (length (pre ++ [None : slot T])) by (rewrite length_app; simpl; lia).
    eapply wp_mono; [eapply (IH (pre ++ [None]))| |done].
    + pose proof H1 as (Hh & _ & _). rewrite Hh, lookup_insert_eq.
      by rewrite <- app_assoc.
    + intros [] s' H2. simpl.
      rewrite <- app_assoc in H2. simpl in H2.
      apply (after_same _ _ _ _ _ _ _ _ H1 H2).
Qed.

Section Transfer.

Context (step : ptr -> ptr -> Mach unit) (mk : place -> place -> event E)
        (Rok : T -> T -> T -> Prop) (Rfail : T -> T -> Prop)
        (Hstep : transfer_step el al step mk Rok Rfail)
        (bd bs : nat) (Hne : bd ≠ bs) (dpost spost : list (slot T)).

Lemma uninitialized_loop_spec xs : ∀ dpre spre s,
  heap s !! bd = Some (dpre ++ replicate (length xs) None ++ dpost) →
  heap s !! bs = Some (spre ++ (Some <$> xs) ++ spost) →
  match uninitialized_loop step (at_ bs (length spre)) (length xs)
          (at_ bd (length dpre)) s with
  | (_, Ok _ s') =>
      ∃ ys xs', Forall3 Rok xs ys xs' ∧
        after s (<[bd := dpre ++ (Some <$> ys) ++ dpost]>
                   (<[bs := spre ++ (Some <$> xs') ++ spost]> (heap s)))
          (ev_forward mk (at_ bd (length dpre)) (at_ bs (length spre)) (length xs)) s'
  | (cur, Throw e s') =>
      env_raises el al e ∧
      ∃ xs1 x xs2 ys xs1' x',
        xs = xs1 ++ x :: xs2 ∧ Forall3 Rok xs1 ys xs1' ∧ Rfail x x' ∧
        cur = at_ bd (length dpre + length xs1) ∧
        after s (<[bd := dpre ++ (Some <$> ys) ++ replicate (S (length xs2)) None ++ dpost]>
                   (<[bs := spre ++ (Some <$> (xs1' ++ x' :: xs2)) ++ spost]> (heap s)))
          (ev_forward mk (at_ bd (length dpre)) (at_ bs (length spre)) (length xs1)
             ++ [EvRaise e]) s'
  | (_, Undefined) => False
  end.
Proof.
  induction xs as [|x xs IH]; intros dpre spre s Hd Hs; simpl in Hd, Hs; simpl.
  - exists [], []. split; [constructor|]. simpl.
    rewrite (insert_id _ bs) by done. rewrite insert_id by done. apply after_refl.
  -
    pose proof (Hstep s bd bs _ _ (length dpre) (length spre) x Hne Hd Hs
                  (lookup_middle _ _ _) (lookup_middle _ _ _)) as H1.
    unfold wp in H1.
    destruct (step (at_ bd (length dpre)) (at_ bs (length spre)) s) as [[] s1|e s1|];
      [|clear IH|done].
    + destruct H1 as (y & x' & Hxy & H1). rewrite !insert_middle in H1.
      rewrite !at_succ.
      pose proof H1 as (Hh & _ & _).
      specialize (IH (dpre ++ [Some y]) (spre ++ [Some x']) s1).
      rewrite Hh, lookup_insert_eq, lookup_insert_ne, lookup_insert_eq, <- !app_assoc in IH by done.
      specialize (IH eq_refl eq_refl). rewrite <- Hh in IH.
      rewrite !length_app in IH. simpl in IH. rewrite !Nat.add_1_r in IH.
      destruct (uninitialized_loop step _ (length xs) _ s1) as [cur [[] s'|e s'|]]; [| |done].
      * destruct IH as (ys & xs' & HF & H2).
        exists (y :: ys), (x' :: xs'). split; [by constructor|].
        rewrite <- !app_assoc in H2.
        exact (after_two _ _ _ _ _ _ _ _ _ [_] _ Hne H1 H2).
      * destruct IH as (Hr & xs1 & x0 & xs2 & ys & xs1' & x0' & -> & HF & Hx0 & -> & H2).
        split; [done|].
        exists (x :: xs1), x0, xs2, (y :: ys), (x' :: xs1'), x0'.
        split; [done|]. split; [by constructor|]. split; [done|].
        split; [simpl; f_equal; f_equal; lia|].
        rewrite <- !app_assoc in H2.
        simpl. rewrite !at_succ.
        exact (after_two _ _ _ _ _ _ _ _ _ [_] _ Hne H1 H2).
    + destruct H1 as (Hr & x' & Hx & H1). split; [done|].
      exists [], x, xs, [], [], x'. split; [done|]. split; [constructor|]. split; [done|].
      split; [by rewrite Nat.add_0_r|]. simpl.
      rewrite insert_middle in H1.
      destruct H1 as (Hh & Ho & Hl). split; [|done].
      rewrite Hh. rewrite (insert_id _ bd); [done|]. by rewrite lookup_insert_ne.
Qed.

Lemma wp_uninitialized xs dpre spre s n :
  n = Z.of_nat (length xs) →
  heap s !! bd = Some (dpre ++ replicate (length xs) None ++ dpost) →
  heap s !! bs = Some (spre ++ (Some <$> xs) ++ spost) →
  wp (uninitialized el step (at_ bs (length spre)) n (at_ bd (length dpre))) s
    (fun _ s' =>
       ∃ ys xs', Forall3 Rok xs ys xs' ∧
         after s (<[bd := dpre ++ (Some <$> ys) ++ dpost]>
                    (<[bs := spre ++ (Some <$> xs') ++ spost]> (heap s)))
           (ev_forward mk (at_ bd (length dpre)) (at_ bs (length spre)) (length xs)) s')
    (fun e s' =>
       env_raises el al e ∧
       ∃ xs1 x xs2 ys xs1' x',
         xs = xs1 ++ x :: xs2 ∧ Forall3 Rok xs1 ys xs1' ∧ Rfail x x' ∧
         after s (<[bs := spre ++ (Some <$> (xs1' ++ x' :: xs2)) ++ spost]> (heap s))
           (ev_forward mk (at_ bd (length dpre)) (at_ bs (length spre)) (length xs1)
              ++ [EvRaise e] ++ ev_destroy (at_ bd (length dpre)) (length xs1)) s').
Proof.
  intros -> Hd Hs. unfold wp, uninitialized. rewrite Nat2Z.id.
  pose proof (uninitialized_loop_spec xs dpre spre s Hd Hs) as H.
  destruct (uninitialized_loop step _ (length xs) _ s) as [cur [[] s1|e s1|]]; [done| |done].
  destruct H as (Hr & xs1 & x & xs2 & ys & xs1' & x' & -> & HF & Hx & -> & H1).
  pose proof H1 as (Hh & _ & _).
  assert (length ys = length xs1) as Hlen by (symmetry; eapply Forall3_length_lm, HF).
  pose proof (wp_destroy_loop bd (replicate (S (length xs2)) None ++ dpost) ys dpre s1) as H2.
  rewrite Hh, lookup_insert_eq in H2. specialize (H2 eq_refl). rewrite <- Hh in H2.
  unfold destroy_range, ptr_diff, mbind, M_bind, bind. simpl.
  replace (Z.to_nat (Z.of_nat (length dpre + length xs1) - Z.of_nat (length dpre)))
    with (length ys) by lia.
  unfold wp in H2.
  destruct (destroy_loop el (at_ bd (length dpre)) (length ys) s1) as [[] s2|e' s2|];
    [|destruct H2..].
  split; [done|]. exists xs1, x, xs2, ys, xs1', x'.
  split; [done|]. split; [done|]. split; [done|].
  destruct H1 as (Hh1 & Ho1 & Hl1), H2 as (Hh2 & Ho2 & Hl2).
  unfold after. rewrite Hh2, Hh1, Ho2, Ho1, Hl2, Hl1, Hlen.
  split; [|split; [done|by rewrite <- !app_assoc]].
  rewrite insert_insert_eq, insert_insert_ne by done.
  rewrite (insert_id _ bd); [done|].
  etrans; [exact Hd|]. f_equal. f_equal.
  rewrite length_app. simpl. rewrite replicate_add.
  by rewrite <- app_assoc.
Qed.

End Transfer.

(** ** Assignments between slots *)

Section Assignments.

Context (Hreg : Regular el).

Lemma wp_copy_assign_at bd bs dcells scells k j d x s :
  bd ≠ bs →
  heap s !! bd = Some dcells → heap s !! bs = Some scells →
  dcells !! k = Some (Some d) → scells !! j = Some (Some x) →
  wp (copy_assign_at el (at_ bd k) (at_ bs j)) s
    (fun _ => after s (<[bd := <[k := Some x]> dcells]> (heap s))
                [EvCopyAssign (Slot (at_ bd k)) (Slot (at_ bs j))])
    (fun e _ => env_raises el al e).
Proof.
  intros Hne Hd Hs Hk Hj. unfold copy_assign_at.
  apply wp_bind, (wp_load _ _ d); [by cell_known Hd|].
  apply wp_bind, (wp_load _ _ x); [by cell_known Hs|].
  apply wp_bind, wp_in_world.
  apply wp_bind, (wp_store _ _ d); [by cell_known Hd|].
  apply wp_finish_assign.
  destruct (snd (snd (copy_assign el d x (world s)))) as [e|] eqn:Hr.
  - by eapply raises_copy_assign.
  - erewrite set_cell_at by exact Hd. simpl.
    by rewrite (copy_assign_value _ Hreg).
Qed.

Lemma wp_forward_copy bd bs dpost spost xs : ∀ ds dpre spre s,
  bd ≠ bs → length ds = length xs →
  heap s !! bd = Some (dpre ++ (Some <$> ds) ++ dpost) →
  heap s !! bs = Some (spre ++ (Some <$> xs) ++ spost) →
  wp (forward_loop (copy_assign_at el) (at_ bs (length spre)) (length xs)
        (at_ bd (length dpre))) s
    (fun _ => after s (<[bd := dpre ++ (Some <$> xs) ++ dpost]> (heap s))
                (ev_forward EvCopyAssign (at_ bd (length dpre)) (at_ bs (length spre))
                   (length xs)))
    (fun e _ => env_raises el al e).
Proof.
  induction xs as [|x xs IH]; intros [|d ds] dpre spre s Hne Hlen Hd Hs;
    simpl in Hlen; try done; simpl in Hd, Hs; simpl.
  - apply wp_ret. rewrite insert_id by done. apply after_refl.
  - apply wp_bind.
    eapply wp_mono;
      [eapply (wp_copy_assign_at bd bs _ _ _ _ d x); [done|exact Hd|exact Hs|apply lookup_middle..]
      | |done].
    intros [] s1 H1. simpl in H1. rewrite insert_middle in H1.
    pose proof H1 as (Hh & _ & _).
    rewrite !at_succ.
    specialize (IH ds (dpre ++ [Some x]) (spre ++ [Some x]) s1 Hne).
    rewrite Hh, lookup_insert_eq, lookup_insert_ne, <- !app_assoc in IH by done.
    specialize (IH ltac:(lia) eq_refl Hs). rewrite <- Hh in IH.
    rewrite !length_app in IH. simpl in IH. rewrite !Nat.add_1_r in IH.
    eapply wp_mono; [exact IH| |done].
    intros [] s' H2. simpl.
    exact (after_same _ _ _ _ _ _ [_] _ H1 H2).
Qed.

Lemma wp_move_assign_at b cells k j d x s :
  k ≠ j →
  heap s !! b = Some cells →
  cells !! k = Some (Some d) → cells !! j = Some (Some x) →
  wp (move_assign_at el (at_ b k) (at_ b j)) s
    (fun _ s' => ∃ x',
       after s (<[b := <[k := Some x]> (<[j := Some x']> cells)]> (heap s))
         [EvMoveAssign (Slot (at_ b k)) (Slot (at_ b j))] s')
    (fun e _ => env_raises el al e).
Proof.
  intros Hne Hb Hk Hj. unfold move_assign_at.
  apply wp_bind, (wp_load _ _ d); [by cell_known Hb|].
  apply wp_bind, (wp_load _ _ x); [by cell_known Hb|].
  apply wp_bind, wp_in_world.
  apply wp_bind, (wp_store _ _ x); [by cell_known Hb|].
  erewrite set_cell_at by exact Hb. simpl.
  set (r := snd (move_assign el d x (world s))).
  assert (<[b := <[j := Some (snd (fst r))]> cells]> (heap s) !! b
          = Some (<[j := Some (snd (fst r))]> cells)) as Hb' by apply lookup_insert_eq.
  apply wp_bind, (wp_store _ _ d).
  { cell_known Hb'. by rewrite list_lookup_insert_ne by done. }
  erewrite set_cell_at by exact Hb'. simpl.
  apply wp_finish_assign.
  destruct (snd r) as [e|] eqn:Hr.
  - by eapply raises_move_assign.
  - exists (snd (fst r)). unfold after. simpl.
    rewrite insert_insert_eq. subst r.
    by rewrite (move_assign_value _ Hreg).
Qed.

(** [std::move(first + 1, last, first)] inside one block: the values
    [xs] move one slot down over [d]. *)
Lemma wp_shift_left b post xs : ∀ d pre s,
  heap s !! b = Some (pre ++ Some d :: (Some <$> xs) ++ post) →
  wp (forward_loop (move_assign_at el) (at_ b (S (length pre))) (length xs)
        (at_ b (length pre))) s
    (fun _ s' => ∃ r,
       after s (<[b := pre ++ (Some <$> xs) ++ Some r :: post]> (heap s))
         (ev_forward EvMoveAssign (at_ b (length pre)) (at_ b (S (length pre)))
            (length xs)) s')
    (fun e _ => env_raises el al e).
Proof.
  induction xs as [|x xs IH]; intros d pre s Hb; simpl in Hb; simpl.
  - apply wp_ret. exists d. rewrite insert_id by done. apply after_refl.
  - apply wp_bind.
    eapply wp_mono;
      [eapply (wp_move_assign_at b _ (length pre) (S (length pre)) d x);
         [lia|exact Hb|apply lookup_middle|]
      | |done].
    { rewrite cons_middle, app_assoc.
      replace (S (length pre)) with (length (pre ++ [Some d])) by (rewrite length_app; simpl; lia).
      apply lookup_middle. }
    intros [] s1 (x' & Hh1 & Ho1 & Hl1).
    assert (after s (<[b := (pre ++ [Some x]) ++ Some x' :: (Some <$> xs) ++ post]> (heap s))
              [EvMoveAssign (Slot (at_ b (length pre))) (Slot (at_ b (S (length pre))))] s1)
      as H1.
    { split; [|done]. rewrite Hh1. f_equal.
      rewrite (cons_middle (Some d)), app_assoc.
      replace (S (length pre)) with (length (pre ++ [Some d])) by (rewrite length_app; simpl; lia).
      rewrite insert_middle, <- app_assoc. simpl.
      by rewrite insert_middle, <- app_assoc. }
    clear Hh1 Ho1 Hl1.
    pose proof H1 as (Hh & _ & _).
    rewrite !at_succ.
    specialize (IH x' (pre ++ [Some x]) s1).
    rewrite Hh, lookup_insert_eq in IH. specialize (IH eq_refl). rewrite <- Hh in IH.
    rewrite !length_app in IH. simpl in IH. rewrite !Nat.add_1_r in IH.
    eapply wp_mono; [exact IH| |done].
    intros [] s' (r & H2). exists r. simpl.
    rewrite <- !app_assoc in H2.
    exact (after_same _ _ _ _ _ _ [_] _ H1 H2).
Qed.

(** [std::move_backward(first, last, last + 1)] inside one block: the
    values [xs] move one slot up over [d]. *)
Lemma wp_shift_right b pre xs : ∀ d post s,
  heap s !! b = Some (pre ++ (Some <$> xs) ++ Some d :: post) →
  wp (backward_loop el (at_ b (length pre + length xs)) (length xs)
        (at_ b (S (length pre + length xs)))) s
    (fun _ s' => ∃ r,
       after s (<[b := pre ++ Some r :: (Some <$> xs) ++ post]> (heap s))
         (ev_backward EvMoveAssign (at_ b (S (length pre + length xs)))
            (at_ b (length pre + length xs)) (length xs)) s')
    (fun e _ => env_raises el al e).
Proof.
  induction xs as [|x xs IH] using rev_ind; intros d post s Hb.
  - simpl in Hb. simpl. apply wp_ret. exists d. rewrite insert_id by done. apply after_refl.
  - rewrite length_app. simpl length. rewrite Nat.add_1_r, Nat.add_succ_r. simpl.
    rewrite !at_pred.
    set (k := (length pre + length xs)%nat).
    assert (pre ++ (Some <$> xs ++ [x]) ++ Some d :: post
            = (pre ++ (Some <$> xs)) ++ Some x :: Some d :: post) as Hc.
    { rewrite fmap_app, <- !app_assoc. done. }
    rewrite Hc in Hb. clear Hc.
    assert (length (pre ++ (Some <$> xs)) = k) as Hk.
    { rewrite length_app, length_fmap. done. }
    apply wp_bind.
    eapply wp_mono;
      [eapply (wp_move_assign_at b _ (S k) k d x); [lia|exact Hb| |]| |done].
    { rewrite (cons_middle (Some x)), app_assoc.
      replace (S k) with (length ((pre ++ (Some <$> xs)) ++ [Some x]))
        by (rewrite length_app; simpl; lia).
      apply lookup_middle. }
    { rewrite <- Hk. apply lookup_middle. }
    intros [] s1 (x' & Hh1 & Ho1 & Hl1).
    assert (after s (<[b := pre ++ (Some <$> xs) ++ Some x' :: Some x :: post]> (heap s))
              [EvMoveAssign (Slot (at_ b (S k))) (Slot (at_ b k))] s1) as H1.
    { split; [|done]. rewrite Hh1. f_equal.
      rewrite <- Hk at 2. rewrite insert_middle.
      rewrite (cons_middle (Some x')), app_assoc.
      replace (S k) with (length ((pre ++ (Some <$> xs)) ++ [Some x']))
        by (rewrite length_app; simpl; lia).
      rewrite insert_middle, <- !app_assoc. done. }
    clear Hh1 Ho1 Hl1.
    pose proof H1 as (Hh & _ & _).
    specialize (IH x' (Some x :: post) s1).
    rewrite Hh, lookup_insert_eq in IH. specialize (IH eq_refl). rewrite <- Hh in IH.
    eapply wp_mono; [exact IH| |done].
    intros [] s' (r & H2). exists r. simpl.
    pose proof (after_same _ _ _ _ _ _ [_] _ H1 H2) as H3.
    rewrite fmap_app, <- app_assoc. exact H3.
Qed.

Lemma wp_move_construct_same b cells k j x s :
  k ≠ j →
  heap s !! b = Some cells →
  cells !! k = Some None → cells !! j = Some (Some x) →
  wp (move_construct_at el (at_ b k) (at_ b j)) s
    (fun _ s' => ∃ x',
       after s (<[b := <[k := Some x]> (<[j := Some x']> cells)]> (heap s))
         [EvMoveConstruct (Slot (at_ b k)) (Slot (at_ b j))] s')
    (fun e _ => env_raises el al e).
Proof.
  intros Hne Hb Hk Hj. unfold move_construct_at.
  apply wp_bind, (wp_load _ _ x); [by cell_known Hb|].
  apply wp_bind, wp_raw; [by cell_known Hb|].
  apply wp_bind, wp_in_world.
  apply wp_bind, (wp_store _ _ x); [by cell_known Hb|].
  erewrite set_cell_at by exact Hb. simpl.
  set (r := snd (move_ctor el x (world s))).
  assert (<[b := <[j := Some (fst r)]> cells]> (heap s) !! b
          = Some (<[j := Some (fst r)]> cells)) as Hb' by apply lookup_insert_eq.
  apply wp_bind, wp_finish.
  destruct (snd r) as [y|e] eqn:Hr.
  - apply wp_occupy.
    { cell_known Hb'. by rewrite list_lookup_insert_ne by done. }
    erewrite set_cell_at by exact Hb'. exists (fst r). unfold after. simpl.
    rewrite insert_insert_eq. subst r.
    by rewrite (move_ctor_value _ Hreg _ _ _ Hr).
  - by eapply raises_move_ctor.
Qed.

(** [std::uninitialized_move_n(p, 1, q)] inside one block *)
Lemma wp_uninitialized_move_one b cells k j x s :
  k ≠ j →
  heap s !! b = Some cells →
  cells !! k = Some None → cells !! j = Some (Some x) →
  wp (uninitialized_move_n el (at_ b j) 1 (at_ b k)) s
    (fun _ s' => ∃ x',
       after s (<[b := <[k := Some x]> (<[j := Some x']> cells)]> (heap s))
         [EvMoveConstruct (Slot (at_ b k)) (Slot (at_ b j))] s')
    (fun e _ => env_raises el al e).
Proof.
  intros Hne Hb Hk Hj.
  pose proof (wp_move_construct_same b cells k j x s Hne Hb Hk Hj) as H.
  unfold wp, uninitialized_move_n, uninitialized in *. simpl.
  destruct (move_construct_at el (at_ b k) (at_ b j) s) as [[] s1|e s1|]; [done| |done].
  unfold destroy_range, ptr_diff. simpl. rewrite Z.sub_diag. done.
Qed.

Lemma wp_move_assign_from_temp b cells k d temp s :
  heap s !! b = Some cells → cells !! k = Some (Some d) →
  wp (move_assign_from_temp el (at_ b k) temp) s
    (fun r s' =>
       match snd r with
       | None =>
           after s (<[b := <[k := Some temp]> cells]> (heap s))
             [EvMoveAssign (Slot (at_ b k)) Temp] s'
       | Some e => env_raises el al e
       end)
    (fun _ _ => False).
Proof.
  intros Hb Hk. unfold move_assign_from_temp.
  apply wp_bind, (wp_load _ _ d); [by cell_known Hb|].
  apply wp_bind, wp_in_world.
  apply wp_bind, (wp_store _ _ d); [by cell_known Hb|].
  erewrite set_cell_at by exact Hb. simpl.
  destruct (snd (snd (move_assign el d temp (world s)))) as [e|] eqn:Hr; simpl.
  - apply wp_bind, wp_emit, wp_ret. simpl.
    by eapply raises_move_assign.
  - apply wp_bind, wp_emit, wp_ret. simpl.
    unfold after. simpl. by rewrite (move_assign_value _ Hreg).
Qed.

End Assignments.

Lemma wp_destroy_temp temp s :
  wp (destroy_temp el temp) s
    (fun _ => after s (heap s) [EvDestroy Temp]) (fun _ _ => False).
Proof. unfold destroy_temp. by apply wp_bind, wp_in_world, wp_emit. Qed.

(** ** Machine integers *)

Lemma wrap_id z : 0 ≤ z < SIZE_MOD → wrap z = z.
Proof. intros. unfold wrap. by apply Z.mod_small. Qed.

Lemma SIZE_MOD_eq : SIZE_MOD = 18446744073709551616.
Proof. done. Qed.

Lemma PTRDIFF_MAX_eq : PTRDIFF_MAX = 9223372036854775807.
Proof. done. Qed.

(** ** The allocator *)

Lemma wp_operator_new bytes s :
  wp (operator_new el al bytes) s
    (fun p s' =>
       let b := fresh (dom (heap s)) in
       p = at_ b 0 ∧ heap s !! b = None ∧
       snd (sys_new al bytes (world s)) = true ∧
       after s (<[b := replicate (Z.to_nat (bytes / sizeof el)) None]> (heap s))
         [EvNew b bytes] s')
    (fun e s' => env_raises el al e ∧ after s (heap s) [EvRaise e] s').
Proof.
  unfold operator_new. apply wp_bind, wp_in_world.
  destruct (snd (sys_new al bytes (world s))) eqn:Hg.
  - apply wp_bind, wp_get_state, wp_bind, wp_modify, wp_bind, wp_emit, wp_ret. simpl.
    split; [done|]. split; [|done].
    apply not_elem_of_dom, is_fresh.
  - apply wp_raise. split; [|done]. by eapply raises_new.
Qed.

Lemma wp_operator_delete b cells s :
  heap s !! b = Some cells →
  wp (operator_delete (at_ b 0)) s
    (fun _ => after s (delete b (heap s)) [EvDelete b]) (fun _ _ => False).
Proof.
  intros Hb. unfold operator_delete. simpl.
  apply wp_bind, wp_get_state. rewrite decide_True by (by rewrite Hb).
  by apply wp_bind, wp_modify, wp_emit.
Qed.

Lemma wp_operator_delete_null s :
  wp (operator_delete nullptr) s (fun _ s' => s' = s) (fun _ _ => False).
Proof. done. Qed.

(** A request for [n] objects whose size in bytes fits a [size_t]. *)
Lemma wp_RawMemory_ctor n s :
  Sane el al → 0 < n → n * sizeof el < SIZE_MOD →
  wp (RawMemory_ctor el al n) s
    (fun m s' =>
       let b := fresh (dom (heap s)) in
       m = {| buffer_ := at_ b 0; capacity_ := n |} ∧ heap s !! b = None ∧
       n * sizeof el ≤ PTRDIFF_MAX ∧
       after s (<[b := replicate (Z.to_nat n) None]> (heap s))
         [EvNew b (n * sizeof el)] s')
    (fun e s' => env_raises el al e ∧ after s (heap s) [EvRaise e] s').
Proof.
  intros [Hsz _ Hnew] Hn Hfit. unfold RawMemory_ctor, Allocate.
  rewrite decide_True by lia. rewrite wrap_id by nia.
  apply wp_bind. eapply wp_mono; [apply wp_operator_new| |done].
  intros p s' (-> & Hfresh & Hg & H). apply wp_ret. simpl.
  split; [done|]. split; [done|]. split; [by eapply Hnew|].
  by rewrite Z.div_mul in H by lia.
Qed.

(** ** The object at [this] *)

Lemma Size_eq this v s : objs s !! this = Some v → Size this s = Ok (size_ v) s.
Proof. intros H. unfold Size, obj, mbind, M_bind, bind. by rewrite H. Qed.

Lemma Capacity_eq this v s :
  objs s !! this = Some v → Capacity this s = Ok (capacity_ (data_ v)) s.
Proof. intros H. unfold Capacity, obj, mbind, M_bind, bind. by rewrite H. Qed.

Lemma begin_eq this v s :
  objs s !! this = Some v → begin_ this s = Ok (buffer_ (data_ v)) s.
Proof. intros H. unfold begin_, obj, mbind, M_bind, bind. by rewrite H. Qed.

Lemma end_eq this v s :
  objs s !! this = Some v → end_ this s = Ok (buffer_ (data_ v) +ₚ size_ v) s.
Proof. intros H. unfold end_, obj, mbind, M_bind, bind. by rewrite H. Qed.

Lemma write_size_eq this v n s :
  objs s !! this = Some v →
  write_size_ this n s = Ok tt (set_objs (<[this := set_size_ n v]> (objs s)) s).
Proof.
  intros H. unfold write_size_, obj, on_store, mbind, M_bind, bind, modify. rewrite H.
  simpl. by rewrite H.
Qed.

Lemma Swap_data_eq this v new_data s :
  objs s !! this = Some v →
  Swap_data this new_data s
  = Ok (data_ v) (set_objs (<[this := set_data_ new_data v]> (objs s)) s).
Proof.
  intros H. unfold Swap_data, obj, with_local, mbind, M_bind, bind. rewrite H.
  unfold RawMemory_Swap, std_swap. simpl.
  rewrite !lookup_insert_eq, H. simpl.
  rewrite !insert_insert_eq.
  destruct v as [[buf cap] sz], new_data as [buf' cap']. done.
Qed.

Lemma wp_rewrite {R} (m : Mach R) s r Q X :
  m s = r →
  match r with Ok r s' => Q r s' | Throw e s' => X e s' | Undefined => False end →
  wp m s Q X.
Proof. intros <-. done. Qed.

End Logic.

Section Realloc.

Context {T W E A : Type} (el : ElemType T W E A) (al : Allocator W E).

Abbreviation state := (@state T W E).
Abbreviation Mach := (M state E).

Implicit Types (s : state) (p q : ptr) (b : nat) (cells : list (slot T)).

Lemma Forall3_copies xs ys xs' :
  Forall3 (copies el) xs ys xs' →
  xs' = xs ∧ Forall2 (fun x y => ∃ w, snd (copy_ctor el x w) = Returns y) xs ys.
Proof.
  induction 1 as [|x y x' xs ys xs' [-> Hc] _ [-> IH]]; [done|].
  split; [done|]. by constructor.
Qed.

Lemma Forall3_moves xs ys xs' :
  Forall3 (moves el) xs ys xs' →
  Forall2 (fun x y => ∃ w, snd (snd (move_ctor el x w)) = Returns y) xs ys.
Proof.
  induction 1 as [|x y x' xs ys xs' (w & Hc & _) _ IH]; [done|].
  constructor; [by exists w|done].
Qed.

Lemma wp_MoveOrCopy bd bs dpost spost xs dpre spre s n :
  bd ≠ bs →
  n = Z.of_nat (length xs) →
  heap s !! bd = Some (dpre ++ replicate (length xs) None ++ dpost) →
  heap s !! bs = Some (spre ++ (Some <$> xs) ++ spost) →
  wp (MoveOrCopy el (at_ bs (length spre)) n (at_ bd (length dpre))) s
    (fun _ s' =>
       ∃ ys xs', Forall2 (transferred el) xs ys ∧ length xs' = length xs ∧
         (moving el = false → xs' = xs) ∧
         after s (<[bd := dpre ++ (Some <$> ys) ++ dpost]>
                    (<[bs := spre ++ (Some <$> xs') ++ spost]> (heap s)))
           (ev_forward (ev_transfer el) (at_ bd (length dpre)) (at_ bs (length spre))
              (length xs)) s')
    (fun e s' =>
       env_raises el al e ∧
       ∃ m xs', (m < length xs)%nat ∧ length xs' = length xs ∧
         (moving el = false → xs' = xs) ∧
         after s (<[bs := spre ++ (Some <$> xs') ++ spost]> (heap s))
           (ev_forward (ev_transfer el) (at_ bd (length dpre)) (at_ bs (length spre)) m
              ++ [EvRaise e] ++ ev_destroy (at_ bd (length dpre)) m) s').
Proof.
  intros Hne Hn Hd Hs.
  unfold MoveOrCopy, ev_transfer, transferred, moving.
  destruct (is_nothrow_move_constructible el || negb (is_copy_constructible el)).
  - eapply wp_mono;
      [eapply (wp_uninitialized el al _ _ _ _ (move_construct_at_step el al)); eauto| |].
    + intros [] s' (ys & xs' & HF & H). exists ys, xs'.
      split; [by eapply Forall3_moves|]. split; [symmetry; eapply Forall3_length_lr, HF|].
      done.
    + intros e s' (Hr & xs1 & x & xs2 & ys & xs1' & x' & -> & HF & _ & H).
      split; [done|]. exists (length xs1), (xs1' ++ x' :: xs2).
      split; [rewrite length_app; simpl; lia|].
      split; [|done]. rewrite !length_app. simpl.
      by rewrite (Forall3_length_lr _ _ _ _ HF).
  - eapply wp_mono;
      [eapply (wp_uninitialized el al _ _ _ _ (copy_construct_at_step el al)); eauto| |].
    + intros [] s' (ys & xs' & HF & H). apply Forall3_copies in HF as [-> HF].
      by exists ys, xs.
    + intros e s' (Hr & xs1 & x & xs2 & ys & xs1' & x' & -> & HF & -> & H).
      apply Forall3_copies in HF as [-> HF].
      split; [done|]. exists (length xs1), (xs1 ++ x :: xs2).
      split; [rewrite length_app; simpl; lia|]. done.
Qed.

Lemma MoveOrCopy_zero p q s : MoveOrCopy el p 0 q s = Ok tt s.
Proof. unfold MoveOrCopy. by destruct (_ || _). Qed.

Lemma destroy_n_zero p s : destroy_n el p 0 s = Ok tt s.
Proof. done. Qed.

(** ** What a log constructs and destroys *)

Lemma constructed_app (l1 l2 : list (event E)) :
  constructed (l1 ++ l2) = constructed l1 ++ constructed l2.
Proof. apply flat_map_app. Qed.

Lemma destroyed_app (l1 l2 : list (event E)) :
  destroyed (l1 ++ l2) = destroyed l1 ++ destroyed l2.
Proof. apply flat_map_app. Qed.

Lemma constructed_transfer d p n :
  constructed (ev_forward (ev_transfer el) d p n) = ptr_seq d n.
Proof.
  unfold ev_transfer. destruct (_ || _); revert d p;
    induction n as [|n IH]; intros d p; simpl; by rewrite ?IH.
Qed.

Lemma destroyed_transfer d p n :
  destroyed (ev_forward (ev_transfer el) d p n) = [].
Proof.
  unfold ev_transfer. destruct (_ || _); revert d p;
    induction n as [|n IH]; intros d p; simpl; by rewrite ?IH.
Qed.

Lemma constructed_destroy p n : constructed (ev_destroy (E:=E) p n) = [].
Proof. revert p. induction n as [|n IH]; intros p; [done|]. simpl. apply IH. Qed.

Lemma destroyed_destroy p n : destroyed (ev_destroy (E:=E) p n) = ptr_seq p n.
Proof. revert p. induction n as [|n IH]; intros p; [done|]. simpl. by rewrite IH. Qed.

Lemma constructed_init p (args : init T A) :
  constructed [init_event (E:=E) (Slot p) args] = [p].
Proof. by destruct args. Qed.

Lemma destroyed_init p (args : init T A) :
  destroyed [init_event (E:=E) (Slot p) args] = [].
Proof. by destruct args. Qed.

Lemma ptr_seq_block b k n : Forall (fun p => blk p = Some b) (ptr_seq (at_ b k) n).
Proof.
  revert k. induction n as [|n IH]; intros k; [constructor|].
  simpl. constructor; [done|]. rewrite at_succ. apply IH.
Qed.

Lemma constructed_cons_init p (args : init T A) (l : list (event E)) :
  constructed (init_event (Slot p) args :: l) = p :: constructed l.
Proof. by destruct args. Qed.

Lemma destroyed_cons_init p (args : init T A) (l : list (event E)) :
  destroyed (init_event (Slot p) args :: l) = destroyed l.
Proof. by destruct args. Qed.

Lemma lookup_middle' {C} (pre post : list C) c k :
  length pre = k → (pre ++ c :: post) !! k = Some c.
Proof. intros <-. apply lookup_middle. Qed.

Lemma insert_middle' {C} (pre post : list C) c c' k :
  length pre = k → <[k := c']> (pre ++ c :: post) = pre ++ c' :: post.
Proof. intros <-. apply insert_middle. Qed.

Lemma delete_fresh_insert (h : gmap nat (list (slot T))) b cells cells' :
  h !! b = None → delete b (<[b := cells]> (<[b := cells']> h)) = h.
Proof.
  intros H. rewrite insert_insert_eq, delete_insert_eq. by apply delete_id.
Qed.

Ltac map_lookup :=
  repeat first [rewrite lookup_insert_eq | rewrite lookup_insert_ne by done
               | rewrite lookup_delete_eq | rewrite lookup_delete_ne by done].

Lemma insert_over (h : gmap nat (list (slot T))) b bo B B0 O :
  b ≠ bo → <[b := B]> (<[bo := O]> (<[b := B0]> h)) = <[b := B]> (<[bo := O]> h).
Proof.
  intros Hne. apply map_eq. intros i.
  destruct (decide (i = b)) as [->|]; [by map_lookup|].
  destruct (decide (i = bo)) as [->|]; by map_lookup.
Qed.

Lemma insert_over2 (h : gmap nat (list (slot T))) b bo B B0 O O0 :
  b ≠ bo →
  <[b := B]> (<[bo := O]> (<[b := B0]> (<[bo := O0]> h))) = <[b := B]> (<[bo := O]> h).
Proof.
  intros Hne. apply map_eq. intros i.
  destruct (decide (i = b)) as [->|]; [by map_lookup|].
  destruct (decide (i = bo)) as [->|]; by map_lookup.
Qed.

Lemma transfers_by_app mk (l1 l2 : list (event E)) :
  transfers_by mk l1 → transfers_by mk l2 → transfers_by mk (l1 ++ l2).
Proof. intros. by apply Forall_app. Qed.

Lemma transfers_by_skip mk ev (l : list (event E)) :
  is_transfer ev = false → transfers_by mk l → transfers_by mk (ev :: l).
Proof. intros Hev Hl. constructor; [by rewrite Hev|done]. Qed.

Lemma transfers_by_nil (mk : place -> place -> event E) : transfers_by mk [].
Proof. constructor. Qed.

Lemma transfers_by_forward (mk : place -> place -> event E) d p n : transfers_by mk (ev_forward mk d p n).
Proof.
  revert d p. induction n as [|n IH]; intros d p; simpl; constructor; [|apply IH].
  intros _. by exists d, p.
Qed.

Lemma transfers_by_destroy (mk : place -> place -> event E) p n : transfers_by mk (ev_destroy p n).
Proof.
  revert p. induction n as [|n IH]; intros p; simpl; constructor; [done|apply IH].
Qed.

Lemma transfers_by_init mk p (args : init T A) (l : list (event E)) :
  transfers_by mk l → transfers_by mk (init_event (Slot p) args :: l).
Proof. intros. apply transfers_by_skip; [by destruct args|done]. Qed.

End Realloc.

Create HintDb transfers.
#[global] Hint Resolve transfers_by_app transfers_by_skip transfers_by_nil
  transfers_by_forward transfers_by_destroy transfers_by_init : transfers.

(** One step of a computation that only reads the state. *)
Tactic Notation "wp_pure" uconstr(lem) :=
  apply wp_bind; eapply wp_rewrite; [eapply lem; eassumption|]; cbv beta iota.

Section Placement.

Context {T W E A : Type} (el : ElemType T W E A) (al : Allocator W E).

Abbreviation state := (@state T W E).
Abbreviation Mach := (M state E).

Implicit Types (s : state) (p q : ptr) (b : nat) (cells : list (slot T)).

Lemma wp_PlaceWithRealloc this bo xs1 xs2 args s xs len b :
  Sane el al →
  xs = xs1 ++ xs2 →
  len = Z.of_nat (length xs) →
  b = fresh (dom (heap s)) →
  objs s !! this
    = Some {| data_ := {| buffer_ := at_ bo 0; capacity_ := len |}; size_ := len |} →
  heap s !! bo = Some (Some <$> xs) →
  len * sizeof el ≤ PTRDIFF_MAX →
  wp (PlaceWithRealloc el al this (at_ bo (length xs1)) args) s
    (fun r s' =>
       ∃ v ys1 ys2,
         init_value el args v ∧
         Forall2 (transferred el) xs1 ys1 ∧ Forall2 (transferred el) xs2 ys2 ∧
         r = at_ b (length xs1) ∧ b ≠ bo ∧ grown len * sizeof el ≤ PTRDIFF_MAX ∧
         heap s' = <[b := (Some <$> (ys1 ++ v :: ys2))
                          ++ replicate (Z.to_nat (grown len) - S (length xs)) None]>
                     (delete bo (heap s)) ∧
         objs s' = <[this := {| data_ := {| buffer_ := at_ b 0; capacity_ := grown len |};
                                size_ := len |}]> (objs s) ∧
         log s' = log s
           ++ [EvNew b (grown len * sizeof el); init_event (Slot (at_ b (length xs1))) args]
           ++ ev_forward (ev_transfer el) (at_ b 0) (at_ bo 0) (length xs1)
           ++ ev_forward (ev_transfer el) (at_ b (S (length xs1))) (at_ bo (length xs1))
                (length xs2)
           ++ ev_destroy (at_ bo 0) (length xs)
           ++ [EvDelete bo])
    (fun e s' =>
       env_raises el al e ∧ objs s' = objs s ∧
       (∃ evs, log s' = log s ++ evs ∧ rolled_back e evs ∧
               transfers_by (ev_transfer el) evs) ∧
       (moving el = false → heap s' = heap s)).
Proof.
  intros HS Hxs Hlen Hb Hobj Hbo Hbound.
  pose proof (sizeof_pos _ _ HS) as Hsz.
  assert (0 ≤ len) as Hlen0 by lia.
  assert (len ≤ PTRDIFF_MAX) as HlenM by nia.
  rewrite PTRDIFF_MAX_eq in *.
  unfold PlaceWithRealloc.
  wp_pure begin_eq. wp_pure Capacity_eq. wp_pure Size_eq. simpl.
  assert (wrap (ptr_diff (at_ bo (length xs1)) (at_ bo 0)) = Z.of_nat (length xs1)) as ->.
  { unfold ptr_diff. simpl. rewrite wrap_id; [lia|rewrite SIZE_MOD_eq; subst len xs; rewrite length_app in *; lia]. }
  remember (length xs1) as n1 eqn:Hn1. remember (length xs2) as n2 eqn:Hn2.
  assert (length xs = (n1 + n2)%nat) as Hlenxs by (subst; apply length_app).
  rewrite (wrap_id (len + 1)) by (rewrite SIZE_MOD_eq; lia).
  rewrite decide_True by lia.
  remember (grown len) as cap' eqn:Hcapdef.
  assert ((if decide (len = 0) then 1 else wrap (len * 2)) = cap') as ->.
  { subst cap'. unfold grown. destruct (decide (len = 0)); [done|].
    rewrite wrap_id; [lia|rewrite SIZE_MOD_eq; lia]. }
  assert (len + 1 ≤ cap') as Hcap' by (subst cap'; unfold grown; destruct (decide (len = 0)); lia).
  assert (cap' ≤ 2 * len + 1) as Hcap'' by (subst cap'; unfold grown; destruct (decide (len = 0)); lia).
  remember (cap' * sizeof el) as bytes eqn:Hbytes.
  remember (Z.to_nat cap' - S (length xs))%nat as rest eqn:Hrest.
  assert (Z.to_nat cap' = (n1 + S (n2 + rest))%nat) as HN by lia.
  assert (cap' * sizeof el < SIZE_MOD) as Hfit.
  { pose proof (sizeof_max _ _ HS). rewrite SIZE_MOD_eq, PTRDIFF_MAX_eq in *.
    subst cap'. unfold grown. destruct (decide (len = 0)); nia. }
  apply wp_bind, wp_bind.
  eapply wp_mono; [apply wp_RawMemory_ctor; [done|lia|done]| |].
  2:{ intros e s' (Hr & Hh & Ho & Hl). split; [done|]. split; [done|].
      split; [|done]. exists [EvRaise e]. split; [done|]. split; [by left|].
      auto with transfers. }
  intros new_data s1 (-> & Hfresh & Hbytes' & Hh1 & Ho1 & Hl1).
  rewrite <- Hb in Hfresh, Hh1, Hl1 |- *. rewrite <- Hbytes in Hbytes', Hl1.
  assert (b ≠ bo) as Hne by (intros Heq; rewrite Heq, Hbo in Hfresh; done).
  rewrite HN in Hh1. rewrite replicate_add, replicate_S, replicate_add in Hh1.
  unfold GetAddress. cbn [buffer_].
  rewrite !(at_add b 0), !(at_add bo 0) by lia. rewrite !Nat2Z.id. simpl (0 + _)%nat.
  rewrite at_succ.
  unfold unwinding.
  (* what the unwinding of [new_data] has to find *)
  set (Xbody := fun (e : E) (sx : state) =>
    env_raises el al e ∧ is_Some (heap sx !! b) ∧ objs sx = objs s ∧
    (∃ mid, log sx = log s ++ EvNew b bytes :: mid ∧ EvRaise e ∈ mid ∧
            Forall (fun p => blk p = Some b) (constructed mid) ∧
            constructed mid ≡ₚ destroyed mid ∧
            transfers_by (ev_transfer el) mid) ∧
    (moving el = false → delete b (heap sx) = heap s)).
  apply wp_bind, wp_catch.
  match goal with |- wp ?m _ ?Q _ => apply (wp_mono m s1 Q Q Xbody) end; [|done|].
  2:{ intros e sx (Hr & [cells Hcells] & Hobjs & (mid & Hlog & Hin & Hblk & Hperm & Htr) & Hcopy).
      eapply wp_mono; [eapply wp_operator_delete, Hcells| |done].
      intros [] s' (Hh & Ho & Hl). split; [done|].
      rewrite Hh, Ho, Hl, Hlog. split; [done|]. split; [|done].
      exists (EvNew b bytes :: mid ++ [EvDelete b]).
      split; [by rewrite <- app_assoc|]. split; [right; by exists b, bytes, mid|].
      auto with transfers. }
  (* what the body leaves behind *)
  set (Qbody := fun (_ : unit) (s5 : state) =>
    ∃ v ys1 ys2,
      init_value el args v ∧
      Forall2 (transferred el) xs1 ys1 ∧ Forall2 (transferred el) xs2 ys2 ∧
      heap s5 = <[b := (Some <$> (ys1 ++ v :: ys2)) ++ replicate rest None]>
                  (<[bo := replicate (length xs) None]> (heap s)) ∧
      objs s5 = objs s ∧
      log s5 = log s
        ++ [EvNew b bytes; init_event (Slot (at_ b n1)) args]
        ++ ev_forward (ev_transfer el) (at_ b 0) (at_ bo 0) n1
        ++ ev_forward (ev_transfer el) (at_ b (S n1)) (at_ bo n1) n2
        ++ ev_destroy (at_ bo 0) (length xs)).
  match goal with |- wp ?m _ ?Q _ => apply (wp_mono m s1 Qbody Q Xbody Xbody) end; [| |done].
  2:{ intros [] s5 (v & ys1 & ys2 & Hv & Hys1 & Hys2 & Hh5 & Ho5 & Hl5).
      assert (objs s5 !! this = Some {| data_ := {| buffer_ := at_ bo 0; capacity_ := len |};
                                        size_ := len |}) as Hobj5 by (by rewrite Ho5).
      apply wp_bind. eapply wp_rewrite; [by apply Swap_data_eq|]. cbv beta iota. cbn [data_].
      eapply wp_mono; [eapply (wp_operator_delete bo)| |done].
      { simpl. rewrite Hh5, lookup_insert_ne, lookup_insert_eq by done. done. }
      intros [] s6 (Hh6 & Ho6 & Hl6). simpl in Hh6, Ho6, Hl6.
      apply wp_bind. eapply wp_rewrite.
      { apply begin_eq. rewrite Ho6. apply lookup_insert_eq. }
      cbv beta iota. apply wp_ret. cbn [data_ buffer_ set_data_].
      exists v, ys1, ys2. rewrite at_add, Nat2Z.id by lia.
      do 6 (split; [done|]). split; [|split].
      - rewrite Hh6, Hh5. rewrite delete_insert_ne by done. by rewrite delete_insert_eq.
      - rewrite Ho6, Ho5. done.
      - rewrite Hl6, Hl5. by rewrite <- !app_assoc. }
  assert (wrap (len - Z.of_nat n1) = Z.of_nat n2) as ->
    by (rewrite wrap_id; [lia|rewrite SIZE_MOD_eq; lia]).
  assert (heap s1 !! b
          = Some (replicate n1 None ++ None :: replicate n2 None ++ replicate rest None))
    as Hb1 by (rewrite Hh1; apply lookup_insert_eq).
  assert (Some <$> xs = (Some <$> xs1) ++ (Some <$> xs2)) as Hfmap
    by (subst xs; apply fmap_app).
  (* the new element *)
  apply wp_bind.
  eapply wp_mono;
    [eapply wp_construct_at; [exact Hb1|apply lookup_middle', length_replicate]| |].
  2:{ intros e sx (Hr & Hhx & Hox & Hlx).
      split; [done|]. split; [by rewrite Hhx, Hb1|].
      split; [by rewrite Hox, Ho1|].
      split; [|intros _; rewrite Hhx, Hh1, delete_insert_eq; by apply delete_id].
      exists [EvRaise e].
      split; [by rewrite Hlx, Hl1, <- app_assoc|].
      split; [by apply list_elem_of_singleton|]. split; [constructor|].
      split; [done|auto with transfers]. }
  intros [] s2 (v & Hv & Hh2 & Ho2 & Hl2).
  erewrite insert_middle' in Hh2 by apply length_replicate.
  rewrite Hh1, insert_insert_eq in Hh2. rewrite Ho1 in Ho2. rewrite Hl1 in Hl2.
  rewrite <- app_assoc in Hl2. simpl in Hl2.
  (* the elements before [pos] *)
  apply wp_bind, wp_catch.
  eapply wp_mono;
    [eapply (wp_MoveOrCopy el al b bo (Some v :: replicate n2 None ++ replicate rest None)
               (Some <$> xs2) xs1 [] [] s2);
       [done|lia| |]
    | |].
  { rewrite Hh2, lookup_insert_eq, <- Hn1. done. }
  { rewrite Hh2, lookup_insert_ne, Hbo, Hfmap by done. done. }
  2:{ intros e sx (Hr & m & xs1' & Hm & Hlen1' & Hcopy & Hhx & Hox & Hlx).
      simpl in Hhx, Hlx. rewrite Hh2 in Hhx. rewrite Ho2 in Hox. rewrite Hl2 in Hlx.
      eapply wp_mono;
        [eapply (wp_destroy_at el b n1 _ v);
           [rewrite Hhx, lookup_insert_ne, lookup_insert_eq by done; done
           |apply lookup_middle', length_replicate]
        | |done].
      intros [] sy (Hhy & Hoy & Hly). rewrite Hhx in Hhy. rewrite Hox in Hoy. rewrite Hlx in Hly.
      split; [done|]. split; [rewrite Hhy, lookup_insert_eq; eauto|].
      split; [done|]. split.
      2:{ intros Hmode. rewrite (Hcopy Hmode), <- Hfmap in Hhy.
          rewrite Hhy, delete_insert_eq, delete_insert_ne, delete_insert_eq by done.
          rewrite delete_id by done. by apply insert_id. }
      exists (init_event (Slot (at_ b n1)) args
                :: ev_forward (ev_transfer el) (at_ b 0) (at_ bo 0) m
                ++ [EvRaise e] ++ ev_destroy (at_ b 0) m ++ [EvDestroy (Slot (at_ b n1))]).
      split; [rewrite Hly; rewrite <- !app_assoc; done|].
      split; [set_solver|].
      rewrite constructed_cons_init, destroyed_cons_init.
      rewrite !constructed_app, !destroyed_app, constructed_transfer, destroyed_transfer,
        constructed_destroy, destroyed_destroy. simpl. rewrite app_nil_r.
      split; [constructor; [done|apply ptr_seq_block]|].
      split; [apply Permutation_cons_append|].
      apply transfers_by_init. repeat apply transfers_by_app; auto with transfers. }
  intros [] s3 (ys1 & xs1' & Hys1 & Hlen1' & Hcopy1 & Hh3 & Ho3 & Hl3).
  simpl in Hh3, Hl3. rewrite Hh2 in Hh3. rewrite Ho2 in Ho3. rewrite Hl2 in Hl3.
  rewrite <- Hn1 in Hl3.
  rewrite insert_over in Hh3 by done. simpl in Hh3.
  assert (length ys1 = n1) as Hlys1 by (rewrite Hn1; symmetry; eapply Forall2_length, Hys1).
  assert (length xs1' = n1) as Hlxs1' by lia.
  (* the elements from [pos] on *)
  apply wp_bind, wp_catch.
  replace (at_ bo n1) with (at_ bo (length (Some <$> xs1')))
    by (by rewrite length_fmap, Hlxs1').
  replace (at_ b (S n1)) with (at_ b (length ((Some <$> ys1) ++ [Some v])))
    by (by rewrite length_app, length_fmap, Hlys1, Nat.add_1_r).
  eapply wp_mono;
    [eapply (wp_MoveOrCopy el al b bo (replicate rest None) [] xs2
               ((Some <$> ys1) ++ [Some v]) (Some <$> xs1') s3);
       [done|lia| |]
    | |].
  { rewrite Hh3, lookup_insert_eq, <- Hn2, <- app_assoc. done. }
  { rewrite Hh3, lookup_insert_ne, lookup_insert_eq, app_nil_r by done. done. }
  2:{ intros e sx (Hr & m & xs2' & Hm & Hlen2' & Hcopy2 & Hhx & Hox & Hlx).
      rewrite Hh3 in Hhx. rewrite Ho3 in Hox. rewrite Hl3 in Hlx.
      rewrite (insert_insert_ne _ bo b), insert_insert_eq in Hhx by done.
      apply wp_bind.
      eapply wp_mono;
        [eapply (wp_destroy_at el b n1 _ v);
           [rewrite Hhx, lookup_insert_eq; done
           |apply lookup_middle'; by rewrite length_fmap]
        | |done].
      intros [] sy (Hhy & Hoy & Hly). rewrite Hhx in Hhy. rewrite Hox in Hoy.
      erewrite insert_middle' in Hhy by (by rewrite length_fmap).
      rewrite insert_insert_eq in Hhy.
      unfold destroy_n. rewrite Nat2Z.id, <- Hlys1.
      eapply wp_mono;
        [eapply (wp_destroy_loop el b (None :: replicate n2 None ++ replicate rest None)
                   ys1 [] sy);
           rewrite Hhy, lookup_insert_eq; done
        | |done].
      intros [] sz (Hhz & Hoz & Hlz). simpl in Hhz, Hlz.
      rewrite Hhy, insert_insert_eq in Hhz. rewrite Hoy in Hoz. rewrite Hly, Hlx in Hlz.
      split; [done|]. split; [rewrite Hhz, lookup_insert_eq; eauto|].
      split; [done|]. split.
      2:{ intros Hmode.
          rewrite (Hcopy2 Hmode), (Hcopy1 Hmode), app_nil_r, <- Hfmap in Hhz.
          rewrite Hhz, delete_insert_eq, delete_insert_ne, delete_id by done.
          by apply insert_id. }
      exists (init_event (Slot (at_ b n1)) args
                :: ev_forward (ev_transfer el) (at_ b 0) (at_ bo 0) n1
                ++ ev_forward (ev_transfer el) (at_ b (S n1)) (at_ bo n1) m
                ++ [EvRaise e] ++ ev_destroy (at_ b (S n1)) m
                ++ [EvDestroy (Slot (at_ b n1))] ++ ev_destroy (at_ b 0) n1).
      rewrite length_app, length_fmap, Hlys1, Nat.add_1_r in Hlz.
      rewrite length_fmap, Hlxs1' in Hlz.
      rewrite ?Hlys1 in Hlz.
      split; [rewrite Hlz; rewrite <- !app_assoc; done|].
      split; [set_solver|].
      rewrite constructed_cons_init, destroyed_cons_init.
      rewrite !constructed_app, !destroyed_app, !constructed_transfer, !destroyed_transfer,
        !constructed_destroy, !destroyed_destroy. simpl. rewrite app_nil_r.
      split.
      { constructor; [done|]. apply Forall_app. split; apply ptr_seq_block. }
      split; [symmetry; apply (Permutation_app_comm _ (_ :: _))|].
      apply transfers_by_init. repeat apply transfers_by_app; auto with transfers. }
  intros [] s4 (ys2 & xs2' & Hys2 & Hlen2' & Hcopy2 & Hh4 & Ho4 & Hl4).
  rewrite Hh3 in Hh4. rewrite Ho3 in Ho4. rewrite Hl3 in Hl4.
  rewrite insert_over2 in Hh4 by done.
  rewrite length_app, length_fmap, Hlys1, Nat.add_1_r in Hl4.
  rewrite length_fmap, Hlxs1', <- Hn2 in Hl4.
  (* the old elements *)
  unfold destroy_n. rewrite Hlen, Nat2Z.id.
  replace (length xs) with (length (xs1' ++ xs2')) by (rewrite length_app; lia).
  eapply wp_mono;
    [eapply (wp_destroy_loop el bo [] (xs1' ++ xs2') [] s4)| |done].
  { rewrite Hh4, lookup_insert_ne, lookup_insert_eq, app_nil_r, fmap_app by done.
    simpl. by rewrite app_nil_r. }
  intros [] s5 (Hh5 & Ho5 & Hl5). simpl in Hh5, Hl5.
  rewrite Hh4 in Hh5. rewrite Ho4 in Ho5. rewrite Hl4 in Hl5.
  exists v, ys1, ys2. do 3 (split; [done|]).
  replace (length (xs1' ++ xs2')) with (length xs) in * by (rewrite length_app; lia).
  split; [|split; [done|]].
  - rewrite Hh5, app_nil_r.
    rewrite (insert_over _ bo b) by done.
    rewrite (insert_insert_ne _ bo b) by done. f_equal.
    rewrite fmap_app, <- !app_assoc. done.
  - rewrite Hl5. rewrite <- !app_assoc. done.
Qed.

End Placement.

Section ViewLemmas.

Context {T W E A : Type} (el : ElemType T W E A) (al : Allocator W E).

Abbreviation state := (@state T W E).
Abbreviation Mach := (M state E).

Implicit Types (s : state) (p q : ptr) (b : nat) (cells : list (slot T)).

Lemma live_prefix_cells (xs : list T) k :
  live_prefix ((Some <$> xs) ++ replicate k None) (length xs) = Some xs.
Proof.
  unfold live_prefix. rewrite decide_True by (rewrite length_app, length_fmap; lia).
  rewrite take_app_length' by (by rewrite length_fmap).
  rewrite drop_app_length' by (by rewrite length_fmap).
  rewrite mapM_fmap_Some by done. simpl.
  assert (forallb (fun c : slot T => match c with None => true | Some _ => false end)
            (replicate k None) = true) as ->; [|done].
  induction k; [done|]. done.
Qed.

Lemma live_prefix_Some cells n xs :
  live_prefix cells n = Some xs →
  length xs = n ∧ cells = (Some <$> xs) ++ replicate (length cells - n) None.
Proof.
  unfold live_prefix. destruct (decide (n ≤ length cells)%nat) as [Hn|]; [|done].
  destruct (mapM id (take n cells)) as [ys|] eqn:Hm; [|done]. simpl.
  destruct (forallb _ (drop n cells)) eqn:Hf; [|done]. intros [= ->].
  assert (Some <$> xs = take n cells) as Htake.
  { eapply mapM_fmap_Some_inv; [exact Hm|]. by intros x y <-. }
  assert (length xs = n) as Hlen.
  { apply length_mapM in Hm. rewrite length_take in Hm. lia. }
  split; [done|].
  rewrite <- (take_drop n cells) at 1. rewrite Htake. f_equal.
  symmetry. apply replicate_as_Forall. split; [rewrite length_drop; lia|].
  apply Is_true_true_2, forallb_True in Hf.
  eapply Forall_impl; [exact Hf|]. by intros [x|].
Qed.

Lemma view_holds s this xs cap :
  view el s this = Some (xs, cap) → holds el s this xs cap.
Proof.
  unfold view, holds. destruct (objs s !! this) as [[[buf c] sz]|] eqn:Hobj; [|done]. simpl.
  destruct (decide _) as [(Hsz & Hc & Hoff)|]; [|done].
  destruct buf as [[b|] o]; simpl in *; subst o.
  - destruct (heap s !! b) as [cells|] eqn:Hb; [|done]. simpl.
    destruct (decide (length cells = Z.to_nat c)) as [Hlc|]; [|done].
    destruct (live_prefix cells (Z.to_nat sz)) as [ys|] eqn:Hlp; [|done]. simpl.
    intros [= -> ->]. apply live_prefix_Some in Hlp as [Hlen Hcells].
    exists (Ptr (Some b) 0). split; [do 3 f_equal; lia|]. split; [lia|]. split; [done|].
    split; [done|]. simpl. rewrite Hb. f_equal. rewrite Hcells at 1.
    unfold cells_of. do 2 f_equal. lia.
  - destruct (decide (c = 0)) as [->|]; [|done]. intros [= <- <-].
    exists (Ptr None 0). split; [do 3 f_equal; simpl; lia|]. done.
Qed.

Lemma holds_view s this xs cap :
  holds el s this xs cap → view el s this = Some (xs, cap).
Proof.
  intros (buf & Hobj & Hlen & Hcap & Hoff & Hown). unfold view. rewrite Hobj. simpl.
  rewrite decide_True by (split; [lia|done]).
  destruct (blk buf) as [b|].
  - rewrite Hown. simpl. unfold cells_of.
    rewrite decide_True by (rewrite length_app, length_fmap, length_replicate; lia).
    rewrite Nat2Z.id, live_prefix_cells. done.
  - unfold cells_of in Hown. destruct xs; [|done]. simpl in *.
    apply (f_equal length) in Hown. rewrite length_replicate in Hown. simpl in Hown.
    by rewrite decide_True by lia.
Qed.

End ViewLemmas.

Section Growth.

Context {T W E A : Type} (el : ElemType T W E A) (al : Allocator W E).

Abbreviation state := (@state T W E).
Abbreviation Mach := (M state E).

Implicit Types (s : state) (p q : ptr) (b : nat) (cells : list (slot T)).

Lemma wp_PlaceWithRealloc_null this args s b :
  Sane el al →
  b = fresh (dom (heap s)) →
  objs s !! this = Some {| data_ := {| buffer_ := nullptr; capacity_ := 0 |}; size_ := 0 |} →
  wp (PlaceWithRealloc el al this nullptr args) s
    (fun r s' =>
       ∃ v, init_value el args v ∧ r = at_ b 0 ∧ sizeof el ≤ PTRDIFF_MAX ∧
         heap s' = <[b := [Some v]]> (heap s) ∧
         objs s' = <[this := {| data_ := {| buffer_ := at_ b 0; capacity_ := 1 |};
                                size_ := 0 |}]> (objs s) ∧
         log s' = log s ++ [EvNew b (sizeof el); init_event (Slot (at_ b 0)) args])
    (fun e s' =>
       env_raises el al e ∧ objs s' = objs s ∧
       (∃ evs, log s' = log s ++ evs ∧ rolled_back e evs ∧
               transfers_by (ev_transfer el) evs) ∧
       heap s' = heap s).
Proof.
  intros HS Hb Hobj.
  pose proof (sizeof_pos _ _ HS) as Hsz. pose proof (sizeof_max _ _ HS) as Hmax.
  unfold PlaceWithRealloc.
  wp_pure begin_eq. wp_pure Capacity_eq. wp_pure Size_eq. simpl.
  change (wrap (ptr_diff nullptr nullptr)) with 0.
  change (wrap (0 - 0)) with 0.
  apply wp_bind, wp_bind.
  eapply wp_mono; [apply wp_RawMemory_ctor; [done|lia|rewrite SIZE_MOD_eq, PTRDIFF_MAX_eq in *; lia]| |].
  2:{ intros e s' (Hr & Hh & Ho & Hl). split; [done|]. split; [done|].
      split; [|done]. exists [EvRaise e]. split; [done|]. split; [by left|].
      auto with transfers. }
  intros new_data s1 (-> & Hfresh & Hbytes & Hh1 & Ho1 & Hl1).
  rewrite <- Hb in Hfresh, Hh1, Hl1 |- *. rewrite Z.mul_1_l in Hbytes, Hl1.
  unfold GetAddress, unwinding. cbn [buffer_].
  change (at_ b 0 +ₚ 0) with (at_ b 0).
  assert (heap s1 !! b = Some [None]) as Hb1 by (rewrite Hh1; apply lookup_insert_eq).
  apply wp_bind, wp_catch, wp_bind.
  eapply wp_mono; [eapply wp_construct_at; [exact Hb1|done]| |].
  2:{ intros e sx (Hr & Hhx & Hox & Hlx).
      eapply wp_mono; [eapply (wp_operator_delete b); rewrite Hhx; exact Hb1| |done].
      intros [] sy (Hhy & Hoy & Hly).
      split; [done|]. split; [by rewrite Hoy, Hox, Ho1|].
      split; [|rewrite Hhy, Hhx, Hh1, delete_insert_eq; by apply delete_id].
      exists (EvNew b (sizeof el) :: [EvRaise e] ++ [EvDelete b]).
      split; [by rewrite Hly, Hlx, Hl1, <- !app_assoc|].
      split; [|auto with transfers].
      right. exists b, (sizeof el), [EvRaise e]. split; [done|].
      split; [by apply list_elem_of_singleton|]. split; [constructor|done]. }
  intros [] s2 (v & Hv & Hh2 & Ho2 & Hl2). simpl in Hh2.
  rewrite Hh1, insert_insert_eq in Hh2. rewrite Ho1 in Ho2. rewrite Hl1 in Hl2.
  apply wp_bind, wp_catch. eapply wp_rewrite; [apply MoveOrCopy_zero|]. cbv beta iota.
  apply wp_bind, wp_catch. eapply wp_rewrite; [apply MoveOrCopy_zero|]. cbv beta iota.
  eapply wp_rewrite; [apply destroy_n_zero|]. cbv beta iota.
  assert (objs s2 !! this = Some {| data_ := {| buffer_ := nullptr; capacity_ := 0 |};
                                    size_ := 0 |}) as Hobj2 by (by rewrite Ho2).
  apply wp_bind. eapply wp_rewrite; [by apply Swap_data_eq|]. cbv beta iota. cbn [data_].
  eapply wp_rewrite; [reflexivity|]. cbv beta iota.
  apply wp_bind. eapply wp_rewrite; [apply begin_eq, lookup_insert_eq|]. cbv beta iota.
  apply wp_ret. exists v. simpl. rewrite Ho2, Hl2, <- app_assoc. done.
Qed.

Lemma ptr_eta p : Ptr (blk p) (off p) = p.
Proof. by destruct p. Qed.

(** [PlaceWithRealloc] on a vector that is full. *)
Lemma wp_realloc this buf xs1 xs2 args s xs len b :
  Sane el al →
  xs = xs1 ++ xs2 →
  len = Z.of_nat (length xs) →
  b = fresh (dom (heap s)) →
  objs s !! this
    = Some {| data_ := {| buffer_ := buf; capacity_ := len |}; size_ := len |} →
  owns s buf (Some <$> xs) →
  len * sizeof el ≤ PTRDIFF_MAX →
  wp (PlaceWithRealloc el al this (buf +ₚ Z.of_nat (length xs1)) args) s
    (fun r s' =>
       ∃ v ys1 ys2,
         init_value el args v ∧
         Forall2 (transferred el) xs1 ys1 ∧ Forall2 (transferred el) xs2 ys2 ∧
         r = at_ b (length xs1) ∧ heap s !! b = None ∧
         grown len * sizeof el ≤ PTRDIFF_MAX ∧
         heap s' = <[b := (Some <$> (ys1 ++ v :: ys2))
                          ++ replicate (Z.to_nat (grown len) - S (length xs)) None]>
                     (released buf (heap s)) ∧
         objs s' = <[this := {| data_ := {| buffer_ := at_ b 0; capacity_ := grown len |};
                                size_ := len |}]> (objs s) ∧
         log s' = log s
           ++ [EvNew b (grown len * sizeof el); init_event (Slot (at_ b (length xs1))) args]
           ++ ev_forward (ev_transfer el) (at_ b 0) buf (length xs1)
           ++ ev_forward (ev_transfer el) (at_ b (S (length xs1)))
                (buf +ₚ Z.of_nat (length xs1)) (length xs2)
           ++ ev_destroy buf (length xs)
           ++ ev_release buf)
    (fun e s' =>
       env_raises el al e ∧ objs s' = objs s ∧
       (∃ evs, log s' = log s ++ evs ∧ rolled_back e evs ∧
               transfers_by (ev_transfer el) evs) ∧
       (moving el = false → heap s' = heap s)).
Proof.
  intros HS Hxs Hlen Hb Hobj [Hoff Hown] Hbound.
  destruct buf as [[bo|] o]; simpl in Hoff, Hown; subst o.
  - change (Ptr (Some bo) 0) with (at_ bo 0) in *.
    rewrite (at_add bo 0), Nat2Z.id by lia. simpl (0 + _)%nat.
    eapply wp_mono; [by eapply (wp_PlaceWithRealloc el al this bo xs1 xs2)| |done].
    intros r s' (v & ys1 & ys2 & Hv & H1 & H2 & -> & Hne & Hg & Hh & Ho & Hl).
    exists v, ys1, ys2. do 4 (split; [done|]).
    split; [|done].
    subst b. apply not_elem_of_dom, is_fresh.
  - apply fmap_nil_inv in Hown. rewrite Hown in Hxs, Hlen.
    symmetry in Hxs. apply app_eq_nil in Hxs as [-> ->]. simpl in Hlen. subst len xs.
    eapply wp_mono; [by eapply (wp_PlaceWithRealloc_null this args s b)| |].
    + intros r s' (v & Hv & -> & Hm & Hh & Ho & Hl).
      exists v, [], []. do 4 (split; [done|]).
      split; [subst b; apply not_elem_of_dom, is_fresh|].
      unfold grown. simpl. rewrite Z.mul_1_l. done.
    + intros e s' (Hr & Ho & Hev & Hh). done.
Qed.

End Growth.

Section EmplaceBack.

Context {T W E A : Type} (el : ElemType T W E A) (al : Allocator W E).

Abbreviation state := (@state T W E).
Abbreviation Mach := (M state E).

Implicit Types (s : state) (p q : ptr) (b : nat) (cells : list (slot T)).

Lemma cells_of_snoc (xs : list T) v cap :
  Z.of_nat (length xs) + 1 ≤ cap →
  cells_of (xs ++ [v]) cap
  = (Some <$> xs) ++ Some v :: replicate (Z.to_nat cap - S (length xs)) None.
Proof.
  intros H. unfold cells_of. rewrite fmap_app, <- app_assoc, length_app. simpl.
  do 3 f_equal. lia.
Qed.

Lemma cells_of_room (xs : list T) cap :
  Z.of_nat (length xs) + 1 ≤ cap →
  cells_of xs cap
  = (Some <$> xs) ++ None :: replicate (Z.to_nat cap - S (length xs)) None.
Proof.
  intros H. unfold cells_of.
  replace (Z.to_nat cap - length xs)%nat with (S (Z.to_nat cap - S (length xs))) by lia.
  done.
Qed.

Lemma cells_of_full (xs : list T) : cells_of xs (Z.of_nat (length xs)) = Some <$> xs.
Proof.
  unfold cells_of. rewrite Nat2Z.id, Nat.sub_diag. apply app_nil_r.
Qed.

Lemma ptr_add_add p n m : p +ₚ n +ₚ m = p +ₚ (n + m).
Proof. unfold ptr_add. simpl. f_equal. lia. Qed.

Lemma holds_intro s this buf (xs : list T) cap len :
  objs s !! this = Some {| data_ := {| buffer_ := buf; capacity_ := cap |}; size_ := len |} →
  len = Z.of_nat (length xs) → len ≤ cap → cap * sizeof el ≤ PTRDIFF_MAX →
  owns s buf (cells_of xs cap) →
  holds el s this xs cap.
Proof. intros Hobj -> ???. by exists buf. Qed.

(** [EmplaceBack] when there is room. *)
Lemma wp_EmplaceBack_inplace this args s xs cap :
  Sane el al →
  holds el s this xs cap →
  Z.of_nat (length xs) + 1 ≤ cap →
  let len := Z.of_nat (length xs) in
  let buf := buffer_at s this in
  wp (EmplaceBack el al this args) s
    (fun p s' =>
       ∃ v bo, init_value el args v ∧
         buf = at_ bo 0 ∧ p = at_ bo (length xs) ∧
         heap s' = <[bo := cells_of (xs ++ [v]) cap]> (heap s) ∧
         objs s' = <[this := {| data_ := {| buffer_ := buf; capacity_ := cap |};
                                size_ := len + 1 |}]> (objs s) ∧
         holds el s' this (xs ++ [v]) cap ∧
         log s' = log s ++ [init_event (Slot p) args])
    (fun e s' =>
       env_raises el al e ∧ heap s' = heap s ∧ objs s' = objs s ∧
       log s' = log s ++ [EvRaise e]).
Proof.
  intros HS (buf0 & Hobj & Hlen & Hcap & Hoff & Hown) Hroom len buf.
  pose proof (sizeof_pos _ _ HS) as Hsz.
  assert (cap ≤ PTRDIFF_MAX) as HcapM by nia.
  assert (buf = buf0) as -> by (unfold buf, buffer_at; by rewrite Hobj).
  rewrite PTRDIFF_MAX_eq in *.
  destruct buf0 as [[bo|] o]; simpl in Hoff, Hown; subst o.
  2:{ apply (f_equal length) in Hown. unfold cells_of in Hown.
      rewrite length_app, length_replicate, length_fmap in Hown. simpl in Hown. lia. }
  change (Ptr (Some bo) 0) with (at_ bo 0) in *.
  rewrite cells_of_room in Hown by done.
  unfold EmplaceBack.
  wp_pure Capacity_eq. wp_pure Size_eq. simpl.
  fold len. rewrite (wrap_id (len + 1)) by (rewrite SIZE_MOD_eq; lia).
  rewrite decide_True by lia.
  apply wp_bind. unfold PlaceBackWithoutRealloc.
  wp_pure Capacity_eq. wp_pure Size_eq. simpl.
  fold len. rewrite (wrap_id (len + 1)) by (rewrite SIZE_MOD_eq; lia).
  rewrite decide_True by lia.
  wp_pure end_eq. simpl. fold len.
  rewrite (at_add bo 0) by lia. unfold len at 1. rewrite Nat2Z.id. simpl (0 + _)%nat.
  eapply wp_mono;
    [eapply wp_construct_at; [exact Hown|apply lookup_middle'; by rewrite length_fmap]
    | |by intros e s' (Hr & Hh & Ho & Hl)].
  intros [] s1 (v & Hv & Hh1 & Ho1 & Hl1).
  erewrite insert_middle' in Hh1 by (by rewrite length_fmap).
  rewrite <- cells_of_snoc in Hh1 by done.
  assert (objs s1 !! this = Some {| data_ := {| buffer_ := at_ bo 0; capacity_ := cap |};
                                    size_ := len |}) as Hobj1 by (by rewrite Ho1).
  wp_pure Size_eq. simpl.
  apply wp_bind. eapply wp_rewrite; [by eapply write_size_eq|]. cbv beta iota.
  apply wp_bind. eapply wp_rewrite; [apply end_eq, lookup_insert_eq|]. cbv beta iota.
  apply wp_ret. simpl.
  rewrite (wrap_id (len + 1)) by (rewrite SIZE_MOD_eq; lia).
  exists v, bo. split; [done|]. split; [done|].
  assert (at_ bo 0 +ₚ (len + 1) +ₚ -1 = at_ bo (length xs)) as ->.
  { unfold at_, ptr_add. simpl. f_equal. lia. }
  split; [done|]. split; [done|]. split; [by rewrite Ho1|]. split; [|done].
  eapply holds_intro; simpl.
  - apply lookup_insert_eq.
  - rewrite length_app. simpl. lia.
  - lia.
  - by rewrite PTRDIFF_MAX_eq.
  - split; [done|]. simpl. rewrite Hh1. apply lookup_insert_eq.
Qed.

Lemma grown_bounds len : 0 ≤ len → len + 1 ≤ grown len.
Proof. intros. unfold grown. destruct (decide (len = 0)); lia. Qed.

(** [EmplaceBack] on a vector that is full. *)
Lemma wp_EmplaceBack_realloc this args s xs b :
  Sane el al →
  let len := Z.of_nat (length xs) in
  let buf := buffer_at s this in
  holds el s this xs len →
  b = fresh (dom (heap s)) →
  wp (EmplaceBack el al this args) s
    (fun p s' =>
       ∃ v ys, init_value el args v ∧ Forall2 (transferred el) xs ys ∧
         p = at_ b (length xs) ∧ heap s !! b = None ∧
         heap s' = <[b := cells_of (ys ++ [v]) (grown len)]> (released buf (heap s)) ∧
         objs s' = <[this := {| data_ := {| buffer_ := at_ b 0; capacity_ := grown len |};
                                size_ := len + 1 |}]> (objs s) ∧
         holds el s' this (ys ++ [v]) (grown len) ∧
         log s' = log s
           ++ [EvNew b (grown len * sizeof el); init_event (Slot p) args]
           ++ ev_forward (ev_transfer el) (at_ b 0) buf (length xs)
           ++ ev_destroy buf (length xs)
           ++ ev_release buf)
    (fun e s' =>
       env_raises el al e ∧ objs s' = objs s ∧
       (∃ evs, log s' = log s ++ evs ∧ rolled_back e evs ∧
               transfers_by (ev_transfer el) evs) ∧
       (moving el = false → heap s' = heap s)).
Proof.
  intros HS len buf (buf0 & Hobj & _ & Hcap & Hown) Hb.
  pose proof (sizeof_pos _ _ HS) as Hsz.
  assert (len ≤ PTRDIFF_MAX) as HlenM by nia.
  assert (buf = buf0) as -> by (unfold buf, buffer_at; by rewrite Hobj).
  rewrite cells_of_full in Hown.
  unfold EmplaceBack.
  wp_pure Capacity_eq. wp_pure Size_eq. simpl. fold len.
  rewrite (wrap_id (len + 1)) by (rewrite SIZE_MOD_eq, PTRDIFF_MAX_eq in *; lia).
  rewrite decide_False by lia.
  apply wp_bind. wp_pure end_eq. simpl. fold len. apply wp_bind.
  eapply wp_mono;
    [eapply (wp_realloc el al this buf0 xs [] args s xs len b); eauto using app_nil_r| |done].
  intros r s1 (v & ys & ys2 & Hv & Hys & Hys2 & -> & Hfresh & Hg & Hh1 & Ho1 & Hl1).
  apply Forall2_nil_inv_l in Hys2 as ->.
  apply wp_ret.
  assert (length ys = length xs) as Hlys by (symmetry; eapply Forall2_length, Hys).
  assert (objs s1 !! this = Some {| data_ := {| buffer_ := at_ b 0; capacity_ := grown len |};
                                    size_ := len |}) as Hobj1
    by (rewrite Ho1; apply lookup_insert_eq).
  pose proof (grown_bounds len ltac:(lia)) as Hgb.
  wp_pure Size_eq. simpl.
  apply wp_bind. eapply wp_rewrite; [by eapply write_size_eq|]. cbv beta iota.
  apply wp_bind. eapply wp_rewrite; [apply end_eq, lookup_insert_eq|]. cbv beta iota.
  apply wp_ret. simpl.
  rewrite (wrap_id (len + 1)) by (rewrite SIZE_MOD_eq, PTRDIFF_MAX_eq in *; lia).
  exists v, ys. split; [done|]. split; [done|].
  assert (at_ b 0 +ₚ (len + 1) +ₚ -1 = at_ b (length xs)) as ->.
  { unfold at_, ptr_add. simpl. f_equal. lia. }
  split; [done|]. split; [done|].
  assert (heap s1 = <[b := cells_of (ys ++ [v]) (grown len)]> (released buf0 (heap s))) as Hh1'.
  { rewrite Hh1. f_equal. rewrite cells_of_snoc by lia. rewrite fmap_app, <- app_assoc.
    simpl. by rewrite Hlys. }
  split; [done|]. split; [by rewrite Ho1, insert_insert_eq|]. split.
  - eapply holds_intro; simpl.
    + apply lookup_insert_eq.
    + rewrite length_app, Hlys. simpl. lia.
    + lia.
    + done.
    + split; [done|]. simpl. rewrite Hh1'. apply lookup_insert_eq.
  - by rewrite Hl1.
Qed.

End EmplaceBack.

Section Reserve.

Context {T W E A : Type} (el : ElemType T W E A) (al : Allocator W E).

Abbreviation state := (@state T W E).
Abbreviation Mach := (M state E).

Implicit Types (s : state) (p q : ptr) (b : nat) (cells : list (slot T)).

(** [Reserve] beyond the capacity. *)
Lemma wp_Reserve_realloc this new_capacity s xs cap b :
  Sane el al →
  let len := Z.of_nat (length xs) in
  let buf := buffer_at s this in
  holds el s this xs cap →
  cap < new_capacity →
  new_capacity * sizeof el < SIZE_MOD →
  b = fresh (dom (heap s)) →
  wp (Reserve el al this new_capacity) s
    (fun _ s' =>
       ∃ ys, Forall2 (transferred el) xs ys ∧ heap s !! b = None ∧
         heap s' = <[b := cells_of ys new_capacity]> (released buf (heap s)) ∧
         objs s' = <[this := {| data_ := {| buffer_ := at_ b 0; capacity_ := new_capacity |};
                                size_ := len |}]> (objs s) ∧
         holds el s' this ys new_capacity ∧
         log s' = log s
           ++ [EvNew b (new_capacity * sizeof el)]
           ++ ev_forward (ev_transfer el) (at_ b 0) buf (length xs)
           ++ ev_destroy buf (length xs)
           ++ ev_release buf)
    (fun e s' =>
       env_raises el al e ∧ objs s' = objs s ∧
       (∃ evs, log s' = log s ++ evs ∧ rolled_back e evs ∧
               transfers_by (ev_transfer el) evs) ∧
       (moving el = false → heap s' = heap s)).
Proof.
  intros HS len buf (buf0 & Hobj & Hlen & Hcap & Hoff & Hown) Hnew Hfit Hb.
  pose proof (sizeof_pos _ _ HS) as Hsz.
  assert (buf = buf0) as -> by (unfold buf, buffer_at; by rewrite Hobj).
  unfold Reserve.
  wp_pure Capacity_eq. simpl. rewrite decide_False by lia.
  apply wp_bind.
  eapply wp_mono; [apply wp_RawMemory_ctor; [done|lia|done]| |].
  2:{ intros e s' (Hr & Hh & Ho & Hl). split; [done|]. split; [done|].
      split; [|done]. exists [EvRaise e]. split; [done|]. split; [by left|].
      auto with transfers. }
  intros new_data s1 (-> & Hfresh & Hbytes & Hh1 & Ho1 & Hl1).
  rewrite <- Hb in Hfresh, Hh1, Hl1 |- *.
  remember (new_capacity * sizeof el) as bytes eqn:Hbytesdef.
  unfold GetAddress, unwinding. cbn [buffer_].
  set (Xbody := fun (e : E) (sx : state) =>
    env_raises el al e ∧ is_Some (heap sx !! b) ∧ objs sx = objs s ∧
    (∃ mid, log sx = log s ++ EvNew b bytes :: mid ∧ EvRaise e ∈ mid ∧
            Forall (fun p => blk p = Some b) (constructed mid) ∧
            constructed mid ≡ₚ destroyed mid ∧
            transfers_by (ev_transfer el) mid) ∧
    (moving el = false → delete b (heap sx) = heap s)).
  set (Qbody := fun (_ : unit) (s3 : state) =>
    ∃ ys, Forall2 (transferred el) xs ys ∧
      heap s3 = <[b := cells_of ys new_capacity]>
                  (match blk buf0 with
                   | Some bo => <[bo := replicate (Z.to_nat cap) None]> (heap s)
                   | None => heap s
                   end) ∧
      objs s3 = objs s ∧
      log s3 = log s ++ [EvNew b bytes]
        ++ ev_forward (ev_transfer el) (at_ b 0) buf0 (length xs)
        ++ ev_destroy buf0 (length xs)).
  assert (objs s1 !! this = Some {| data_ := {| buffer_ := buf0; capacity_ := cap |};
                                    size_ := len |}) as Hobj1 by (by rewrite Ho1).
  apply wp_bind, wp_catch.
  eapply (wp_mono _ s1 Qbody _ Xbody _).
  3:{ intros e sx (Hr & [cells Hcells] & Hobjs & (mid & Hlog & Hin & Hblk & Hperm & Htr) & Hcopy).
      eapply wp_mono; [eapply wp_operator_delete, Hcells| |done].
      intros [] s' (Hh & Ho & Hl). split; [done|].
      rewrite Hh, Ho, Hl, Hlog. split; [done|]. split; [|done].
      exists (EvNew b bytes :: mid ++ [EvDelete b]).
      split; [by rewrite <- app_assoc|]. split; [right; by exists b, bytes, mid|].
      auto with transfers. }
  2:{ intros [] s3 (ys & Hys & Hh3 & Ho3 & Hl3).
      assert (objs s3 !! this = Some {| data_ := {| buffer_ := buf0; capacity_ := cap |};
                                        size_ := len |}) as Hobj3 by (by rewrite Ho3).
      assert (length ys = length xs) as Hlys by (symmetry; eapply Forall2_length, Hys).
      apply wp_bind. eapply wp_rewrite; [by apply Swap_data_eq|]. cbv beta iota. cbn [data_].
      assert (wp (RawMemory_dtor {| buffer_ := buf0; capacity_ := cap |})
                (set_objs (<[this := set_data_ {| buffer_ := at_ b 0;
                                                  capacity_ := new_capacity |}
                                       {| data_ := {| buffer_ := buf0; capacity_ := cap |};
                                          size_ := len |}]> (objs s3)) s3)
                (fun _ s4 =>
                   heap s4 = <[b := cells_of ys new_capacity]> (released buf0 (heap s)) ∧
                   objs s4 = <[this := {| data_ := {| buffer_ := at_ b 0;
                                                      capacity_ := new_capacity |};
                                          size_ := len |}]> (objs s) ∧
                   log s4 = log s3 ++ ev_release buf0)
                (fun _ _ => False)) as Hdtor.
      { unfold RawMemory_dtor, Deallocate. cbn [buffer_].
        destruct buf0 as [[bo|] o]; simpl in Hoff, Hown, Hh3; subst o.
        - assert (b ≠ bo) as Hne by (intros Heq; rewrite Heq, Hown in Hfresh; done).
          eapply wp_mono; [eapply (wp_operator_delete bo)| |done].
          { simpl. rewrite Hh3, lookup_insert_ne, lookup_insert_eq by done. done. }
          intros [] s4 (Hh4 & Ho4 & Hl4). simpl in Hh4, Ho4, Hl4.
          split; [|split].
          + rewrite Hh4, Hh3. unfold released. simpl.
            rewrite delete_insert_ne by done. by rewrite delete_insert_eq.
          + by rewrite Ho4, Ho3.
          + done.
        - eapply wp_rewrite; [reflexivity|]. simpl.
          split; [done|]. split; [by rewrite Ho3|]. by rewrite app_nil_r. }
      eapply wp_mono; [exact Hdtor| |done]. intros [] s4 (Hh4 & Ho4 & Hl4).
      exists ys. split; [done|]. split; [done|]. split; [done|]. split; [done|]. split.
      - eapply holds_intro; simpl.
        + rewrite Ho4. apply lookup_insert_eq.
        + unfold len. by rewrite Hlys.
        + lia.
        + pose proof (sizeof_max _ _ HS). lia.
        + split; [done|]. simpl. rewrite Hh4. apply lookup_insert_eq.
      - rewrite Hl4, Hl3. by rewrite <- !app_assoc. }
  (* the transfer *)
  wp_pure begin_eq. wp_pure Size_eq. simpl.
  fold (MoveOrCopy el buf0 len (at_ b 0)).
  destruct buf0 as [[bo|] o]; simpl in Hoff, Hown; subst o.
  - change (Ptr (Some bo) 0) with (at_ bo 0) in *.
    assert (b ≠ bo) as Hne by (intros Heq; rewrite Heq, Hown in Hfresh; done).
    remember (Z.to_nat cap - length xs)%nat as k eqn:Hk.
    remember (Z.to_nat new_capacity - length xs)%nat as k' eqn:Hk'.
    assert (replicate (Z.to_nat new_capacity) (None : slot T)
            = replicate (length xs) None ++ replicate k' None) as Hnewcells.
    { rewrite <- replicate_add. f_equal. lia. }
    rewrite Hnewcells in Hh1. unfold cells_of in Hown. rewrite <- Hk in Hown.
    apply wp_bind.
    eapply wp_mono;
      [eapply (wp_MoveOrCopy el al b bo (replicate k' None) (replicate k None) xs [] [] s1);
         [done|done| |]
      | |].
    { rewrite Hh1, lookup_insert_eq. done. }
    { rewrite Hh1, lookup_insert_ne, Hown by done. done. }
    2:{ intros e sx (Hr & m & xs' & Hm & Hlen' & Hcopy & Hhx & Hox & Hlx).
        simpl in Hhx, Hlx. rewrite Hh1 in Hhx. rewrite Ho1 in Hox. rewrite Hl1 in Hlx.
        split; [done|].
        split; [rewrite Hhx, lookup_insert_ne, lookup_insert_eq by done; eauto|].
        split; [done|]. split.
        2:{ intros Hmode. rewrite (Hcopy Hmode) in Hhx.
            rewrite Hhx, delete_insert_ne, delete_insert_eq, delete_id by done.
            by apply insert_id. }
        exists (ev_forward (ev_transfer el) (at_ b 0) (at_ bo 0) m
                  ++ [EvRaise e] ++ ev_destroy (at_ b 0) m).
        split; [rewrite Hlx; by rewrite <- !app_assoc|].
        split; [set_solver|].
        rewrite !constructed_app, !destroyed_app, constructed_transfer, destroyed_transfer,
          constructed_destroy, destroyed_destroy. simpl. rewrite app_nil_r.
        split; [apply ptr_seq_block|]. split; [done|].
        repeat apply transfers_by_app; auto with transfers. }
    intros [] s2 (ys & xs' & Hys & Hlen' & Hcopy & Hh2 & Ho2 & Hl2).
    simpl in Hh2, Hl2. rewrite Hh1 in Hh2. rewrite Ho1 in Ho2. rewrite Hl1 in Hl2.
    rewrite insert_over in Hh2 by done.
    unfold destroy_n. unfold len. rewrite Nat2Z.id, <- Hlen'.
    eapply wp_mono; [eapply (wp_destroy_loop el bo (replicate k None) xs' [] s2)| |done].
    { rewrite Hh2, lookup_insert_ne, lookup_insert_eq by done. done. }
    intros [] s3 (Hh3 & Ho3 & Hl3). simpl in Hh3, Hl3.
    rewrite Hh2 in Hh3. rewrite Ho2 in Ho3. rewrite Hl2 in Hl3.
    assert (length ys = length xs) as Hlys by (symmetry; eapply Forall2_length, Hys).
    exists ys. split; [done|]. simpl. split; [|split; [done|]].
    + rewrite Hh3. rewrite (insert_over _ bo b) by done.
      rewrite (insert_insert_ne _ bo b) by done.
      unfold cells_of. rewrite Hlys, <- Hk'. do 2 f_equal.
      rewrite Hlen', <- replicate_add. f_equal. lia.
    + rewrite Hl3, Hlen'. by rewrite <- !app_assoc.
  - unfold cells_of in Hown. destruct xs as [|x xs]; [|done]. simpl in *.
    apply wp_bind. eapply wp_rewrite; [apply MoveOrCopy_zero|]. cbv beta iota.
    eapply wp_rewrite; [apply destroy_n_zero|]. cbv beta iota.
    exists []. split; [constructor|]. simpl.
    split; [|split; [done|by rewrite Hl1]].
    rewrite Hh1. unfold cells_of. simpl. by rewrite Nat.sub_0_r.
Qed.

End Reserve.

Section Emplace.

Context {T W E A : Type} (el : ElemType T W E A) (al : Allocator W E).

Abbreviation state := (@state T W E).
Abbreviation Mach := (M state E).

Implicit Types (s : state) (p q : ptr) (b : nat) (cells : list (slot T)).

(** [Emplace] on a vector that is full. *)
Lemma wp_Emplace_realloc this args s xs1 xs2 b :
  Sane el al →
  let xs := xs1 ++ xs2 in
  let len := Z.of_nat (length xs) in
  let buf := buffer_at s this in
  holds el s this xs len →
  b = fresh (dom (heap s)) →
  wp (Emplace el al this (buf +ₚ Z.of_nat (length xs1)) args) s
    (fun p s' =>
       ∃ v ys1 ys2, init_value el args v ∧
         Forall2 (transferred el) xs1 ys1 ∧ Forall2 (transferred el) xs2 ys2 ∧
         p = at_ b (length xs1) ∧ heap s !! b = None ∧
         heap s' = <[b := cells_of (ys1 ++ v :: ys2) (grown len)]> (released buf (heap s)) ∧
         objs s' = <[this := {| data_ := {| buffer_ := at_ b 0; capacity_ := grown len |};
                                size_ := len + 1 |}]> (objs s) ∧
         holds el s' this (ys1 ++ v :: ys2) (grown len) ∧
         log s' = log s
           ++ [EvNew b (grown len * sizeof el); init_event (Slot p) args]
           ++ ev_forward (ev_transfer el) (at_ b 0) buf (length xs1)
           ++ ev_forward (ev_transfer el) (at_ b (S (length xs1)))
                (buf +ₚ Z.of_nat (length xs1)) (length xs2)
           ++ ev_destroy buf (length xs)
           ++ ev_release buf)
    (fun e s' =>
       env_raises el al e ∧ objs s' = objs s ∧
       (∃ evs, log s' = log s ++ evs ∧ rolled_back e evs ∧
               transfers_by (ev_transfer el) evs) ∧
       (moving el = false → heap s' = heap s)).
Proof.
  intros HS xs len buf (buf0 & Hobj & _ & Hcap & Hown) Hb.
  pose proof (sizeof_pos _ _ HS) as Hsz.
  assert (len ≤ PTRDIFF_MAX) as HlenM by nia.
  assert (buf = buf0) as -> by (unfold buf, buffer_at; by rewrite Hobj).
  unfold len in Hown. rewrite cells_of_full in Hown. fold len in Hown.
  assert (Z.of_nat (length xs1) ≤ len)
    by (unfold len, xs; rewrite length_app; lia).
  unfold Emplace.
  wp_pure begin_eq. wp_pure Capacity_eq. wp_pure Size_eq. simpl. fold len.
  assert (wrap (ptr_diff (buf0 +ₚ Z.of_nat (length xs1)) buf0) = Z.of_nat (length xs1)) as ->.
  { unfold ptr_diff, ptr_add. simpl. rewrite wrap_id; [lia|].
    rewrite SIZE_MOD_eq, PTRDIFF_MAX_eq in *. lia. }
  rewrite decide_False by lia.
  apply wp_bind, wp_bind.
  eapply wp_mono;
    [eapply (wp_realloc el al this buf0 xs1 xs2 args s xs len b); eauto| |done].
  intros r s1 (v & ys1 & ys2 & Hv & Hys1 & Hys2 & -> & Hfresh & Hg & Hh1 & Ho1 & Hl1).
  apply wp_ret.
  assert (length ys1 = length xs1) as Hlys1 by (symmetry; eapply Forall2_length, Hys1).
  assert (length ys2 = length xs2) as Hlys2 by (symmetry; eapply Forall2_length, Hys2).
  assert (objs s1 !! this = Some {| data_ := {| buffer_ := at_ b 0; capacity_ := grown len |};
                                    size_ := len |}) as Hobj1
    by (rewrite Ho1; apply lookup_insert_eq).
  pose proof (grown_bounds len ltac:(lia)) as Hgb.
  wp_pure Size_eq. simpl.
  apply wp_bind. eapply wp_rewrite; [by eapply write_size_eq|]. cbv beta iota.
  apply wp_bind. eapply wp_rewrite; [apply begin_eq, lookup_insert_eq|]. cbv beta iota.
  apply wp_ret. simpl.
  rewrite (wrap_id (len + 1)) by (rewrite SIZE_MOD_eq, PTRDIFF_MAX_eq in *; lia).
  exists v, ys1, ys2. do 3 (split; [done|]).
  rewrite (at_add b 0), Nat2Z.id by lia. simpl (0 + _)%nat.
  split; [done|]. split; [done|].
  assert (length (ys1 ++ v :: ys2) = S (length xs)) as Hlnew.
  { unfold xs. rewrite !length_app. simpl. lia. }
  assert (heap s1 = <[b := cells_of (ys1 ++ v :: ys2) (grown len)]> (released buf0 (heap s)))
    as Hh1'.
  { rewrite Hh1. f_equal. unfold cells_of. by rewrite Hlnew. }
  split; [done|]. split; [by rewrite Ho1, insert_insert_eq|]. split.
  - eapply holds_intro; simpl.
    + apply lookup_insert_eq.
    + rewrite Hlnew. unfold len. lia.
    + lia.
    + done.
    + split; [done|]. simpl. rewrite Hh1'. apply lookup_insert_eq.
  - by rewrite Hl1.
Qed.

Lemma wp_PlaceBackWithoutRealloc this args s bo (xs : list T) cap :
  objs s !! this = Some {| data_ := {| buffer_ := at_ bo 0; capacity_ := cap |};
                           size_ := Z.of_nat (length xs) |} →
  heap s !! bo = Some (cells_of xs cap) →
  Z.of_nat (length xs) + 1 ≤ cap → cap ≤ PTRDIFF_MAX →
  wp (PlaceBackWithoutRealloc el this args) s
    (fun _ s' =>
       ∃ v, init_value el args v ∧
         after s (<[bo := cells_of (xs ++ [v]) cap]> (heap s))
           [init_event (Slot (at_ bo (length xs))) args] s')
    (fun e s' => env_raises el al e ∧ after s (heap s) [EvRaise e] s').
Proof.
  intros Hobj Hown Hroom HcapM. rewrite PTRDIFF_MAX_eq in *.
  rewrite cells_of_room in Hown by done.
  unfold PlaceBackWithoutRealloc.
  wp_pure Capacity_eq. wp_pure Size_eq. simpl.
  rewrite wrap_id by (rewrite SIZE_MOD_eq; lia).
  rewrite decide_True by lia.
  wp_pure end_eq. simpl.
  rewrite (at_add bo 0) by lia. rewrite Nat2Z.id. simpl (0 + _)%nat.
  eapply wp_mono;
    [eapply (wp_construct_at el al); [exact Hown|apply lookup_middle'; by rewrite length_fmap]
    | |done].
  intros [] s1 (v & Hv & Hh1 & Ho1 & Hl1).
  erewrite insert_middle' in Hh1 by (by rewrite length_fmap).
  rewrite <- cells_of_snoc in Hh1 by done.
  by exists v.
Qed.

(** [Emplace] where there is room. *)
Lemma wp_Emplace_inplace this args s xs1 xs2 cap :
  Sane el al → Regular el →
  let xs := xs1 ++ xs2 in
  let len := Z.of_nat (length xs) in
  let buf := buffer_at s this in
  holds el s this xs cap →
  len + 1 ≤ cap →
  wp (Emplace el al this (buf +ₚ Z.of_nat (length xs1)) args) s
    (fun p s' =>
       ∃ v bo, init_value el args v ∧
         buf = at_ bo 0 ∧ p = at_ bo (length xs1) ∧
         heap s' = <[bo := cells_of (xs1 ++ v :: xs2) cap]> (heap s) ∧
         objs s' = <[this := {| data_ := {| buffer_ := buf; capacity_ := cap |};
                                size_ := len + 1 |}]> (objs s) ∧
         holds el s' this (xs1 ++ v :: xs2) cap ∧
         log s' = log s ++ ev_emplace_inplace bo (length xs1) (length xs2) args)
    (fun e s' => env_raises el al e).
Proof.
  intros HS Hreg xs len buf (buf0 & Hobj & Hlen & Hfits & Hoff & Hown) Hroom.
  pose proof (sizeof_pos _ _ HS) as Hsz.
  assert (cap ≤ PTRDIFF_MAX) as HcapM by nia.
  assert (cap * sizeof el ≤ PTRDIFF_MAX ↔ True) as Hfits' by done. clear Hfits.
  assert (buf = buf0) as -> by (unfold buf, buffer_at; by rewrite Hobj).
  assert (length xs = (length xs1 + length xs2)%nat) as Hlxs by apply length_app.
  assert (xs = xs1 ++ xs2) as Hxs by done.
  assert (len = Z.of_nat (length xs)) as Hlendef by done.
  fold len in Hobj, Hlen.
  clearbody len xs.
  rewrite PTRDIFF_MAX_eq in *.
  destruct buf0 as [[bo|] o]; simpl in Hoff, Hown; subst o.
  2:{ apply (f_equal length) in Hown. unfold cells_of in Hown.
      rewrite length_app, length_replicate, length_fmap in Hown. simpl in Hown. lia. }
  change (Ptr (Some bo) 0) with (at_ bo 0) in *.
  unfold Emplace.
  wp_pure begin_eq. wp_pure Capacity_eq. wp_pure Size_eq. simpl.
  assert (wrap (ptr_diff (at_ bo 0 +ₚ Z.of_nat (length xs1)) (at_ bo 0))
          = Z.of_nat (length xs1)) as ->.
  { unfold ptr_diff, ptr_add. simpl. rewrite wrap_id; [lia|]. rewrite SIZE_MOD_eq. lia. }
  rewrite decide_True by lia.
  apply wp_bind. wp_pure end_eq. simpl.
  assert (at_ bo 0 +ₚ Z.of_nat (length xs1) = at_ bo (length xs1)) as Hp1
    by (unfold at_, ptr_add; simpl; f_equal).
  assert (at_ bo 0 +ₚ len = at_ bo (length xs)) as Hp2
    by (unfold at_, ptr_add; simpl; f_equal; lia).
  rewrite !Hp1, !Hp2.
  (* what is left to do once the element is in place *)
  assert (∀ v s1,
            init_value el args v →
            after s (<[bo := cells_of (xs1 ++ v :: xs2) cap]> (heap s))
              (ev_emplace_inplace bo (length xs1) (length xs2) args) s1 →
            wp (Size this ≫= λ size, write_size_ this (wrap (size + 1)) ≫= λ _,
                  begin_ this ≫= λ first, mret (first +ₚ Z.of_nat (length xs1))) s1
              (fun p s' =>
                 ∃ v bo', init_value el args v ∧
                   at_ bo 0 = at_ bo' 0 ∧ p = at_ bo' (length xs1) ∧
                   heap s' = <[bo' := cells_of (xs1 ++ v :: xs2) cap]> (heap s) ∧
                   objs s' = <[this := {| data_ := {| buffer_ := at_ bo 0; capacity_ := cap |};
                                          size_ := len + 1 |}]> (objs s) ∧
                   holds el s' this (xs1 ++ v :: xs2) cap ∧
                   log s' = log s ++ ev_emplace_inplace bo' (length xs1) (length xs2) args)
              (fun e s' => env_raises el al e)) as Hfinish.
  { intros v s1 Hv (Hh1 & Ho1 & Hl1).
    assert (objs s1 !! this = Some {| data_ := {| buffer_ := at_ bo 0; capacity_ := cap |};
                                      size_ := len |}) as Hobj1 by (by rewrite Ho1).
    wp_pure Size_eq. simpl.
    apply wp_bind. eapply wp_rewrite; [by eapply write_size_eq|]. cbv beta iota.
    apply wp_bind. eapply wp_rewrite; [apply begin_eq, lookup_insert_eq|]. cbv beta iota.
    apply wp_ret. simpl.
    rewrite (wrap_id (len + 1)) by (rewrite SIZE_MOD_eq; lia).
    exists v, bo. split; [done|]. split; [done|].
    split; [done|]. split; [done|]. split; [by rewrite Ho1|]. split; [|done].
    eapply holds_intro; simpl.
    - apply lookup_insert_eq.
    - rewrite length_app. simpl. lia.
    - lia.
    - by apply Hfits'.
    - split; [done|]. simpl. rewrite Hh1. apply lookup_insert_eq. }
  destruct xs2 as [|l xs2' _] using rev_ind.
  - (* at the end *)
    rewrite app_nil_r in Hxs. subst xs.
    rewrite decide_False by (intros Hne; by apply Hne).
    eapply wp_mono;
      [eapply (wp_PlaceBackWithoutRealloc this args s bo xs1 cap);
         [by rewrite Hobj, Hlendef|done|lia|by rewrite PTRDIFF_MAX_eq]| |].
    + intros [] s1 (v & Hv & H1). eapply Hfinish; [exact Hv|]. exact H1.
    + by intros e s' [Hr _].
  - (* before the end *)
    rewrite length_app in Hlxs. simpl in Hlxs.
    rewrite decide_True by (unfold at_; intros [=]; lia).
    remember (length xs1 + length xs2')%nat as m eqn:Hm.
    assert (length xs = S m) as Hlxs' by lia.
    rewrite Hlxs'. rewrite at_pred.
    set (rest := replicate (Z.to_nat cap - S (S m)) (None : slot T)).
    assert (cells_of xs cap
            = (Some <$> xs1) ++ (Some <$> xs2') ++ Some l :: None :: rest) as Hcells.
    { unfold cells_of. rewrite Hxs, !fmap_app, <- !app_assoc. simpl. do 3 f_equal.
      unfold rest. rewrite <- replicate_S. f_equal. rewrite <- Hxs. lia. }
    rewrite Hcells in Hown.
    apply wp_bind.
    eapply wp_mono; [apply (wp_initialise el al)| |by intros e s' [Hr _]].
    intros v s1 (Hv & Hh1 & Ho1 & Hl1).
    assert (heap s1 !! bo = Some ((Some <$> xs1) ++ (Some <$> xs2') ++ Some l :: None :: rest))
      as Hb1 by (by rewrite Hh1).
    apply wp_bind. unfold unwinding. apply wp_catch, wp_bind.
    assert (length ((Some <$> xs1) ++ (Some <$> xs2')) = m) as Hlm
      by (by rewrite length_app, !length_fmap).
    eapply wp_mono;
      [eapply (wp_uninitialized_move_one el al Hreg bo _ (S m) m l s1); [lia|exact Hb1| |]| |].
    { rewrite app_assoc, (cons_middle (Some l)), app_assoc.
      apply lookup_middle'. rewrite length_app. simpl. lia. }
    { rewrite app_assoc. by apply lookup_middle'. }
    2:{ intros e sx Hr.
        eapply wp_mono; [apply (wp_destroy_temp el)| |done]. by intros [] sy _. }
    intros [] s2 (l' & Hh2 & Ho2 & Hl2).
    assert (heap s2 = <[bo := (Some <$> xs1) ++ (Some <$> xs2') ++ Some l' :: Some l :: rest]>
                        (heap s)) as Hh2'.
    { rewrite Hh2, Hh1. f_equal.
      rewrite (app_assoc (Some <$> xs1)).
      erewrite insert_middle' by done.
      rewrite (cons_middle (Some l')), app_assoc.
      erewrite insert_middle' by (rewrite length_app; simpl; lia).
      by rewrite <- !app_assoc. }
    clear Hh2.
    unfold std_move_backward, ptr_diff. simpl.
    replace (Z.to_nat (Z.of_nat m - Z.of_nat (length xs1))) with (length xs2') by lia.
    pose proof (wp_shift_right el al Hreg bo (Some <$> xs1) xs2' l' (Some l :: rest) s2) as Hsr.
    rewrite length_fmap, <- Hm in Hsr.
    eapply wp_mono; [apply Hsr; by rewrite Hh2', lookup_insert_eq| |].
    2:{ intros e sx Hr.
        eapply wp_mono; [apply (wp_destroy_temp el)| |done]. by intros [] sy _. }
    intros [] s3 (r & Hh3 & Ho3 & Hl3).
    rewrite Hh2', insert_insert_eq in Hh3.
    apply wp_bind.
    eapply wp_mono;
      [eapply (wp_move_assign_from_temp el al Hreg bo _ (length xs1) r v s3);
         [by rewrite Hh3, lookup_insert_eq|apply lookup_middle'; by rewrite length_fmap]
      | |done].
    intros [v' [e|]] s4 H4; simpl in H4.
    + apply wp_bind.
      eapply wp_mono; [apply (wp_destroy_temp el)| |done]. intros [] s5 _.
      simpl. by apply wp_throw.
    + apply wp_bind.
      eapply wp_mono; [apply (wp_destroy_temp el)| |done]. intros [] s5 (Hh5 & Ho5 & Hl5).
      simpl. apply wp_ret.
      destruct H4 as (Hh4 & Ho4 & Hl4).
      eapply Hfinish; [exact Hv|]. split; [|split].
      * rewrite Hh5, Hh4, Hh3, insert_insert_eq. f_equal.
        erewrite insert_middle' by (by rewrite length_fmap).
        unfold cells_of. rewrite !fmap_app, <- !app_assoc. simpl.
        rewrite fmap_app, <- !app_assoc. simpl. do 4 f_equal.
        rewrite !length_app. simpl. rewrite length_app. simpl.
        unfold rest. f_equal. lia.
      * by rewrite Ho5, Ho4, Ho3, Ho2, Ho1.
      * rewrite Hl5, Hl4, Hl3, Hl2, Hl1. rewrite length_app. simpl.
        rewrite Nat.add_1_r. simpl. rewrite <- Hm. by rewrite <- !app_assoc.
Qed.

End Emplace.

Section Removal.

Context {T W E A : Type} (el : ElemType T W E A) (al : Allocator W E).

Abbreviation state := (@state T W E).
Abbreviation Mach := (M state E).

Implicit Types (s : state) (p q : ptr) (b : nat) (cells : list (slot T)).

(** [Erase] of the element after [xs1]. *)
Lemma wp_Erase this s xs1 d xs2 cap :
  Sane el al → Regular el →
  let xs := xs1 ++ d :: xs2 in
  let buf := buffer_at s this in
  holds el s this xs cap →
  wp (Erase el this (buf +ₚ Z.of_nat (length xs1))) s
    (fun p s' =>
       ∃ bo, buf = at_ bo 0 ∧ p = at_ bo (length xs1) ∧
         heap s' = <[bo := cells_of (xs1 ++ xs2) cap]> (heap s) ∧
         objs s' = <[this := {| data_ := {| buffer_ := buf; capacity_ := cap |};
                                size_ := Z.of_nat (length xs) - 1 |}]> (objs s) ∧
         holds el s' this (xs1 ++ xs2) cap ∧
         log s' = log s
           ++ ev_forward EvMoveAssign (at_ bo (length xs1)) (at_ bo (S (length xs1)))
                (length xs2)
           ++ [EvDestroy (Slot (at_ bo (length xs1 + length xs2)))])
    (fun e s' => env_raises el al e).
Proof.
  intros HS Hreg xs buf (buf0 & Hobj & Hlen & Hfits & Hoff & Hown).
  pose proof (sizeof_pos _ _ HS) as Hsz.
  assert (cap ≤ PTRDIFF_MAX) as HcapM by nia.
  assert (cap * sizeof el ≤ PTRDIFF_MAX ↔ True) as Hfits' by done. clear Hfits.
  assert (buf = buf0) as -> by (unfold buf, buffer_at; by rewrite Hobj).
  assert (length xs = S (length xs1 + length xs2)) as Hlxs
    by (unfold xs; rewrite length_app; simpl; lia).
  assert (xs = xs1 ++ d :: xs2) as Hxs by done.
  clearbody xs.
  rewrite PTRDIFF_MAX_eq in *.
  destruct buf0 as [[bo|] o]; simpl in Hoff, Hown; subst o.
  2:{ apply (f_equal length) in Hown. unfold cells_of in Hown.
      rewrite length_app, length_replicate, length_fmap in Hown. simpl in Hown. lia. }
  change (Ptr (Some bo) 0) with (at_ bo 0) in *.
  remember (length xs1) as n1 eqn:Hn1. remember (length xs2) as n2 eqn:Hn2.
  set (rest := replicate (Z.to_nat cap - length xs) (None : slot T)).
  assert (cells_of xs cap = (Some <$> xs1) ++ Some d :: (Some <$> xs2) ++ rest) as Hcells.
  { unfold cells_of. rewrite Hxs at 1. rewrite fmap_app, <- app_assoc. done. }
  rewrite Hcells in Hown.
  unfold Erase.
  wp_pure begin_eq. wp_pure end_eq. simpl.
  assert (wrap (ptr_diff (at_ bo 0 +ₚ Z.of_nat n1) (at_ bo 0)) = Z.of_nat n1) as ->.
  { unfold ptr_diff, ptr_add. simpl. rewrite wrap_id; [lia|]. rewrite SIZE_MOD_eq. lia. }
  assert (at_ bo 0 +ₚ Z.of_nat n1 = at_ bo n1) as Hp1
    by (unfold at_, ptr_add; simpl; f_equal).
  assert (at_ bo 0 +ₚ Z.of_nat (length xs) = at_ bo (length xs)) as Hp2
    by (unfold at_, ptr_add; simpl; f_equal).
  rewrite !Hp1, !Hp2. rewrite at_succ.
  unfold std_move, ptr_diff. simpl.
  replace (Z.to_nat (Z.of_nat (length xs) - Z.of_nat (S n1))) with (length xs2) by lia.
  pose proof (wp_shift_left el al Hreg bo rest xs2 d (Some <$> xs1) s Hown) as Hsl.
  rewrite length_fmap, <- Hn1 in Hsl.
  apply wp_bind.
  eapply wp_mono; [exact Hsl| |done].
  intros [] s1 (r & Hh1 & Ho1 & Hl1).
  rewrite Hlxs, at_pred.
  apply wp_bind.
  eapply wp_mono;
    [eapply (wp_destroy_at el bo (n1 + n2) _ r);
       [by rewrite Hh1, lookup_insert_eq|]
    | |done].
  { rewrite app_assoc. apply lookup_middle'. rewrite length_app, !length_fmap. lia. }
  intros [] s2 (Hh2 & Ho2 & Hl2).
  rewrite Hh1, insert_insert_eq in Hh2.
  assert (objs s2 !! this
          = Some {| data_ := {| buffer_ := at_ bo 0; capacity_ := cap |};
                    size_ := Z.of_nat (length xs) |}) as Hobj2 by (by rewrite Ho2, Ho1).
  wp_pure Size_eq. simpl.
  apply wp_bind. eapply wp_rewrite; [by eapply write_size_eq|]. cbv beta iota.
  apply wp_ret. simpl.
  rewrite wrap_id by (rewrite SIZE_MOD_eq; lia).
  exists bo. split; [done|]. split; [done|].
  assert (heap s2 = <[bo := cells_of (xs1 ++ xs2) cap]> (heap s)) as Hh2'.
  { rewrite Hh2. f_equal. rewrite app_assoc.
    erewrite insert_middle' by (rewrite length_app, !length_fmap; lia).
    rewrite <- app_assoc.
    unfold cells_of. rewrite fmap_app, <- app_assoc. do 2 f_equal.
    unfold rest. rewrite <- replicate_S. f_equal. rewrite length_app. lia. }
  split; [done|]. split; [by rewrite Ho2, Ho1, Hlxs|]. split.
  - eapply holds_intro; simpl.
    + apply lookup_insert_eq.
    + rewrite length_app. lia.
    + lia.
    + by apply Hfits'.
    + split; [done|]. simpl. rewrite Hh2'. apply lookup_insert_eq.
  - rewrite Hl2, Hl1, <- Hn2. by rewrite <- app_assoc.
Qed.

(** [PopBack] on a vector that is not empty. *)
Lemma wp_PopBack this s xs x cap :
  Sane el al →
  let buf := buffer_at s this in
  holds el s this (xs ++ [x]) cap →
  wp (PopBack el this) s
    (fun _ s' =>
       ∃ bo, buf = at_ bo 0 ∧
         heap s' = <[bo := cells_of xs cap]> (heap s) ∧
         objs s' = <[this := {| data_ := {| buffer_ := buf; capacity_ := cap |};
                                size_ := Z.of_nat (length xs) |}]> (objs s) ∧
         holds el s' this xs cap ∧
         log s' = log s ++ [EvDestroy (Slot (at_ bo (length xs)))])
    (fun _ _ => False).
Proof.
  intros HS buf (buf0 & Hobj & Hlen & Hfits & Hoff & Hown).
  pose proof (sizeof_pos _ _ HS) as Hsz.
  assert (cap ≤ PTRDIFF_MAX) as HcapM by nia.
  assert (cap * sizeof el ≤ PTRDIFF_MAX ↔ True) as Hfits' by done. clear Hfits.
  assert (buf = buf0) as -> by (unfold buf, buffer_at; by rewrite Hobj).
  rewrite length_app in Hobj, Hlen. simpl in Hobj, Hlen.
  rewrite PTRDIFF_MAX_eq in *.
  destruct buf0 as [[bo|] o]; simpl in Hoff, Hown; subst o.
  2:{ apply (f_equal length) in Hown. unfold cells_of in Hown.
      rewrite length_app, length_replicate, length_fmap, length_app in Hown.
      simpl in Hown. lia. }
  change (Ptr (Some bo) 0) with (at_ bo 0) in *.
  rewrite cells_of_snoc in Hown by lia.
  unfold PopBack.
  wp_pure end_eq. simpl.
  assert (at_ bo 0 +ₚ Z.of_nat (length xs + 1) +ₚ -1 = at_ bo (length xs)) as ->
    by (unfold at_, ptr_add; simpl; f_equal; lia).
  unfold destroy_n. change (Z.to_nat 1) with 1%nat. simpl.
  apply wp_bind, wp_bind.
  eapply wp_mono;
    [eapply (wp_destroy_at el bo (length xs) _ x);
       [exact Hown|apply lookup_middle'; by rewrite length_fmap]
    | |done].
  intros [] s1 (Hh1 & Ho1 & Hl1).
  erewrite insert_middle' in Hh1 by (by rewrite length_fmap).
  apply wp_ret.
  assert (objs s1 !! this
          = Some {| data_ := {| buffer_ := at_ bo 0; capacity_ := cap |};
                    size_ := Z.of_nat (length xs + 1) |}) as Hobj1 by (by rewrite Ho1).
  wp_pure Size_eq. simpl. rewrite decide_True by lia.
  eapply wp_rewrite; [by eapply write_size_eq|]. cbv beta iota. simpl.
  rewrite wrap_id by (rewrite SIZE_MOD_eq; lia).
  replace (Z.of_nat (length xs + 1) - 1) with (Z.of_nat (length xs)) by lia.
  exists bo. split; [done|].
  assert (heap s1 = <[bo := cells_of xs cap]> (heap s)) as Hh1'.
  { rewrite Hh1. f_equal. unfold cells_of. f_equal. rewrite <- replicate_S. f_equal. lia. }
  split; [done|]. split; [by rewrite Ho1|]. split; [|done].
  eapply holds_intro; simpl.
  - apply lookup_insert_eq.
  - done.
  - lia.
  - by apply Hfits'.
  - split; [done|]. simpl. rewrite Hh1'. apply lookup_insert_eq.
Qed.

(** [PopBack] on an empty vector: the slot before [end()] that it destroys
    is no slot of any block, and the behaviour is undefined. *)
Lemma PopBack_empty this s cap :
  holds el s this [] cap →
  cell s (buffer_at s this +ₚ 0 +ₚ (-1)) = None ∧
  PopBack el this s = Undefined.
Proof.
  intros (buf0 & Hobj & Hlen & Hfits & Hoff & Hown).
  assert (buffer_at s this = buf0) as -> by (unfold buffer_at; by rewrite Hobj).
  assert (cell s (buf0 +ₚ 0 +ₚ -1) = None) as Hcell.
  { apply cell_negative. simpl. lia. }
  split; [done|].
  unfold PopBack, mbind, M_bind, bind. erewrite end_eq by exact Hobj.
  cbn [data_ buffer_ size_ length]. change (Z.of_nat 0) with 0.
  unfold destroy_n. change (Z.to_nat 1) with 1%nat.
  unfold destroy_loop, destroy_at, load, mbind, M_bind, bind.
  by rewrite Hcell.
Qed.

End Removal.

Section CopyAssign.

Context {T W E A : Type} (el : ElemType T W E A) (al : Allocator W E).

Abbreviation state := (@state T W E).
Abbreviation Mach := (M state E).

Implicit Types (s : state) (p q : ptr) (b : nat) (cells : list (slot T)).

Lemma forward_loop_zero step p q s : forward_loop (T:=T) (W:=W) (E:=E) step p 0 q s = Ok tt s.
Proof. done. Qed.

Lemma std_copy_empty p q s : std_copy el p (p +ₚ 0) q s = Ok tt s.
Proof. unfold std_copy, ptr_diff. simpl. by rewrite Z.add_0_r, Z.sub_diag. Qed.

Lemma uninitialized_copy_zero p q s : uninitialized_copy_n el p 0 q s = Ok tt s.
Proof. done. Qed.

Lemma Forall3_copies_regular xs ys xs' :
  Regular el → Forall3 (copies el) xs ys xs' → ys = xs.
Proof.
  intros Hreg. induction 1 as [|x y x' xs ys xs' [_ [w Hc]] _ IH]; [done|].
  f_equal; [|done]. by eapply (copy_ctor_value _ Hreg).
Qed.

(** The two loops of the branch [rhs.size_ >= size_]. *)
Lemma wp_assign_grow this cap bt br (xs ys1 ys2 : list T) (restr : list (slot T)) k s :
  Regular el → bt ≠ br →
  length ys1 = length xs → (length ys2 ≤ k)%nat →
  objs s !! this = Some {| data_ := {| buffer_ := at_ bt 0; capacity_ := cap |};
                           size_ := Z.of_nat (length xs) |} →
  heap s !! bt = Some ((Some <$> xs) ++ replicate k None) →
  heap s !! br = Some ((Some <$> ys1 ++ ys2) ++ restr) →
  wp (std_copy el (at_ br 0) (at_ br (length xs)) (at_ bt 0) ≫= λ _,
        end_ this ≫= λ last,
        uninitialized_copy_n el (at_ br (length xs)) (Z.of_nat (length ys2)) last) s
    (fun _ =>
       after s (<[bt := (Some <$> ys1 ++ ys2) ++ replicate (k - length ys2) None]> (heap s))
         (ev_forward EvCopyAssign (at_ bt 0) (at_ br 0) (length xs)
          ++ ev_forward EvCopyConstruct (at_ bt (length xs)) (at_ br (length xs))
               (length ys2)))
    (fun e _ => env_raises el al e).
Proof.
  intros Hreg Hne Hl1 Hl2 Hobj Ht Hr.
  rewrite fmap_app, <- app_assoc in Hr.
  apply wp_bind. unfold std_copy, ptr_diff. simpl.
  replace (Z.to_nat (Z.of_nat (length xs) - Z.of_nat 0)) with (length ys1) by lia.
  eapply wp_mono;
    [eapply (wp_forward_copy el al Hreg bt br (replicate k None)
               ((Some <$> ys2) ++ restr) ys1 xs [] [] s); [done|lia|done|done]
    | |done].
  intros [] s1 (Hh1 & Ho1 & Hl1'). simpl in Hh1, Hl1'.
  replace k with (length ys2 + (k - length ys2))%nat in Hh1 by lia.
  rewrite replicate_add in Hh1.
  assert (objs s1 !! this = Some {| data_ := {| buffer_ := at_ bt 0; capacity_ := cap |};
                                    size_ := Z.of_nat (length xs) |}) as Hobj1
    by (by rewrite Ho1).
  wp_pure end_eq. cbn [data_ buffer_ size_].
  rewrite at_add, Nat2Z.id, Nat.add_0_l by lia.
  unfold uninitialized_copy_n.
  replace (at_ br (length xs)) with (at_ br (length (Some <$> ys1)))
    by (by rewrite length_fmap, Hl1).
  replace (at_ bt (length xs)) with (at_ bt (length (Some <$> ys1)))
    by (by rewrite length_fmap, Hl1).
  eapply wp_mono;
    [eapply (wp_uninitialized el al _ _ _ _ (copy_construct_at_step el al) bt br Hne
               (replicate (k - length ys2) None) restr ys2 (Some <$> ys1) (Some <$> ys1) s1);
       [done| |]
    | |by intros e s' [Hr' _]].
  { rewrite Hh1. apply lookup_insert_eq. }
  { rewrite Hh1, lookup_insert_ne by done. done. }
  intros [] s2 (ys2' & xs' & HF & Hh2 & Ho2 & Hl2').
  pose proof HF as HF'. apply Forall3_copies in HF' as [-> _].
  apply (Forall3_copies_regular _ _ _ Hreg) in HF. subst ys2'.
  split; [|split].
  - rewrite Hh2, Hh1. rewrite (insert_id _ br).
    + rewrite insert_insert_eq. by rewrite fmap_app, <- app_assoc.
    + by rewrite lookup_insert_ne by done.
  - by rewrite Ho2, Ho1.
  - rewrite Hl2', Hl1', <- app_assoc, !length_fmap, Hl1. done.
Qed.

(** The two loops of the branch [rhs.size_ < size_]. *)
Lemma wp_assign_shrink bt br (xs1 xs2 ys : list T) (restr : list (slot T)) k s :
  Regular el → bt ≠ br →
  length xs1 = length ys →
  heap s !! bt = Some ((Some <$> xs1 ++ xs2) ++ replicate k None) →
  heap s !! br = Some ((Some <$> ys) ++ restr) →
  wp (std_copy el (at_ br 0) (at_ br (length ys)) (at_ bt 0) ≫= λ _,
        destroy_n el (at_ bt (length ys)) (Z.of_nat (length xs2))) s
    (fun _ =>
       after s (<[bt := (Some <$> ys) ++ replicate (length xs2 + k) None]> (heap s))
         (ev_forward EvCopyAssign (at_ bt 0) (at_ br 0) (length ys)
          ++ ev_destroy (at_ bt (length ys)) (length xs2)))
    (fun e _ => env_raises el al e).
Proof.
  intros Hreg Hne Hl1 Ht Hr.
  rewrite fmap_app, <- app_assoc in Ht.
  apply wp_bind. unfold std_copy, ptr_diff. simpl.
  replace (Z.to_nat (Z.of_nat (length ys) - Z.of_nat 0)) with (length ys) by lia.
  eapply wp_mono;
    [eapply (wp_forward_copy el al Hreg bt br ((Some <$> xs2) ++ replicate k None)
               restr ys xs1 [] [] s); [done|lia|done|done]
    | |done].
  intros [] s1 (Hh1 & Ho1 & Hl1'). simpl in Hh1, Hl1'.
  unfold destroy_n. rewrite Nat2Z.id.
  replace (at_ bt (length ys)) with (at_ bt (length (Some <$> ys)))
    by (by rewrite length_fmap).
  eapply wp_mono;
    [eapply (wp_destroy_loop el bt (replicate k None) xs2 (Some <$> ys) s1)| |done].
  { rewrite Hh1. apply lookup_insert_eq. }
  intros [] s2 (Hh2 & Ho2 & Hl2').
  split; [|split].
  - rewrite Hh2, Hh1, insert_insert_eq. by rewrite replicate_add.
  - by rewrite Ho2, Ho1.
  - rewrite Hl2', Hl1', <- app_assoc, !length_fmap. done.
Qed.

(** Copy assignment from another vector whose elements fit in the capacity
    of the destination. *)
Lemma wp_Vector_copy_assign_fits this rhs s (xs ys : list T) cap capr :
  Sane el al → Regular el → this ≠ rhs →
  holds el s this xs cap → holds el s rhs ys capr →
  Z.of_nat (length ys) ≤ cap →
  buffer_at s this = nullptr ∨ buffer_at s this ≠ buffer_at s rhs →
  let buf := buffer_at s this in
  wp (Vector_copy_assign el al this rhs) s
    (fun _ s' =>
       heap s' = match blk buf with
                 | Some bt => <[bt := cells_of ys cap]> (heap s)
                 | None => heap s
                 end ∧
       objs s' = <[this := {| data_ := {| buffer_ := buf; capacity_ := cap |};
                              size_ := Z.of_nat (length ys) |}]> (objs s) ∧
       log s' = log s ++ ev_copy_assign buf (buffer_at s rhs) (length xs) (length ys))
    (fun e _ => env_raises el al e).
Proof.
  intros HS Hreg Hne (buf0 & Hobj & Hlen & Hfits & Hoff & Hown)
    (bufr & Hobjr & Hlenr & Hfitsr & Hoffr & Hownr) Hle Hsep buf.
  pose proof (sizeof_pos _ _ HS) as Hsz.
  assert (cap ≤ PTRDIFF_MAX) as HcapM by nia.
  assert (capr ≤ PTRDIFF_MAX) as HcaprM by nia.
  clear Hfits Hfitsr.
  assert (buffer_at s rhs = bufr) as Hbr by (unfold buffer_at; by rewrite Hobjr).
  assert (buf = buf0) as Hb by (unfold buf, buffer_at; by rewrite Hobj).
  rewrite Hbr. fold buf in Hsep. rewrite Hbr in Hsep. rewrite Hb in *. clear buf Hb Hbr.
  rewrite PTRDIFF_MAX_eq in *.
  unfold Vector_copy_assign. rewrite decide_True by done.
  wp_pure Size_eq. wp_pure Capacity_eq. simpl.
  destruct (decide (Z.of_nat (length ys) > cap)) as [?|_]; [lia|].
  apply wp_bind.
  (* the assignment of the elements *)
  eapply (wp_mono _ s
            (fun _ s1 => after s (match blk buf0 with
                                  | Some bt => <[bt := cells_of ys cap]> (heap s)
                                  | None => heap s
                                  end)
                           (ev_copy_assign buf0 bufr (length xs) (length ys)) s1)
            _ (fun e _ => env_raises el al e)); [| |done].
  2:{ intros [] s1 (Hh1 & Ho1 & Hl1).
      assert (objs s1 !! rhs = Some {| data_ := {| buffer_ := bufr; capacity_ := capr |};
                                       size_ := Z.of_nat (length ys) |}) as Hobjr1
        by (by rewrite Ho1).
      assert (objs s1 !! this = Some {| data_ := {| buffer_ := buf0; capacity_ := cap |};
                                        size_ := Z.of_nat (length xs) |}) as Hobj1
        by (by rewrite Ho1).
      wp_pure Size_eq. simpl.
      eapply wp_rewrite; [by eapply write_size_eq|]. cbv beta iota. simpl.
      by rewrite Ho1. }
  wp_pure Size_eq. wp_pure begin_eq. wp_pure begin_eq. simpl.
  destruct ys as [|y ys'].
  - (* nothing to copy *)
    cbn [length] in *. change (Z.of_nat 0) with 0 in *. destruct xs as [|x xs'].
    + cbn [length] in *. change (Z.of_nat 0) with 0 in *.
      rewrite decide_True by lia.
      apply wp_bind. eapply wp_rewrite; [apply std_copy_empty|]. cbv beta iota.
      wp_pure end_eq. change (wrap (0 - 0)) with 0.
      eapply wp_rewrite; [apply uninitialized_copy_zero|]. cbv beta iota.
      unfold ev_copy_assign. simpl.
      split; [|split; [done|by rewrite app_nil_r]].
      destruct buf0 as [[bt|] o]; simpl in *; [|done].
      symmetry. by apply insert_id.
    + rewrite decide_False by (cbn [length]; lia).
      wp_pure end_eq. cbn [size_ data_ buffer_].
      apply wp_bind. eapply wp_rewrite; [apply std_copy_empty|]. cbv beta iota.
      destruct buf0 as [[bt|] o]; simpl in Hoff, Hown; subst o.
      2:{ done. }
      change (Ptr (Some bt) 0) with (at_ bt 0) in *.
      assert (at_ bt 0 +ₚ 0 = at_ bt (length (@nil (slot T)))) as ->
        by (unfold at_, ptr_add; simpl; f_equal).
      rewrite Z.sub_0_r. rewrite wrap_id by (rewrite SIZE_MOD_eq; simpl length in *; lia).
      unfold destroy_n. rewrite Nat2Z.id.
      eapply wp_mono;
        [eapply (wp_destroy_loop el bt (replicate (Z.to_nat cap - length (x :: xs')) None)
                   (x :: xs') [] s); exact Hown
        | |done].
      intros [] s1 (Hh1 & Ho1 & Hl1).
      split; [|split; [done|]].
      * rewrite Hh1, <- replicate_add. unfold cells_of.
        cbn [blk fmap list_fmap app]. do 2 f_equal. cbn [length] in *. lia.
      * rewrite Hl1. unfold ev_copy_assign. simpl. done.
  - (* both vectors have a block *)
    destruct bufr as [[br|] o]; simpl in Hoffr, Hownr; subst o; [|done].
    destruct buf0 as [[bt|] o]; simpl in Hoff, Hown; subst o.
    2:{ apply (f_equal length) in Hown. unfold cells_of in Hown.
        rewrite length_app, length_replicate, length_fmap in Hown.
        simpl length in *. lia. }
    assert (bt ≠ br) as Hbne by (destruct Hsep as [Hn|Hn]; [by inversion Hn|intros ->; by apply Hn]).
    change (Ptr (Some bt) 0) with (at_ bt 0) in *.
    change (Ptr (Some br) 0) with (at_ br 0) in *.
    remember (y :: ys') as ys eqn:Hys. clear Hsep.
    simpl blk. unfold ev_copy_assign.
    destruct (decide (Z.of_nat (length ys) >= Z.of_nat (length xs))) as [Hge|Hlt].
    + rewrite decide_True by lia.
      rewrite wrap_id by (rewrite SIZE_MOD_eq; lia).
      rewrite <- (take_drop (length xs) ys) in Hownr.
      assert (length (take (length xs) ys) = length xs) as Hl1
        by (rewrite length_take; lia).
      assert (length (drop (length xs) ys) = (length ys - length xs)%nat) as Hl2
        by (by rewrite length_drop).
      unfold cells_of in Hown, Hownr.
      rewrite !at_add, !Nat2Z.id, !Nat.add_0_l by lia.
      replace (Z.of_nat (length ys) - Z.of_nat (length xs))
        with (Z.of_nat (length (drop (length xs) ys))) by lia.
      eapply wp_mono;
        [eapply (wp_assign_grow this cap bt br xs _ _ _ (Z.to_nat cap - length xs)%nat s
                   Hreg Hbne Hl1
                   ltac:(rewrite Hl2; lia) Hobj Hown Hownr)
        | |done].
      intros [] s1 (Hh1 & Ho1 & Hl1'). rewrite take_drop, Hl2 in Hh1.
      split; [|split; [done|]].
      * rewrite Hh1. unfold cells_of. do 3 f_equal. lia.
      * rewrite Hl1', Hl2. done.
    + rewrite decide_False by lia.
      wp_pure end_eq. cbn [data_ buffer_ size_].
      rewrite wrap_id by (rewrite SIZE_MOD_eq; lia).
      rewrite <- (take_drop (length ys) xs) in Hown.
      assert (length (take (length ys) xs) = length ys) as Hl1
        by (rewrite length_take; lia).
      assert (length (drop (length ys) xs) = (length xs - length ys)%nat) as Hl2
        by (by rewrite length_drop).
      unfold cells_of in Hown, Hownr.
      rewrite !at_add, !Nat2Z.id, !Nat.add_0_l by lia.
      replace (Z.of_nat (length xs) - Z.of_nat (length ys))
        with (Z.of_nat (length (drop (length ys) xs))) by lia.
      eapply wp_mono;
        [eapply (wp_assign_shrink bt br _ _ ys _ _ s Hreg Hbne Hl1 Hown Hownr)
        | |done].
      intros [] s1 (Hh1 & Ho1 & Hl1'). rewrite Hl2, take_drop in Hh1.
      split; [|split; [done|]].
      * rewrite Hh1. unfold cells_of. do 3 f_equal. lia.
      * rewrite Hl1', Hl2. done.
Qed.

End CopyAssign.

Section Moves.

Context {T W E A : Type} (el : ElemType T W E A) (al : Allocator W E).

Abbreviation state := (@state T W E).
Abbreviation Mach := (M state E).

Implicit Types (s : state) (p q : ptr) (b : nat) (cells : list (slot T)).

(** Move construction: the new object is the old value of [other], and
    [other] is left with a null buffer, no capacity and no size. *)
Lemma Vector_move_ctor_eq other v s :
  objs s !! other = Some v →
  Vector_move_ctor other s = Ok v (with_obj other Vector_default s).
Proof.
  intros H. unfold Vector_move_ctor, obj, with_local, mbind, M_bind, bind. rewrite H.
  unfold RawMemory_move_assign, with_obj. simpl.
  rewrite !lookup_insert_eq, H. simpl. rewrite !insert_insert_eq.
  by destruct v as [[buf cap] sz].
Qed.

(** Move assignment between two distinct objects. *)
Lemma Vector_move_assign_distinct this rhs vt vr s :
  this ≠ rhs →
  objs s !! this = Some vt → objs s !! rhs = Some vr →
  Vector_move_assign this rhs s
  = Ok tt (with_obj rhs Vector_default (with_obj this vr s)).
Proof.
  intros Hne Ht Hr.
  unfold Vector_move_assign, obj, on_store, modify, mbind, M_bind, bind. rewrite Ht, Hr.
  unfold RawMemory_move_assign, with_obj. simpl.
  repeat (rewrite ?lookup_insert_eq, ?Ht, ?Hr, ?insert_insert_eq; simpl;
          try rewrite lookup_insert_ne by done; simpl).
  by destruct vr as [[buf cap] sz].
Qed.

(** Move assignment of an object to itself. *)
Lemma Vector_move_assign_self this v s :
  objs s !! this = Some v →
  Vector_move_assign this this s = Ok tt (with_obj this Vector_default s).
Proof.
  intros Ht.
  unfold Vector_move_assign, obj, on_store, modify, mbind, M_bind, bind. rewrite Ht.
  unfold RawMemory_move_assign, with_obj. simpl.
  repeat (rewrite ?lookup_insert_eq, ?Ht, ?insert_insert_eq; simpl).
  done.
Qed.

Lemma view_default this s :
  objs s !! this = Some Vector_default → view el s this = Some ([], 0).
Proof.
  intros H. apply holds_view. exists nullptr.
  split; [done|]. split; [done|]. split; [by rewrite PTRDIFF_MAX_eq|]. done.
Qed.

End Moves.

Lemma grown_max len : 0 ≤ len → grown len = Z.max 1 (len * 2).
Proof. intros. unfold grown. destruct (decide (len = 0)); lia. Qed.

Lemma pow2cap_ge n : 0 ≤ n → n ≤ pow2cap n.
Proof.
  intros Hn. unfold pow2cap. destruct (decide (n = 0)) as [->|Hne]; [done|].
  destruct (decide (n = 1)) as [->|Hn1]; [done|].
  pose proof (Z.log2_up_spec n). lia.
Qed.

Lemma pow2cap_step n : 0 ≤ n → cap_after_push n (pow2cap n) = pow2cap (n + 1).
Proof.
  intros Hn.
  destruct (decide (n = 0)) as [->|Hne]; [done|].
  destruct (decide (n = 1)) as [->|Hn1]; [done|].
  unfold cap_after_push, pow2cap.
  rewrite (decide_False (P := n = 0)), (decide_False (P := n + 1 = 0)) by lia.
  pose proof (Z.log2_up_spec n ltac:(lia)) as [Hlo Hhi].
  pose proof (Z.log2_up_nonneg n) as Hk.
  set (k := Z.log2_up n) in *.
  assert (0 < k) as Hkpos.
  { destruct (decide (k = 0)) as [Hk0|]; [|lia]. rewrite Hk0 in Hhi. simpl in Hhi. lia. }
  assert (2 ^ k = 2 * 2 ^ Z.pred k) as Hpow.
  { rewrite <- Z.pow_succ_r by lia. f_equal. lia. }
  destruct (decide (n + 1 ≤ 2 ^ k)) as [Hfit|Hfull].
  - f_equal. symmetry. apply Z.log2_up_unique; [done|]. lia.
  - assert (n = 2 ^ k) as Hnk by lia.
    unfold grown. rewrite decide_False by lia.
    rewrite (Z.log2_up_unique (n + 1) (Z.succ k)).
    + rewrite Z.pow_succ_r by lia. lia.
    + lia.
    + rewrite Z.pred_succ, Z.pow_succ_r by lia. lia.
Qed.

Lemma cap_after_push_le len cap : 0 ≤ len ≤ cap → cap ≤ cap_after_push len cap.
Proof.
  intros. unfold cap_after_push, grown.
  destruct (decide (len + 1 ≤ cap)); [done|]. destruct (decide (len = 0)); lia.
Qed.

Lemma cap_after_push_fits len cap : 0 ≤ len ≤ cap → len + 1 ≤ cap_after_push len cap.
Proof.
  intros. unfold cap_after_push, grown.
  destruct (decide (len + 1 ≤ cap)); [done|]. destruct (decide (len = 0)); lia.
Qed.

Section Pushing.

Context {T W E A : Type} (el : ElemType T W E A) (al : Allocator W E).

Abbreviation state := (@state T W E).
Abbreviation Mach := (M state E).

Implicit Types (s : state) (p q : ptr) (b : nat) (cells : list (slot T)).

Lemma transferred_regular (xs ys : list T) :
  Regular el → Forall2 (transferred el) xs ys → ys = xs.
Proof.
  intros Hreg. induction 1 as [|x y xs ys Hxy _ IH]; [done|]. f_equal; [|done].
  unfold transferred in Hxy. destruct (moving el); destruct Hxy as [w Hw].
  - by eapply (move_ctor_value _ Hreg).
  - by eapply (copy_ctor_value _ Hreg).
Qed.

Lemma init_value_regular (args : init T A) v :
  Regular el → init_value el args v →
  match args with InitArgs _ => True | InitCopy value | InitMove value => v = value end.
Proof.
  intros Hreg. destruct args as [a|value|value]; [done| |]; intros [w Hw].
  - by eapply (copy_ctor_value _ Hreg).
  - by eapply (move_ctor_value _ Hreg).
Qed.

(** [EmplaceBack], whichever path it takes. *)
Lemma wp_EmplaceBack this args s xs cap :
  Sane el al → Regular el →
  holds el s this xs cap →
  let len := Z.of_nat (length xs) in
  wp (EmplaceBack el al this args) s
    (fun p s' =>
       ∃ v, init_value el args v ∧
         holds el s' this (xs ++ [v]) (cap_after_push len cap) ∧
         p = buffer_at s' this +ₚ len ∧
         cell s' p = Some (Some v))
    (fun e s' =>
       env_raises el al e ∧ objs s' = objs s ∧ (moving el = false → heap s' = heap s)).
Proof.
  intros HS Hreg Hh len. unfold cap_after_push.
  destruct (decide (len + 1 ≤ cap)) as [Hroom|Hfull].
  - eapply wp_mono; [by apply wp_EmplaceBack_inplace| |].
    + intros p s' (v & bo & Hv & Hbuf & -> & Hh' & Ho' & Hholds & Hl').
      exists v. split; [done|]. split; [done|]. split.
      * unfold buffer_at. rewrite Ho', lookup_insert_eq. simpl. rewrite Hbuf.
        unfold len. rewrite at_add, Nat2Z.id by lia. done.
      * erewrite cell_at by (rewrite Hh'; apply lookup_insert_eq).
        unfold cells_of. rewrite fmap_app, <- app_assoc.
        rewrite lookup_app_r by (by rewrite length_fmap).
        by rewrite length_fmap, Nat.sub_diag.
    + intros e s' (He & Hh' & Ho' & _). done.
  - assert (cap = len) as ->.
    { destruct Hh as (? & _ & ? & _). unfold len in *. lia. }
    eapply wp_mono; [by apply wp_EmplaceBack_realloc| |].
    + intros p s' (v & ys & Hv & Hys & -> & Hfresh & Hh' & Ho' & Hholds & Hl').
      apply (transferred_regular _ _ Hreg) in Hys as ->.
      exists v. split; [done|]. split; [done|]. split.
      * unfold buffer_at. rewrite Ho', lookup_insert_eq. simpl.
        unfold len. rewrite at_add, Nat2Z.id by lia. done.
      * erewrite cell_at by (rewrite Hh'; apply lookup_insert_eq).
        unfold cells_of. rewrite fmap_app, <- app_assoc.
        rewrite lookup_app_r by (by rewrite length_fmap).
        by rewrite length_fmap, Nat.sub_diag.
    + intros e s' (He & Ho' & _ & Hheap). done.
Qed.

Lemma wp_PushBack this value s xs cap :
  Sane el al → Regular el →
  holds el s this xs cap →
  wp (PushBack el al this value) s
    (fun _ s' => holds el s' this (xs ++ [value]) (cap_after_push (Z.of_nat (length xs)) cap))
    (fun e s' =>
       env_raises el al e ∧ objs s' = objs s ∧ (moving el = false → heap s' = heap s)).
Proof.
  intros HS Hreg Hh. unfold PushBack. apply wp_bind.
  eapply wp_mono; [by apply wp_EmplaceBack| |done].
  intros p s' (v & Hv & Hh' & _). apply wp_ret.
  apply (init_value_regular _ _ Hreg) in Hv as ->. done.
Qed.

Lemma wp_push_all this vs s xs cap :
  Sane el al → Regular el →
  holds el s this xs cap →
  wp (push_all el al this vs) s
    (fun _ s' => ∃ cap', holds el s' this (xs ++ vs) cap' ∧ cap ≤ cap')
    (fun e s' => env_raises el al e).
Proof.
  intros HS Hreg. revert s xs cap.
  induction vs as [|v vs IH]; intros s xs cap Hh.
  - apply wp_ret. exists cap. by rewrite app_nil_r.
  - simpl. apply wp_bind.
    eapply wp_mono; [by apply wp_PushBack| |by intros e s' [? _]].
    intros [] s1 Hh1. simpl.
    eapply wp_mono; [by apply IH| |done].
    intros [] s2 (cap' & Hh2 & Hle). exists cap'.
    rewrite <- app_assoc in Hh2. split; [done|].
    destruct Hh as (? & _ & ? & _).
    pose proof (cap_after_push_le (Z.of_nat (length xs)) cap). lia.
Qed.

Lemma wp_push_caps this vs s xs :
  Sane el al → Regular el →
  holds el s this xs (pow2cap (Z.of_nat (length xs))) →
  wp (push_caps el al this vs) s
    (fun caps s' =>
       holds el s' this (xs ++ vs) (pow2cap (Z.of_nat (length (xs ++ vs)))) ∧
       caps = (fun i => pow2cap (Z.of_nat i)) <$> seq (S (length xs)) (length vs))
    (fun e s' => env_raises el al e).
Proof.
  intros HS Hreg. revert s xs.
  induction vs as [|v vs IH]; intros s xs Hh.
  - apply wp_ret. by rewrite app_nil_r.
  - simpl. apply wp_bind.
    eapply wp_mono; [by apply wp_PushBack| |by intros e s' [? _]].
    intros [] s1 Hh1. simpl.
    rewrite pow2cap_step in Hh1 by lia.
    replace (Z.of_nat (length xs) + 1) with (Z.of_nat (length (xs ++ [v]))) in Hh1
      by (rewrite length_app; simpl; lia).
    pose proof Hh1 as (buf1 & Hobj1 & _).
    apply wp_bind; eapply wp_rewrite; [eapply Capacity_eq; eassumption|]; cbv beta iota; simpl.
    apply wp_bind.
    eapply wp_mono; [by apply IH| |done].
    intros cs s2 (Hh2 & ->). apply wp_ret.
    rewrite <- app_assoc in Hh2. split; [done|].
    rewrite length_app. simpl. rewrite Nat.add_1_r. f_equal.
Qed.

End Pushing.

Section Unified.

Context {T W E A : Type} (el : ElemType T W E A) (al : Allocator W E).

Abbreviation state := (@state T W E).
Abbreviation Mach := (M state E).

Implicit Types (s : state) (p q : ptr) (b : nat) (cells : list (slot T)).

(** What [view] reads of the state. *)
Lemma view_ext s s' this this' :
  objs s' !! this' = objs s !! this → heap s' = heap s →
  view el s' this' = view el s this.
Proof. intros Ho Hh. unfold view. by rewrite Ho, Hh. Qed.

Lemma holds_buffer_at s this xs cap k v :
  holds el s this xs cap → xs !! k = Some v →
  cell s (buffer_at s this +ₚ Z.of_nat k) = Some (Some v).
Proof.
  intros (buf & Hobj & Hlen & Hfits & Hoff & Hown) Hk.
  unfold buffer_at. rewrite Hobj. simpl.
  destruct buf as [[bo|] o]; simpl in Hoff, Hown; subst o.
  - change (Ptr (Some bo) 0) with (at_ bo 0). rewrite at_add, Nat2Z.id by lia. simpl.
    erewrite cell_at by exact Hown. unfold cells_of.
    rewrite lookup_app_l by (rewrite length_fmap; by eapply lookup_lt_Some).
    by rewrite list_lookup_fmap, Hk.
  - apply (f_equal length) in Hown. unfold cells_of in Hown.
    rewrite length_app, length_replicate, length_fmap in Hown. simpl in Hown.
    apply lookup_lt_Some in Hk. lia.
Qed.

(** [Emplace], whichever path it takes. *)
Lemma wp_Emplace this args s xs1 xs2 cap :
  Sane el al → Regular el →
  holds el s this (xs1 ++ xs2) cap →
  let len := Z.of_nat (length (xs1 ++ xs2)) in
  wp (Emplace el al this (buffer_at s this +ₚ Z.of_nat (length xs1)) args) s
    (fun p s' =>
       ∃ v, init_value el args v ∧
         holds el s' this (xs1 ++ v :: xs2) (cap_after_push len cap) ∧
         p = buffer_at s' this +ₚ Z.of_nat (length xs1))
    (fun e s' => env_raises el al e).
Proof.
  intros HS Hreg Hh len. unfold cap_after_push.
  destruct (decide (len + 1 ≤ cap)) as [Hroom|Hfull].
  - eapply wp_mono; [by apply wp_Emplace_inplace| |done].
    intros p s' (v & bo & Hv & Hbuf & -> & Hh' & Ho' & Hholds & Hl').
    exists v. split; [done|]. split; [done|].
    unfold buffer_at at 1. rewrite Ho', lookup_insert_eq. simpl. rewrite Hbuf.
    rewrite at_add, Nat2Z.id by lia. done.
  - assert (cap = len) as ->.
    { destruct Hh as (? & _ & ? & _). unfold len in *. lia. }
    eapply wp_mono; [by apply wp_Emplace_realloc| |by intros e s' [? _]].
    intros p s' (v & ys1 & ys2 & Hv & Hys1 & Hys2 & -> & Hfresh & Hh' & Ho' & Hholds & Hl').
    apply (transferred_regular _ _ _ Hreg) in Hys1 as ->.
    apply (transferred_regular _ _ _ Hreg) in Hys2 as ->.
    exists v. split; [done|]. split; [done|].
    unfold buffer_at. rewrite Ho', lookup_insert_eq. simpl.
    rewrite at_add, Nat2Z.id by lia. done.
Qed.

(** Copy assignment within the capacity, in terms of what the vectors
    hold. *)
Lemma wp_Vector_copy_assign_holds this rhs s (xs ys : list T) cap capr :
  Sane el al → Regular el → this ≠ rhs →
  holds el s this xs cap → holds el s rhs ys capr →
  Z.of_nat (length ys) ≤ cap →
  buffer_at s this = nullptr ∨ buffer_at s this ≠ buffer_at s rhs →
  wp (Vector_copy_assign el al this rhs) s
    (fun _ s' =>
       holds el s' this ys cap ∧ holds el s' rhs ys capr ∧
       buffer_at s' this = buffer_at s this ∧
       log s' = log s
         ++ ev_copy_assign (buffer_at s this) (buffer_at s rhs) (length xs) (length ys))
    (fun e _ => env_raises el al e).
Proof.
  intros HS Hreg Hne Ht Hr Hle Hsep.
  eapply wp_mono; [by eapply wp_Vector_copy_assign_fits| |done].
  intros [] s' (Hh' & Ho' & Hl').
  destruct Ht as (buf & Hobj & Hlen & Hfits & Hoff & Hown).
  destruct Hr as (bufr & Hobjr & Hlenr & Hfitsr & Hoffr & Hownr).
  assert (buffer_at s this = buf) as Hb by (unfold buffer_at; by rewrite Hobj).
  assert (buffer_at s rhs = bufr) as Hbr by (unfold buffer_at; by rewrite Hobjr).
  rewrite Hb, Hbr in *.
  split; [|split; [|split; [|done]]].
  - exists buf. split; [by rewrite Ho', lookup_insert_eq|].
    split; [done|]. split; [done|]. split; [done|].
    destruct (blk buf) as [bt|] eqn:Hblk.
    + by rewrite Hh', lookup_insert_eq.
    + unfold cells_of in *. apply (f_equal length) in Hown.
      rewrite length_app, length_replicate, length_fmap in Hown. simpl in Hown.
      assert (ys = []) as -> by (apply nil_length_inv; lia).
      assert (Z.to_nat cap = 0%nat) as -> by lia. done.
  - exists bufr. split; [by rewrite Ho', lookup_insert_ne|].
    split; [done|]. split; [done|]. split; [done|].
    destruct (blk bufr) as [br|] eqn:Hblkr; [|done].
    rewrite Hh'. destruct (blk buf) as [bt|] eqn:Hblk; [|done].
    rewrite lookup_insert_ne; [done|].
    intros ->. destruct Hsep as [Hn|Hn].
    + rewrite Hn in Hblk. done.
    + apply Hn. destruct buf, bufr. simpl in *. congruence.
  - unfold buffer_at. by rewrite Ho', lookup_insert_eq.
Qed.

End Unified.

Lemma Demo_sane nm cc limit : Sane (Demo.elem nm cc limit) Demo.alloc.
Proof.
  split; [done|by rewrite PTRDIFF_MAX_eq|].
  intros bytes w H. simpl in H. by apply bool_decide_eq_true in H.
Qed.

Lemma Demo_regular nm cc limit : Regular (Demo.elem nm cc limit).
Proof.
  split; simpl.
  - intros x w y. destruct (decide _); [done|]. by intros [= ->].
  - intros x w y. by intros [= ->].
  - done.
  - done.
Qed.

Example Demo_view_full : view Demo.copying Demo.full 0 = Some ([10; 20], 2).
Proof. vm_compute. reflexivity. Qed.

Example Demo_view_roomy :
  view Demo.plain Demo.roomy 0 = Some ([10; 20], 4) ∧
  view Demo.plain Demo.roomy 1 = Some ([7; 8; 9], 3).
Proof. vm_compute. done. Qed.

Example Demo_reserve_fails :
  match Reserve Demo.copying Demo.alloc 0 5 Demo.full with
  | Throw e s' =>
      e = Demo.CopyFailed ∧ view Demo.copying s' 0 = Some ([10; 20], 2) ∧
      log s' = [EvNew 2%nat 20;
                EvCopyConstruct (Slot (Ptr (Some 2%nat) 0)) (Slot (Ptr (Some 1%nat) 0));
                EvRaise Demo.CopyFailed;
                EvDestroy (Slot (Ptr (Some 2%nat) 0));
                EvDelete 2%nat]
  | _ => False
  end.
Proof. vm_compute. done. Qed.

Example Demo_insert_in_place :
  match Insert Demo.plain Demo.alloc 0 (buffer_at Demo.roomy 0 +ₚ 1) 15 Demo.roomy with
  | Ok p s' =>
      p = Ptr (Some 1%nat) 1 ∧ view Demo.plain s' 0 = Some ([10; 15; 20], 4) ∧
      log s' = [EvCopyConstruct Temp Caller;
                EvMoveConstruct (Slot (Ptr (Some 1%nat) 2)) (Slot (Ptr (Some 1%nat) 1));
                EvMoveAssign (Slot (Ptr (Some 1%nat) 1)) Temp;
                EvDestroy Temp]
  | _ => False
  end.
Proof. vm_compute. done. Qed.

Example Demo_insert_fails :
  match Insert Demo.copying Demo.alloc 0 (buffer_at Demo.full 0 +ₚ 1) 15 Demo.full with
  | Throw e s' =>
      e = Demo.CopyFailed ∧ view Demo.copying s' 0 = Some ([10; 20], 2) ∧
      heap s' = heap Demo.full ∧
      log s' = [EvNew 2%nat 16;
                EvCopyConstruct (Slot (Ptr (Some 2%nat) 1)) Caller;
                EvRaise Demo.CopyFailed;
                EvDestroy (Slot (Ptr (Some 2%nat) 1));
                EvDelete 2%nat]
  | _ => False
  end.
Proof. vm_compute. done. Qed.

Example Demo_erase :
  match Erase Demo.plain 1 (buffer_at Demo.roomy 1) Demo.roomy with
  | Ok p s' =>
      p = Ptr (Some 2%nat) 0 ∧ view Demo.plain s' 1 = Some ([8; 9], 3) ∧
      log s' = [EvMoveAssign (Slot (Ptr (Some 2%nat) 0)) (Slot (Ptr (Some 2%nat) 1));
                EvMoveAssign (Slot (Ptr (Some 2%nat) 1)) (Slot (Ptr (Some 2%nat) 2));
                EvDestroy (Slot (Ptr (Some 2%nat) 2))]
  | _ => False
  end.
Proof. vm_compute. done. Qed.

Example Demo_copy_assign_shrinks :
  match Vector_copy_assign Demo.plain Demo.alloc 1 0 Demo.roomy with
  | Ok _ s' =>
      view Demo.plain s' 1 = Some ([10; 20], 3) ∧ view Demo.plain s' 0 = Some ([10; 20], 4) ∧
      log s' = [EvCopyAssign (Slot (Ptr (Some 2%nat) 0)) (Slot (Ptr (Some 1%nat) 0));
                EvCopyAssign (Slot (Ptr (Some 2%nat) 1)) (Slot (Ptr (Some 1%nat) 1));
                EvDestroy (Slot (Ptr (Some 2%nat) 2))]
  | _ => False
  end.
Proof. vm_compute. done. Qed.

Example Demo_move_ctor :
  match Vector_move_ctor 1 Demo.roomy with
  | Ok v s' =>
      v = Demo.vec 2 3 3 ∧ view Demo.plain s' 1 = Some ([], 0) ∧ log s' = []
  | _ => False
  end.
Proof. vm_compute. done. Qed.

Section Claims.

Context {T W E A : Type} (el : ElemType T W E A) (al : Allocator W E).

Abbreviation state := (@state T W E).
Abbreviation Mach := (M state E).

Implicit Types (s : state) (p q : ptr) (b : nat) (cells : list (slot T)).

Lemma view_full_holds s this (xs : list T) cap :
  view el s this = Some (xs, cap) → cap ≤ Z.of_nat (length xs) →
  holds el s this xs (Z.of_nat (length xs)).
Proof.
  intros Hv Hle. apply view_holds in Hv. pose proof Hv as (? & _ & ? & _).
  by replace (Z.of_nat (length xs)) with cap by lia.
Qed.

Lemma unchanged_view s s' this :
  heap s' = heap s → objs s' = objs s → view el s' this = view el s this.
Proof. intros Hh Ho. apply view_ext; [by rewrite Ho|done]. Qed.


Lemma pow2cap_pow2 k : 0 ≤ k → pow2cap (2 ^ k) = 2 ^ k ∧ pow2cap (2 ^ k + 1) = 2 ^ (k + 1).
Proof.
  intros Hk. assert (0 < 2 ^ k) as Hpos by (apply Z.pow_pos_nonneg; lia).
  assert (pow2cap (2 ^ k) = 2 ^ k) as Hp.
  { unfold pow2cap. rewrite decide_False by lia. by rewrite Z.log2_up_pow2. }
  split; [done|].
  rewrite <- pow2cap_step, Hp by lia.
  unfold cap_after_push, grown. rewrite !decide_False by lia.
  rewrite Z.pow_add_r by lia. lia.
Qed.

(** C7: [Erase] of the element [d] that follows [xs1] move-assigns each
    of the elements [xs2] after it to the slot before its own, first to
    last, then destroys the last slot, and leaves the vector holding [xs1]
    followed by [xs2], with the same capacity: the size is one less.  It
    returns the position it was given. *)
Theorem erase_at_position this s (xs1 xs2 : list T) (d : T) cap :
  Sane el al → Regular el →
  view el s this = Some (xs1 ++ d :: xs2, cap) →
  let buf := buffer_at s this in
  let pos := buf +ₚ Z.of_nat (length xs1) in
  wp (Erase el this pos) s
    (fun p s' =>
       view el s' this = Some (xs1 ++ xs2, cap) ∧
       Z.of_nat (length (xs1 ++ xs2)) = Z.of_nat (length (xs1 ++ d :: xs2)) - 1 ∧
       p = pos ∧
       log s' = log s
         ++ ev_forward EvMoveAssign pos (pos +ₚ 1) (length xs2)
         ++ [EvDestroy (Slot (buf +ₚ Z.of_nat (length (xs1 ++ xs2))))])
    (fun e _ => env_raises el al e).
Proof.
  intros HS Hreg Hv buf pos. apply view_holds in Hv.
  eapply wp_mono; [by apply (wp_Erase el al)| |done].
  intros p s' (bo & Hbuf & -> & _ & _ & Hh' & Hl').
  fold buf in Hbuf. unfold pos. rewrite Hbuf.
  rewrite !at_add, !Nat2Z.id by lia. simpl.
  split; [by apply holds_view|]. split; [rewrite !length_app; simpl; lia|].
  split; [done|]. by rewrite length_app, Nat.add_1_r.
Qed.

(** C8: [PopBack].  On a vector that holds [ys] followed by a last
    element, it destroys that element and nothing else, and the vector
    then holds [ys], with the same capacity.  It destroys the slot before
    [end()] whatever the size, and only then tests the size: on an empty
    vector that slot is no slot of the buffer, no live object is there to
    destroy, and the behaviour is undefined. *)
Theorem pop_back_last this s (xs : list T) cap :
  Sane el al →
  view el s this = Some (xs, cap) →
  let last := buffer_at s this +ₚ Z.of_nat (length xs) +ₚ (-1) in
  (∀ ys x, xs = ys ++ [x] →
     wp (PopBack el this) s
       (fun _ s' =>
          view el s' this = Some (ys, cap) ∧
          Z.of_nat (length ys) = Z.of_nat (length xs) - 1 ∧
          cell s last = Some (Some x) ∧ cell s' last = Some None ∧
          log s' = log s ++ [EvDestroy (Slot last)])
       (fun _ _ => False)) ∧
  (xs = [] → cell s last = None ∧ PopBack el this s = Undefined).
Proof.
  intros HS Hv last. apply view_holds in Hv. split.
  - intros ys x ->.
    pose proof (holds_buffer_at el s this _ cap (length ys) x Hv
                  (list_lookup_middle ys [] x (length ys) eq_refl)) as Hc.
    eapply wp_mono; [exact (wp_PopBack el al this s ys x cap HS Hv)| |done].
    intros [] s' (bo & Hbuf & Hh' & _ & Hholds & Hl').
    assert (last = at_ bo (length ys)) as Hlast.
    { unfold last. rewrite Hbuf, length_app. simpl.
      unfold at_, ptr_add. simpl. f_equal. lia. }
    rewrite Hbuf, at_add, Nat2Z.id in Hc by lia. simpl in Hc.
    rewrite Hlast.
    split; [by apply holds_view|]. split; [rewrite length_app; simpl; lia|].
    split; [done|]. split; [|done].
    erewrite cell_at by (rewrite Hh'; apply lookup_insert_eq).
    unfold cells_of. rewrite lookup_app_r by (by rewrite length_fmap).
    rewrite length_fmap, Nat.sub_diag.
    destruct Hv as (? & _ & Hle & _). rewrite length_app in Hle. simpl in Hle.
    apply lookup_replicate. split; [done|lia].
  - intros ->. by apply (PopBack_empty el this s cap).
Qed.

(** C10: copy assignment of a vector to itself returns at once: the
    state, the log of element operations included, is the one before. *)
Theorem self_copy_assign_identity this s :
  Vector_copy_assign el al this this s = Ok tt s.
Proof. unfold Vector_copy_assign. by rewrite decide_False by (intros Hne; by apply Hne). Qed.

End Claims.

(** ** The theorems at work on the concrete element type *)

Example Demo_push_caps :
  match push_caps Demo.plain Demo.alloc 0 [1; 2; 3; 4; 5] Demo.empty with
  | Ok caps s' => caps = [1; 2; 4; 4; 8] ∧ view Demo.plain s' 0 = Some ([1; 2; 3; 4; 5], 8)
  | _ => False
  end.
Proof. vm_compute. done. Qed.


Lemma erase_at_position_witness :
  wp (Erase Demo.plain 1 (buffer_at Demo.roomy 1 +ₚ 1)) Demo.roomy
    (fun p s' =>
       view Demo.plain s' 1 = Some ([7] ++ [9], 3) ∧
       Z.of_nat (length ([7] ++ [9])) = Z.of_nat (length ([7] ++ 8 :: [9])) - 1 ∧
       p = buffer_at Demo.roomy 1 +ₚ 1 ∧
       log s' = log Demo.roomy
         ++ ev_forward EvMoveAssign (buffer_at Demo.roomy 1 +ₚ 1)
              (buffer_at Demo.roomy 1 +ₚ 1 +ₚ 1) 1
         ++ [EvDestroy (Slot (buffer_at Demo.roomy 1 +ₚ 2))])
    (fun e _ => env_raises Demo.plain Demo.alloc e).
Proof.
  apply (erase_at_position Demo.plain Demo.alloc 1 Demo.roomy [7] [9] 8 3
           (Demo_sane _ _ _) (Demo_regular _ _ _)).
  vm_compute. reflexivity.
Defined.

Lemma pop_back_last_witness :
  wp (PopBack Demo.plain 0) Demo.roomy
    (fun _ s' =>
       view Demo.plain s' 0 = Some ([10], 4) ∧
       Z.of_nat (length [10]) = Z.of_nat (length [10; 20]) - 1 ∧
       cell Demo.roomy (at_ 1 1) = Some (Some 20) ∧ cell s' (at_ 1 1) = Some None ∧
       log s' = [EvDestroy (Slot (at_ 1 1))])
    (fun _ _ => False) ∧
  PopBack Demo.plain 0 Demo.empty = Undefined.
Proof.
  split.
  - apply (proj1 (pop_back_last Demo.plain Demo.alloc 0 Demo.roomy [10; 20] 4
                    (Demo_sane _ _ _) ltac:(vm_compute; reflexivity)) [10] 20).
    reflexivity.
  - apply (proj2 (pop_back_last Demo.plain Demo.alloc 0 Demo.empty [] 0
                    (Demo_sane _ _ _) ltac:(vm_compute; reflexivity))).
    reflexivity.
Defined.

(** A vector move-assigned to itself: [operator=(Vector&&)] has no
    identity check, and the vector [10; 20] of capacity 4 is left without
    elements and without capacity. *)
Example self_move_assign_empties :
  view Demo.plain Demo.roomy 0 = Some ([10; 20], 4) ∧
  ∃ s', Vector_move_assign 0 0 Demo.roomy = Ok tt s' ∧
        view Demo.plain s' 0 = Some ([], 0) ∧
        view Demo.plain s' 0 ≠ Some ([10; 20], 4).
Proof.
  split; [vm_compute; reflexivity|].
  eexists. split; [by eapply Vector_move_assign_self|].
  assert (view Demo.plain (with_obj 0 Vector_default Demo.roomy) 0 = Some ([], 0)) as Hv
    by (vm_compute; reflexivity).
  split; [done|]. rewrite Hv. discriminate.
Qed.

Section Lifetime.

Context {T W E A : Type} (el : ElemType T W E A) (al : Allocator W E).

Abbreviation state := (@state T W E).
Abbreviation Mach := (M state E).

Implicit Types (s : state) (p q : ptr) (b : nat) (cells : list (slot T)).

(** ** Destruction of a vector *)

Lemma owns_null_nil s (xs : list T) cap o :
  owns s (Ptr None o) (cells_of xs cap) → xs = [] ∧ o = 0.
Proof.
  intros [Hoff Hown]. simpl in *. split; [|done].
  apply (f_equal length) in Hown. unfold cells_of in Hown.
  rewrite length_app, length_fmap in Hown. simpl in Hown.
  apply nil_length_inv. lia.
Qed.

Lemma wp_Vector_dtor buf (xs : list T) cap s :
  owns s buf (cells_of xs cap) →
  wp (Vector_dtor el {| data_ := {| buffer_ := buf; capacity_ := cap |};
                        size_ := Z.of_nat (length xs) |}) s
    (fun _ => after s (released buf (heap s)) (ev_destroy buf (length xs) ++ ev_release buf))
    (fun _ _ => False).
Proof.
  intros Hown. unfold Vector_dtor, GetAddress, destroy_n, RawMemory_dtor, Deallocate.
  cbn [data_ buffer_ size_]. rewrite Nat2Z.id.
  destruct buf as [[bo|] o].
  - destruct Hown as [Hoff Hown]. simpl in Hoff, Hown. subst o.
    change (Ptr (Some bo) 0) with (at_ bo (length (@nil (slot T)))).
    apply wp_bind.
    eapply wp_mono; [eapply (wp_destroy_loop el bo _ xs [] s); exact Hown| |done].
    intros [] s1 (Hh1 & Ho1 & Hl1). simpl in Hh1.
    eapply wp_mono;
      [eapply (wp_operator_delete bo); by rewrite Hh1, lookup_insert_eq| |done].
    intros [] s2 (Hh2 & Ho2 & Hl2). split; [|split].
    + rewrite Hh2, Hh1. unfold released. simpl. by rewrite delete_insert_eq.
    + by rewrite Ho2.
    + rewrite Hl2, Hl1. by rewrite <- app_assoc.
  - apply owns_null_nil in Hown as [-> ->]. simpl.
    unfold wp, mbind, M_bind, bind. simpl.
    split; [done|]. split; [done|]. by rewrite app_nil_r.
Qed.

(** ** The copy constructor *)

Lemma constructed_copy d p n :
  constructed (ev_forward (E:=E) EvCopyConstruct d p n) = ptr_seq d n.
Proof. revert d p. induction n as [|n IH]; intros d p; simpl; by rewrite ?IH. Qed.

Lemma destroyed_copy d p n :
  destroyed (ev_forward (E:=E) EvCopyConstruct d p n) = [].
Proof. revert d p. induction n as [|n IH]; intros d p; simpl; by rewrite ?IH. Qed.

Lemma wp_Vector_copy_ctor other s (xs : list T) cap b :
  Sane el al → Regular el →
  holds el s other xs cap → xs ≠ [] →
  b = fresh (dom (heap s)) →
  let len := Z.of_nat (length xs) in
  wp (Vector_copy_ctor el al other) s
    (fun v s' =>
       v = {| data_ := {| buffer_ := at_ b 0; capacity_ := len |}; size_ := len |} ∧
       heap s !! b = None ∧
       after s (<[b := Some <$> xs]> (heap s))
         (EvNew b (len * sizeof el)
            :: ev_forward EvCopyConstruct (at_ b 0) (buffer_at s other) (length xs)) s')
    (fun e s' =>
       env_raises el al e ∧ heap s' = heap s ∧ objs s' = objs s ∧
       ∃ evs, log s' = log s ++ evs ∧ rolled_back e evs).
Proof.
  intros HS Hreg (buf & Hobj & Hlen & Hfits & Hoff & Hown) Hne Hb len.
  pose proof (sizeof_pos _ _ HS) as Hsz.
  assert (0 < len) as Hpos by (unfold len; destruct xs; [done|simpl; lia]).
  assert (len * sizeof el < SIZE_MOD) as Hfit by (rewrite SIZE_MOD_eq, PTRDIFF_MAX_eq in *; nia).
  assert (buffer_at s other = buf) as -> by (unfold buffer_at; by rewrite Hobj).
  clear Hfits.
  destruct buf as [[br|] o]; simpl in Hoff, Hown; subst o.
  2:{ apply (f_equal length) in Hown. unfold cells_of in Hown.
      rewrite length_app, length_fmap in Hown. simpl in Hown. unfold len in *. lia. }
  change (Ptr (Some br) 0) with (at_ br 0) in *.
  unfold Vector_copy_ctor.
  wp_pure Size_eq. cbn [size_]. fold len.
  apply wp_bind.
  eapply wp_mono; [apply wp_RawMemory_ctor; [done|lia|done]| |].
  2:{ intros e s' (Hr & Hh & Ho & Hl). split; [done|]. split; [done|]. split; [done|].
      exists [EvRaise e]. split; [done|]. by left. }
  intros new_data s1 (-> & Hfresh & Hbytes & Hh1 & Ho1 & Hl1).
  rewrite <- Hb in Hfresh, Hh1, Hl1 |- *.
  remember (len * sizeof el) as bytes eqn:Hbytesdef.
  assert (b ≠ br) as Hbne by (intros Heq; rewrite Heq, Hown in Hfresh; done).
  assert (objs s1 !! other = Some {| data_ := {| buffer_ := at_ br 0; capacity_ := cap |};
                                     size_ := len |}) as Hobj1 by (by rewrite Ho1).
  unfold GetAddress, unwinding. cbn [buffer_].
  apply wp_bind, wp_catch.
  wp_pure begin_eq. wp_pure Size_eq. cbn [data_ buffer_ size_ GetAddress].
  unfold uninitialized_copy_n.
  eapply wp_mono;
    [eapply (wp_uninitialized el al _ _ _ _ (copy_construct_at_step el al) b br Hbne
               [] (replicate (Z.to_nat cap - length xs) None) xs [] [] s1); [done| |]
    | |].
  { rewrite Hh1, lookup_insert_eq. simpl. rewrite app_nil_r. f_equal. f_equal.
    unfold len. lia. }
  { rewrite Hh1, lookup_insert_ne by done. exact Hown. }
  - intros [] s2 (ys & xs' & HF & Hh2 & Ho2 & Hl2). simpl in Hh2, Hl2.
    pose proof HF as HF'. apply Forall3_copies in HF' as [-> _].
    apply (Forall3_copies_regular _ _ _ _ Hreg) in HF. subst ys.
    apply wp_ret. split; [done|]. split; [done|].
    split; [|split].
    + rewrite Hh2, Hh1. rewrite (insert_id _ br).
      * rewrite insert_insert_eq. by rewrite app_nil_r.
      * rewrite lookup_insert_ne by done. exact Hown.
    + by rewrite Ho2.
    + rewrite Hl2, Hl1. by rewrite <- app_assoc.
  - intros e sx (Hr & xs1 & x & xs2 & ys & xs1' & x' & Hxs & HF & Hx & Hhx & Hox & Hlx).
    simpl in Hhx, Hlx. subst x'.
    apply Forall3_copies in HF as [-> HF2].
    assert (heap sx = heap s1) as Hhx'.
    { rewrite Hhx. apply insert_id. rewrite Hh1, lookup_insert_ne by done.
      rewrite Hown. unfold cells_of. by rewrite Hxs. }
    unfold RawMemory_dtor, Deallocate. cbn [buffer_].
    eapply wp_mono;
      [eapply (wp_operator_delete b); by rewrite Hhx', Hh1, lookup_insert_eq| |done].
    intros [] s' (Hh' & Ho' & Hl').
    split; [done|]. split; [|split].
    + rewrite Hh', Hhx', Hh1, delete_insert_eq. by apply delete_id.
    + by rewrite Ho', Hox.
    + exists (EvNew b bytes
                :: (ev_forward EvCopyConstruct (at_ b 0) (at_ br 0) (length xs1)
                    ++ [EvRaise e] ++ ev_destroy (at_ b 0) (length xs1)) ++ [EvDelete b]).
      split; [rewrite Hl', Hlx, Hl1; by rewrite <- !app_assoc|].
      right. eexists b, bytes, _. split; [done|]. split; [set_solver|].
      rewrite !constructed_app, !destroyed_app, constructed_copy, destroyed_copy,
        constructed_destroy, destroyed_destroy. simpl. rewrite app_nil_r.
      split; [apply ptr_seq_block|done].
Qed.

(** Copying an empty vector allocates nothing and leaves the state as it
    is. *)
Lemma Vector_copy_ctor_empty other s cap :
  holds el s other [] cap →
  Vector_copy_ctor el al other s = Ok Vector_default s.
Proof.
  intros (buf & Hobj & _). unfold Vector_copy_ctor, mbind, M_bind, bind.
  erewrite Size_eq by exact Hobj. cbn [size_ length]. change (Z.of_nat 0) with 0.
  unfold RawMemory_ctor, Allocate. rewrite decide_False by (intros Hne; by apply Hne).
  unfold mbind, M_bind, bind, mret, M_ret, ret, unwinding, catch_rethrow.
  erewrite begin_eq by exact Hobj. erewrite Size_eq by exact Hobj. done.
Qed.

(** ** Swapping with a local vector *)

Lemma Swap_eq this v other s :
  objs s !! this = Some v →
  Swap this other s = Ok v (with_obj this other s).
Proof.
  intros H. unfold Swap, obj, with_local_scope, with_local, mbind, M_bind, bind. rewrite H.
  unfold std_swap_RawMemory, RawMemory_move_ctor, RawMemory_move_assign, std_swap, with_obj.
  simpl. rewrite !lookup_insert_eq, H. simpl. rewrite !insert_insert_eq.
  destruct v as [[buf cap] sz], other as [[buf' cap'] sz']. done.
Qed.

(** ** Copy assignment beyond the capacity *)

Lemma wp_Vector_copy_assign_realloc this rhs s (xs ys : list T) cap capr b :
  Sane el al → Regular el → this ≠ rhs →
  holds el s this xs cap → holds el s rhs ys capr →
  cap < Z.of_nat (length ys) →
  b = fresh (dom (heap s)) →
  let len := Z.of_nat (length ys) in
  let buf := buffer_at s this in
  wp (Vector_copy_assign el al this rhs) s
    (fun _ s' =>
       heap s !! b = None ∧
       heap s' = <[b := Some <$> ys]> (released buf (heap s)) ∧
       objs s' = <[this := {| data_ := {| buffer_ := at_ b 0; capacity_ := len |};
                              size_ := len |}]> (objs s) ∧
       log s' = log s
         ++ EvNew b (len * sizeof el)
         :: ev_forward EvCopyConstruct (at_ b 0) (buffer_at s rhs) (length ys)
         ++ ev_destroy buf (length xs)
         ++ ev_release buf)
    (fun e s' =>
       env_raises el al e ∧ heap s' = heap s ∧ objs s' = objs s ∧
       ∃ evs, log s' = log s ++ evs ∧ rolled_back e evs).
Proof.
  intros HS Hreg Hne Ht Hr Hlt Hb len buf.
  pose proof Ht as (buf0 & Hobj & Hlen & Hfits & Hoff & Hown).
  pose proof Hr as (bufr & Hobjr & Hlenr & Hfitsr & Hownr).
  assert (buf = buf0) as Hbuf by (unfold buf, buffer_at; by rewrite Hobj).
  clear Hfits Hfitsr.
  assert (ys ≠ []) as Hys by (intros ->; simpl in *; lia).
  unfold Vector_copy_assign. rewrite decide_True by done.
  wp_pure Size_eq. wp_pure Capacity_eq. cbn [size_ data_ capacity_].
  rewrite decide_True by lia.
  apply wp_bind, wp_bind.
  eapply wp_mono; [by eapply (wp_Vector_copy_ctor rhs s ys capr b)| |done].
  intros v s1 (-> & Hfresh & Hh1 & Ho1 & Hl1).
  assert (objs s1 !! this = Some {| data_ := {| buffer_ := buf0; capacity_ := cap |};
                                    size_ := Z.of_nat (length xs) |}) as Hobj1
    by (by rewrite Ho1).
  apply wp_bind. eapply wp_rewrite; [by apply Swap_eq|]. cbv beta iota.
  eapply wp_mono; [eapply (wp_Vector_dtor buf0 xs cap)| |done].
  { split; [done|].
    destruct (blk buf0) as [bt|] eqn:Hblk; [|done].
    simpl. rewrite Hh1, lookup_insert_ne; [done|].
    intros <-. by rewrite Hown in Hfresh. }
  intros [] s2 (Hh2 & Ho2 & Hl2). simpl in Hh2, Ho2, Hl2.
  assert (objs s2 !! rhs = Some {| data_ := {| buffer_ := bufr; capacity_ := capr |};
                                   size_ := Z.of_nat (length ys) |}) as Hobjr2
    by (by rewrite Ho2, lookup_insert_ne, Ho1).
  wp_pure Size_eq. cbn [size_].
  eapply wp_rewrite;
    [eapply write_size_eq; by rewrite Ho2, lookup_insert_eq|]. cbv beta iota. simpl.
  split; [done|]. split; [|split].
  - rewrite Hh2, Hh1, Hbuf. unfold released.
    destruct (blk buf0) as [bt|] eqn:Hblk; [|done].
    rewrite delete_insert_ne; [done|].
    intros <-. by rewrite Hown in Hfresh.
  - rewrite Ho2, insert_insert_eq, Ho1. done.
  - rewrite Hl2, Hl1, Hbuf. by rewrite <- app_assoc.
Qed.

End Lifetime.

Section Composition.

Context {T W E A : Type} (el : ElemType T W E A) (al : Allocator W E).

Abbreviation state := (@state T W E).
Abbreviation Mach := (M state E).

Implicit Types (s : state) (p q : ptr) (b : nat) (cells : list (slot T)).

(** ** [Reserve], whichever path it takes *)

Lemma Reserve_noop this new_capacity s (xs : list T) cap :
  holds el s this xs cap → new_capacity ≤ cap →
  Reserve el al this new_capacity s = Ok tt s.
Proof.
  intros (buf & Hobj & _) Hle. unfold Reserve, mbind, M_bind, bind.
  erewrite Capacity_eq by exact Hobj. cbn [data_ capacity_].
  by rewrite decide_True by done.
Qed.

Lemma wp_Reserve this new_capacity s (xs : list T) cap :
  Sane el al → Regular el →
  holds el s this xs cap →
  (cap < new_capacity → new_capacity * sizeof el < SIZE_MOD) →
  wp (Reserve el al this new_capacity) s
    (fun _ s' =>
       holds el s' this xs (Z.max cap new_capacity) ∧
       (∀ o, o ≠ this → objs s' !! o = objs s !! o))
    (fun e s' =>
       env_raises el al e ∧ objs s' = objs s ∧ (moving el = false → heap s' = heap s)).
Proof.
  intros HS Hreg Hh Hfit.
  destruct (decide (new_capacity ≤ cap)) as [Hle|Hgt].
  - eapply wp_rewrite; [by eapply Reserve_noop|]. cbv beta iota.
    by rewrite Z.max_l by done.
  - rewrite Z.max_r by lia.
    eapply wp_mono;
      [eapply (wp_Reserve_realloc el al this new_capacity s xs cap); [done|done|lia| |done]
      | |].
    + apply Hfit. lia.
    + intros [] s' (ys & Hys & _ & _ & Ho' & Hh' & _).
      apply (transferred_regular _ _ _ Hreg) in Hys as ->. split; [done|].
      intros o Hne. by rewrite Ho', lookup_insert_ne.
    + intros e s' (He & Ho' & _ & Hheap). done.
Qed.

(** ** Pushing where there is room *)

Lemma wp_push_all_room this vs : ∀ s (xs : list T) cap,
  Sane el al → Regular el →
  holds el s this xs cap →
  Z.of_nat (length xs) + Z.of_nat (length vs) ≤ cap →
  wp (push_all el al this vs) s
    (fun _ s' =>
       holds el s' this (xs ++ vs) cap ∧
       buffer_at s' this = buffer_at s this ∧
       log s' = log s
         ++ ev_push (buffer_at s this +ₚ Z.of_nat (length xs)) (length vs))
    (fun e _ => env_raises el al e).
Proof.
  induction vs as [|v vs IH]; intros s xs cap HS Hreg Hh Hroom.
  - apply wp_ret. by rewrite !app_nil_r.
  - simpl in Hroom |- *. apply wp_bind. unfold PushBack. apply wp_bind.
    eapply wp_mono;
      [eapply (wp_EmplaceBack_inplace el al this (InitCopy v) s xs cap); [done|done|lia]
      | |by intros e s' [? _]].
    intros p s1 (v' & bo & Hv & Hbuf & -> & Hh1 & Ho1 & Hholds & Hl1).
    apply (init_value_regular el _ _ Hreg) in Hv as ->.
    apply wp_ret. simpl.
    assert (buffer_at s1 this = buffer_at s this) as Hb1
      by (unfold buffer_at at 1; by rewrite Ho1, lookup_insert_eq).
    eapply wp_mono; [eapply (IH s1 (xs ++ [v]) cap); [done|done|done|]| |done].
    { rewrite length_app. simpl. lia. }
    intros [] s2 (Hh2 & Hb2 & Hl2).
    rewrite <- app_assoc in Hh2. split; [done|]. split; [by rewrite Hb2|].
    rewrite Hl2, Hl1, Hb1, Hbuf, <- app_assoc, length_app. simpl.
    rewrite !at_add, !Nat2Z.id by lia. simpl.
    done.
Qed.

(** ** Moving never releases *)

Lemma wp_Vector_move_assign this rhs s vt vr :
  this ≠ rhs →
  objs s !! this = Some vt → objs s !! rhs = Some vr →
  wp (Vector_move_assign (E:=E) this rhs) s
    (fun _ s' =>
       heap s' = heap s ∧ log s' = log s ∧
       objs s' = <[rhs := Vector_default]> (<[this := vr]> (objs s)))
    (fun _ _ => False).
Proof.
  intros Hne Ht Hr.
  eapply wp_rewrite; [by eapply Vector_move_assign_distinct|]. done.
Qed.

End Composition.

Ltac lookup_simpl :=
  repeat first [rewrite lookup_insert_eq | rewrite lookup_insert_ne by done].

Section Access.

Context {T W E A : Type} (el : ElemType T W E A) (al : Allocator W E).

Abbreviation state := (@state T W E).
Abbreviation Mach := (M state E).

Implicit Types (s : state) (p q : ptr) (b : nat) (cells : list (slot T)).

(** ** Swapping two vectors of the store *)

Lemma with_obj_same this v s : objs s !! this = Some v → with_obj this v s = s.
Proof.
  intros H. unfold with_obj, set_objs. rewrite insert_id by done. by destruct s.
Qed.

Lemma lookup_with_obj this v s : objs (with_obj this v s) !! this = Some v.
Proof. unfold with_obj. simpl. apply lookup_insert_eq. Qed.

Lemma lookup_with_obj_ne this other v s :
  this ≠ other → objs (with_obj this v s) !! other = objs s !! other.
Proof. intros Hne. unfold with_obj. simpl. by apply lookup_insert_ne. Qed.

Lemma with_obj_twice this v v' s : with_obj this v (with_obj this v' s) = with_obj this v s.
Proof. unfold with_obj, set_objs. simpl. by rewrite insert_insert_eq. Qed.

Lemma with_obj_swap this other v v' s :
  this ≠ other →
  with_obj this v (with_obj other v' s) = with_obj other v' (with_obj this v s).
Proof.
  intros Hne. unfold with_obj, set_objs. simpl. f_equal. by apply insert_insert_ne.
Qed.

(** The moves of [RawMemory] on the members [data_] of stored vectors. *)
Lemma RawMemory_move_ctor_at this v s :
  objs s !! this = Some v →
  RawMemory_move_ctor (data_of (vector_at this)) s
  = (data_ v, with_obj this (set_data_ RawMemory_default v) s).
Proof.
  intros H. unfold RawMemory_move_ctor. simpl. rewrite !lookup_insert_eq, H. simpl.
  unfold with_obj, set_objs. simpl. rewrite !insert_insert_eq.
  by destruct v as [[buf cap] sz].
Qed.

Lemma RawMemory_move_assign_at this other vt vo s :
  this ≠ other →
  objs s !! this = Some vt → objs s !! other = Some vo →
  RawMemory_move_assign (data_of (vector_at this)) (data_of (vector_at other)) s
  = with_obj other (set_data_ RawMemory_default vo)
      (with_obj this (set_data_ (data_ vo) vt) s).
Proof.
  intros Hne Ht Ho. unfold RawMemory_move_assign. simpl.
  repeat (rewrite ?lookup_insert_eq, ?Ht, ?Ho, ?insert_insert_eq; simpl;
          try rewrite lookup_insert_ne by done; simpl).
  unfold with_obj, set_objs. simpl.
  by destruct vt as [[buf cap] sz], vo as [[buf' cap'] sz'].
Qed.

Lemma RawMemory_move_assign_self this v s :
  objs s !! this = Some v →
  RawMemory_move_assign (data_of (vector_at this)) (data_of (vector_at this)) s
  = with_obj this (set_data_ RawMemory_default v) s.
Proof.
  intros H. unfold RawMemory_move_assign. simpl.
  repeat (rewrite ?lookup_insert_eq, ?H, ?insert_insert_eq; simpl).
  unfold with_obj, set_objs. simpl.
  by destruct v as [[buf cap] sz].
Qed.

Lemma RawMemory_move_assign_outer {L} (r1 r2 : ref state RawMemory) s (x : L) :
  RawMemory_move_assign (outer r1) (outer r2) (s, x) = (RawMemory_move_assign r1 r2 s, x).
Proof. done. Qed.

Lemma RawMemory_move_assign_local this v tmp s :
  objs s !! this = Some v →
  RawMemory_move_assign (outer (data_of (vector_at this))) local (s, tmp)
  = (with_obj this (set_data_ tmp v) s, RawMemory_default).
Proof.
  intros H. unfold RawMemory_move_assign. simpl.
  repeat (rewrite ?lookup_insert_eq, ?H, ?insert_insert_eq; simpl).
  unfold with_obj, set_objs. simpl.
  by destruct v as [[buf cap] sz], tmp as [buf' cap'].
Qed.

Lemma std_swap_sizes this other vt vo s :
  this ≠ other →
  objs s !! this = Some vt → objs s !! other = Some vo →
  std_swap (size_of (vector_at this)) (size_of (vector_at other)) s
  = with_obj other (set_size_ (size_ vt) vo) (with_obj this (set_size_ (size_ vo) vt) s).
Proof.
  intros Hne Ht Ho. unfold std_swap. simpl.
  repeat (rewrite ?lookup_insert_eq, ?Ht, ?Ho, ?insert_insert_eq; simpl;
          try rewrite lookup_insert_ne by done; simpl).
  done.
Qed.

Lemma std_swap_sizes_self this v s :
  objs s !! this = Some v →
  std_swap (size_of (vector_at this)) (size_of (vector_at this)) s = s.
Proof.
  intros H. unfold std_swap. simpl.
  repeat (rewrite ?lookup_insert_eq, ?H, ?insert_insert_eq; simpl).
  transitivity (with_obj this v s); [|by apply with_obj_same].
  unfold with_obj, set_objs. by destruct v as [[buf cap] sz].
Qed.

Lemma std_swap_RawMemory_at this other vt vo s :
  this ≠ other →
  objs s !! this = Some vt → objs s !! other = Some vo →
  std_swap_RawMemory (data_of (vector_at this)) (data_of (vector_at other)) s
  = (with_obj other (set_data_ (data_ vt) vo) (with_obj this (set_data_ (data_ vo) vt) s),
     RawMemory_default).
Proof.
  intros Hne Ht Ho. unfold std_swap_RawMemory.
  rewrite (RawMemory_move_ctor_at this vt s Ht), RawMemory_move_assign_outer.
  erewrite (RawMemory_move_assign_at this other _ vo); [|done|apply lookup_with_obj|].
  2:{ by rewrite lookup_with_obj_ne. }
  erewrite RawMemory_move_assign_local by apply lookup_with_obj.
  rewrite !with_obj_twice. done.
Qed.

Lemma std_swap_RawMemory_self this v s :
  objs s !! this = Some v →
  std_swap_RawMemory (data_of (vector_at this)) (data_of (vector_at this)) s
  = (s, RawMemory_default).
Proof.
  intros H. unfold std_swap_RawMemory.
  rewrite (RawMemory_move_ctor_at this v s H), RawMemory_move_assign_outer.
  erewrite RawMemory_move_assign_self by apply lookup_with_obj.
  erewrite RawMemory_move_assign_local by apply lookup_with_obj.
  rewrite !with_obj_twice. f_equal.
  transitivity (with_obj this v s); [|by apply with_obj_same].
  by destruct v as [[buf cap] sz].
Qed.

Lemma RawMemory_dtor_default s :
  RawMemory_dtor (T:=T) (W:=W) (E:=E) RawMemory_default s = Ok tt s.
Proof. done. Qed.

Lemma Swap_objs_distinct this other vt vo s :
  this ≠ other →
  objs s !! this = Some vt → objs s !! other = Some vo →
  Swap_objs (E:=E) this other s = Ok tt (with_obj other vt (with_obj this vo s)).
Proof.
  intros Hne Ht Ho.
  unfold Swap_objs, obj, with_scope, on_store, modify, mbind, M_bind, bind. rewrite Ht, Ho.
  rewrite (std_swap_RawMemory_at this other vt vo s Hne Ht Ho). cbn [fst snd].
  rewrite RawMemory_dtor_default.
  erewrite std_swap_sizes; [|done| |apply lookup_with_obj].
  2:{ rewrite lookup_with_obj_ne by done. apply lookup_with_obj. }
  rewrite (with_obj_swap this other) by done. rewrite !with_obj_twice.
  by destruct vt as [[buf cap] sz], vo as [[buf' cap'] sz'].
Qed.

Lemma Swap_objs_self this v s :
  objs s !! this = Some v →
  Swap_objs (E:=E) this this s = Ok tt s.
Proof.
  intros Ht.
  unfold Swap_objs, obj, with_scope, on_store, modify, mbind, M_bind, bind.
  rewrite Ht. cbv beta iota. rewrite ?Ht. cbv beta iota.
  rewrite (std_swap_RawMemory_self this v s Ht). cbn [fst snd].
  rewrite RawMemory_dtor_default.
  by rewrite (std_swap_sizes_self this v s Ht).
Qed.

(** ** Indexing *)

Lemma Vector_index_in this index s (xs : list T) cap :
  holds el s this xs cap →
  0 ≤ index < Z.of_nat (length xs) →
  Vector_index (E:=E) this index s = Ok (buffer_at s this +ₚ index) s.
Proof.
  intros (buf & Hobj & Hlen & _) Hi.
  unfold Vector_index, RawMemory_index, assert_, obj, buffer_at, mbind, M_bind, bind.
  rewrite Hobj. cbn [data_ size_ capacity_ buffer_ default].
  rewrite decide_True by lia. cbn beta iota.
  unfold mret, M_ret, ret. rewrite decide_True by lia. done.
Qed.

Lemma Vector_index_out this index s (xs : list T) cap :
  holds el s this xs cap →
  Z.of_nat (length xs) ≤ index →
  Vector_index (E:=E) this index s = Undefined.
Proof.
  intros (buf & Hobj & Hlen & _) Hi.
  unfold Vector_index, RawMemory_index, assert_, obj, mbind, M_bind, bind.
  rewrite Hobj. cbn [data_ size_ capacity_ buffer_].
  by rewrite decide_False by lia.
Qed.

End Access.

Section ValueConstruction.

Context {T W E A : Type} (el : ElemType T W E A) (al : Allocator W E).

Abbreviation state := (@state T W E).
Abbreviation Mach := (M state E).

Implicit Types (s : state) (p q : ptr) (b : nat) (cells : list (slot T)).

Context (noargs : A) (b : nat) (post : list (slot T)).

Lemma value_construct_loop_spec k : ∀ pre s,
  heap s !! b = Some (pre ++ replicate k None ++ post) →
  match value_construct_loop el noargs (at_ b (length pre)) k s with
  | (_, Ok _ s') =>
      ∃ vs, length vs = k ∧ Forall (init_value el (InitArgs noargs)) vs ∧
        after s (<[b := pre ++ (Some <$> vs) ++ post]> (heap s))
          (ev_construct (at_ b (length pre)) k) s'
  | (cur, Throw e s') =>
      env_raises el al e ∧
      ∃ vs k', (length vs + S k' = k)%nat ∧
        cur = at_ b (length pre + length vs) ∧
        after s (<[b := pre ++ (Some <$> vs) ++ replicate (S k') None ++ post]> (heap s))
          (ev_construct (at_ b (length pre)) (length vs) ++ [EvRaise e]) s'
  | (_, Undefined) => False
  end.
Proof.
  induction k as [|k IH]; intros pre s Hb; simpl in Hb |- *.
  - exists []. split; [done|]. split; [constructor|]. simpl.
    rewrite insert_id by done. apply after_refl.
  - pose proof (wp_construct_at el al b (length pre) _ (InitArgs noargs) s Hb
                  (lookup_middle _ _ _)) as H1.
    unfold wp in H1.
    destruct (construct_at el (at_ b (length pre)) (InitArgs noargs) s) as [[] s1|e s1|];
      [|clear IH|done].
    + destruct H1 as (v & Hv & H1). rewrite insert_middle in H1.
      rewrite at_succ. pose proof H1 as (Hh & _ & _).
      specialize (IH (pre ++ [Some v]) s1).
      rewrite Hh, lookup_insert_eq, <- app_assoc in IH. specialize (IH eq_refl).
      rewrite <- Hh in IH. rewrite length_app in IH. simpl in IH.
      rewrite Nat.add_1_r in IH.
      destruct (value_construct_loop el noargs _ k s1) as [cur [[] s'|e s'|]]; [| |done].
      * destruct IH as (vs & Hlen & Hvs & H2).
        exists (v :: vs). split; [simpl; by rewrite Hlen|]. split; [by constructor|].
        rewrite <- app_assoc in H2. simpl in H2 |- *.
        exact (after_same _ _ _ _ _ _ [_] _ H1 H2).
      * destruct IH as (Hr & vs & k' & Hlen & -> & H2). split; [done|].
        exists (v :: vs), k'. split; [simpl; lia|].
        split; [simpl; f_equal; f_equal; lia|].
        rewrite <- app_assoc in H2. simpl in H2 |- *. rewrite at_succ.
        exact (after_same _ _ _ _ _ _ [_] _ H1 H2).
    + destruct H1 as (Hr & Hh & Ho & Hl). split; [done|].
      exists [], k. split; [done|]. split; [by rewrite Nat.add_0_r|]. simpl.
      split; [|done]. rewrite Hh. symmetry. by apply insert_id.
Qed.

Lemma wp_uninitialized_value_construct_n k pre s :
  heap s !! b = Some (pre ++ replicate k None ++ post) →
  wp (uninitialized_value_construct_n el noargs (at_ b (length pre)) (Z.of_nat k)) s
    (fun _ s' =>
       ∃ vs, length vs = k ∧ Forall (init_value el (InitArgs noargs)) vs ∧
         after s (<[b := pre ++ (Some <$> vs) ++ post]> (heap s))
           (ev_construct (at_ b (length pre)) k) s')
    (fun e s' =>
       env_raises el al e ∧
       ∃ n, (n < k)%nat ∧
         after s (heap s)
           (ev_construct (at_ b (length pre)) n ++ [EvRaise e]
              ++ ev_destroy (at_ b (length pre)) n) s').
Proof.
  intros Hb. unfold wp, uninitialized_value_construct_n. rewrite Nat2Z.id.
  pose proof (value_construct_loop_spec k pre s Hb) as H.
  destruct (value_construct_loop el noargs _ k s) as [cur [[] s1|e s1|]]; [done| |done].
  destruct H as (Hr & vs & k' & Hlen & -> & H1).
  pose proof H1 as (Hh & _ & _).
  pose proof (wp_destroy_loop el b (replicate (S k') None ++ post) vs pre s1) as H2.
  rewrite Hh, lookup_insert_eq in H2. specialize (H2 eq_refl). rewrite <- Hh in H2.
  unfold destroy_range, ptr_diff, mbind, M_bind, bind. simpl.
  replace (Z.to_nat (Z.of_nat (length pre + length vs) - Z.of_nat (length pre)))
    with (length vs) by lia.
  unfold wp in H2.
  destruct (destroy_loop el (at_ b (length pre)) (length vs) s1) as [[] s2|e' s2|];
    [|destruct H2..].
  split; [done|]. exists (length vs). split; [lia|].
  destruct H1 as (Hh1 & Ho1 & Hl1), H2 as (Hh2 & Ho2 & Hl2).
  unfold after. rewrite Hh2, Hh1, Ho2, Ho1, Hl2, Hl1.
  split; [|split; [done|by rewrite <- !app_assoc]].
  rewrite insert_insert_eq. apply insert_id.
  etrans; [exact Hb|]. f_equal. f_equal.
  rewrite <- Hlen, replicate_add. by rewrite <- app_assoc.
Qed.

End ValueConstruction.

Section Resizing.

Context {T W E A : Type} (el : ElemType T W E A) (al : Allocator W E).

Abbreviation state := (@state T W E).
Abbreviation Mach := (M state E).

Implicit Types (s : state) (p q : ptr) (b : nat) (cells : list (slot T)).

Lemma constructed_construct p n :
  constructed (ev_construct (E:=E) p n) = ptr_seq p n.
Proof. revert p. induction n as [|n IH]; intros p; simpl; by rewrite ?IH. Qed.

Lemma destroyed_construct p n : destroyed (ev_construct (E:=E) p n) = [].
Proof. revert p. induction n as [|n IH]; intros p; simpl; by rewrite ?IH. Qed.

(** ** The constructor from a size *)

Lemma Vector_size_ctor_zero noargs s :
  Vector_size_ctor el al noargs 0 s = Ok Vector_default s.
Proof. done. Qed.

Lemma wp_Vector_size_ctor noargs size s b :
  Sane el al → 0 < size → size * sizeof el < SIZE_MOD →
  b = fresh (dom (heap s)) →
  wp (Vector_size_ctor el al noargs size) s
    (fun v s' =>
       ∃ vs, length vs = Z.to_nat size ∧ Forall (init_value el (InitArgs noargs)) vs ∧
         v = {| data_ := {| buffer_ := at_ b 0; capacity_ := size |}; size_ := size |} ∧
         heap s !! b = None ∧ size * sizeof el ≤ PTRDIFF_MAX ∧
         after s (<[b := Some <$> vs]> (heap s))
           (EvNew b (size * sizeof el) :: ev_construct (at_ b 0) (Z.to_nat size)) s')
    (fun e s' =>
       env_raises el al e ∧ heap s' = heap s ∧ objs s' = objs s ∧
       ∃ evs, log s' = log s ++ evs ∧ rolled_back e evs).
Proof.
  intros HS Hpos Hfit Hb. unfold Vector_size_ctor.
  apply wp_bind.
  eapply wp_mono; [apply wp_RawMemory_ctor; [done|lia|done]| |].
  2:{ intros e s' (Hr & Hh & Ho & Hl). split; [done|]. split; [done|]. split; [done|].
      exists [EvRaise e]. split; [done|]. by left. }
  intros new_data s1 (-> & Hfresh & Hbytes & Hh1 & Ho1 & Hl1).
  rewrite <- Hb in Hfresh, Hh1, Hl1 |- *.
  remember (size * sizeof el) as bytes eqn:Hbytesdef.
  unfold GetAddress, unwinding. cbn [buffer_].
  apply wp_bind, wp_catch.
  rewrite <- (Z2Nat.id size) at 1 by lia.
  change (at_ b 0) with (at_ b (length (@nil (slot T)))).
  eapply wp_mono;
    [eapply (wp_uninitialized_value_construct_n el al noargs b [] (Z.to_nat size) [] s1)| |].
  { rewrite Hh1, lookup_insert_eq. simpl. by rewrite app_nil_r. }
  - intros [] s2 (vs & Hlen & Hvs & Hh2 & Ho2 & Hl2). simpl in Hh2, Hl2.
    apply wp_ret. exists vs. split; [done|]. split; [done|]. split; [done|].
    split; [done|]. split; [done|]. split; [|split].
    + rewrite Hh2, Hh1, insert_insert_eq. by rewrite app_nil_r.
    + by rewrite Ho2.
    + rewrite Hl2, Hl1. by rewrite <- app_assoc.
  - intros e sx (Hr & n & Hn & Hhx & Hox & Hlx). simpl in Hlx.
    unfold RawMemory_dtor, Deallocate. cbn [buffer_].
    eapply wp_mono;
      [eapply (wp_operator_delete b); by rewrite Hhx, Hh1, lookup_insert_eq| |done].
    intros [] s' (Hh' & Ho' & Hl').
    split; [done|]. split; [|split].
    + rewrite Hh', Hhx, Hh1, delete_insert_eq. by apply delete_id.
    + by rewrite Ho', Hox.
    + exists (EvNew b bytes
                :: (ev_construct (at_ b 0) n ++ [EvRaise e] ++ ev_destroy (at_ b 0) n)
                ++ [EvDelete b]).
      split; [rewrite Hl', Hlx, Hl1; by rewrite <- !app_assoc|].
      right. eexists b, bytes, _. split; [done|]. split; [set_solver|].
      rewrite !constructed_app, !destroyed_app, constructed_construct, destroyed_construct,
        constructed_destroy, destroyed_destroy. simpl. rewrite app_nil_r.
      split; [apply ptr_seq_block|done].
Qed.

(** ** [Resize] *)

Lemma wp_Resize_shrink noargs this (n : nat) s (xs : list T) cap :
  Sane el al →
  holds el s this xs cap →
  (n ≤ length xs)%nat →
  wp (Resize el al noargs this (Z.of_nat n)) s
    (fun _ s' =>
       holds el s' this (take n xs) cap ∧
       buffer_at s' this = buffer_at s this ∧
       log s' = log s
         ++ ev_destroy (buffer_at s this +ₚ Z.of_nat n) (length xs - n))
    (fun _ _ => False).
Proof.
  intros HS (buf & Hobj & Hlen & Hfits & Hoff & Hown) Hn.
  pose proof (sizeof_pos _ _ HS) as Hsz.
  assert (cap ≤ PTRDIFF_MAX) as HcapM by nia.
  assert (cap * sizeof el ≤ PTRDIFF_MAX ↔ True) as Hfits' by done. clear Hfits.
  assert (buffer_at s this = buf) as Hbuf by (unfold buffer_at; by rewrite Hobj).
  rewrite PTRDIFF_MAX_eq in *.
  unfold Resize. wp_pure Size_eq. cbn [size_].
  rewrite decide_False by lia.
  apply wp_bind.
  eapply (wp_mono _ s
            (fun _ s1 => after s (match blk buf with
                                  | Some bo => <[bo := cells_of (take n xs) cap]> (heap s)
                                  | None => heap s
                                  end)
                           (ev_destroy (buf +ₚ Z.of_nat n) (length xs - n)) s1)
            _ (fun _ _ => False)); [| |done].
  2:{ intros [] s1 (Hh1 & Ho1 & Hl1).
      eapply wp_rewrite; [eapply write_size_eq; by rewrite Ho1|]. cbv beta iota.
      simpl. split; [|split].
      - eapply holds_intro; simpl.
        + apply lookup_insert_eq.
        + rewrite length_take. lia.
        + lia.
        + by apply Hfits'.
        + split; [done|]. simpl. rewrite Hh1.
          destruct (blk buf) as [bo|] eqn:Hblk; [apply lookup_insert_eq|].
          apply (f_equal length) in Hown. unfold cells_of in *.
          rewrite length_app, length_replicate, length_fmap in Hown. simpl in Hown.
          assert (xs = []) as -> by (apply nil_length_inv; lia).
          rewrite take_nil. simpl. assert (Z.to_nat cap = 0%nat) as -> by lia. done.
      - unfold buffer_at. simpl. by rewrite lookup_insert_eq, Hobj.
      - by rewrite Hl1, Hbuf. }
  destruct (decide (Z.of_nat n < Z.of_nat (length xs))) as [Hlt|Hge].
  - wp_pure begin_eq. wp_pure Size_eq. cbn [data_ buffer_ size_ GetAddress].
    rewrite wrap_id by (rewrite SIZE_MOD_eq; lia).
    destruct buf as [[bo|] o]; simpl in Hoff, Hown; subst o.
    2:{ apply (f_equal length) in Hown. unfold cells_of in Hown.
        rewrite length_app, length_replicate, length_fmap in Hown. simpl in Hown. lia. }
    change (Ptr (Some bo) 0) with (at_ bo 0) in *.
    rewrite at_add, Nat2Z.id by lia. simpl.
    unfold destroy_n.
    replace (Z.to_nat (Z.of_nat (length xs) - Z.of_nat n))
      with (length (drop n xs)) by (rewrite length_drop; lia).
    replace (at_ bo n) with (at_ bo (length (Some <$> take n xs)))
      by (rewrite length_fmap, length_take; f_equal; lia).
    unfold cells_of in Hown. rewrite <- (take_drop n xs) in Hown at 1.
    rewrite fmap_app, <- app_assoc in Hown.
    eapply wp_mono; [eapply (wp_destroy_loop el bo _ (drop n xs) _ s Hown)| |done].
    intros [] s1 (Hh1 & Ho1 & Hl1). split; [|split; [done|]].
    + rewrite Hh1. f_equal. unfold cells_of. f_equal.
      rewrite <- replicate_add. f_equal. rewrite length_drop, length_take. lia.
    + rewrite Hl1, length_drop. done.
  - apply wp_ret. assert (n = length xs) as -> by lia.
    rewrite Nat.sub_diag, firstn_all. simpl. split; [|split; [done|by rewrite app_nil_r]].
    destruct (blk buf) as [bo|] eqn:Hblk; [|done].
    symmetry. by apply insert_id.
Qed.

Lemma wp_Resize_grow noargs this (n : nat) s (xs : list T) cap :
  Sane el al → Regular el →
  holds el s this xs cap →
  (length xs < n)%nat →
  (cap < Z.of_nat n → Z.of_nat n * sizeof el < SIZE_MOD) →
  wp (Resize el al noargs this (Z.of_nat n)) s
    (fun _ s' =>
       ∃ vs, length vs = (n - length xs)%nat ∧
         Forall (init_value el (InitArgs noargs)) vs ∧
         holds el s' this (xs ++ vs) (Z.max cap (Z.of_nat n)))
    (fun e _ => env_raises el al e).
Proof.
  intros HS Hreg Hh Hn Hfit.
  pose proof (sizeof_pos _ _ HS) as Hsz.
  pose proof Hh as (buf0 & Hobj0 & _).
  unfold Resize. wp_pure Size_eq. cbn [size_].
  rewrite decide_True by lia.
  apply wp_bind, wp_bind.
  eapply wp_mono; [by eapply wp_Reserve| |by intros e s' [? _]].
  intros [] s1 [(buf & Hobj & Hlen & Hfits & Hoff & Hown) _].
  set (cap' := Z.max cap (Z.of_nat n)) in *.
  assert (Z.of_nat n ≤ cap') as Hcap' by (unfold cap'; lia).
  assert (cap' ≤ PTRDIFF_MAX) as HcapM by nia.
  assert (cap' * sizeof el ≤ PTRDIFF_MAX ↔ True) as Hfits' by done. clear Hfits.
  rewrite PTRDIFF_MAX_eq in *.
  wp_pure end_eq. wp_pure Size_eq. cbn [data_ buffer_ size_ GetAddress].
  rewrite wrap_id by (rewrite SIZE_MOD_eq; lia).
  destruct buf as [[bo|] o]; simpl in Hoff, Hown; subst o.
  2:{ apply (f_equal length) in Hown. unfold cells_of in Hown.
      rewrite length_app, length_replicate, length_fmap in Hown. simpl in Hown. lia. }
  change (Ptr (Some bo) 0) with (at_ bo 0) in *.
  rewrite at_add, Nat2Z.id by lia. simpl.
  replace (Z.of_nat n - Z.of_nat (length xs)) with (Z.of_nat (n - length xs)) by lia.
  replace (at_ bo (length xs)) with (at_ bo (length (Some <$> xs)))
    by (by rewrite length_fmap).
  assert (cells_of xs cap'
          = (Some <$> xs) ++ replicate (n - length xs) None
              ++ replicate (Z.to_nat cap' - n) None) as Hcells.
  { unfold cells_of. f_equal. rewrite <- replicate_add. f_equal. lia. }
  rewrite Hcells in Hown.
  eapply wp_mono;
    [eapply (wp_uninitialized_value_construct_n el al noargs bo _ _ _ s1 Hown)
    | |by intros e s' [? _]].
  intros [] s2 (vs & Hlvs & Hvs & Hh2 & Ho2 & Hl2).
  eapply wp_rewrite; [eapply write_size_eq; by rewrite Ho2|]. cbv beta iota. simpl.
  exists vs. split; [done|]. split; [done|].
  eapply holds_intro; simpl.
  - apply lookup_insert_eq.
  - rewrite length_app. lia.
  - lia.
  - by apply Hfits'.
  - split; [done|]. simpl. rewrite Hh2, lookup_insert_eq. f_equal.
    unfold cells_of. rewrite fmap_app, <- app_assoc. do 3 f_equal.
    rewrite length_app. lia.
Qed.

End Resizing.

Section AtTheEnd.

Context {T W E A : Type} (el : ElemType T W E A) (al : Allocator W E).

Abbreviation state := (@state T W E).
Abbreviation Mach := (M state E).

Implicit Types (s : state) (p q : ptr) (b : nat) (cells : list (slot T)).

(** What follows the placement in [Emplace] and in [EmplaceBack] agrees
    once the size is known. *)
Lemma emplace_tails_agree this (len : Z) s1 :
  0 ≤ len → len + 1 < SIZE_MOD →
  (∀ v, objs s1 !! this = Some v → size_ v = len) →
  (size ← Size this;
   write_size_ this (wrap (size + 1)) ;;
   first ← begin_ this;
   mret (first +ₚ len)) s1
  = (size ← Size this;
     write_size_ this (wrap (size + 1)) ;;
     last ← end_ this;
     mret (last +ₚ (-1)) : Mach ptr) s1.
Proof.
  intros Hlen Hfit Hsz.
  unfold Size, write_size_, begin_, end_, obj, on_store, modify, mbind, M_bind, bind.
  destruct (objs s1 !! this) as [v|] eqn:Hv; [|done].
  simpl. rewrite Hv. simpl. rewrite !lookup_insert_eq. simpl.
  unfold mret, M_ret, ret. f_equal.
  rewrite (Hsz v eq_refl), wrap_id by lia.
  unfold ptr_add. simpl. f_equal. lia.
Qed.

Lemma bind_ok {R R'} (m : Mach R) (k : R -> Mach R') s r s1 :
  m s = Ok r s1 → (m ≫= k) s = k r s1.
Proof. intros H. unfold mbind, M_bind, bind. by rewrite H. Qed.

Lemma bind_cong {R R'} (m m' : Mach R) (k k' : R -> Mach R') s :
  m s = m' s →
  (∀ r s1, m' s = Ok r s1 → k r s1 = k' r s1) →
  (m ≫= k) s = (m' ≫= k') s.
Proof.
  intros Hm Hk. unfold mbind, M_bind, bind. rewrite Hm.
  destruct (m' s) as [r s1|e s1|]; [by apply Hk|done|done].
Qed.

Lemma wp_Ok {R} (m : Mach R) s r s1 Q X : wp m s Q X → m s = Ok r s1 → Q r s1.
Proof. unfold wp. intros H Heq. by rewrite Heq in H. Qed.

Lemma Emplace_at_end this args s (xs : list T) cap :
  Sane el al →
  holds el s this xs cap →
  Emplace el al this (buffer_at s this +ₚ Z.of_nat (length xs)) args s
  = EmplaceBack el al this args s.
Proof.
  intros HS (buf & Hobj & Hlen & Hfits & Hoff & Hown).
  pose proof (sizeof_pos _ _ HS) as Hsz.
  assert (cap ≤ PTRDIFF_MAX) as HcapM by nia.
  assert (buffer_at s this = buf) as -> by (unfold buffer_at; by rewrite Hobj).
  assert (Z.of_nat (length xs) * sizeof el ≤ PTRDIFF_MAX) as Hfitl by nia.
  assert (cap * sizeof el ≤ PTRDIFF_MAX ↔ True) as Hfits' by done. clear Hfits.
  assert (Z.of_nat (length xs) * sizeof el ≤ PTRDIFF_MAX ↔ True) as Hfitl' by done.
  clear Hfitl.
  remember (Z.of_nat (length xs)) as len eqn:Hlendef.
  assert (0 ≤ len) as Hlen0 by lia.
  rewrite PTRDIFF_MAX_eq in HcapM.
  assert (wrap (ptr_diff (buf +ₚ len) buf) = len) as Hposn.
  { unfold ptr_diff, ptr_add. simpl. rewrite wrap_id; [lia|]. rewrite SIZE_MOD_eq. lia. }
  assert (wrap (len + 1) = len + 1) as Hwrap by (apply wrap_id; rewrite SIZE_MOD_eq; lia).
  unfold Emplace, EmplaceBack.
  rewrite (bind_ok (begin_ this) _ s _ s (begin_eq this _ s Hobj)).
  rewrite !(bind_ok (Capacity this) _ s _ s (Capacity_eq this _ s Hobj)).
  rewrite !(bind_ok (Size this) _ s _ s (Size_eq this _ s Hobj)).
  cbn [data_ buffer_ capacity_ size_ GetAddress].
  rewrite Hposn, Hwrap.
  assert (end_ this s = Ok (buf +ₚ len) s) as Hend by (by erewrite end_eq by exact Hobj).
  assert (len + 1 < SIZE_MOD) as Hfit by (rewrite SIZE_MOD_eq; lia).
  destruct (decide (cap > len)) as [Hroom|Hfull].
  - rewrite decide_True by lia.
    apply bind_cong.
    + rewrite (bind_ok (end_ this) _ s _ s Hend).
      by rewrite decide_False by (intros Hne; by apply Hne).
    + intros [] s1 Heq. apply emplace_tails_agree; [done|done|].
      destruct buf as [[bo|] o]; simpl in Hoff, Hown; subst o.
      2:{ apply (f_equal length) in Hown. unfold cells_of in Hown.
          rewrite length_app, length_replicate, length_fmap in Hown. simpl in Hown. lia. }
      rewrite Hlendef in Hobj.
      pose proof (wp_PlaceBackWithoutRealloc el al this args s bo xs cap Hobj Hown
                    ltac:(lia) ltac:(rewrite PTRDIFF_MAX_eq; lia)) as Hwp.
      apply (wp_Ok _ _ _ _ _ _ Hwp) in Heq as (v & _ & _ & Ho1 & _).
      intros v1 Hv1. rewrite Ho1, Hobj in Hv1. by injection Hv1 as <-.
  - rewrite decide_False by lia.
    apply bind_cong.
    + by rewrite (bind_ok (end_ this) _ s _ s Hend).
    + intros [] s1 Heq. apply emplace_tails_agree; [done|done|].
      assert (cap = len) as -> by lia.
      assert (owns s buf (Some <$> xs)) as Hown'.
      { split; [done|]. rewrite Hlendef, cells_of_full in Hown. done. }
      pose proof (wp_realloc el al this buf xs [] args s xs len (fresh (dom (heap s)))
                    HS (eq_sym (app_nil_r xs)) Hlendef eq_refl Hobj Hown'
                    ltac:(by apply Hfitl')) as Hwp.
      rewrite <- Hlendef in Hwp.
      rewrite (bind_ok (end_ this) _ s _ s Hend) in Heq.
      unfold mbind, M_bind, bind in Heq.
      destruct (PlaceWithRealloc el al this (buf +ₚ len) args s) as [r s1'|e s1'|] eqn:Hp;
        [|done..].
      injection Heq as <-.
      apply (wp_Ok _ _ _ _ _ _ Hwp) in Hp
        as (v & ys1 & ys2 & _ & _ & _ & _ & _ & _ & _ & Ho1 & _).
      intros v1 Hv1. rewrite Ho1, lookup_insert_eq in Hv1. by injection Hv1 as <-.
Qed.

End AtTheEnd.

(** * Further properties of the two classes *)

Section Further.

Context {T W E A : Type} (el : ElemType T W E A) (al : Allocator W E).

Abbreviation state := (@state T W E).
Abbreviation Mach := (M state E).

Implicit Types (s : state) (p q : ptr) (b : nat) (cells : list (slot T)).

Lemma holds_frame s s' this (xs : list T) cap :
  holds el s this xs cap →
  objs s' !! this = objs s !! this →
  (∀ b, blk (buffer_at s this) = Some b → heap s' !! b = heap s !! b) →
  holds el s' this xs cap.
Proof.
  intros (buf & Hobj & Hlen & Hfits & Hoff & Hown) Ho Hh.
  assert (buffer_at s this = buf) as Hb by (unfold buffer_at; by rewrite Hobj).
  exists buf. split; [by rewrite Ho|]. split; [done|]. split; [done|]. split; [done|].
  destruct (blk buf) as [bo|] eqn:Hblk; [|done].
  rewrite Hh; [done|]. by rewrite Hb.
Qed.

Lemma holds_block s this (xs : list T) cap b :
  holds el s this xs cap → blk (buffer_at s this) = Some b →
  heap s !! b = Some (cells_of xs cap).
Proof.
  intros (buf & Hobj & Hlen & Hfits & Hoff & Hown) Hb.
  unfold buffer_at in Hb. rewrite Hobj in Hb. simpl in Hb. by rewrite Hb in Hown.
Qed.

(** X5: a vector copied and then destroyed leaves the heap and the
    vectors as they were, whether the copy succeeds or fails. *)
Theorem copy_then_destroy_restores other s (xs : list T) cap :
  Sane el al → Regular el →
  view el s other = Some (xs, cap) →
  wp (v ← Vector_copy_ctor el al other; Vector_dtor el v) s
    (fun _ s' => heap s' = heap s ∧ objs s' = objs s)
    (fun e s' => env_raises el al e ∧ heap s' = heap s ∧ objs s' = objs s).
Proof.
  intros HS Hreg Hv. pose proof (view_holds _ _ _ _ _ Hv) as Hh.
  apply wp_bind.
  destruct (decide (xs = [])) as [->|Hne].
  - eapply wp_rewrite; [by eapply Vector_copy_ctor_empty|]. cbv beta iota.
    eapply wp_mono; [eapply (wp_Vector_dtor el nullptr [] 0 s); done| |done].
    by intros [] s' (Hh' & Ho' & _).
  - eapply wp_mono;
      [by eapply (wp_Vector_copy_ctor el al other s xs cap)
      | |by intros e s' (? & ? & ? & _)].
    intros v s1 (-> & Hfresh & Hh1 & Ho1 & Hl1).
    eapply wp_mono; [eapply (wp_Vector_dtor el (at_ _ 0) xs)| |done].
    { split; [done|]. simpl. rewrite Hh1, lookup_insert_eq. by rewrite cells_of_full. }
    intros [] s2 (Hh2 & Ho2 & _). split; [|by rewrite Ho2].
    rewrite Hh2, Hh1. unfold released. simpl. rewrite delete_insert_eq.
    by apply delete_id.
Qed.

Lemma swap_back this other (vt vo : Vector) s :
  this ≠ other →
  objs s !! this = Some vt → objs s !! other = Some vo →
  with_obj other vo (with_obj this vt (with_obj other vt (with_obj this vo s))) = s.
Proof.
  intros Hne Ht Ho. unfold with_obj, set_objs. simpl. destruct s as [w h o l]. simpl in *.
  f_equal. apply map_eq. intros i.
  destruct (decide (i = other)) as [->|]; [by lookup_simpl|].
  destruct (decide (i = this)) as [->|]; by lookup_simpl.
Qed.

(** X7: [Swap] exchanges what two vectors hold without touching the
    heap or any element; a vector swapped with itself, and two vectors
    swapped twice, are as before. *)
Theorem Swap_exchanges this other s :
  is_Some (objs s !! this) → is_Some (objs s !! other) →
  wp (Swap_objs (E:=E) this other) s
    (fun _ s' =>
       view el s' this = view el s other ∧ view el s' other = view el s this ∧
       heap s' = heap s ∧ log s' = log s ∧ (this = other → s' = s))
    (fun _ _ => False) ∧
  (Swap_objs this other ;; Swap_objs this other) s = Ok tt s.
Proof.
  intros [vt Ht] [vo Ho].
  destruct (decide (this = other)) as [<-|Hne].
  - split.
    + eapply wp_rewrite; [by eapply Swap_objs_self|]. done.
    + erewrite bind_ok by (by eapply Swap_objs_self). by eapply Swap_objs_self.
  - split.
    + eapply wp_rewrite; [by eapply Swap_objs_distinct|]. cbv beta iota.
      split; [|split; [|done]].
      * apply view_ext; [|done]. simpl. by rewrite lookup_insert_ne, lookup_insert_eq.
      * apply view_ext; [|done]. simpl. by rewrite lookup_insert_eq.
    + erewrite bind_ok by (by eapply Swap_objs_distinct).
      erewrite Swap_objs_distinct; [|done| |].
      * f_equal. by apply swap_back.
      * simpl. by rewrite lookup_insert_ne, lookup_insert_eq.
      * simpl. by rewrite lookup_insert_eq.
Qed.

(** X8: indexing.  An index below the size gives the address of the
    element of that index and changes nothing; for an index that is not
    below the size the assertion of [operator[]] fails. *)
Theorem index_in_bounds this s (xs : list T) cap :
  view el s this = Some (xs, cap) →
  (∀ (i : nat) x, xs !! i = Some x →
     wp (Vector_index (E:=E) this (Z.of_nat i)) s
       (fun p s' =>
          s' = s ∧ p = buffer_at s this +ₚ Z.of_nat i ∧ cell s p = Some (Some x))
       (fun _ _ => False)) ∧
  (∀ index, Z.of_nat (length xs) ≤ index → Vector_index (E:=E) this index s = Undefined).
Proof.
  intros Hv. apply view_holds in Hv. split.
  - intros i x Hi.
    eapply wp_rewrite.
    { eapply Vector_index_in; [exact Hv|]. apply lookup_lt_Some in Hi. lia. }
    cbv beta iota. split; [done|]. split; [done|]. by eapply holds_buffer_at.
  - intros index Hi. by eapply Vector_index_out.
Qed.

(** X9: a value pushed and popped again leaves the vector holding what
    it held; the capacity may have grown. *)
Theorem push_then_pop_restores this value s (xs : list T) cap :
  Sane el al → Regular el →
  view el s this = Some (xs, cap) →
  wp (PushBack el al this value ;; PopBack el this) s
    (fun _ s' => ∃ cap', view el s' this = Some (xs, cap') ∧ cap ≤ cap')
    (fun e _ => env_raises el al e).
Proof.
  intros HS Hreg Hv. apply view_holds in Hv.
  apply wp_bind.
  eapply wp_mono; [by apply wp_PushBack| |by intros e s' [? _]].
  intros [] s1 Hh1.
  eapply wp_mono; [exact (wp_PopBack el al this s1 xs value _ HS Hh1)| |done].
  intros [] s2 (bo & _ & _ & _ & Hh2 & _).
  eexists. split; [by apply holds_view|].
  destruct Hv as (? & _ & ? & _). apply cap_after_push_le. lia.
Qed.

(** X10: a value inserted at a position and erased through the
    iterator that [Insert] returned leaves the vector holding what it held,
    in the same order. *)
Theorem insert_then_erase_restores this value s (xs1 xs2 : list T) cap :
  Sane el al → Regular el →
  view el s this = Some (xs1 ++ xs2, cap) →
  wp (p ← Insert el al this (buffer_at s this +ₚ Z.of_nat (length xs1)) value;
      Erase el this p) s
    (fun q s' =>
       ∃ cap', view el s' this = Some (xs1 ++ xs2, cap') ∧ cap ≤ cap' ∧
         q = buffer_at s' this +ₚ Z.of_nat (length xs1))
    (fun e _ => env_raises el al e).
Proof.
  intros HS Hreg Hv. apply view_holds in Hv.
  apply wp_bind. unfold Insert.
  eapply wp_mono; [by apply wp_Emplace| |done].
  intros p s1 (v & Hiv & Hh1 & ->).
  eapply wp_mono; [by apply (wp_Erase el al)| |done].
  intros q s2 (bo & Hbuf & -> & _ & Ho2 & Hh2 & _).
  eexists. split; [by apply holds_view|]. split.
  - destruct Hv as (? & _ & ? & _). apply cap_after_push_le. lia.
  - unfold buffer_at at 1. rewrite Ho2, lookup_insert_eq. simpl. rewrite Hbuf.
    by rewrite at_add, Nat2Z.id by lia.
Qed.

(** X11: move assignment releases nothing.  It performs no element
    operation and no deallocation: the destination takes the buffer of the
    source, the source is left with the null pointer, and the elements that
    the destination held stay alive in their block, which neither vector
    refers to any more. *)
Theorem move_assign_releases_nothing this rhs s (xs ys : list T) cap capr :
  this ≠ rhs →
  view el s this = Some (xs, cap) → view el s rhs = Some (ys, capr) →
  wp (Vector_move_assign (E:=E) this rhs) s
    (fun _ s' =>
       heap s' = heap s ∧ log s' = log s ∧
       buffer_at s' this = buffer_at s rhs ∧ buffer_at s' rhs = nullptr ∧
       ∀ (i : nat) x, xs !! i = Some x →
         cell s' (buffer_at s this +ₚ Z.of_nat i) = Some (Some x))
    (fun _ _ => False).
Proof.
  intros Hne Hv Hvr.
  pose proof (view_holds _ _ _ _ _ Hv) as Hh.
  pose proof (view_holds _ _ _ _ _ Hvr) as (bufr & Hobjr & _).
  pose proof Hh as (buf & Hobj & _).
  eapply wp_mono; [by eapply wp_Vector_move_assign| |done].
  intros [] s' (Hh' & Hl' & Ho'). split; [done|]. split; [done|].
  split; [|split].
  - unfold buffer_at. by rewrite Ho', lookup_insert_ne, lookup_insert_eq, Hobjr.
  - unfold buffer_at. by rewrite Ho', lookup_insert_eq.
  - intros i x Hi. pose proof (holds_buffer_at el s this xs cap i x Hh Hi) as Hc.
    unfold cell in *. by rewrite Hh'.
Qed.

(** X13: [Emplace] at [end()] is [EmplaceBack]: same result, same
    state, same exception. *)
Theorem Emplace_at_end_is_EmplaceBack this args s (xs : list T) cap :
  Sane el al →
  view el s this = Some (xs, cap) →
  Emplace el al this (buffer_at s this +ₚ Z.of_nat (length xs)) args s
  = EmplaceBack el al this args s.
Proof. intros HS Hv. apply view_holds in Hv. by eapply Emplace_at_end. Qed.

(** X14: [Resize] to a size that is not larger keeps the first
    elements, the buffer and the capacity; it destroys the elements beyond
    the new size, first to last, and cannot fail.  At the size the vector
    has, nothing is destroyed. *)
Theorem Resize_shrinks noargs this (n : nat) s (xs : list T) cap :
  Sane el al →
  view el s this = Some (xs, cap) →
  (n ≤ length xs)%nat →
  wp (Resize el al noargs this (Z.of_nat n)) s
    (fun _ s' =>
       view el s' this = Some (take n xs, cap) ∧
       buffer_at s' this = buffer_at s this ∧
       log s' = log s
         ++ ev_destroy (buffer_at s this +ₚ Z.of_nat n) (length xs - n))
    (fun _ _ => False).
Proof.
  intros HS Hv Hn. apply view_holds in Hv.
  eapply wp_mono; [by eapply wp_Resize_shrink| |done].
  intros [] s' (Hh' & Hb & Hl). split; [by apply holds_view|done].
Qed.

(** X17: the destructor destroys every element, first to last, and
    then releases the block, which is gone from the heap. *)
Theorem Vector_dtor_destroys_all this v s (xs : list T) cap :
  view el s this = Some (xs, cap) →
  objs s !! this = Some v →
  let buf := buffer_at s this in
  wp (Vector_dtor el v) s
    (fun _ s' =>
       heap s' = released buf (heap s) ∧
       (∀ b, blk buf = Some b → heap s' !! b = None) ∧
       log s' = log s ++ ev_destroy buf (length xs) ++ ev_release buf)
    (fun _ _ => False).
Proof.
  intros Hv Hobj buf. apply view_holds in Hv as (buf0 & Hobj0 & _ & _ & Hown).
  assert (buf = buf0) as -> by (unfold buf, buffer_at; by rewrite Hobj0).
  rewrite Hobj0 in Hobj. injection Hobj as <-.
  eapply wp_mono; [by eapply wp_Vector_dtor| |done].
  intros [] s' (Hh' & _ & Hl'). split; [done|]. split; [|done].
  intros b0 Hb0. rewrite Hh'. unfold released. rewrite Hb0. apply lookup_delete_eq.
Qed.

Lemma copies_nothing_app (l1 l2 : list (event E)) :
  copies_nothing (l1 ++ l2) = copies_nothing l1 && copies_nothing l2.
Proof. apply forallb_app. Qed.

Lemma copies_nothing_transfer d p n :
  moving el = true → copies_nothing (ev_forward (ev_transfer el) d p n) = true.
Proof.
  intros Hm. unfold ev_transfer. unfold moving in Hm. rewrite Hm.
  revert d p. induction n as [|n IH]; intros d p; [done|]. simpl. apply IH.
Qed.

Lemma copies_nothing_destroy p n : copies_nothing (ev_destroy (E:=E) p n) = true.
Proof. revert p. induction n as [|n IH]; intros p; [done|]. simpl. apply IH. Qed.

Lemma copies_nothing_release p : copies_nothing (ev_release (E:=E) p) = true.
Proof. unfold ev_release. by destruct (blk p). Qed.

End Further.

(** ** The further properties at work on the concrete element type *)

Example Demo_view_tight :
  view Demo.plain Demo2.tight 0 = Some ([5], 1) ∧
  view Demo.plain Demo2.tight 1 = Some ([7; 8; 9], 3).
Proof. vm_compute. done. Qed.

Example Demo_copy_assign_reallocates :
  match Vector_copy_assign Demo.plain Demo.alloc 0 1 Demo2.tight with
  | Ok _ s' =>
      view Demo.plain s' 0 = Some ([7; 8; 9], 3) ∧
      view Demo.plain s' 1 = Some ([7; 8; 9], 3) ∧
      log s' = [EvNew 3%nat 12;
                EvCopyConstruct (Slot (Ptr (Some 3%nat) 0)) (Slot (Ptr (Some 2%nat) 0));
                EvCopyConstruct (Slot (Ptr (Some 3%nat) 1)) (Slot (Ptr (Some 2%nat) 1));
                EvCopyConstruct (Slot (Ptr (Some 3%nat) 2)) (Slot (Ptr (Some 2%nat) 2));
                EvDestroy (Slot (Ptr (Some 1%nat) 0));
                EvDelete 1%nat]
  | _ => False
  end.
Proof. vm_compute. done. Qed.

Example Demo_resize :
  match (Resize Demo.plain Demo.alloc 0 0 5 ;; Resize Demo.plain Demo.alloc 0 0 1) Demo.roomy with
  | Ok _ s' => view Demo.plain s' 0 = Some ([10], 5)
  | _ => False
  end.
Proof. vm_compute. done. Qed.

Lemma copy_then_destroy_restores_witness :
  wp (v ← Vector_copy_ctor Demo.copying Demo.alloc 0; Vector_dtor Demo.copying v) Demo.full
    (fun _ s' => heap s' = heap Demo.full ∧ objs s' = objs Demo.full)
    (fun e s' =>
       env_raises Demo.copying Demo.alloc e ∧ heap s' = heap Demo.full ∧
       objs s' = objs Demo.full).
Proof.
  apply (copy_then_destroy_restores Demo.copying Demo.alloc 0 Demo.full [10; 20] 2
           (Demo_sane _ _ _) (Demo_regular _ _ _)).
  vm_compute. reflexivity.
Defined.

Lemma Swap_exchanges_witness :
  wp (Swap_objs 0 1) Demo.roomy
    (fun _ s' =>
       view Demo.plain s' 0 = view Demo.plain Demo.roomy 1 ∧
       view Demo.plain s' 1 = view Demo.plain Demo.roomy 0 ∧
       heap s' = heap Demo.roomy ∧ log s' = log Demo.roomy ∧
       (0%nat = 1%nat → s' = Demo.roomy))
    (fun _ _ => False) ∧
  (Swap_objs 0 1 ;; Swap_objs 0 1) Demo.roomy = Ok tt Demo.roomy.
Proof.
  apply (Swap_exchanges Demo.plain 0 1 Demo.roomy).
  - vm_compute. eauto.
  - vm_compute. eauto.
Defined.

Lemma index_in_bounds_witness :
  wp (Vector_index 1 2) Demo.roomy
    (fun p s' =>
       s' = Demo.roomy ∧ p = buffer_at Demo.roomy 1 +ₚ 2 ∧
       cell Demo.roomy p = Some (Some 9))
    (fun _ _ => False) ∧
  Vector_index 1 3 Demo.roomy = Undefined.
Proof.
  split.
  - apply (proj1 (index_in_bounds Demo.plain 1 Demo.roomy [7; 8; 9] 3
                    ltac:(vm_compute; reflexivity)) 2%nat 9).
    reflexivity.
  - apply (proj2 (index_in_bounds Demo.plain 1 Demo.roomy [7; 8; 9] 3
                    ltac:(vm_compute; reflexivity)) 3).
    simpl. lia.
Defined.

Lemma push_then_pop_restores_witness :
  wp (PushBack Demo.plain Demo.alloc 0 30 ;; PopBack Demo.plain 0) Demo.full
    (fun _ s' => ∃ cap', view Demo.plain s' 0 = Some ([10; 20], cap') ∧ 2 ≤ cap')
    (fun e _ => env_raises Demo.plain Demo.alloc e).
Proof.
  apply (push_then_pop_restores Demo.plain Demo.alloc 0 30 Demo.full [10; 20] 2
           (Demo_sane _ _ _) (Demo_regular _ _ _)).
  vm_compute. reflexivity.
Defined.

Lemma insert_then_erase_restores_witness :
  wp (p ← Insert Demo.plain Demo.alloc 0 (buffer_at Demo.roomy 0 +ₚ 1) 15;
      Erase Demo.plain 0 p) Demo.roomy
    (fun q s' =>
       ∃ cap', view Demo.plain s' 0 = Some ([10] ++ [20], cap') ∧ 4 ≤ cap' ∧
         q = buffer_at s' 0 +ₚ 1)
    (fun e _ => env_raises Demo.plain Demo.alloc e).
Proof.
  apply (insert_then_erase_restores Demo.plain Demo.alloc 0 15 Demo.roomy [10] [20] 4
           (Demo_sane _ _ _) (Demo_regular _ _ _)).
  vm_compute. reflexivity.
Defined.

Lemma move_assign_releases_nothing_witness :
  wp (Vector_move_assign 0 1) Demo.roomy
    (fun _ s' =>
       heap s' = heap Demo.roomy ∧ log s' = log Demo.roomy ∧
       buffer_at s' 0 = buffer_at Demo.roomy 1 ∧ buffer_at s' 1 = nullptr ∧
       ∀ (i : nat) x, [10; 20] !! i = Some x →
         cell s' (buffer_at Demo.roomy 0 +ₚ Z.of_nat i) = Some (Some x))
    (fun _ _ => False).
Proof.
  apply (move_assign_releases_nothing Demo.plain 0 1 Demo.roomy [10; 20] [7; 8; 9] 4 3).
  - lia.
  - vm_compute. reflexivity.
  - vm_compute. reflexivity.
Defined.

Lemma Emplace_at_end_is_EmplaceBack_witness :
  Emplace Demo.plain Demo.alloc 0 (buffer_at Demo.full 0 +ₚ 2) (InitArgs 30) Demo.full
  = EmplaceBack Demo.plain Demo.alloc 0 (InitArgs 30) Demo.full.
Proof.
  apply (Emplace_at_end_is_EmplaceBack Demo.plain Demo.alloc 0 (InitArgs 30) Demo.full
           [10; 20] 2 (Demo_sane _ _ _)).
  vm_compute. reflexivity.
Defined.

Lemma Resize_shrinks_witness :
  wp (Resize Demo.plain Demo.alloc 0 1 1) Demo.roomy
    (fun _ s' =>
       view Demo.plain s' 1 = Some (take 1 [7; 8; 9], 3) ∧
       buffer_at s' 1 = buffer_at Demo.roomy 1 ∧
       log s' = log Demo.roomy ++ ev_destroy (buffer_at Demo.roomy 1 +ₚ 1) (3 - 1))
    (fun _ _ => False).
Proof.
  apply (Resize_shrinks Demo.plain Demo.alloc 0 1 1 Demo.roomy [7; 8; 9] 3 (Demo_sane _ _ _)).
  - vm_compute. reflexivity.
  - simpl. lia.
Defined.

Lemma Vector_dtor_destroys_all_witness :
  wp (Vector_dtor Demo.plain (Demo.vec 2 3 3)) Demo.roomy
    (fun _ s' =>
       heap s' = released (buffer_at Demo.roomy 1) (heap Demo.roomy) ∧
       (∀ b, blk (buffer_at Demo.roomy 1) = Some b → heap s' !! b = None) ∧
       log s' = log Demo.roomy ++ ev_destroy (buffer_at Demo.roomy 1) 3
                  ++ ev_release (buffer_at Demo.roomy 1))
    (fun _ _ => False).
Proof.
  apply (Vector_dtor_destroys_all Demo.plain 1 (Demo.vec 2 3 3) Demo.roomy [7; 8; 9] 3).
  - vm_compute. reflexivity.
  - vm_compute. reflexivity.
Defined.

(** * The outcome of each call *)

(** The lemmas above say what a call does to the heap and the vectors.
    Those that follow say when it returns and when it throws: they follow
    the world of the environment through the call, and identify the
    outcome with that of the run defined for the operation. *)

Section WorldRules.

Context {T W E A : Type} (el : ElemType T W E A) (al : Allocator W E).

Abbreviation state := (@state T W E).
Abbreviation Mach := (M state E).

Implicit Types (s : state) (p q : ptr) (b : nat) (cells : list (slot T)).

(** ** Rules of partial correctness *)

Lemma wp_wpp {R} (m : Mach R) s Q X : wp m s Q X → wpp m s Q X.
Proof. unfold wp, wpp. by destruct (m s). Qed.

Lemma wp_and_wpp {R} (m : Mach R) s Q X Q' X' :
  wp m s Q X → wpp m s Q' X' →
  wp m s (fun r s' => Q r s' ∧ Q' r s') (fun e s' => X e s' ∧ X' e s').
Proof. unfold wp, wpp. by destruct (m s). Qed.

Lemma wpp_ret {R} (r : R) s Q X : Q r s → wpp (mret r) s Q X.
Proof. done. Qed.

Lemma wpp_bind {R R'} (m : Mach R) (k : R -> Mach R') s Q X :
  wpp m s (fun r s' => wpp (k r) s' Q X) X → wpp (m ≫= k) s Q X.
Proof. unfold wpp, mbind, M_bind, bind. by destruct (m s). Qed.

Lemma wpp_mono {R} (m : Mach R) s (Q Q' : R -> state -> Prop) (X X' : E -> state -> Prop) :
  wpp m s Q X →
  (∀ r s', Q r s' → Q' r s') →
  (∀ e s', X e s' → X' e s') →
  wpp m s Q' X'.
Proof. unfold wpp. destruct (m s); auto. Qed.

Lemma wpp_rewrite {R} (m : Mach R) s r Q X :
  m s = r →
  match r with Ok r s' => Q r s' | Throw e s' => X e s' | Undefined => True end →
  wpp m s Q X.
Proof. intros <-. done. Qed.

(** A handler that cannot throw lets the exception through. *)
Lemma wpp_catch {R} (m : Mach R) (h : Mach unit) s Q (P : E -> Prop) :
  (∀ s', wpp h s' (fun _ _ => True) (fun _ _ => False)) →
  wpp m s Q (fun e _ => P e) →
  wpp (catch_rethrow m h) s Q (fun e _ => P e).
Proof.
  intros Hh. unfold wpp, catch_rethrow. destruct (m s) as [r s'|e s'|]; auto.
  intros HP. specialize (Hh s'). unfold wpp in Hh. by destruct (h s').
Qed.

Lemma wpp_throw_free_bind (m : Mach unit) (k : Mach unit) :
  (∀ s, wpp m s (fun _ _ => True) (fun _ _ => False)) →
  (∀ s, wpp k s (fun _ _ => True) (fun _ _ => False)) →
  ∀ s, wpp (m ;; k) s (fun _ _ => True) (fun _ _ => False).
Proof.
  intros Hm Hk s. apply wpp_bind. eapply wpp_mono; [apply Hm| |done].
  intros _ s' _. apply Hk.
Qed.

(** ** The primitives, whatever the heap holds *)

Lemma wpp_load p s (Q : T -> state -> Prop) X :
  (∀ v, cell s p = Some (Some v) → Q v s) → wpp (load p) s Q X.
Proof. intros H. unfold wpp, load. destruct (cell s p) as [[v|]|]; auto. Qed.

Lemma wpp_store p v s (Q : unit -> state -> Prop) X :
  Q tt (set_cell p (Some v) s) → wpp (store p v) s Q X.
Proof. intros H. unfold wpp, store. by destruct (cell s p) as [[v'|]|]. Qed.

Lemma wpp_raw p s (Q : unit -> state -> Prop) X : Q tt s → wpp (raw p) s Q X.
Proof. intros H. unfold wpp, raw. by destruct (cell s p) as [[v'|]|]. Qed.

Lemma wpp_occupy p v s (Q : unit -> state -> Prop) X :
  Q tt (set_cell p (Some v) s) → wpp (occupy p v) s Q X.
Proof.
  intros H. unfold wpp, occupy, raw, mbind, M_bind, bind.
  by destruct (cell s p) as [[v'|]|].
Qed.

Lemma wpp_vacate p s (Q : unit -> state -> Prop) X :
  Q tt (set_cell p None s) → wpp (vacate p) s Q X.
Proof.
  intros H. unfold wpp, vacate, load, mbind, M_bind, bind.
  by destruct (cell s p) as [[v'|]|].
Qed.

Lemma wpp_obj this s (Q : Vector -> state -> Prop) X :
  (∀ v, objs s !! this = Some v → Q v s) → wpp (obj this) s Q X.
Proof. intros H. unfold wpp, obj. destruct (objs s !! this); auto. Qed.

Lemma wpp_in_world {R} (f : W -> W * R) s (Q : R -> state -> Prop) X :
  Q (snd (f (world s))) (set_world (fst (f (world s))) s) → wpp (in_world f) s Q X.
Proof. done. Qed.

Lemma wpp_emit ev s (Q : unit -> state -> Prop) X :
  Q tt (add_log ev s) → wpp (emit ev) s Q X.
Proof. done. Qed.

Lemma wpp_raise {R} e s (Q : R -> state -> Prop) X :
  X e (add_log (EvRaise e) s) → wpp (raise e) s Q X.
Proof. done. Qed.

Lemma wpp_modify g s (Q : unit -> state -> Prop) X :
  Q tt (g s) → wpp (modify g) s Q X.
Proof. done. Qed.

Lemma world_set_cell p c s : world (set_cell p c s) = world s.
Proof. unfold set_cell. destruct (blk p); [|done]. by destruct (heap s !! _). Qed.

Lemma objs_set_cell p c s : objs (set_cell p c s) = objs s.
Proof. unfold set_cell. destruct (blk p); [|done]. by destruct (heap s !! _). Qed.

Lemma log_set_cell p c s : log (set_cell p c s) = log s.
Proof. unfold set_cell. destruct (blk p); [|done]. by destruct (heap s !! _). Qed.

Lemma heap_set_cell_ne p c s i :
  blk p ≠ Some i → heap (set_cell p c s) !! i = heap s !! i.
Proof.
  intros Hne. unfold set_cell. destruct (blk p) as [b'|]; [|done].
  destruct (heap s !! b') eqn:Hb; [|done]. simpl.
  apply lookup_insert_ne. by intros ->.
Qed.

Lemma changed_at_refl p s : changed_at p s s.
Proof. done. Qed.

Lemma changed_at_set_cell p c s : changed_at p s (set_cell p c s).
Proof. split; [apply objs_set_cell|]. intros i Hi. by apply heap_set_cell_ne. Qed.

(** ** Operations that leave the world alone *)

Lemma wpp_destroy_at_free p :
  ∀ s, wpp (destroy_at el p) s (fun _ _ => True) (fun _ _ => False).
Proof.
  intros s. unfold destroy_at.
  apply wpp_bind, wpp_load. intros x _.
  by apply wpp_bind, wpp_in_world, wpp_bind, wpp_vacate, wpp_emit.
Qed.

Lemma wpp_destroy_loop_free n : ∀ p s,
  wpp (destroy_loop el p n) s (fun _ _ => True) (fun _ _ => False).
Proof.
  induction n as [|n IH]; intros p s; [done|]. simpl.
  apply wpp_bind. eapply wpp_mono; [apply wpp_destroy_at_free| |done].
  intros _ s' _. apply IH.
Qed.

Lemma wpp_destroy_n_free p n :
  ∀ s, wpp (destroy_n el p n) s (fun _ _ => True) (fun _ _ => False).
Proof. intros s. apply wpp_destroy_loop_free. Qed.

Lemma wpp_operator_delete p s :
  wpp (operator_delete p) s
    (fun _ s' => world s' = world s ∧ objs s' = objs s) (fun _ _ => False).
Proof.
  unfold wpp, operator_delete. destruct (blk p) as [b|].
  - unfold mbind, M_bind, bind, get_state. destruct (decide _); done.
  - by destruct (decide _).
Qed.

Lemma wpp_RawMemory_dtor_free (m : RawMemory) :
  ∀ s, wpp (RawMemory_dtor (T:=T) (W:=W) (E:=E) m) s (fun _ _ => True) (fun _ _ => False).
Proof.
  intros s. eapply wpp_mono; [apply (wpp_operator_delete (buffer_ m))|done|done].
Qed.

(** ** The allocator *)

Lemma wp_operator_new_run bytes s :
  wp (operator_new el al bytes) s
    (fun p s' =>
       let b := fresh (dom (heap s)) in
       try_new al bytes (world s) = Returns (world s') ∧
       p = at_ b 0 ∧ heap s !! b = None ∧ objs s' = objs s ∧
       heap s' = <[b := replicate (Z.to_nat (bytes / sizeof el)) None]> (heap s))
    (fun e _ => try_new al bytes (world s) = Raises e).
Proof.
  unfold operator_new, try_new. apply wp_bind, wp_in_world.
  destruct (snd (sys_new al bytes (world s))) eqn:Hg.
  - apply wp_bind, wp_get_state, wp_bind, wp_modify, wp_bind, wp_emit, wp_ret. simpl.
    split; [done|]. split; [done|]. split; [|done].
    apply not_elem_of_dom, is_fresh.
  - by apply wp_raise.
Qed.

Lemma wp_RawMemory_ctor_run n s :
  Sane el al → 0 < n → n * sizeof el < SIZE_MOD →
  wp (RawMemory_ctor el al n) s
    (fun m s' =>
       let b := fresh (dom (heap s)) in
       try_new al (n * sizeof el) (world s) = Returns (world s') ∧
       m = {| buffer_ := at_ b 0; capacity_ := n |} ∧ heap s !! b = None ∧
       objs s' = objs s ∧
       heap s' = <[b := replicate (Z.to_nat n) None]> (heap s))
    (fun e _ => try_new al (n * sizeof el) (world s) = Raises e).
Proof.
  intros [Hsz _ Hnew] Hn Hfit. unfold RawMemory_ctor, Allocate.
  rewrite decide_True by lia. rewrite wrap_id by nia.
  apply wp_bind. eapply wp_mono; [apply wp_operator_new_run| |done].
  intros p s' (Hrun & -> & Hfresh & Ho & Hh). apply wp_ret. simpl.
  do 4 (split; [done|]). by rewrite Z.div_mul in Hh by lia.
Qed.

(** ** Construction *)

Lemma wp_initialise_run dst args s :
  wp (initialise el dst args) s
    (fun v s' =>
       try_init el args (world s) = Returns (world s', v) ∧
       after s (heap s) [init_event dst args] s')
    (fun e _ => try_init el args (world s) = Raises e).
Proof.
  destruct args as [a|x|x]; simpl; apply wp_bind, wp_in_world, wp_finish.
  - by destruct (snd (construct el a (world s))) eqn:Hr.
  - by destruct (snd (copy_ctor el x (world s))) eqn:Hr.
  - by destruct (snd (snd (move_ctor el x (world s)))) eqn:Hr.
Qed.

Lemma wpp_construct_at dst args s :
  wpp (construct_at el dst args) s
    (fun _ s' =>
       ∃ v, try_init el args (world s) = Returns (world s', v) ∧ changed_at dst s s')
    (fun e _ => try_init el args (world s) = Raises e).
Proof.
  unfold construct_at. apply wpp_bind, wpp_raw, wpp_bind.
  eapply wpp_mono; [apply wp_wpp, wp_initialise_run| |done].
  intros v s1 (Hrun & Hh & Ho & _). apply wpp_occupy.
  exists v. rewrite world_set_cell. split; [done|].
  destruct (changed_at_set_cell dst (Some v) s1) as [Ho' Hh'].
  split; [by rewrite Ho'|]. intros i Hi. by rewrite Hh', Hh.
Qed.

(** ** The steps of a transfer *)

Lemma copy_construct_at_effect : transfer_effect (copy_construct_at el) (copy_of el).
Proof.
  intros s bd bs scells k j x Hne Hs Hj. unfold copy_construct_at, copy_of.
  apply wpp_bind, wpp_load. intros x0 Hx0.
  erewrite cell_at in Hx0 by exact Hs. rewrite Hj in Hx0. injection Hx0 as <-.
  apply wpp_bind, wpp_raw, wpp_bind, wpp_in_world, wpp_bind. simpl.
  destruct (snd (copy_ctor el x (world s))) as [y|e] eqn:Hr; simpl.
  - apply wpp_bind, wpp_emit, wpp_ret. apply wpp_occupy.
    split; [by exists y|]. rewrite world_set_cell, objs_set_cell. simpl.
    split; [done|]. split; [done|]. split.
    + rewrite heap_set_cell_ne by (simpl; by intros [=]). simpl.
      by rewrite list_insert_id.
    + intros i Hi _. by rewrite heap_set_cell_ne by (simpl; intros [=]; by subst).
  - by apply wpp_raise.
Qed.

Lemma move_construct_at_effect : transfer_effect (move_construct_at el) (move_ctor el).
Proof.
  intros s bd bs scells k j x Hne Hs Hj. unfold move_construct_at.
  apply wpp_bind, wpp_load. intros x0 Hx0.
  erewrite cell_at in Hx0 by exact Hs. rewrite Hj in Hx0. injection Hx0 as <-.
  apply wpp_bind, wpp_raw, wpp_bind, wpp_in_world. simpl.
  apply wpp_bind, wpp_store, wpp_bind.
  assert (heap (set_world (move_ctor el x (world s)).1 s) !! bs = Some scells) as Hs' by done.
  erewrite set_cell_at by exact Hs'. simpl.
  destruct (snd (snd (move_ctor el x (world s)))) as [y|e] eqn:Hr; simpl.
  - apply wpp_bind, wpp_emit, wpp_ret. apply wpp_occupy.
    split; [by exists y|]. rewrite world_set_cell, objs_set_cell. simpl.
    split; [done|]. split; [done|]. split.
    + rewrite heap_set_cell_ne by (simpl; by intros [=]). simpl.
      apply lookup_insert_eq.
    + intros i Hi Hi'. rewrite heap_set_cell_ne by (simpl; intros [=]; by subst). simpl.
      by rewrite lookup_insert_ne.
  - by apply wpp_raise.
Qed.

Lemma transfer_effect_MoveOrCopy :
  transfer_effect
    (if moving el then move_construct_at el else copy_construct_at el) (transfer el).
Proof.
  unfold transfer. destruct (moving el).
  - apply move_construct_at_effect.
  - apply copy_construct_at_effect.
Qed.

(** ** Runs *)

Lemma try_each_length f (xs : list T) (w w' : W) left :
  try_each (E:=E) f xs w = Returns (w', left) → length left = length xs.
Proof.
  revert w w' left. induction xs as [|x xs IH]; intros w w' left; simpl.
  - by intros [= _ <-].
  - destruct (snd (snd (f x w))); [|done].
    destruct (try_each f xs _) as [[w1 left1]|] eqn:H1; [|done]. simpl.
    intros [= _ <-]. simpl. f_equal. by eapply IH.
Qed.

Lemma try_each_app f (xs1 xs2 : list T) (w w1 w2 : W) left1 left2 :
  try_each (E:=E) f xs1 w = Returns (w1, left1) →
  try_each f xs2 w1 = Returns (w2, left2) →
  try_each f (xs1 ++ xs2) w = Returns (w2, left1 ++ left2).
Proof.
  revert w w1 left1. induction xs1 as [|x xs1 IH]; intros w w1 left1; simpl.
  - by intros [= <- <-].
  - destruct (snd (snd (f x w))); [|done].
    destruct (try_each f xs1 _) as [[w' left']|] eqn:H1; [|done]. simpl.
    intros [= <- <-] H2. by rewrite (IH _ _ _ H1 H2).
Qed.

Lemma try_each_app_raises_l f (xs1 xs2 : list T) (w : W) e :
  try_each (E:=E) f xs1 w = Raises e → try_each f (xs1 ++ xs2) w = Raises e.
Proof.
  revert w. induction xs1 as [|x xs1 IH]; intros w; simpl; [done|].
  destruct (snd (snd (f x w))); [|done].
  destruct (try_each f xs1 _) as [[w' left']|] eqn:H1; [done|]. simpl.
  intros [= <-]. by rewrite (IH _ H1).
Qed.

Lemma try_each_app_raises_r f (xs1 xs2 : list T) (w w1 : W) left1 e :
  try_each (E:=E) f xs1 w = Returns (w1, left1) →
  try_each f xs2 w1 = Raises e →
  try_each f (xs1 ++ xs2) w = Raises e.
Proof.
  revert w w1 left1. induction xs1 as [|x xs1 IH]; intros w w1 left1; simpl.
  - by intros [= <- <-].
  - destruct (snd (snd (f x w))); [|done].
    destruct (try_each f xs1 _) as [[w' left']|] eqn:H1; [|done]. simpl.
    intros [= <- <-] H2. by rewrite (IH _ _ _ H1 H2).
Qed.

Lemma try_each_copy (xs : list T) (w : W) :
  try_each (copy_of el) xs w
  = match try_copy el xs w with Returns w' => Returns (w', xs) | Raises e => Raises e end.
Proof.
  revert w. induction xs as [|x xs IH]; intros w; simpl; [done|].
  destruct (snd (copy_ctor el x w)); [|done].
  rewrite IH. by destruct (try_copy el xs _).
Qed.

Lemma try_transfer_copy (xs : list T) (w : W) :
  moving el = false →
  try_each (transfer el) xs w
  = match try_copy el xs w with Returns w' => Returns (w', xs) | Raises e => Raises e end.
Proof.
  intros Hm. rewrite <- try_each_copy. unfold transfer. by rewrite Hm.
Qed.

Lemma destroy_all_app (xs1 xs2 : list T) (w : W) :
  destroy_all el (xs1 ++ xs2) w = destroy_all el xs2 (destroy_all el xs1 w).
Proof. apply foldl_app. Qed.

(** ** The loops *)

Section Transfer.

Context (step : ptr -> ptr -> Mach unit) (f : T -> W -> W * (T * outcome E T))
        (Hstep : transfer_effect step f)
        (bd bs : nat) (Hne : bd ≠ bs) (spost : list (slot T)).

Lemma uninitialized_loop_run xs : ∀ spre k s,
  heap s !! bs = Some (spre ++ (Some <$> xs) ++ spost) →
  match uninitialized_loop step (at_ bs (length spre)) (length xs) (at_ bd k) s with
  | (_, Ok _ s') =>
      ∃ left, try_each f xs (world s) = Returns (world s', left) ∧
        objs s' = objs s ∧
        heap s' !! bs = Some (spre ++ (Some <$> left) ++ spost) ∧
        ∀ i, i ≠ bd → i ≠ bs → heap s' !! i = heap s !! i
  | (_, Throw e _) => try_each f xs (world s) = Raises e
  | (_, Undefined) => True
  end.
Proof.
  induction xs as [|x xs IH]; intros spre k s Hs; simpl in Hs; simpl.
  - by exists [].
  - pose proof (Hstep s bd bs _ k (length spre) x Hne Hs (lookup_middle _ _ _)) as H1.
    unfold wpp in H1.
    destruct (step (at_ bd k) (at_ bs (length spre)) s) as [[] s1|e s1|]; [|clear IH|done].
    + destruct H1 as ([y Hy] & Hw & Ho & Hh & Hfr). rewrite insert_middle in Hh.
      rewrite !at_succ.
      specialize (IH (spre ++ [Some (fst (snd (f x (world s))))]) (S k) s1).
      rewrite <- app_assoc in IH. specialize (IH Hh).
      rewrite length_app in IH. simpl in IH. rewrite Nat.add_1_r in IH.
      rewrite Hy.
      destruct (uninitialized_loop step _ (length xs) _ s1) as [cur [[] s'|e s'|]];
        [| |done].
      * destruct IH as (left & Hrun & Ho' & Hh' & Hfr').
        rewrite Hw in Hrun. rewrite Hrun. simpl.
        eexists. split; [done|]. split; [by rewrite Ho'|].
        split; [by rewrite Hh', <- app_assoc|].
        intros i Hi Hi'. by rewrite Hfr', Hfr.
      * rewrite Hw in IH. by rewrite IH.
    + by rewrite H1.
Qed.

Lemma wpp_uninitialized xs spre k s n :
  n = Z.of_nat (length xs) →
  heap s !! bs = Some (spre ++ (Some <$> xs) ++ spost) →
  wpp (uninitialized el step (at_ bs (length spre)) n (at_ bd k)) s
    (fun _ s' =>
       ∃ left, try_each f xs (world s) = Returns (world s', left) ∧
         objs s' = objs s ∧
         heap s' !! bs = Some (spre ++ (Some <$> left) ++ spost) ∧
         ∀ i, i ≠ bd → i ≠ bs → heap s' !! i = heap s !! i)
    (fun e _ => try_each f xs (world s) = Raises e).
Proof.
  intros -> Hs. unfold wpp, uninitialized. rewrite Nat2Z.id.
  pose proof (uninitialized_loop_run xs spre k s Hs) as H.
  destruct (uninitialized_loop step _ (length xs) _ s) as [cur [[] s1|e s1|]];
    [done| |done].
  unfold mbind, M_bind, bind.
  pose proof (wpp_destroy_loop_free
                (Z.to_nat (ptr_diff cur (at_ bd k))) (at_ bd k) s1) as Hd.
  unfold wpp in Hd. unfold destroy_range.
  by destruct (destroy_loop el _ _ s1).
Qed.

End Transfer.

Lemma wpp_MoveOrCopy bd bs spost xs spre k s n :
  bd ≠ bs →
  n = Z.of_nat (length xs) →
  heap s !! bs = Some (spre ++ (Some <$> xs) ++ spost) →
  wpp (MoveOrCopy el (at_ bs (length spre)) n (at_ bd k)) s
    (fun _ s' =>
       ∃ left, try_each (transfer el) xs (world s) = Returns (world s', left) ∧
         objs s' = objs s ∧
         heap s' !! bs = Some (spre ++ (Some <$> left) ++ spost) ∧
         ∀ i, i ≠ bd → i ≠ bs → heap s' !! i = heap s !! i)
    (fun e _ => try_each (transfer el) xs (world s) = Raises e).
Proof.
  intros Hne Hn Hs.
  pose proof (wpp_uninitialized _ _ transfer_effect_MoveOrCopy bd bs Hne spost
                xs spre k s n Hn Hs) as H.
  unfold MoveOrCopy, uninitialized_move_n, uninitialized_copy_n.
  unfold moving in H. by destruct (_ || _).
Qed.

Lemma wpp_uninitialized_copy_n bd bs spost xs spre k s n :
  bd ≠ bs →
  n = Z.of_nat (length xs) →
  heap s !! bs = Some (spre ++ (Some <$> xs) ++ spost) →
  wpp (uninitialized_copy_n el (at_ bs (length spre)) n (at_ bd k)) s
    (fun _ s' =>
       try_copy el xs (world s) = Returns (world s') ∧ objs s' = objs s ∧
       ∀ i, i ≠ bd → heap s' !! i = heap s !! i)
    (fun e _ => try_copy el xs (world s) = Raises e).
Proof.
  intros Hne Hn Hs.
  eapply wpp_mono;
    [eapply (wpp_uninitialized _ _ copy_construct_at_effect bd bs Hne spost xs spre k s n Hn Hs)
    | |].
  - intros [] s' (left & Hrun & Ho & Hh & Hfr). rewrite try_each_copy in Hrun.
    destruct (try_copy el xs (world s)) as [w'|]; [|done].
    injection Hrun as Hw Hl. subst w' left. split; [done|]. split; [done|].
    intros i Hi. destruct (decide (i = bs)) as [->|]; [by rewrite Hh, Hs|by apply Hfr].
  - intros e s' Hrun. rewrite try_each_copy in Hrun.
    destruct (try_copy el xs (world s)); [done|]. by injection Hrun as ->.
Qed.

(** ** Destruction *)

Lemma wp_destroy_at_world b k cells x s :
  heap s !! b = Some cells → cells !! k = Some (Some x) →
  wp (destroy_at el (at_ b k)) s
    (fun _ s' =>
       world s' = dtor el x (world s) ∧
       after s (<[b := <[k := None]> cells]> (heap s)) [EvDestroy (Slot (at_ b k))] s')
    (fun _ _ => False).
Proof.
  intros Hb Hk. unfold destroy_at.
  apply wp_bind, (wp_load _ _ x); [by erewrite cell_at by exact Hb|].
  apply wp_bind, wp_in_world. simpl.
  apply wp_bind, (wp_vacate _ x); [by erewrite cell_at by exact Hb|].
  apply wp_emit. erewrite set_cell_at by exact Hb.
  done.
Qed.

Lemma wp_destroy_loop_world b post xs : ∀ pre s,
  heap s !! b = Some (pre ++ (Some <$> xs) ++ post) →
  wp (destroy_loop el (at_ b (length pre)) (length xs)) s
    (fun _ s' =>
       world s' = destroy_all el xs (world s) ∧
       after s (<[b := pre ++ replicate (length xs) None ++ post]> (heap s))
         (ev_destroy (at_ b (length pre)) (length xs)) s')
    (fun _ _ => False).
Proof.
  induction xs as [|x xs IH]; intros pre s Hb; simpl.
  - apply wp_ret. split; [done|]. rewrite insert_id by done. apply after_refl.
  - apply wp_bind.
    eapply wp_mono;
      [eapply (wp_destroy_at_world _ _ _ x); [exact Hb|apply lookup_middle]| |done].
    intros [] s1 [Hw1 H1]. simpl in H1. rewrite insert_middle in H1.
    rewrite at_succ.
    replace (S (length pre)) with (length (pre ++ [None : slot T]))
      by (rewrite length_app; simpl; lia).
    eapply wp_mono; [eapply (IH (pre ++ [None]))| |done].
    + pose proof H1 as (Hh & _ & _). rewrite Hh, lookup_insert_eq.
      by rewrite <- app_assoc.
    + intros [] s' [Hw2 H2]. simpl. split; [by rewrite Hw2, Hw1|].
      rewrite <- app_assoc in H2. simpl in H2.
      apply (after_same _ _ _ _ _ _ _ _ H1 H2).
Qed.

(** ** The object at [this] *)

Lemma wpp_Size this s (Q : Z -> state -> Prop) X :
  (∀ n, Q n s) → wpp (Size this) s Q X.
Proof. intros H. unfold Size. apply wpp_bind, wpp_obj. intros v _. apply wpp_ret, H. Qed.

Lemma wpp_end_ this s (Q : ptr -> state -> Prop) X :
  (∀ p, Q p s) → wpp (end_ this) s Q X.
Proof. intros H. unfold end_. apply wpp_bind, wpp_obj. intros v _. apply wpp_ret, H. Qed.

Lemma wpp_begin_ this s (Q : ptr -> state -> Prop) X :
  (∀ p, Q p s) → wpp (begin_ this) s Q X.
Proof. intros H. unfold begin_. apply wpp_bind, wpp_obj. intros v _. apply wpp_ret, H. Qed.

Lemma wpp_write_size_ this n s (Q : unit -> state -> Prop) X :
  (∀ s', world s' = world s → heap s' = heap s → Q tt s') →
  wpp (write_size_ this n) s Q X.
Proof.
  intros H. unfold write_size_. apply wpp_bind, wpp_obj. intros v _.
  apply wpp_modify. by apply H.
Qed.

End WorldRules.

Tactic Notation "wpp_pure" uconstr(lem) :=
  apply wpp_bind; eapply wpp_rewrite; [eapply lem; eassumption|]; cbv beta iota.

Tactic Notation "run_simpl" "in" hyp(H) :=
  cbn [mbind outcome_bind mret outcome_ret fst snd] in H.

Tactic Notation "run_simpl" :=
  cbn [mbind outcome_bind mret outcome_ret fst snd].

Ltac cell_read H := erewrite cell_at by exact H.

Section ReallocOutcome.

Context {T W E A : Type} (el : ElemType T W E A) (al : Allocator W E).

Abbreviation state := (@state T W E).
Abbreviation Mach := (M state E).

Implicit Types (s : state) (p q : ptr) (b : nat) (cells : list (slot T)).

(** ** Reallocation *)

Lemma wpp_PlaceWithRealloc this bo xs1 xs2 args s xs len :
  Sane el al →
  xs = xs1 ++ xs2 →
  len = Z.of_nat (length xs) →
  objs s !! this
    = Some {| data_ := {| buffer_ := at_ bo 0; capacity_ := len |}; size_ := len |} →
  heap s !! bo = Some (Some <$> xs) →
  len * sizeof el ≤ PTRDIFF_MAX →
  wpp (PlaceWithRealloc el al this (at_ bo (length xs1)) args) s
    (fun _ s' => realloc_run el al (grown len) args xs (world s) = Returns (world s'))
    (fun e _ => realloc_run el al (grown len) args xs (world s) = Raises e).
Proof.
  intros HS Hxs Hlen Hobj Hbo Hbound.
  pose proof (sizeof_pos _ _ HS) as Hsz.
  assert (0 ≤ len) as Hlen0 by lia.
  assert (len ≤ PTRDIFF_MAX) as HlenM by nia.
  rewrite PTRDIFF_MAX_eq in *.
  unfold PlaceWithRealloc.
  wpp_pure begin_eq. wpp_pure Capacity_eq. wpp_pure Size_eq. simpl.
  assert (wrap (ptr_diff (at_ bo (length xs1)) (at_ bo 0)) = Z.of_nat (length xs1)) as ->.
  { unfold ptr_diff. simpl. rewrite wrap_id; [lia|].
    rewrite SIZE_MOD_eq; subst len xs; rewrite length_app in *; lia. }
  remember (length xs1) as n1 eqn:Hn1. remember (length xs2) as n2 eqn:Hn2.
  assert (length xs = (n1 + n2)%nat) as Hlenxs by (subst; apply length_app).
  rewrite (wrap_id (len + 1)) by (rewrite SIZE_MOD_eq; lia).
  rewrite decide_True by lia.
  assert ((if decide (len = 0) then 1 else wrap (len * 2)) = grown len) as ->.
  { unfold grown. destruct (decide (len = 0)); [done|].
    rewrite wrap_id; [lia|rewrite SIZE_MOD_eq; lia]. }
  assert (len + 1 ≤ grown len) as Hcap'
    by (unfold grown; destruct (decide (len = 0)); lia).
  assert (grown len * sizeof el < SIZE_MOD) as Hfit.
  { pose proof (sizeof_max _ _ HS). rewrite SIZE_MOD_eq, PTRDIFF_MAX_eq in *.
    unfold grown. destruct (decide (len = 0)); nia. }
  set (run := realloc_run el al (grown len) args xs (world s)).
  assert (run = realloc_run el al (grown len) args xs (world s)) as Hrun by done.
  clearbody run. unfold realloc_run in Hrun.
  apply wpp_bind, wpp_bind.
  eapply wpp_mono; [apply wp_wpp, wp_RawMemory_ctor_run; [done|lia|done]| |].
  2:{ intros e s' Hnew. rewrite Hnew in Hrun. by run_simpl in Hrun. }
  intros new_data s1 (Hnew & -> & Hfresh & Ho1 & Hh1).
  rewrite Hnew in Hrun. run_simpl in Hrun.
  set (b := fresh (dom (heap s))) in *.
  assert (b ≠ bo) as Hne by (intros Heq; rewrite Heq, Hbo in Hfresh; done).
  unfold GetAddress. cbn [buffer_].
  rewrite !(at_add b 0), !(at_add bo 0) by lia. rewrite !Nat2Z.id. simpl (0 + _)%nat.
  rewrite at_succ.
  unfold unwinding.
  assert (Some <$> xs = (Some <$> xs1) ++ (Some <$> xs2)) as Hfmap
    by (subst xs; apply fmap_app).
  assert (wrap (len - Z.of_nat n1) = Z.of_nat n2) as ->
    by (rewrite wrap_id; [lia|rewrite SIZE_MOD_eq; lia]).
  apply wpp_bind, wpp_catch; [apply wpp_RawMemory_dtor_free|].
  (* the new element *)
  apply wpp_bind.
  eapply wpp_mono; [apply wpp_construct_at| |].
  2:{ intros e s' Hinit. rewrite Hinit in Hrun. by run_simpl in Hrun. }
  intros [] s2 (v & Hinit & Ho2 & Hh2).
  rewrite Hinit in Hrun. run_simpl in Hrun.
  assert (heap s2 !! bo = Some ([] ++ (Some <$> xs1) ++ (Some <$> xs2))) as Hbo2.
  { rewrite Hh2 by (simpl; by intros [=]).
    by rewrite Hh1, lookup_insert_ne, Hbo, Hfmap by done. }
  (* the elements before [pos] *)
  apply wpp_bind, wpp_catch; [apply wpp_destroy_at_free|].
  eapply wpp_mono;
    [eapply (wpp_MoveOrCopy el b bo (Some <$> xs2) xs1 [] 0 s2); [done|lia|exact Hbo2]| |].
  2:{ intros e s' Hrun1. rewrite Hxs in Hrun.
      rewrite (try_each_app_raises_l _ _ _ _ _ Hrun1) in Hrun. by run_simpl in Hrun. }
  intros [] s3 (left1 & Hrun1 & Ho3 & Hbo3 & Hfr3).
  pose proof (try_each_length _ _ _ _ _ Hrun1) as Hl1.
  simpl in Hbo3.
  (* the elements from [pos] on *)
  apply wpp_bind, wpp_catch.
  { apply wpp_throw_free_bind; [apply wpp_destroy_at_free|apply wpp_destroy_n_free]. }
  replace (at_ bo n1) with (at_ bo (length (Some <$> left1)))
    by (by rewrite length_fmap, Hl1, Hn1).
  eapply wpp_mono;
    [eapply (wpp_MoveOrCopy el b bo [] xs2 (Some <$> left1) (S n1) s3); [done|lia|]| |].
  { by rewrite Hbo3, app_nil_r. }
  2:{ intros e s' Hrun2. rewrite Hxs in Hrun.
      rewrite (try_each_app_raises_r _ _ _ _ _ _ _ Hrun1 Hrun2) in Hrun.
      by run_simpl in Hrun. }
  intros [] s4 (left2 & Hrun2 & Ho4 & Hbo4 & Hfr4).
  pose proof (try_each_length _ _ _ _ _ Hrun2) as Hl2.
  rewrite Hxs, (try_each_app _ _ _ _ _ _ _ _ Hrun1 Hrun2) in Hrun. run_simpl in Hrun.
  (* the old elements *)
  unfold destroy_n. rewrite Hlen, Nat2Z.id.
  replace (length xs) with (length (left1 ++ left2))
    by (rewrite length_app, Hl1, Hl2; subst xs; by rewrite length_app).
  eapply wpp_mono;
    [apply wp_wpp; eapply (wp_destroy_loop_world el bo [] (left1 ++ left2) [] s4)| |done].
  { rewrite Hbo4, fmap_app, !app_nil_r. done. }
  intros [] s5 (Hw5 & Hh5 & Ho5 & Hl5).
  assert (objs s5 !! this = Some {| data_ := {| buffer_ := at_ bo 0; capacity_ := len |};
                                    size_ := len |}) as Hobj5
    by (by rewrite Ho5, Ho4, Ho3, Ho2, Ho1).
  wpp_pure Swap_data_eq. cbn [data_].
  eapply wpp_mono; [apply wpp_operator_delete| |done].
  intros [] s6 [Hw6 _]. apply wpp_bind, wpp_begin_. intros p. apply wpp_ret.
  by rewrite Hrun, Hw6, <- Hw5.
Qed.

Lemma wpp_PlaceWithRealloc_null this args s :
  Sane el al →
  objs s !! this = Some {| data_ := {| buffer_ := nullptr; capacity_ := 0 |}; size_ := 0 |} →
  wpp (PlaceWithRealloc el al this nullptr args) s
    (fun _ s' => realloc_run el al (grown 0) args [] (world s) = Returns (world s'))
    (fun e _ => realloc_run el al (grown 0) args [] (world s) = Raises e).
Proof.
  intros HS Hobj.
  pose proof (sizeof_pos _ _ HS) as Hsz. pose proof (sizeof_max _ _ HS) as Hmax.
  set (run := realloc_run el al (grown 0) args [] (world s)).
  assert (run = realloc_run el al (grown 0) args [] (world s)) as Hrun by done.
  clearbody run. unfold realloc_run, grown in Hrun. simpl in Hrun.
  unfold PlaceWithRealloc.
  wpp_pure begin_eq. wpp_pure Capacity_eq. wpp_pure Size_eq. simpl.
  change (wrap (ptr_diff nullptr nullptr)) with 0.
  change (wrap (0 - 0)) with 0.
  apply wpp_bind, wpp_bind.
  eapply wpp_mono;
    [apply wp_wpp, wp_RawMemory_ctor_run;
       [done|lia|rewrite SIZE_MOD_eq, PTRDIFF_MAX_eq in *; lia]| |].
  2:{ intros e s' Hnew. rewrite Hnew in Hrun. by run_simpl in Hrun. }
  intros new_data s1 (Hnew & -> & Hfresh & Ho1 & Hh1).
  rewrite Hnew in Hrun. run_simpl in Hrun.
  unfold GetAddress, unwinding. cbn [buffer_].
  apply wpp_bind, wpp_catch; [apply wpp_RawMemory_dtor_free|].
  apply wpp_bind.
  eapply wpp_mono; [apply wpp_construct_at| |].
  2:{ intros e s' Hinit. rewrite Hinit in Hrun. by run_simpl in Hrun. }
  intros [] s2 (v & Hinit & Ho2 & Hh2).
  rewrite Hinit in Hrun. run_simpl in Hrun.
  apply wpp_bind, wpp_catch; [apply wpp_destroy_at_free|].
  eapply wpp_rewrite; [apply MoveOrCopy_zero|]. cbv beta iota.
  apply wpp_bind, wpp_catch.
  { apply wpp_throw_free_bind; [apply wpp_destroy_at_free|apply wpp_destroy_n_free]. }
  eapply wpp_rewrite; [apply MoveOrCopy_zero|]. cbv beta iota.
  eapply wpp_rewrite; [apply destroy_n_zero|]. cbv beta iota.
  assert (objs s2 !! this = Some {| data_ := {| buffer_ := nullptr; capacity_ := 0 |};
                                    size_ := 0 |}) as Hobj2 by (by rewrite Ho2, Ho1).
  wpp_pure Swap_data_eq. cbn [data_].
  eapply wpp_mono; [apply wpp_operator_delete| |done].
  intros [] s6 [Hw6 _]. apply wpp_bind, wpp_begin_. intros p. apply wpp_ret.
  by rewrite Hrun, Hw6.
Qed.

(** [PlaceWithRealloc] on a vector that is full. *)
Lemma wpp_realloc this buf xs1 xs2 args s xs len :
  Sane el al →
  xs = xs1 ++ xs2 →
  len = Z.of_nat (length xs) →
  objs s !! this
    = Some {| data_ := {| buffer_ := buf; capacity_ := len |}; size_ := len |} →
  owns s buf (Some <$> xs) →
  len * sizeof el ≤ PTRDIFF_MAX →
  wpp (PlaceWithRealloc el al this (buf +ₚ Z.of_nat (length xs1)) args) s
    (fun _ s' => realloc_run el al (grown len) args xs (world s) = Returns (world s'))
    (fun e _ => realloc_run el al (grown len) args xs (world s) = Raises e).
Proof.
  intros HS Hxs Hlen Hobj [Hoff Hown] Hbound.
  destruct buf as [[bo|] o]; simpl in Hoff, Hown; subst o.
  - change (Ptr (Some bo) 0) with (at_ bo 0) in *.
    rewrite (at_add bo 0), Nat2Z.id by lia. simpl (0 + _)%nat.
    by eapply (wpp_PlaceWithRealloc this bo xs1 xs2).
  - apply fmap_nil_inv in Hown. rewrite Hown in Hxs, Hlen.
    symmetry in Hxs. apply app_eq_nil in Hxs as [-> ->]. simpl in Hlen. subst len xs.
    by apply wpp_PlaceWithRealloc_null.
Qed.

(** ** [Reserve] *)

Lemma wpp_Reserve this new_capacity s (xs : list T) cap :
  Sane el al →
  holds el s this xs cap →
  (cap < new_capacity → new_capacity * sizeof el < SIZE_MOD) →
  wpp (Reserve el al this new_capacity) s
    (fun _ s' => reserve_run el al new_capacity xs cap (world s) = Returns (world s'))
    (fun e _ => reserve_run el al new_capacity xs cap (world s) = Raises e).
Proof.
  intros HS Hh Hfit.
  set (run := reserve_run el al new_capacity xs cap (world s)).
  assert (run = reserve_run el al new_capacity xs cap (world s)) as Hrun by done.
  clearbody run. unfold reserve_run in Hrun.
  destruct (decide (new_capacity ≤ cap)) as [Hle|Hgt].
  { eapply wpp_rewrite; [by eapply (Reserve_noop el al)|]. done. }
  specialize (Hfit ltac:(lia)).
  destruct Hh as (buf0 & Hobj & Hlen & Hcap & Hoff & Hown).
  pose proof (sizeof_pos _ _ HS) as Hsz.
  unfold Reserve.
  wpp_pure Capacity_eq. simpl. rewrite decide_False by lia.
  apply wpp_bind.
  eapply wpp_mono; [apply wp_wpp, wp_RawMemory_ctor_run; [done|lia|done]| |].
  2:{ intros e s' Hnew. rewrite Hnew in Hrun. by run_simpl in Hrun. }
  intros new_data s1 (Hnew & -> & Hfresh & Ho1 & Hh1).
  rewrite Hnew in Hrun. run_simpl in Hrun.
  set (b := fresh (dom (heap s))) in *.
  unfold GetAddress, unwinding. cbn [buffer_].
  assert (objs s1 !! this = Some {| data_ := {| buffer_ := buf0; capacity_ := cap |};
                                    size_ := Z.of_nat (length xs) |}) as Hobj1
    by (by rewrite Ho1).
  apply wpp_bind, wpp_catch; [apply wpp_RawMemory_dtor_free|].
  wpp_pure begin_eq. wpp_pure Size_eq. simpl.
  fold (MoveOrCopy el buf0 (Z.of_nat (length xs)) (at_ b 0)).
  destruct buf0 as [[bo|] o]; simpl in Hoff, Hown; subst o.
  - change (Ptr (Some bo) 0) with (at_ bo 0) in *.
    assert (b ≠ bo) as Hne by (intros Heq; rewrite Heq, Hown in Hfresh; done).
    unfold cells_of in Hown.
    apply wpp_bind.
    eapply wpp_mono;
      [eapply (wpp_MoveOrCopy el b bo (replicate (Z.to_nat cap - length xs) None)
                 xs [] 0 s1); [done|done|]
      | |].
    { by rewrite Hh1, lookup_insert_ne, Hown by done. }
    2:{ intros e s' Hrun1. rewrite Hrun1 in Hrun. by run_simpl in Hrun. }
    intros [] s2 (left & Hrun1 & Ho2 & Hbo2 & Hfr2).
    pose proof (try_each_length _ _ _ _ _ Hrun1) as Hl1.
    rewrite Hrun1 in Hrun. run_simpl in Hrun.
    unfold destroy_n. rewrite Nat2Z.id, <- Hl1.
    eapply wpp_mono;
      [apply wp_wpp; eapply (wp_destroy_loop_world el bo _ left [] s2); exact Hbo2| |done].
    intros [] s3 (Hw3 & Hh3 & Ho3 & Hl3).
    assert (objs s3 !! this = Some {| data_ := {| buffer_ := at_ bo 0; capacity_ := cap |};
                                      size_ := Z.of_nat (length xs) |}) as Hobj3
      by (by rewrite Ho3, Ho2).
    wpp_pure Swap_data_eq. cbn [data_].
    eapply wpp_mono; [apply wpp_operator_delete| |done].
    intros [] s4 [Hw4 _]. by rewrite Hrun, Hw4, <- Hw3.
  - unfold cells_of in Hown. destruct xs as [|x xs]; [|done]. simpl in *.
    apply wpp_bind. eapply wpp_rewrite; [apply MoveOrCopy_zero|]. cbv beta iota.
    eapply wpp_rewrite; [apply destroy_n_zero|]. cbv beta iota.
    wpp_pure Swap_data_eq. cbn [data_].
    eapply wpp_mono; [apply wpp_operator_delete| |done].
    intros [] s4 [Hw4 _]. by rewrite Hrun, Hw4.
Qed.

End ReallocOutcome.

(** ** Capacities *)

Lemma caps_after_length n len cap : length (caps_after n len cap) = n.
Proof. revert len cap. induction n as [|n IH]; intros len cap; simpl; by rewrite ?IH. Qed.

(** From a vector without capacity the capacities are the powers of two. *)
Lemma caps_after_pow2 n len :
  0 ≤ len →
  caps_after n len (pow2cap len)
  = (fun i => pow2cap (len + Z.of_nat i)) <$> seq 1 n.
Proof.
  revert len. induction n as [|n IH]; intros len Hlen; [done|].
  cbn [caps_after]. rewrite pow2cap_step by done. rewrite IH by lia.
  cbn [seq fmap list_fmap]. f_equal.
  rewrite <- (fmap_S_seq 1), <- list_fmap_compose.
  apply list_fmap_ext. intros ? i _. simpl. f_equal. lia.
Qed.

Lemma default_last_cons (c c1 : Z) cs :
  default c (last (c1 :: cs)) = default c1 (last cs).
Proof.
  destruct cs as [|c2 cs]; [done|]. rewrite last_cons_cons.
  destruct (last (c2 :: cs)) eqn:Hl; [done|]. by apply last_None in Hl.
Qed.

(** The capacity never decreases. *)
Lemma caps_after_mono n : ∀ len cap,
  0 ≤ len ≤ cap →
  ∀ i j c c', (i ≤ j)%nat →
    (cap :: caps_after n len cap) !! i = Some c →
    (cap :: caps_after n len cap) !! j = Some c' →
    c ≤ c'.
Proof.
  induction n as [|n IH]; intros len cap Hl i j c c' Hij Hi Hj.
  - destruct i, j; simpl in *; try done. by injection Hi as <-; injection Hj as <-.
  - cbn [caps_after] in Hi, Hj.
    pose proof (cap_after_push_le len cap Hl) as Hle.
    pose proof (cap_after_push_fits len cap Hl) as Hfits.
    assert (∀ k c0, (cap_after_push len cap
                       :: caps_after n (len + 1) (cap_after_push len cap)) !! k = Some c0 →
                     cap_after_push len cap ≤ c0) as Hfrom.
    { intros k c0 Hk. eapply (IH (len + 1) (cap_after_push len cap) ltac:(lia) 0%nat k); [lia|done|exact Hk]. }
    destruct i as [|i], j as [|j]; simpl in Hi, Hj.
    + by injection Hi as <-; injection Hj as <-.
    + injection Hi as <-. specialize (Hfrom j c' Hj). lia.
    + lia.
    + eapply (IH (len + 1) (cap_after_push len cap) ltac:(lia) i j); [lia|exact Hi|exact Hj].
Qed.

Section PushOutcome.

Context {T W E A : Type} (el : ElemType T W E A) (al : Allocator W E).

Abbreviation state := (@state T W E).
Abbreviation Mach := (M state E).

Implicit Types (s : state) (p q : ptr) (b : nat) (cells : list (slot T)).

(** ** [EmplaceBack] *)

Lemma wpp_EmplaceBack this args s xs cap :
  Sane el al →
  holds el s this xs cap →
  wpp (EmplaceBack el al this args) s
    (fun _ s' => emplace_back_run el al args xs cap (world s) = Returns (world s'))
    (fun e _ => emplace_back_run el al args xs cap (world s) = Raises e).
Proof.
  intros HS (buf & Hobj & Hlen & Hcap & Hown).
  pose proof (sizeof_pos _ _ HS) as Hsz.
  assert (cap ≤ PTRDIFF_MAX) as HcapM by nia.
  set (len := Z.of_nat (length xs)) in *.
  set (run := emplace_back_run el al args xs cap (world s)).
  assert (run = emplace_back_run el al args xs cap (world s)) as Hrun by done.
  clearbody run. unfold emplace_back_run in Hrun. fold len in Hrun.
  assert (∀ s1, run = Returns (world s1) →
            wpp (Size this ≫= λ size, write_size_ this (wrap (size + 1)) ≫= λ _,
                   end_ this ≫= λ last, mret (last +ₚ -1)) s1
              (fun _ s' => run = Returns (world s')) (fun e _ => run = Raises e)) as Htail.
  { intros s1 H1. apply wpp_bind, wpp_Size. intros n.
    apply wpp_bind, wpp_write_size_. intros s2 Hw2 _.
    apply wpp_bind, wpp_end_. intros p. apply wpp_ret. by rewrite Hw2. }
  unfold EmplaceBack.
  wpp_pure Capacity_eq. wpp_pure Size_eq. simpl. fold len.
  rewrite (wrap_id (len + 1)) by (rewrite SIZE_MOD_eq, PTRDIFF_MAX_eq in *; lia).
  destruct (decide (len + 1 ≤ cap)) as [Hroom|Hfull].
  - rewrite decide_True by lia.
    apply wpp_bind. unfold PlaceBackWithoutRealloc.
    wpp_pure Capacity_eq. wpp_pure Size_eq. simpl. fold len.
    rewrite (wrap_id (len + 1)) by (rewrite SIZE_MOD_eq, PTRDIFF_MAX_eq in *; lia).
    rewrite decide_True by lia.
    wpp_pure end_eq. simpl.
    eapply wpp_mono; [apply wpp_construct_at| |].
    + intros [] s1 (v & Hinit & _). apply Htail.
      rewrite Hinit in Hrun. by run_simpl in Hrun.
    + intros e s' Hinit. rewrite Hinit in Hrun. by run_simpl in Hrun.
  - rewrite decide_False by lia.
    assert (cap = len) as -> by lia.
    unfold len in Hown. rewrite cells_of_full in Hown. fold len in Hown.
    apply wpp_bind. wpp_pure end_eq. simpl. fold len. apply wpp_bind.
    eapply wpp_mono;
      [eapply (wpp_realloc el al this buf xs [] args s xs len); eauto using app_nil_r| |].
    + intros r s1 Hr. apply wpp_ret. apply Htail. by rewrite Hrun.
    + intros e s' Hr. by rewrite Hrun.
Qed.

Lemma wpp_PushBack this value s xs cap :
  Sane el al →
  holds el s this xs cap →
  wpp (PushBack el al this value) s
    (fun _ s' => emplace_back_run el al (InitCopy value) xs cap (world s) = Returns (world s'))
    (fun e _ => emplace_back_run el al (InitCopy value) xs cap (world s) = Raises e).
Proof.
  intros HS Hh. unfold PushBack. apply wpp_bind.
  eapply wpp_mono; [by apply wpp_EmplaceBack| |done]. by intros p s' Hr.
Qed.

Lemma wpp_PushBack_rvalue this value s xs cap :
  Sane el al →
  holds el s this xs cap →
  wpp (PushBack_rvalue el al this value) s
    (fun _ s' => emplace_back_run el al (InitMove value) xs cap (world s) = Returns (world s'))
    (fun e _ => emplace_back_run el al (InitMove value) xs cap (world s) = Raises e).
Proof.
  intros HS Hh. unfold PushBack_rvalue. apply wpp_bind.
  eapply wpp_mono; [by apply wpp_EmplaceBack| |done]. by intros p s' Hr.
Qed.

(** ** Sequences of pushes *)

Lemma wp_push_all_run this vs : ∀ s xs cap,
  Sane el al → Regular el →
  holds el s this xs cap →
  wp (push_all el al this vs) s
    (fun _ s' =>
       (∃ cap', holds el s' this (xs ++ vs) cap' ∧ cap ≤ cap') ∧
       push_run el al vs xs cap (world s) = Returns (world s'))
    (fun e s' =>
       push_run el al vs xs cap (world s) = Raises e ∧
       ∃ v, objs s' !! this = Some v ∧ cap ≤ capacity_ (data_ v)).
Proof.
  induction vs as [|v vs IH]; intros s xs cap HS Hreg Hh.
  - apply wp_ret. split; [|done]. exists cap. by rewrite app_nil_r.
  - cbn [push_all push_run]. apply wp_bind.
    pose proof Hh as (buf & Hobj & Hlen & _).
    pose proof (cap_after_push_le (Z.of_nat (length xs)) cap ltac:(lia)) as Hcap.
    eapply wp_mono;
      [exact (wp_and_wpp _ _ _ _ _ _ (wp_PushBack el al this v s xs cap HS Hreg Hh)
                (wpp_PushBack this v s xs cap HS Hh))| |].
    + intros [] s1 [Hh1 Hrun1]. rewrite Hrun1. cbn [mbind outcome_bind].
      eapply wp_mono; [by apply IH| |].
      * intros [] s2 [(cap' & Hh2 & Hle) Hrun2]. split; [|done].
        exists cap'. rewrite <- app_assoc in Hh2. split; [done|lia].
      * intros e s2 (Hrun2 & v2 & Hv2 & Hle). split; [done|].
        exists v2. split; [done|lia].
    + intros e s' [(_ & Ho & _) Hrun1]. split; [by rewrite Hrun1|].
      eexists. split; [by rewrite Ho|]. simpl. lia.
Qed.

Lemma wp_push_caps_run this vs : ∀ s xs cap,
  Sane el al → Regular el →
  holds el s this xs cap →
  wp (push_caps el al this vs) s
    (fun caps s' =>
       caps = caps_after (length vs) (Z.of_nat (length xs)) cap ∧
       holds el s' this (xs ++ vs) (default cap (last caps)) ∧
       push_run el al vs xs cap (world s) = Returns (world s'))
    (fun e s' =>
       push_run el al vs xs cap (world s) = Raises e ∧
       ∃ v, objs s' !! this = Some v ∧ cap ≤ capacity_ (data_ v)).
Proof.
  induction vs as [|v vs IH]; intros s xs cap HS Hreg Hh.
  - apply wp_ret. split; [done|]. split; [|done]. by rewrite app_nil_r.
  - cbn [push_caps push_run length caps_after]. apply wp_bind.
    pose proof Hh as (buf & Hobj & Hlen & _).
    pose proof (cap_after_push_le (Z.of_nat (length xs)) cap ltac:(lia)) as Hcap.
    eapply wp_mono;
      [exact (wp_and_wpp _ _ _ _ _ _ (wp_PushBack el al this v s xs cap HS Hreg Hh)
                (wpp_PushBack this v s xs cap HS Hh))| |].
    + intros [] s1 [Hh1 Hrun1]. rewrite Hrun1. cbn [mbind outcome_bind].
      pose proof Hh1 as (buf1 & Hobj1 & _).
      apply wp_bind; eapply wp_rewrite; [eapply Capacity_eq; eassumption|];
        cbv beta iota; simpl.
      apply wp_bind.
      eapply wp_mono; [by apply IH| |].
      * intros cs s2 (-> & Hh2 & Hrun2). apply wp_ret.
        rewrite length_app in *. simpl length in *.
        replace (Z.of_nat (length xs + 1)) with (Z.of_nat (length xs) + 1) in * by lia.
        split; [done|]. split; [|done].
        rewrite <- app_assoc in Hh2. by rewrite default_last_cons.
      * intros e s2 (Hrun2 & v2 & Hv2 & Hle). split; [done|].
        exists v2. split; [done|lia].
    + intros e s' [(_ & Ho & _) Hrun1]. split; [by rewrite Hrun1|].
      eexists. split; [by rewrite Ho|]. simpl. lia.
Qed.

End PushOutcome.

Section EmplaceOutcome.

Context {T W E A : Type} (el : ElemType T W E A) (al : Allocator W E).

Abbreviation state := (@state T W E).
Abbreviation Mach := (M state E).

Implicit Types (s : state) (p q : ptr) (b : nat) (cells : list (slot T)).

(** ** Moves inside one block *)

Section MovesInBlock.

Context (Hreg : Regular el).

Lemma wp_move_assign_at_world b cells k j d x s :
  k ≠ j →
  heap s !! b = Some cells →
  cells !! k = Some (Some d) → cells !! j = Some (Some x) →
  wp (move_assign_at el (at_ b k) (at_ b j)) s
    (fun _ s' =>
       snd (snd (move_assign el d x (world s))) = None ∧
       world s' = fst (move_assign el d x (world s)) ∧
       after s (<[b := <[k := Some x]>
                        (<[j := Some (snd (fst (snd (move_assign el d x (world s)))))]> cells)]>
                  (heap s))
         [EvMoveAssign (Slot (at_ b k)) (Slot (at_ b j))] s')
    (fun e _ => snd (snd (move_assign el d x (world s))) = Some e).
Proof.
  intros Hne Hb Hk Hj. unfold move_assign_at.
  apply wp_bind, (wp_load _ _ d); [by cell_read Hb|].
  apply wp_bind, (wp_load _ _ x); [by cell_read Hb|].
  apply wp_bind, wp_in_world.
  apply wp_bind, (wp_store _ _ x); [by cell_read Hb|].
  erewrite set_cell_at by exact Hb. simpl.
  set (r := snd (move_assign el d x (world s))).
  assert (<[b := <[j := Some (snd (fst r))]> cells]> (heap s) !! b
          = Some (<[j := Some (snd (fst r))]> cells)) as Hb' by apply lookup_insert_eq.
  apply wp_bind, (wp_store _ _ d).
  { cell_read Hb'. by rewrite list_lookup_insert_ne by done. }
  erewrite set_cell_at by exact Hb'. simpl.
  apply wp_finish_assign.
  destruct (snd r) as [e|] eqn:Hr; [done|].
  split; [done|]. split; [done|]. unfold after. simpl.
  rewrite insert_insert_eq. subst r.
  by rewrite (move_assign_value _ Hreg).
Qed.

(** [std::move_backward(first, last, last + 1)] inside one block. *)
Lemma wp_shift_right_world b pre xs : ∀ d post s,
  heap s !! b = Some (pre ++ (Some <$> xs) ++ Some d :: post) →
  wp (backward_loop el (at_ b (length pre + length xs)) (length xs)
        (at_ b (S (length pre + length xs)))) s
    (fun _ s' => ∃ r,
       try_shift el (reverse xs) d (world s) = Returns (world s', r) ∧
       after s (<[b := pre ++ Some r :: (Some <$> xs) ++ post]> (heap s))
         (ev_backward EvMoveAssign (at_ b (S (length pre + length xs)))
            (at_ b (length pre + length xs)) (length xs)) s')
    (fun e _ => try_shift el (reverse xs) d (world s) = Raises e).
Proof.
  induction xs as [|x xs IH] using rev_ind; intros d post s Hb.
  - simpl in Hb. simpl. apply wp_ret. exists d. split; [done|].
    rewrite insert_id by done. apply after_refl.
  - rewrite length_app. simpl length. rewrite Nat.add_1_r, Nat.add_succ_r. simpl.
    rewrite !at_pred. rewrite reverse_snoc. cbn [try_shift].
    set (k := (length pre + length xs)%nat).
    assert (pre ++ (Some <$> xs ++ [x]) ++ Some d :: post
            = (pre ++ (Some <$> xs)) ++ Some x :: Some d :: post) as Hc.
    { rewrite fmap_app, <- !app_assoc. done. }
    rewrite Hc in Hb. clear Hc.
    assert (length (pre ++ (Some <$> xs)) = k) as Hk.
    { rewrite length_app, length_fmap. done. }
    apply wp_bind.
    eapply wp_mono;
      [eapply (wp_move_assign_at_world b _ (S k) k d x); [lia|exact Hb| |]| |].
    { rewrite (cons_middle (Some x)), app_assoc.
      replace (S k) with (length ((pre ++ (Some <$> xs)) ++ [Some x]))
        by (rewrite length_app; simpl; lia).
      apply lookup_middle. }
    { rewrite <- Hk. apply lookup_middle. }
    2:{ intros e s' Hr. by rewrite Hr. }
    intros [] s1 (Hok & Hw1 & Hh1 & Ho1 & Hl1). rewrite Hok.
    set (x' := snd (fst (snd (move_assign el d x (world s))))) in *.
    assert (after s (<[b := pre ++ (Some <$> xs) ++ Some x' :: Some x :: post]> (heap s))
              [EvMoveAssign (Slot (at_ b (S k))) (Slot (at_ b k))] s1) as H1.
    { split; [|done]. rewrite Hh1. f_equal.
      rewrite <- Hk at 2. rewrite insert_middle.
      rewrite (cons_middle (Some x')), app_assoc.
      replace (S k) with (length ((pre ++ (Some <$> xs)) ++ [Some x']))
        by (rewrite length_app; simpl; lia).
      rewrite insert_middle, <- !app_assoc. done. }
    clear Hh1 Ho1 Hl1.
    pose proof H1 as (Hh & _ & _).
    specialize (IH x' (Some x :: post) s1).
    rewrite Hh, lookup_insert_eq in IH. specialize (IH eq_refl). rewrite <- Hh in IH.
    rewrite <- Hw1.
    eapply wp_mono; [exact IH| |done].
    intros [] s' (r & Hrun & H2). exists r. split; [done|]. simpl.
    pose proof (after_same _ _ _ _ _ _ [_] _ H1 H2) as H3.
    rewrite fmap_app, <- app_assoc. exact H3.
Qed.

Lemma wp_move_construct_same_world b cells k j x s :
  k ≠ j →
  heap s !! b = Some cells →
  cells !! k = Some None → cells !! j = Some (Some x) →
  wp (move_construct_at el (at_ b k) (at_ b j)) s
    (fun _ s' =>
       (∃ y, snd (snd (move_ctor el x (world s))) = Returns y) ∧
       world s' = fst (move_ctor el x (world s)) ∧
       after s (<[b := <[k := Some x]>
                        (<[j := Some (fst (snd (move_ctor el x (world s))))]> cells)]>
                  (heap s))
         [EvMoveConstruct (Slot (at_ b k)) (Slot (at_ b j))] s')
    (fun e _ => snd (snd (move_ctor el x (world s))) = Raises e).
Proof.
  intros Hne Hb Hk Hj. unfold move_construct_at.
  apply wp_bind, (wp_load _ _ x); [by cell_read Hb|].
  apply wp_bind, wp_raw; [by cell_read Hb|].
  apply wp_bind, wp_in_world.
  apply wp_bind, (wp_store _ _ x); [by cell_read Hb|].
  erewrite set_cell_at by exact Hb. simpl.
  set (r := snd (move_ctor el x (world s))).
  assert (<[b := <[j := Some (fst r)]> cells]> (heap s) !! b
          = Some (<[j := Some (fst r)]> cells)) as Hb' by apply lookup_insert_eq.
  apply wp_bind, wp_finish.
  destruct (snd r) as [y|e] eqn:Hr; [|done].
  apply wp_occupy.
  { cell_read Hb'. by rewrite list_lookup_insert_ne by done. }
  erewrite set_cell_at by exact Hb'. split; [by exists y|]. split; [done|].
  unfold after. simpl.
  rewrite insert_insert_eq. subst r.
  by rewrite (move_ctor_value _ Hreg _ _ _ Hr).
Qed.

(** [std::uninitialized_move_n(p, 1, q)] inside one block *)
Lemma wp_uninitialized_move_one_world b cells k j x s :
  k ≠ j →
  heap s !! b = Some cells →
  cells !! k = Some None → cells !! j = Some (Some x) →
  wp (uninitialized_move_n el (at_ b j) 1 (at_ b k)) s
    (fun _ s' =>
       (∃ y, snd (snd (move_ctor el x (world s))) = Returns y) ∧
       world s' = fst (move_ctor el x (world s)) ∧
       after s (<[b := <[k := Some x]>
                        (<[j := Some (fst (snd (move_ctor el x (world s))))]> cells)]>
                  (heap s))
         [EvMoveConstruct (Slot (at_ b k)) (Slot (at_ b j))] s')
    (fun e _ => snd (snd (move_ctor el x (world s))) = Raises e).
Proof.
  intros Hne Hb Hk Hj.
  pose proof (wp_move_construct_same_world b cells k j x s Hne Hb Hk Hj) as H.
  unfold wp, uninitialized_move_n, uninitialized in *. simpl.
  destruct (move_construct_at el (at_ b k) (at_ b j) s) as [[] s1|e s1|]; [done| |done].
  unfold destroy_range, ptr_diff. simpl. rewrite Z.sub_diag. done.
Qed.

Lemma wp_move_assign_from_temp_world b cells k d temp s :
  heap s !! b = Some cells → cells !! k = Some (Some d) →
  wp (move_assign_from_temp el (at_ b k) temp) s
    (fun r s' =>
       world s' = fst (move_assign el d temp (world s)) ∧
       fst r = snd (fst (snd (move_assign el d temp (world s)))) ∧
       snd r = snd (snd (move_assign el d temp (world s))) ∧
       (snd r = None →
        after s (<[b := <[k := Some temp]> cells]> (heap s))
          [EvMoveAssign (Slot (at_ b k)) Temp] s'))
    (fun _ _ => False).
Proof.
  intros Hb Hk. unfold move_assign_from_temp.
  apply wp_bind, (wp_load _ _ d); [by cell_read Hb|].
  apply wp_bind, wp_in_world.
  apply wp_bind, (wp_store _ _ d); [by cell_read Hb|].
  erewrite set_cell_at by exact Hb. simpl.
  destruct (snd (snd (move_assign el d temp (world s)))) as [e|] eqn:Hr; simpl.
  - apply wp_bind, wp_emit, wp_ret. simpl. by rewrite ?Hr.
  - apply wp_bind, wp_emit, wp_ret. simpl. rewrite ?Hr. do 3 (split; [done|]).
    intros _. unfold after. simpl. by rewrite (move_assign_value _ Hreg).
Qed.

End MovesInBlock.

Lemma wp_destroy_temp_world temp s :
  wp (destroy_temp el temp) s
    (fun _ s' => world s' = dtor el temp (world s) ∧ after s (heap s) [EvDestroy Temp] s')
    (fun _ _ => False).
Proof. unfold destroy_temp. by apply wp_bind, wp_in_world, wp_emit. Qed.

Lemma wpp_destroy_temp_free temp :
  ∀ s, wpp (destroy_temp el temp) s (fun _ _ => True) (fun _ _ => False).
Proof.
  intros s. eapply wpp_mono; [apply wp_wpp, wp_destroy_temp_world|done|done].
Qed.

(** ** [Emplace] *)

(** [Emplace] where there is room. *)
Lemma wpp_Emplace_inplace this args s xs1 xs2 cap :
  Sane el al → Regular el →
  let xs := xs1 ++ xs2 in
  let len := Z.of_nat (length xs) in
  let buf := buffer_at s this in
  holds el s this xs cap →
  len + 1 ≤ cap →
  wpp (Emplace el al this (buf +ₚ Z.of_nat (length xs1)) args) s
    (fun _ s' => insert_run el args xs2 (world s) = Returns (world s'))
    (fun e _ => insert_run el args xs2 (world s) = Raises e).
Proof.
  intros HS Hreg xs len buf (buf0 & Hobj & Hlen & Hfits & Hoff & Hown) Hroom.
  pose proof (sizeof_pos _ _ HS) as Hsz.
  assert (cap ≤ PTRDIFF_MAX) as HcapM by nia.
  clear Hfits.
  assert (buf = buf0) as -> by (unfold buf, buffer_at; by rewrite Hobj).
  assert (length xs = (length xs1 + length xs2)%nat) as Hlxs by apply length_app.
  assert (xs = xs1 ++ xs2) as Hxs by done.
  assert (len = Z.of_nat (length xs)) as Hlendef by done.
  fold len in Hobj, Hlen.
  clearbody len xs.
  rewrite PTRDIFF_MAX_eq in *.
  destruct buf0 as [[bo|] o]; simpl in Hoff, Hown; subst o.
  2:{ apply (f_equal length) in Hown. unfold cells_of in Hown.
      rewrite length_app, length_replicate, length_fmap in Hown. simpl in Hown. lia. }
  change (Ptr (Some bo) 0) with (at_ bo 0) in *.
  set (run := insert_run el args xs2 (world s)).
  assert (run = insert_run el args xs2 (world s)) as Hrun by done.
  clearbody run. unfold insert_run in Hrun.
  assert (∀ s1, run = Returns (world s1) →
            wpp (Size this ≫= λ size, write_size_ this (wrap (size + 1)) ≫= λ _,
                   begin_ this ≫= λ first, mret (first +ₚ Z.of_nat (length xs1))) s1
              (fun _ s' => run = Returns (world s')) (fun e _ => run = Raises e)) as Htail.
  { intros s1 H1. apply wpp_bind, wpp_Size. intros n.
    apply wpp_bind, wpp_write_size_. intros s2 Hw2 _.
    apply wpp_bind, wpp_begin_. intros p. apply wpp_ret. by rewrite Hw2. }
  unfold Emplace.
  wpp_pure begin_eq. wpp_pure Capacity_eq. wpp_pure Size_eq. simpl.
  assert (wrap (ptr_diff (at_ bo 0 +ₚ Z.of_nat (length xs1)) (at_ bo 0))
          = Z.of_nat (length xs1)) as ->.
  { unfold ptr_diff, ptr_add. simpl. rewrite wrap_id; [lia|]. rewrite SIZE_MOD_eq. lia. }
  rewrite decide_True by lia.
  apply wpp_bind. wpp_pure end_eq. simpl.
  assert (at_ bo 0 +ₚ Z.of_nat (length xs1) = at_ bo (length xs1)) as Hp1
    by (unfold at_, ptr_add; simpl; f_equal).
  assert (at_ bo 0 +ₚ len = at_ bo (length xs)) as Hp2
    by (unfold at_, ptr_add; simpl; f_equal; lia).
  rewrite !Hp1, !Hp2.
  destruct xs2 as [|l xs2' _] using rev_ind.
  - (* at the end *)
    rewrite app_nil_r in Hxs. subst xs. simpl in Hrun.
    rewrite decide_False by (intros Hne; by apply Hne).
    unfold PlaceBackWithoutRealloc.
    wpp_pure Capacity_eq. wpp_pure Size_eq. simpl.
    rewrite wrap_id by (rewrite SIZE_MOD_eq; lia).
    rewrite decide_True by lia.
    wpp_pure end_eq. simpl.
    eapply wpp_mono; [apply wpp_construct_at| |].
    + intros [] s1 (v & Hinit & _). apply Htail.
      rewrite Hinit in Hrun. by run_simpl in Hrun.
    + intros e s' Hinit. rewrite Hinit in Hrun. by run_simpl in Hrun.
  - (* before the end *)
    rewrite reverse_snoc in Hrun.
    rewrite length_app in Hlxs. simpl in Hlxs.
    rewrite decide_True by (unfold at_; intros [=]; lia).
    remember (length xs1 + length xs2')%nat as m eqn:Hm.
    assert (length xs = S m) as Hlxs' by lia.
    rewrite Hlxs'. rewrite at_pred.
    set (rest := replicate (Z.to_nat cap - S (S m)) (None : slot T)).
    assert (cells_of xs cap
            = (Some <$> xs1) ++ (Some <$> xs2') ++ Some l :: None :: rest) as Hcells.
    { unfold cells_of. rewrite Hxs, !fmap_app, <- !app_assoc. simpl. do 3 f_equal.
      unfold rest. rewrite <- replicate_S. f_equal. rewrite <- Hxs. lia. }
    rewrite Hcells in Hown.
    apply wpp_bind.
    eapply wpp_mono; [apply wp_wpp, (wp_initialise_run el)| |].
    2:{ intros e s' Hinit. rewrite Hinit in Hrun. by run_simpl in Hrun. }
    intros v s1 (Hinit & Hh1 & Ho1 & Hl1).
    rewrite Hinit in Hrun. run_simpl in Hrun.
    assert (heap s1 !! bo = Some ((Some <$> xs1) ++ (Some <$> xs2') ++ Some l :: None :: rest))
      as Hb1 by (by rewrite Hh1).
    apply wpp_bind. unfold unwinding.
    apply wpp_catch; [apply wpp_destroy_temp_free|]. apply wpp_bind.
    assert (length ((Some <$> xs1) ++ (Some <$> xs2')) = m) as Hlm
      by (by rewrite length_app, !length_fmap).
    eapply wpp_mono;
      [apply wp_wpp;
       eapply (wp_uninitialized_move_one_world Hreg bo _ (S m) m l s1); [lia|exact Hb1| |]| |].
    { rewrite app_assoc, (cons_middle (Some l)), app_assoc.
      apply lookup_middle'. rewrite length_app. simpl. lia. }
    { rewrite app_assoc. by apply lookup_middle'. }
    2:{ intros e sx Hr. rewrite Hr in Hrun. by rewrite Hrun. }
    intros [] s2 ([y Hy] & Hw2 & Hh2 & Ho2 & Hl2).
    rewrite Hy, <- Hw2 in Hrun.
    set (l' := fst (snd (move_ctor el l (world s1)))) in *.
    assert (heap s2 = <[bo := (Some <$> xs1) ++ (Some <$> xs2') ++ Some l' :: Some l :: rest]>
                        (heap s)) as Hh2'.
    { rewrite Hh2, Hh1. f_equal.
      rewrite (app_assoc (Some <$> xs1)).
      erewrite insert_middle' by done.
      rewrite (cons_middle (Some l')), app_assoc.
      erewrite insert_middle' by (rewrite length_app; simpl; lia).
      by rewrite <- !app_assoc. }
    clear Hh2.
    unfold std_move_backward, ptr_diff. simpl.
    replace (Z.to_nat (Z.of_nat m - Z.of_nat (length xs1))) with (length xs2') by lia.
    pose proof (wp_shift_right_world Hreg bo (Some <$> xs1) xs2' l' (Some l :: rest) s2) as Hsr.
    rewrite length_fmap, <- Hm in Hsr.
    eapply wpp_mono; [apply wp_wpp, Hsr; by rewrite Hh2', lookup_insert_eq| |].
    2:{ intros e sx Hr. rewrite Hr in Hrun. by run_simpl in Hrun. }
    intros [] s3 (r & Hshift & Hh3 & Ho3 & Hl3).
    rewrite Hshift in Hrun. run_simpl in Hrun.
    rewrite Hh2', insert_insert_eq in Hh3.
    apply wpp_bind.
    eapply wpp_mono;
      [apply wp_wpp;
       eapply (wp_move_assign_from_temp_world Hreg bo _ (length xs1) r v s3);
         [by rewrite Hh3, lookup_insert_eq|apply lookup_middle'; by rewrite length_fmap]
      | |done].
    intros [v' oe] s4 (Hw4 & Hv' & Hoe & _). simpl in Hv', Hoe. subst v' oe.
    apply wpp_bind.
    eapply wpp_mono; [apply wp_wpp, wp_destroy_temp_world| |done].
    intros [] s5 (Hw5 & _).
    destruct (snd (snd (move_assign el r v (world s3)))) as [e|] eqn:Hr.
    + by apply wp_wpp, wp_throw.
    + apply wpp_ret. apply Htail. by rewrite Hrun, Hw5, Hw4.
Qed.

(** [Emplace] on a vector that is full. *)
Lemma wpp_Emplace_realloc this args s xs1 xs2 :
  Sane el al →
  let xs := xs1 ++ xs2 in
  let len := Z.of_nat (length xs) in
  let buf := buffer_at s this in
  holds el s this xs len →
  wpp (Emplace el al this (buf +ₚ Z.of_nat (length xs1)) args) s
    (fun _ s' => realloc_run el al (grown len) args xs (world s) = Returns (world s'))
    (fun e _ => realloc_run el al (grown len) args xs (world s) = Raises e).
Proof.
  intros HS xs len buf (buf0 & Hobj & _ & Hcap & Hown).
  pose proof (sizeof_pos _ _ HS) as Hsz.
  assert (len ≤ PTRDIFF_MAX) as HlenM by nia.
  assert (buf = buf0) as -> by (unfold buf, buffer_at; by rewrite Hobj).
  unfold len in Hown. rewrite cells_of_full in Hown. fold len in Hown.
  assert (Z.of_nat (length xs1) ≤ len)
    by (unfold len, xs; rewrite length_app; lia).
  set (run := realloc_run el al (grown len) args xs (world s)).
  unfold Emplace.
  wpp_pure begin_eq. wpp_pure Capacity_eq. wpp_pure Size_eq. simpl. fold len.
  assert (wrap (ptr_diff (buf0 +ₚ Z.of_nat (length xs1)) buf0) = Z.of_nat (length xs1)) as ->.
  { unfold ptr_diff, ptr_add. simpl. rewrite wrap_id; [lia|].
    rewrite SIZE_MOD_eq, PTRDIFF_MAX_eq in *. lia. }
  rewrite decide_False by lia.
  apply wpp_bind, wpp_bind.
  eapply wpp_mono;
    [eapply (wpp_realloc el al this buf0 xs1 xs2 args s xs len); eauto| |done].
  intros r s1 Hr. apply wpp_ret.
  apply wpp_bind, wpp_Size. intros n.
  apply wpp_bind, wpp_write_size_. intros s2 Hw2 _.
  apply wpp_bind, wpp_begin_. intros p. apply wpp_ret. by rewrite Hw2.
Qed.

Lemma wpp_Emplace this args s xs1 xs2 cap :
  Sane el al → Regular el →
  holds el s this (xs1 ++ xs2) cap →
  wpp (Emplace el al this (buffer_at s this +ₚ Z.of_nat (length xs1)) args) s
    (fun _ s' => emplace_run el al args xs1 xs2 cap (world s) = Returns (world s'))
    (fun e _ => emplace_run el al args xs1 xs2 cap (world s) = Raises e).
Proof.
  intros HS Hreg Hh. unfold emplace_run.
  destruct (decide (Z.of_nat (length (xs1 ++ xs2)) < cap)) as [Hroom|Hfull].
  - apply (wpp_Emplace_inplace this args s xs1 xs2 cap HS Hreg Hh). lia.
  - assert (cap = Z.of_nat (length (xs1 ++ xs2))) as Hcap.
    { destruct Hh as (? & _ & ? & _). lia. }
    rewrite Hcap in Hh.
    by apply (wpp_Emplace_realloc this args s xs1 xs2 HS).
Qed.

End EmplaceOutcome.

Section CopyAssignOutcome.

Context {T W E A : Type} (el : ElemType T W E A) (al : Allocator W E).

Abbreviation state := (@state T W E).
Abbreviation Mach := (M state E).

Implicit Types (s : state) (p q : ptr) (b : nat) (cells : list (slot T)).

Lemma try_assign_take_r (ds xs : list T) (w : W) :
  try_assign el ds xs w = try_assign el ds (take (length ds) xs) w.
Proof.
  revert xs w. induction ds as [|d ds IH]; intros [|x xs] w; simpl; try done.
  destruct (snd (snd (copy_assign el d x w))); [done|]. apply IH.
Qed.

Lemma try_assign_take_l (ds xs : list T) (w : W) :
  try_assign el ds xs w = try_assign el (take (length xs) ds) xs w.
Proof.
  revert xs w. induction ds as [|d ds IH]; intros [|x xs] w; simpl; try done.
  destruct (snd (snd (copy_assign el d x w))); [done|]. apply IH.
Qed.

Lemma copy_assign_run_grow (xs ys : list T) (w : W) :
  (length xs ≤ length ys)%nat →
  copy_assign_run el xs ys w
  = (w1 ← try_assign el xs (take (length xs) ys) w; try_copy el (drop (length xs) ys) w1).
Proof.
  intros H. unfold copy_assign_run. rewrite <- try_assign_take_r.
  destruct (try_assign el xs ys w); [|done]. simpl. by rewrite decide_True.
Qed.

Lemma copy_assign_run_shrink (xs ys : list T) (w : W) :
  (length ys < length xs)%nat →
  copy_assign_run el xs ys w
  = (w1 ← try_assign el (take (length ys) xs) ys w;
     mret (destroy_all el (drop (length ys) xs) w1)).
Proof.
  intros H. unfold copy_assign_run. rewrite <- try_assign_take_l.
  destruct (try_assign el xs ys w); [|done]. simpl. by rewrite decide_False by lia.
Qed.

Section CopiesBetweenBlocks.

Context (Hreg : Regular el).

Lemma wp_copy_assign_at_world bd bs dcells scells k j d x s :
  bd ≠ bs →
  heap s !! bd = Some dcells → heap s !! bs = Some scells →
  dcells !! k = Some (Some d) → scells !! j = Some (Some x) →
  wp (copy_assign_at el (at_ bd k) (at_ bs j)) s
    (fun _ s' =>
       snd (snd (copy_assign el d x (world s))) = None ∧
       world s' = fst (copy_assign el d x (world s)) ∧
       after s (<[bd := <[k := Some x]> dcells]> (heap s))
         [EvCopyAssign (Slot (at_ bd k)) (Slot (at_ bs j))] s')
    (fun e _ => snd (snd (copy_assign el d x (world s))) = Some e).
Proof.
  intros Hne Hd Hs Hk Hj. unfold copy_assign_at.
  apply wp_bind, (wp_load _ _ d); [by cell_read Hd|].
  apply wp_bind, (wp_load _ _ x); [by cell_read Hs|].
  apply wp_bind, wp_in_world.
  apply wp_bind, (wp_store _ _ d); [by cell_read Hd|].
  apply wp_finish_assign.
  destruct (snd (snd (copy_assign el d x (world s)))) as [e|] eqn:Hr; [done|].
  erewrite set_cell_at by exact Hd. simpl.
  split; [done|]. split; [done|].
  unfold after. simpl. by rewrite (copy_assign_value _ Hreg).
Qed.

Lemma wp_forward_copy_world bd bs dpost spost xs : ∀ ds dpre spre s,
  bd ≠ bs → length ds = length xs →
  heap s !! bd = Some (dpre ++ (Some <$> ds) ++ dpost) →
  heap s !! bs = Some (spre ++ (Some <$> xs) ++ spost) →
  wp (forward_loop (copy_assign_at el) (at_ bs (length spre)) (length xs)
        (at_ bd (length dpre))) s
    (fun _ s' =>
       try_assign el ds xs (world s) = Returns (world s') ∧
       after s (<[bd := dpre ++ (Some <$> xs) ++ dpost]> (heap s))
         (ev_forward EvCopyAssign (at_ bd (length dpre)) (at_ bs (length spre))
            (length xs)) s')
    (fun e _ => try_assign el ds xs (world s) = Raises e).
Proof.
  induction xs as [|x xs IH]; intros [|d ds] dpre spre s Hne Hlen Hd Hs;
    simpl in Hlen; try done; simpl in Hd, Hs; simpl.
  - apply wp_ret. split; [done|]. rewrite insert_id by done. apply after_refl.
  - apply wp_bind.
    eapply wp_mono;
      [eapply (wp_copy_assign_at_world bd bs _ _ _ _ d x);
         [done|exact Hd|exact Hs|apply lookup_middle..]
      | |].
    2:{ intros e s' Hr. by rewrite Hr. }
    intros [] s1 (Hok & Hw1 & H1). rewrite Hok. simpl in H1. rewrite insert_middle in H1.
    pose proof H1 as (Hh & _ & _).
    rewrite !at_succ.
    specialize (IH ds (dpre ++ [Some x]) (spre ++ [Some x]) s1 Hne).
    rewrite Hh, lookup_insert_eq, lookup_insert_ne, <- !app_assoc in IH by done.
    specialize (IH ltac:(lia) eq_refl Hs). rewrite <- Hh in IH.
    rewrite !length_app in IH. simpl in IH. rewrite !Nat.add_1_r in IH.
    rewrite <- Hw1.
    eapply wp_mono; [exact IH| |done].
    intros [] s' [Hrun H2]. split; [done|]. simpl.
    exact (after_same _ _ _ _ _ _ [_] _ H1 H2).
Qed.

End CopiesBetweenBlocks.

(** The two loops of the branch [rhs.size_ >= size_]. *)
Lemma wpp_assign_grow this cap bt br (xs ys1 ys2 : list T) (restr : list (slot T)) k s :
  Regular el → bt ≠ br →
  length ys1 = length xs →
  objs s !! this = Some {| data_ := {| buffer_ := at_ bt 0; capacity_ := cap |};
                           size_ := Z.of_nat (length xs) |} →
  heap s !! bt = Some ((Some <$> xs) ++ replicate k None) →
  heap s !! br = Some ((Some <$> ys1 ++ ys2) ++ restr) →
  wpp (std_copy el (at_ br 0) (at_ br (length xs)) (at_ bt 0) ≫= λ _,
        end_ this ≫= λ last,
        uninitialized_copy_n el (at_ br (length xs)) (Z.of_nat (length ys2)) last) s
    (fun _ s' =>
       (w1 ← try_assign el xs ys1 (world s); try_copy el ys2 w1) = Returns (world s') ∧
       objs s' = objs s)
    (fun e _ => (w1 ← try_assign el xs ys1 (world s); try_copy el ys2 w1) = Raises e).
Proof.
  intros Hreg Hne Hl1 Hobj Ht Hr.
  rewrite fmap_app, <- app_assoc in Hr.
  apply wpp_bind. unfold std_copy, ptr_diff. simpl.
  replace (Z.to_nat (Z.of_nat (length xs) - Z.of_nat 0)) with (length ys1) by lia.
  eapply wpp_mono;
    [apply wp_wpp;
     eapply (wp_forward_copy_world Hreg bt br (replicate k None)
               ((Some <$> ys2) ++ restr) ys1 xs [] [] s); [done|lia|done|done]
    | |].
  2:{ intros e s' Hrun. by rewrite Hrun. }
  intros [] s1 (Hrun1 & Hh1 & Ho1 & Hl1'). simpl in Hh1. rewrite Hrun1. run_simpl.
  assert (objs s1 !! this = Some {| data_ := {| buffer_ := at_ bt 0; capacity_ := cap |};
                                    size_ := Z.of_nat (length xs) |}) as Hobj1
    by (by rewrite Ho1).
  wpp_pure end_eq. cbn [data_ buffer_ size_].
  rewrite at_add, Nat2Z.id, Nat.add_0_l by lia.
  replace (at_ br (length xs)) with (at_ br (length (Some <$> ys1)))
    by (by rewrite length_fmap, Hl1).
  eapply wpp_mono;
    [eapply (wpp_uninitialized_copy_n el bt br restr ys2 (Some <$> ys1) _ s1); [done|done|]
    | |done].
  { rewrite Hh1, lookup_insert_ne by done. done. }
  intros [] s2 (Hrun2 & Ho2 & _). split; [done|]. by rewrite Ho2.
Qed.

(** The two loops of the branch [rhs.size_ < size_]. *)
Lemma wpp_assign_shrink bt br (xs1 xs2 ys : list T) (restr : list (slot T)) k s :
  Regular el → bt ≠ br →
  length xs1 = length ys →
  heap s !! bt = Some ((Some <$> xs1 ++ xs2) ++ replicate k None) →
  heap s !! br = Some ((Some <$> ys) ++ restr) →
  wpp (std_copy el (at_ br 0) (at_ br (length ys)) (at_ bt 0) ≫= λ _,
        destroy_n el (at_ bt (length ys)) (Z.of_nat (length xs2))) s
    (fun _ s' =>
       (w1 ← try_assign el xs1 ys (world s); mret (destroy_all el xs2 w1))
       = Returns (world s') ∧
       objs s' = objs s)
    (fun e _ => (w1 ← try_assign el xs1 ys (world s); mret (destroy_all el xs2 w1))
                = Raises e).
Proof.
  intros Hreg Hne Hl1 Ht Hr.
  rewrite fmap_app, <- app_assoc in Ht.
  apply wpp_bind. unfold std_copy, ptr_diff. simpl.
  replace (Z.to_nat (Z.of_nat (length ys) - Z.of_nat 0)) with (length ys) by lia.
  eapply wpp_mono;
    [apply wp_wpp;
     eapply (wp_forward_copy_world Hreg bt br ((Some <$> xs2) ++ replicate k None)
               restr ys xs1 [] [] s); [done|lia|done|done]
    | |].
  2:{ intros e s' Hrun. by rewrite Hrun. }
  intros [] s1 (Hrun1 & Hh1 & Ho1 & Hl1'). simpl in Hh1. rewrite Hrun1. run_simpl.
  unfold destroy_n. rewrite Nat2Z.id.
  replace (at_ bt (length ys)) with (at_ bt (length (Some <$> ys)))
    by (by rewrite length_fmap).
  eapply wpp_mono;
    [apply wp_wpp;
     eapply (wp_destroy_loop_world el bt (replicate k None) xs2 (Some <$> ys) s1)| |done].
  { rewrite Hh1. apply lookup_insert_eq. }
  intros [] s2 (Hw2 & Hh2 & Ho2 & Hl2').
  split; [by rewrite Hw2|]. by rewrite Ho2, Ho1.
Qed.

(** Copy assignment from another vector whose elements fit in the capacity
    of the destination. *)
Lemma wpp_Vector_copy_assign_fits this rhs s (xs ys : list T) cap capr :
  Sane el al → Regular el → this ≠ rhs →
  holds el s this xs cap → holds el s rhs ys capr →
  Z.of_nat (length ys) ≤ cap →
  buffer_at s this = nullptr ∨ buffer_at s this ≠ buffer_at s rhs →
  wpp (Vector_copy_assign el al this rhs) s
    (fun _ s' => copy_assign_run el xs ys (world s) = Returns (world s'))
    (fun e _ => copy_assign_run el xs ys (world s) = Raises e).
Proof.
  intros HS Hreg Hne (buf0 & Hobj & Hlen & Hfits & Hoff & Hown)
    (bufr & Hobjr & Hlenr & Hfitsr & Hoffr & Hownr) Hle Hsep.
  pose proof (sizeof_pos _ _ HS) as Hsz.
  assert (cap ≤ PTRDIFF_MAX) as HcapM by nia.
  assert (capr ≤ PTRDIFF_MAX) as HcaprM by nia.
  clear Hfits Hfitsr.
  assert (buffer_at s rhs = bufr) as Hbr by (unfold buffer_at; by rewrite Hobjr).
  assert (buffer_at s this = buf0) as Hb by (unfold buffer_at; by rewrite Hobj).
  rewrite Hbr, Hb in Hsep. clear Hb Hbr.
  rewrite PTRDIFF_MAX_eq in *.
  set (run := copy_assign_run el xs ys (world s)).
  assert (run = copy_assign_run el xs ys (world s)) as Hrun by done.
  clearbody run.
  unfold Vector_copy_assign. rewrite decide_True by done.
  wpp_pure Size_eq. wpp_pure Capacity_eq. simpl.
  destruct (decide (Z.of_nat (length ys) > cap)) as [?|_]; [lia|].
  apply wpp_bind.
  eapply (wpp_mono _ s
            (fun _ s1 => run = Returns (world s1))
            _ (fun e _ => run = Raises e)); [| |done].
  2:{ intros [] s1 Hr1.
      apply wpp_bind, wpp_Size. intros n. apply wpp_write_size_.
      intros s2 Hw2 _. by rewrite Hw2. }
  wpp_pure Size_eq. wpp_pure begin_eq. wpp_pure begin_eq. simpl.
  destruct ys as [|y ys'].
  - (* nothing to copy *)
    cbn [length] in *. change (Z.of_nat 0) with 0 in *. destruct xs as [|x xs'].
    + cbn [length] in *. change (Z.of_nat 0) with 0 in *.
      rewrite decide_True by lia.
      apply wpp_bind. eapply wpp_rewrite; [apply std_copy_empty|]. cbv beta iota.
      wpp_pure end_eq. change (wrap (0 - 0)) with 0.
      eapply wpp_rewrite; [apply uninitialized_copy_zero|]. cbv beta iota.
      done.
    + rewrite decide_False by (cbn [length]; lia).
      wpp_pure end_eq. cbn [size_ data_ buffer_].
      apply wpp_bind. eapply wpp_rewrite; [apply std_copy_empty|]. cbv beta iota.
      destruct buf0 as [[bt|] o]; simpl in Hoff, Hown; subst o.
      2:{ done. }
      change (Ptr (Some bt) 0) with (at_ bt 0) in *.
      assert (at_ bt 0 +ₚ 0 = at_ bt (length (@nil (slot T)))) as ->
        by (unfold at_, ptr_add; simpl; f_equal).
      rewrite Z.sub_0_r. rewrite wrap_id by (rewrite SIZE_MOD_eq; simpl length in *; lia).
      unfold destroy_n. rewrite Nat2Z.id.
      eapply wpp_mono;
        [apply wp_wpp;
         eapply (wp_destroy_loop_world el bt
                   (replicate (Z.to_nat cap - length (x :: xs')) None)
                   (x :: xs') [] s); exact Hown
        | |done].
      intros [] s1 (Hw1 & _). rewrite Hrun, Hw1. done.
  - (* both vectors have a block *)
    destruct bufr as [[br|] o]; simpl in Hoffr, Hownr; subst o; [|done].
    destruct buf0 as [[bt|] o]; simpl in Hoff, Hown; subst o.
    2:{ apply (f_equal length) in Hown. unfold cells_of in Hown.
        rewrite length_app, length_replicate, length_fmap in Hown.
        simpl length in *. lia. }
    assert (bt ≠ br) as Hbne
      by (destruct Hsep as [Hn|Hn]; [by inversion Hn|intros ->; by apply Hn]).
    change (Ptr (Some bt) 0) with (at_ bt 0) in *.
    change (Ptr (Some br) 0) with (at_ br 0) in *.
    remember (y :: ys') as ys eqn:Hys. clear Hsep.
    destruct (decide (Z.of_nat (length ys) >= Z.of_nat (length xs))) as [Hge|Hlt].
    + rewrite copy_assign_run_grow in Hrun by lia.
      rewrite wrap_id by (rewrite SIZE_MOD_eq; lia).
      rewrite <- (take_drop (length xs) ys) in Hownr.
      assert (length (take (length xs) ys) = length xs) as Hl1
        by (rewrite length_take; lia).
      assert (length (drop (length xs) ys) = (length ys - length xs)%nat) as Hl2
        by (by rewrite length_drop).
      unfold cells_of in Hown, Hownr.
      rewrite !at_add, !Nat2Z.id, !Nat.add_0_l by lia.
      replace (Z.of_nat (length ys) - Z.of_nat (length xs))
        with (Z.of_nat (length (drop (length xs) ys))) by lia.
      eapply wpp_mono;
        [eapply (wpp_assign_grow this cap bt br xs _ _ _ (Z.to_nat cap - length xs)%nat s
                   Hreg Hbne Hl1 Hobj Hown Hownr)
        | |].
      * intros [] s1 [Hr1 _]. by rewrite Hrun.
      * intros e s1 Hr1. by rewrite Hrun.
    + rewrite copy_assign_run_shrink in Hrun by lia.
      wpp_pure end_eq. cbn [data_ buffer_ size_].
      rewrite wrap_id by (rewrite SIZE_MOD_eq; lia).
      rewrite <- (take_drop (length ys) xs) in Hown.
      assert (length (take (length ys) xs) = length ys) as Hl1
        by (rewrite length_take; lia).
      assert (length (drop (length ys) xs) = (length xs - length ys)%nat) as Hl2
        by (by rewrite length_drop).
      unfold cells_of in Hown, Hownr.
      rewrite !at_add, !Nat2Z.id, !Nat.add_0_l by lia.
      replace (Z.of_nat (length xs) - Z.of_nat (length ys))
        with (Z.of_nat (length (drop (length ys) xs))) by lia.
      eapply wpp_mono;
        [eapply (wpp_assign_shrink bt br _ _ ys _ _ s Hreg Hbne Hl1 Hown Hownr)
        | |].
      * intros [] s1 [Hr1 _]. by rewrite Hrun.
      * intros e s1 Hr1. by rewrite Hrun.
Qed.

End CopyAssignOutcome.

Section LifetimeOutcome.

Context {T W E A : Type} (el : ElemType T W E A) (al : Allocator W E).

Abbreviation state := (@state T W E).
Abbreviation Mach := (M state E).

Implicit Types (s : state) (p q : ptr) (b : nat) (cells : list (slot T)).

(** ** The destructor *)

Lemma wpp_Vector_dtor buf (xs : list T) cap s :
  owns s buf (cells_of xs cap) →
  wpp (Vector_dtor el {| data_ := {| buffer_ := buf; capacity_ := cap |};
                         size_ := Z.of_nat (length xs) |}) s
    (fun _ s' => world s' = destroy_all el xs (world s) ∧ objs s' = objs s)
    (fun _ _ => False).
Proof.
  intros Hown. unfold Vector_dtor, GetAddress, destroy_n, RawMemory_dtor, Deallocate.
  cbn [data_ buffer_ size_]. rewrite Nat2Z.id.
  destruct buf as [[bo|] o].
  - destruct Hown as [Hoff Hown]. simpl in Hoff, Hown. subst o.
    change (Ptr (Some bo) 0) with (at_ bo (length (@nil (slot T)))).
    apply wpp_bind.
    eapply wpp_mono;
      [apply wp_wpp; eapply (wp_destroy_loop_world el bo _ xs [] s); exact Hown| |done].
    intros [] s1 (Hw1 & _ & Ho1 & _).
    eapply wpp_mono; [apply wpp_operator_delete| |done].
    intros [] s2 [Hw2 Ho2]. split; [by rewrite Hw2|by rewrite Ho2].
  - apply owns_null_nil in Hown as [-> ->]. simpl.
    apply wpp_bind, wpp_ret.
    eapply wpp_mono; [apply wpp_operator_delete| |done].
    intros [] s2 [Hw2 Ho2]. done.
Qed.

(** ** The copy constructor *)

Lemma wpp_Vector_copy_ctor other s (xs : list T) cap :
  Sane el al →
  holds el s other xs cap →
  wpp (Vector_copy_ctor el al other) s
    (fun _ s' => copy_ctor_run el al xs (world s) = Returns (world s'))
    (fun e _ => copy_ctor_run el al xs (world s) = Raises e).
Proof.
  intros HS Hh.
  destruct (decide (xs = [])) as [->|Hne].
  { eapply wpp_rewrite; [by eapply Vector_copy_ctor_empty|]. done. }
  destruct Hh as (buf & Hobj & Hlen & Hfits & Hoff & Hown).
  pose proof (sizeof_pos _ _ HS) as Hsz.
  set (len := Z.of_nat (length xs)) in *.
  assert (0 < len) as Hpos by (unfold len; destruct xs; [done|simpl; lia]).
  assert (len * sizeof el < SIZE_MOD) as Hfit by (rewrite SIZE_MOD_eq, PTRDIFF_MAX_eq in *; nia).
  clear Hfits.
  destruct buf as [[br|] o]; simpl in Hoff, Hown; subst o.
  2:{ apply (f_equal length) in Hown. unfold cells_of in Hown.
      rewrite length_app, length_fmap in Hown. simpl in Hown. unfold len in *. lia. }
  change (Ptr (Some br) 0) with (at_ br 0) in *.
  set (run := copy_ctor_run el al xs (world s)).
  assert (run = (w1 ← try_new al (len * sizeof el) (world s); try_copy el xs w1)) as Hrun.
  { unfold run, copy_ctor_run. by destruct xs. }
  clearbody run.
  unfold Vector_copy_ctor.
  wpp_pure Size_eq. cbn [size_]. fold len.
  apply wpp_bind.
  eapply wpp_mono; [apply wp_wpp, (wp_RawMemory_ctor_run el al); [done|lia|done]| |].
  2:{ intros e s' Hr. rewrite Hr in Hrun. by run_simpl in Hrun. }
  intros new_data s1 (Hr1 & -> & Hfresh & Ho1 & Hh1).
  rewrite Hr1 in Hrun. run_simpl in Hrun.
  set (b := fresh (dom (heap s))) in *.
  assert (b ≠ br) as Hbne by (intros Heq; rewrite Heq, Hown in Hfresh; done).
  assert (objs s1 !! other = Some {| data_ := {| buffer_ := at_ br 0; capacity_ := cap |};
                                     size_ := len |}) as Hobj1 by (by rewrite Ho1).
  unfold GetAddress, unwinding. cbn [buffer_].
  apply wpp_bind, wpp_catch; [apply wpp_RawMemory_dtor_free|].
  wpp_pure begin_eq. wpp_pure Size_eq. cbn [data_ buffer_ size_ GetAddress].
  eapply wpp_mono;
    [eapply (wpp_uninitialized_copy_n el b br
               (replicate (Z.to_nat cap - length xs) None) xs [] 0%nat s1); [done|done|]
    | |].
  - rewrite Hh1, lookup_insert_ne by done. exact Hown.
  - intros [] s2 (Hr2 & _). apply wpp_ret. by rewrite Hrun.
  - intros e s2 Hr2. by rewrite Hrun.
Qed.

(** ** Copy assignment beyond the capacity *)

Lemma wpp_Vector_copy_assign_realloc this rhs s (xs ys : list T) cap capr :
  Sane el al → Regular el → this ≠ rhs →
  holds el s this xs cap → holds el s rhs ys capr →
  cap < Z.of_nat (length ys) →
  wpp (Vector_copy_assign el al this rhs) s
    (fun _ s' => copy_assign_realloc_run el al xs ys (world s) = Returns (world s'))
    (fun e _ => copy_assign_realloc_run el al xs ys (world s) = Raises e).
Proof.
  intros HS Hreg Hne Ht Hr Hlt.
  pose proof Ht as (buf0 & Hobj & Hlen & Hfits & Hoff & Hown).
  pose proof Hr as (bufr & Hobjr & Hlenr & Hfitsr & Hownr).
  clear Hfits Hfitsr.
  assert (ys ≠ []) as Hys by (intros ->; simpl in *; lia).
  set (run := copy_assign_realloc_run el al xs ys (world s)).
  assert (run = copy_assign_realloc_run el al xs ys (world s)) as Hrun by done.
  clearbody run. unfold copy_assign_realloc_run in Hrun.
  unfold Vector_copy_assign. rewrite decide_True by done.
  wpp_pure Size_eq. wpp_pure Capacity_eq. cbn [size_ data_ capacity_].
  rewrite decide_True by lia.
  apply wpp_bind, wpp_bind.
  eapply wpp_mono;
    [apply wp_wpp;
     exact (wp_and_wpp _ _ _ _ _ _
              (wp_Vector_copy_ctor el al rhs s ys capr _ HS Hreg Hr Hys eq_refl)
              (wpp_Vector_copy_ctor rhs s ys capr HS Hr))
    | |].
  2:{ intros e s' [_ Hr1]. rewrite Hr1 in Hrun. by run_simpl in Hrun. }
  intros v s1 [(-> & Hfresh & Hh1 & Ho1 & Hl1) Hr1].
  rewrite Hr1 in Hrun. run_simpl in Hrun.
  assert (objs s1 !! this = Some {| data_ := {| buffer_ := buf0; capacity_ := cap |};
                                    size_ := Z.of_nat (length xs) |}) as Hobj1
    by (by rewrite Ho1).
  apply wpp_bind. eapply wpp_rewrite; [by apply Swap_eq|]. cbv beta iota.
  eapply wpp_mono; [eapply (wpp_Vector_dtor buf0 xs cap)| |done].
  { split; [done|].
    destruct (blk buf0) as [bt|] eqn:Hblk; [|done].
    simpl. rewrite Hh1, lookup_insert_ne; [done|].
    intros <-. by rewrite Hown in Hfresh. }
  intros [] s2 [Hw2 _]. simpl in Hw2.
  apply wpp_bind, wpp_Size. intros n. apply wpp_write_size_.
  intros s3 Hw3 _. by rewrite Hrun, Hw3, Hw2.
Qed.

(** ** Value construction *)

Lemma value_construct_loop_run noargs n : ∀ cur s,
  match value_construct_loop el noargs cur n s with
  | (_, Ok _ s') =>
      try_construct el noargs n (world s) = Returns (world s') ∧ objs s' = objs s
  | (_, Throw e _) => try_construct el noargs n (world s) = Raises e
  | (_, Undefined) => True
  end.
Proof.
  induction n as [|n IH]; intros cur s; simpl; [done|].
  pose proof (wpp_construct_at el cur (InitArgs noargs) s) as H1. unfold wpp in H1.
  destruct (construct_at el cur (InitArgs noargs) s) as [[] s1|e s1|]; [| |done].
  - destruct H1 as (v & Hinit & Ho1 & _). simpl in Hinit.
    destruct (snd (construct el noargs (world s))) as [v'|e']; [|done].
    injection Hinit as Hw _. rewrite Hw.
    specialize (IH (cur +ₚ 1) s1).
    destruct (value_construct_loop el noargs (cur +ₚ 1) n s1) as [c [[] s'|e s'|]];
      [|done|done].
    destruct IH as [IH Ho']. split; [done|]. by rewrite Ho'.
  - simpl in H1. destruct (snd (construct el noargs (world s))); [done|].
    by injection H1 as ->.
Qed.

Lemma wpp_uninitialized_value_construct_n noargs first n s :
  wpp (uninitialized_value_construct_n el noargs first n) s
    (fun _ s' =>
       try_construct el noargs (Z.to_nat n) (world s) = Returns (world s') ∧
       objs s' = objs s)
    (fun e _ => try_construct el noargs (Z.to_nat n) (world s) = Raises e).
Proof.
  unfold wpp, uninitialized_value_construct_n.
  pose proof (value_construct_loop_run noargs (Z.to_nat n) first s) as H.
  destruct (value_construct_loop el noargs first (Z.to_nat n) s) as [cur [[] s1|e s1|]];
    [done| |done].
  unfold mbind, M_bind, bind.
  pose proof (wpp_destroy_loop_free el
                (Z.to_nat (ptr_diff cur first)) first s1) as Hd.
  unfold wpp in Hd. unfold destroy_range.
  by destruct (destroy_loop el _ _ s1).
Qed.

(** ** The constructor from a size *)

Lemma wpp_Vector_size_ctor noargs size s :
  Sane el al → 0 ≤ size → size * sizeof el < SIZE_MOD →
  wpp (Vector_size_ctor el al noargs size) s
    (fun _ s' => size_ctor_run el al noargs size (world s) = Returns (world s'))
    (fun e _ => size_ctor_run el al noargs size (world s) = Raises e).
Proof.
  intros HS Hpos Hfit. unfold size_ctor_run.
  destruct (decide (size = 0)) as [->|Hne].
  { eapply wpp_rewrite; [apply Vector_size_ctor_zero|]. done. }
  set (run := w1 ← try_new al (size * sizeof el) (world s);
              try_construct el noargs (Z.to_nat size) w1).
  assert (run = (w1 ← try_new al (size * sizeof el) (world s);
                 try_construct el noargs (Z.to_nat size) w1)) as Hrun by done.
  clearbody run.
  unfold Vector_size_ctor. apply wpp_bind.
  eapply wpp_mono; [apply wp_wpp, (wp_RawMemory_ctor_run el al); [done|lia|done]| |].
  2:{ intros e s' Hr. rewrite Hr in Hrun. by run_simpl in Hrun. }
  intros new_data s1 (Hr1 & -> & Hfresh & Ho1 & Hh1).
  rewrite Hr1 in Hrun. run_simpl in Hrun.
  unfold GetAddress, unwinding. cbn [buffer_].
  apply wpp_bind, wpp_catch; [apply wpp_RawMemory_dtor_free|].
  eapply wpp_mono; [apply wpp_uninitialized_value_construct_n| |].
  - intros [] s2 [Hr2 _]. apply wpp_ret. by rewrite Hrun.
  - intros e s2 Hr2. by rewrite Hrun.
Qed.

(** ** [Resize] to a larger size *)

Lemma wpp_Resize_grow noargs this (n : nat) s (xs : list T) cap :
  Sane el al → Regular el →
  holds el s this xs cap →
  (length xs < n)%nat →
  (cap < Z.of_nat n → Z.of_nat n * sizeof el < SIZE_MOD) →
  wpp (Resize el al noargs this (Z.of_nat n)) s
    (fun _ s' => resize_run el al noargs n xs cap (world s) = Returns (world s'))
    (fun e _ => resize_run el al noargs n xs cap (world s) = Raises e).
Proof.
  intros HS Hreg Hh Hn Hfit.
  pose proof (sizeof_pos _ _ HS) as Hsz.
  pose proof Hh as (buf0 & Hobj0 & _).
  set (run := resize_run el al noargs n xs cap (world s)).
  assert (run = (w1 ← reserve_run el al (Z.of_nat n) xs cap (world s);
                 try_construct el noargs (n - length xs) w1)) as Hrun.
  { unfold run, resize_run. by rewrite decide_True. }
  clearbody run.
  unfold Resize. wpp_pure Size_eq. cbn [size_].
  rewrite decide_True by lia.
  apply wpp_bind, wpp_bind.
  eapply wpp_mono;
    [apply wp_wpp;
     exact (wp_and_wpp _ _ _ _ _ _
              (wp_Reserve el al this (Z.of_nat n) s xs cap HS Hreg Hh Hfit)
              (wpp_Reserve el al this (Z.of_nat n) s xs cap HS Hh Hfit))
    | |].
  2:{ intros e s' [_ Hr1]. rewrite Hr1 in Hrun. by run_simpl in Hrun. }
  intros [] s1 [[(buf & Hobj & Hlen & Hfits & Hoff & Hown) _] Hr1].
  rewrite Hr1 in Hrun. run_simpl in Hrun.
  set (cap' := Z.max cap (Z.of_nat n)) in *.
  assert (Z.of_nat n ≤ cap') as Hcap' by (unfold cap'; lia).
  assert (cap' ≤ PTRDIFF_MAX) as HcapM by nia.
  clear Hfits.
  rewrite PTRDIFF_MAX_eq in *.
  wpp_pure end_eq. wpp_pure Size_eq. cbn [data_ buffer_ size_ GetAddress].
  rewrite wrap_id by (rewrite SIZE_MOD_eq; lia).
  replace (Z.of_nat n - Z.of_nat (length xs)) with (Z.of_nat (n - length xs)) by lia.
  eapply wpp_mono; [apply wpp_uninitialized_value_construct_n| |].
  - intros [] s2 [Hr2 _]. rewrite Nat2Z.id in Hr2.
    apply wpp_write_size_. intros s3 Hw3 _. by rewrite Hrun, Hw3.
  - intros e s2 Hr2. rewrite Nat2Z.id in Hr2. by rewrite Hrun.
Qed.

End LifetimeOutcome.

Section VectorsKept.

Context {T W E A : Type} (el : ElemType T W E A) (al : Allocator W E).

Abbreviation state := (@state T W E).
Abbreviation Mach := (M state E).

Implicit Types (s : state) (p q : ptr) (b : nat) (cells : list (slot T)).

(** ** Computations that write no vector and allocate nothing *)

(** [keeps m]: whether [m] returns or throws, the vectors and the blocks
    of the heap are those before. *)
Local Abbreviation keeps m :=
  (∀ s, wpp m s (fun _ s' => kept s s') (fun _ s' => kept s s')).

Lemma kept_refl s : kept s s.
Proof. done. Qed.

Lemma kept_trans s1 s2 s3 : kept s1 s2 → kept s2 s3 → kept s1 s3.
Proof. intros [Ho1 Hd1] [Ho2 Hd2]. split; congruence. Qed.

Lemma kept_set_cell p c s : kept s (set_cell p c s).
Proof.
  split; [apply objs_set_cell|]. unfold set_cell.
  destruct (blk p) as [b|]; [|done]. destruct (heap s !! b) as [cells|] eqn:Hb; [|done].
  simpl. apply dom_insert_lookup_L. by rewrite Hb.
Qed.

Lemma keeps_ret {R} (r : R) : keeps (mret r : Mach R).
Proof. done. Qed.

Lemma keeps_bind {R R'} (m : Mach R) (k : R -> Mach R') :
  keeps m → (∀ r, keeps (k r)) → keeps (m ≫= k).
Proof.
  intros Hm Hk s. apply wpp_bind. eapply wpp_mono; [apply Hm| |done].
  intros r s1 H1.
  eapply wpp_mono; [apply Hk| |]; intros ? s2 H2; simpl in *; by eapply kept_trans.
Qed.

Lemma keeps_load p : keeps (load p).
Proof. intros s. by apply wpp_load. Qed.

Lemma keeps_store p v : keeps (store p v).
Proof. intros s. apply wpp_store, kept_set_cell. Qed.

Lemma keeps_raw p : keeps (raw p).
Proof. intros s. by apply wpp_raw. Qed.

Lemma keeps_occupy p v : keeps (occupy p v).
Proof. intros s. apply wpp_occupy, kept_set_cell. Qed.

Lemma keeps_vacate p : keeps (vacate p).
Proof. intros s. apply wpp_vacate, kept_set_cell. Qed.

Lemma keeps_in_world {R} (f : W -> W * R) : keeps (in_world f).
Proof. intros s. by apply wpp_in_world. Qed.

Lemma keeps_emit ev : keeps (emit ev).
Proof. intros s. by apply wpp_emit. Qed.

Lemma keeps_raise {R} e : keeps (raise e : Mach R).
Proof. intros s. by apply wpp_raise. Qed.

Lemma keeps_obj this : keeps (obj this).
Proof. intros s. by apply wpp_obj. Qed.

Lemma keeps_finish {R} ev (r : outcome E R) : keeps (finish ev r).
Proof.
  destruct r as [v|e]; simpl; [|apply keeps_raise].
  apply keeps_bind; [apply keeps_emit|]. intros _. apply keeps_ret.
Qed.

Lemma keeps_finish_assign ev (r : option E) : keeps (finish_assign ev r).
Proof. destruct r as [e|]; simpl; [apply keeps_raise|apply keeps_emit]. Qed.

Lemma keeps_copy_assign_at dst src : keeps (copy_assign_at el dst src).
Proof.
  unfold copy_assign_at.
  apply keeps_bind; [apply keeps_load|intros d].
  apply keeps_bind; [apply keeps_load|intros x].
  apply keeps_bind; [apply keeps_in_world|intros r].
  apply keeps_bind; [apply keeps_store|intros _].
  apply keeps_finish_assign.
Qed.

Lemma keeps_copy_construct_at dst src : keeps (copy_construct_at el dst src).
Proof.
  unfold copy_construct_at.
  apply keeps_bind; [apply keeps_load|intros x].
  apply keeps_bind; [apply keeps_raw|intros _].
  apply keeps_bind; [apply keeps_in_world|intros r].
  apply keeps_bind; [apply keeps_finish|intros v].
  apply keeps_occupy.
Qed.

Lemma keeps_destroy_at p : keeps (destroy_at el p).
Proof.
  unfold destroy_at.
  apply keeps_bind; [apply keeps_load|intros x].
  apply keeps_bind; [apply keeps_in_world|intros _].
  apply keeps_bind; [apply keeps_vacate|intros _].
  apply keeps_emit.
Qed.

Lemma keeps_destroy_loop n : ∀ p, keeps (destroy_loop el p n).
Proof.
  induction n as [|n IH]; intros p; simpl; [apply keeps_ret|].
  apply keeps_bind; [apply keeps_destroy_at|]. intros _. apply IH.
Qed.

Lemma keeps_forward_loop (step : ptr -> ptr -> Mach unit) n :
  (∀ d f, keeps (step d f)) → ∀ first d, keeps (forward_loop step first n d).
Proof.
  intros Hstep. induction n as [|n IH]; intros first d; simpl; [apply keeps_ret|].
  apply keeps_bind; [apply Hstep|]. intros _. apply IH.
Qed.

Lemma uninitialized_loop_kept (step : ptr -> ptr -> Mach unit) n :
  (∀ d f, keeps (step d f)) →
  ∀ first cur s,
    match uninitialized_loop step first n cur s with
    | (_, Ok _ s') => kept s s'
    | (_, Throw _ s') => kept s s'
    | (_, Undefined) => True
    end.
Proof.
  intros Hstep. induction n as [|n IH]; intros first cur s; simpl; [done|].
  pose proof (Hstep cur first s) as H1. unfold wpp in H1.
  destruct (step cur first s) as [[] s1|e s1|]; [|done|done].
  specialize (IH (first +ₚ 1) (cur +ₚ 1) s1).
  destruct (uninitialized_loop step (first +ₚ 1) n (cur +ₚ 1) s1) as [c [[] s'|e s'|]];
    [| |done]; by eapply kept_trans.
Qed.

Lemma keeps_uninitialized (step : ptr -> ptr -> Mach unit) first n d :
  (∀ d f, keeps (step d f)) → keeps (uninitialized el step first n d).
Proof.
  intros Hstep s. unfold wpp, uninitialized.
  pose proof (uninitialized_loop_kept step (Z.to_nat n) Hstep first d s) as H.
  destruct (uninitialized_loop step first (Z.to_nat n) d s) as [cur [[] s1|e s1|]];
    [done| |done].
  unfold mbind, M_bind, bind.
  pose proof (keeps_destroy_loop (Z.to_nat (ptr_diff cur d)) d s1) as Hd.
  unfold wpp in Hd. unfold destroy_range.
  destruct (destroy_loop el _ _ s1) as [[] s2|e2 s2|]; simpl; [| |done];
    by eapply kept_trans.
Qed.

Lemma keeps_Size this : keeps (Size this).
Proof. unfold Size. apply keeps_bind; [apply keeps_obj|]. intros v. apply keeps_ret. Qed.

Lemma keeps_begin_ this : keeps (begin_ this).
Proof. unfold begin_. apply keeps_bind; [apply keeps_obj|]. intros v. apply keeps_ret. Qed.

Lemma keeps_end_ this : keeps (end_ this).
Proof. unfold end_. apply keeps_bind; [apply keeps_obj|]. intros v. apply keeps_ret. Qed.

(** ** Copy assignment within the capacity, when it throws *)

(** Nothing is written to a vector object before the last statement, and
    nothing is allocated or released. *)
Lemma wpp_Vector_copy_assign_fits_kept this rhs s (xs ys : list T) cap capr :
  this ≠ rhs →
  holds el s this xs cap → holds el s rhs ys capr →
  Z.of_nat (length ys) ≤ cap →
  wpp (Vector_copy_assign el al this rhs) s
    (fun _ s' => dom (heap s') = dom (heap s)) (fun _ s' => kept s s').
Proof.
  intros Hne (buf0 & Hobj & _) (bufr & Hobjr & _) Hle.
  unfold Vector_copy_assign. rewrite decide_True by done.
  wpp_pure Size_eq. wpp_pure Capacity_eq. simpl.
  rewrite decide_False by lia.
  apply wpp_bind.
  eapply (wpp_mono _ s (fun _ s' => kept s s') _ (fun _ s' => kept s s')); [| |done].
  2:{ intros [] s1 [_ Hd1]. apply wpp_bind, wpp_Size. intros n.
      apply wpp_write_size_. intros s2 _ Hh2. by rewrite Hh2. }
  revert s Hobj Hobjr. 
  assert (keeps (Size this ≫= λ size, begin_ rhs ≫= λ rhs_begin, begin_ this ≫= λ first,
            if decide (Z.of_nat (length ys) >= size) then
              std_copy el rhs_begin (rhs_begin +ₚ size) first ;;
              end_ this ≫= λ last,
              uninitialized_copy_n el (rhs_begin +ₚ size)
                (wrap (Z.of_nat (length ys) - size)) last
            else
              end_ rhs ≫= λ rhs_end,
              std_copy el rhs_begin rhs_end first ;;
              destroy_n el (first +ₚ Z.of_nat (length ys))
                (wrap (size - Z.of_nat (length ys))))) as Hk.
  { apply keeps_bind; [apply keeps_Size|intros size].
    apply keeps_bind; [apply keeps_begin_|intros rhs_begin].
    apply keeps_bind; [apply keeps_begin_|intros first].
    destruct (decide _).
    - apply keeps_bind; [apply keeps_forward_loop, keeps_copy_assign_at|intros _].
      apply keeps_bind; [apply keeps_end_|intros last].
      apply keeps_uninitialized, keeps_copy_construct_at.
    - apply keeps_bind; [apply keeps_end_|intros rhs_end].
      apply keeps_bind; [apply keeps_forward_loop, keeps_copy_assign_at|intros _].
      apply keeps_destroy_loop. }
  intros s _ _. apply Hk.
Qed.

(** ** An insertion where there is room, when it throws *)

Lemma keeps_throw {R} e : keeps (throw e : Mach R).
Proof. intros s. done. Qed.

Lemma keeps_catch {R} (m : Mach R) (h : Mach unit) :
  keeps m → keeps h → keeps (catch_rethrow m h).
Proof.
  intros Hm Hh s. specialize (Hm s). unfold wpp, catch_rethrow in *.
  destruct (m s) as [r s1|e s1|]; [done| |done].
  specialize (Hh s1). unfold wpp in Hh.
  destruct (h s1) as [[] s2|e2 s2|]; [| |done]; by eapply kept_trans.
Qed.

Lemma keeps_Capacity this : keeps (Capacity this).
Proof. unfold Capacity. apply keeps_bind; [apply keeps_obj|]. intros v. apply keeps_ret. Qed.

Lemma keeps_initialise dst args : keeps (initialise el dst args).
Proof.
  destruct args as [a|x|x]; simpl;
    (apply keeps_bind; [apply keeps_in_world|intros r; apply keeps_finish]).
Qed.

Lemma keeps_construct_at dst args : keeps (construct_at el dst args).
Proof.
  unfold construct_at.
  apply keeps_bind; [apply keeps_raw|intros _].
  apply keeps_bind; [apply keeps_initialise|intros v].
  apply keeps_occupy.
Qed.

Lemma keeps_move_construct_at dst src : keeps (move_construct_at el dst src).
Proof.
  unfold move_construct_at.
  apply keeps_bind; [apply keeps_load|intros x].
  apply keeps_bind; [apply keeps_raw|intros _].
  apply keeps_bind; [apply keeps_in_world|intros r].
  apply keeps_bind; [apply keeps_store|intros _].
  apply keeps_bind; [apply keeps_finish|intros v].
  apply keeps_occupy.
Qed.

Lemma keeps_move_assign_at dst src : keeps (move_assign_at el dst src).
Proof.
  unfold move_assign_at.
  apply keeps_bind; [apply keeps_load|intros d].
  apply keeps_bind; [apply keeps_load|intros x].
  apply keeps_bind; [apply keeps_in_world|intros r].
  apply keeps_bind; [apply keeps_store|intros _].
  apply keeps_bind; [apply keeps_store|intros _].
  apply keeps_finish_assign.
Qed.

Lemma keeps_backward_loop n : ∀ last d_last, keeps (backward_loop el last n d_last).
Proof.
  induction n as [|n IH]; intros last d_last; simpl; [apply keeps_ret|].
  apply keeps_bind; [apply keeps_move_assign_at|]. intros _. apply IH.
Qed.

Lemma keeps_move_assign_from_temp dst temp : keeps (move_assign_from_temp el dst temp).
Proof.
  unfold move_assign_from_temp.
  apply keeps_bind; [apply keeps_load|intros d].
  apply keeps_bind; [apply keeps_in_world|intros r].
  apply keeps_bind; [apply keeps_store|intros _].
  apply keeps_bind; [destruct (snd r); apply keeps_emit|intros _].
  apply keeps_ret.
Qed.

Lemma keeps_destroy_temp temp : keeps (destroy_temp el temp).
Proof.
  unfold destroy_temp.
  apply keeps_bind; [apply keeps_in_world|intros _]. apply keeps_emit.
Qed.

(** Nothing is written to a vector object before the last statements,
    and nothing is allocated or released. *)
Lemma wpp_Emplace_inplace_kept this pos args s (xs : list T) cap :
  holds el s this xs cap →
  Z.of_nat (length xs) + 1 ≤ cap →
  wpp (Emplace el al this pos args) s
    (fun _ s' => dom (heap s') = dom (heap s)) (fun _ s' => kept s s').
Proof.
  intros (buf0 & Hobj & _) Hroom.
  unfold Emplace.
  wpp_pure begin_eq. wpp_pure Capacity_eq. wpp_pure Size_eq. simpl.
  rewrite decide_True by lia.
  apply wpp_bind.
  eapply (wpp_mono _ s (fun _ s' => kept s s') _ (fun _ s' => kept s s')); [| |done].
  2:{ intros [] s1 [_ Hd1]. apply wpp_bind, wpp_Size. intros n.
      apply wpp_bind, wpp_write_size_. intros s2 _ Hh2.
      apply wpp_bind, wpp_begin_. intros p. apply wpp_ret. by rewrite Hh2. }
  revert s Hobj.
  assert (∀ first pos_n, keeps (
            end_ this ≫= λ last,
            if decide (pos ≠ last) then
              initialise el Temp args ≫= λ temp,
              unwinding (destroy_temp el temp)
                (uninitialized_move_n el (last +ₚ (-1)) 1 last ;;
                 std_move_backward el (first +ₚ pos_n) (last +ₚ (-1)) last) ;;
              move_assign_from_temp el (first +ₚ pos_n) temp ≫= λ r,
              destroy_temp el (fst r) ;;
              match snd r with
              | None => mret tt
              | Some e => throw e
              end
            else PlaceBackWithoutRealloc el this args)) as Hk.
  { intros first pos_n.
    apply keeps_bind; [apply keeps_end_|intros last].
    destruct (decide _).
    - apply keeps_bind; [apply keeps_initialise|intros temp].
      apply keeps_bind.
      { apply keeps_catch; [|apply keeps_destroy_temp].
        apply keeps_bind; [apply keeps_uninitialized, keeps_move_construct_at|intros _].
        apply keeps_backward_loop. }
      intros _.
      apply keeps_bind; [apply keeps_move_assign_from_temp|intros r].
      apply keeps_bind; [apply keeps_destroy_temp|intros _].
      destruct (snd r); [apply keeps_throw|apply keeps_ret].
    - unfold PlaceBackWithoutRealloc.
      apply keeps_bind; [apply keeps_Capacity|intros capacity].
      apply keeps_bind; [apply keeps_Size|intros size].
      destruct (decide _); [|apply keeps_ret].
      apply keeps_bind; [apply keeps_end_|intros last'].
      apply keeps_construct_at. }
  intros s _. apply Hk.
Qed.

(** An insertion that throws leaves every vector object as it was,
    whichever path it takes. *)
Lemma wpp_Emplace_kept this args s (xs1 xs2 : list T) cap :
  Sane el al →
  holds el s this (xs1 ++ xs2) cap →
  wpp (Emplace el al this (buffer_at s this +ₚ Z.of_nat (length xs1)) args) s
    (fun _ _ => True) (fun _ s' => objs s' = objs s).
Proof.
  intros HS Hh.
  destruct (decide (Z.of_nat (length (xs1 ++ xs2)) + 1 ≤ cap)) as [Hroom|Hfull].
  - eapply wpp_mono; [by eapply wpp_Emplace_inplace_kept|done|]. by intros e s' [Ho _].
  - assert (cap = Z.of_nat (length (xs1 ++ xs2))) as Hcap.
    { destruct Hh as (? & _ & ? & _). lia. }
    rewrite Hcap in Hh.
    eapply wpp_mono;
      [apply wp_wpp, (wp_Emplace_realloc el al this args s xs1 xs2 _ HS Hh eq_refl)
      |done|].
    by intros e s' (_ & Ho & _).
Qed.

End VectorsKept.

(** * The claims, with the outcome of each call *)

Section Outcomes.

Context {T W E A : Type} (el : ElemType T W E A) (al : Allocator W E).

Abbreviation state := (@state T W E).
Abbreviation Mach := (M state E).

Implicit Types (s : state) (p q : ptr) (b : nat) (cells : list (slot T)).

(** ** Runs in which a copy fails *)

Lemma reserve_run_copy_raises n (xs : list T) cap (w w1 : W) e :
  moving el = false → cap < n →
  try_new al (n * sizeof el) w = Returns w1 →
  try_copy el xs w1 = Raises e →
  reserve_run el al n xs cap w = Raises e.
Proof.
  intros Hm Hlt Hn Hc. unfold reserve_run. rewrite decide_False by lia.
  rewrite Hn. run_simpl. rewrite (try_transfer_copy el) by done. by rewrite Hc.
Qed.

Lemma realloc_run_copy_raises n args (xs : list T) (w w1 : W) e :
  moving el = false →
  try_new al (n * sizeof el) w = Returns w1 →
  (r ← try_init el args w1; try_copy el xs (fst r)) = Raises e →
  realloc_run el al n args xs w = Raises e.
Proof.
  intros Hm Hn Hc. unfold realloc_run. rewrite Hn. run_simpl.
  destruct (try_init el args w1) as [[w2 v]|e']; run_simpl; run_simpl in Hc; [|done].
  rewrite (try_transfer_copy el) by done. by rewrite Hc.
Qed.

(** A request that is granted is of a size that fits a [size_t]. *)
Lemma try_new_fits bytes (w w1 : W) :
  Sane el al → try_new al bytes w = Returns w1 → bytes < SIZE_MOD.
Proof.
  intros HS H. unfold try_new in H.
  destruct (snd (sys_new al bytes w)) eqn:Hg; [|done].
  pose proof (new_bound _ _ HS _ _ Hg). rewrite SIZE_MOD_eq, PTRDIFF_MAX_eq in *. lia.
Qed.

Lemma raises_inj {R} (e e' : E) : @Raises E R e' = Raises e → e' = e.
Proof. by intros [= ->]. Qed.

(** ** A reallocation that fails *)

(** Whatever raises in a reallocation that transfers by copy, the heap
    and the vectors are as before, and the log shows the new block rolled
    back. *)
Lemma realloc_failure_unchanged this s (xs : list T) cap :
  Sane el al → moving el = false →
  view el s this = Some (xs, cap) →
  let len := Z.of_nat (length xs) in
  let unchanged := fun (e : E) (s' : state) =>
    view el s' this = Some (xs, cap) ∧ heap s' = heap s ∧ objs s' = objs s ∧
    ∃ evs, log s' = log s ++ evs ∧ rolled_back e evs in
  (∀ n, cap < n → n * sizeof el < SIZE_MOD →
     wp (Reserve el al this n) s
       (fun _ s' => reserve_run el al n xs cap (world s) = Returns (world s'))
       (fun e s' => reserve_run el al n xs cap (world s) = Raises e ∧ unchanged e s')) ∧
  (∀ args, cap < len + 1 →
     wp (EmplaceBack el al this args) s
       (fun _ s' => realloc_run el al (grown len) args xs (world s) = Returns (world s'))
       (fun e s' =>
          realloc_run el al (grown len) args xs (world s) = Raises e ∧ unchanged e s')) ∧
  (∀ (n : nat) args, (n ≤ length xs)%nat → cap ≤ len →
     wp (Emplace el al this (buffer_at s this +ₚ Z.of_nat n) args) s
       (fun _ s' => realloc_run el al (grown len) args xs (world s) = Returns (world s'))
       (fun e s' =>
          realloc_run el al (grown len) args xs (world s) = Raises e ∧ unchanged e s')).
Proof.
  intros HS Hcopy Hv len unchanged.
  pose proof (view_holds _ _ _ _ _ Hv) as Hh.
  assert (∀ e s', env_raises el al e ∧ objs s' = objs s ∧
            (∃ evs, log s' = log s ++ evs ∧ rolled_back e evs ∧
                    transfers_by (ev_transfer el) evs) ∧
            (moving el = false → heap s' = heap s) → unchanged e s') as Hun.
  { intros e s' (He & Ho & (evs & Hl & Hrb & _) & Hheap).
    specialize (Hheap Hcopy). split; [|by eauto 10].
    rewrite <- Hv. by apply unchanged_view. }
  split; [|split].
  - intros n Hlt Hfit.
    eapply wp_mono;
      [exact (wp_and_wpp _ _ _ _ _ _
                (wp_Reserve_realloc el al this n s xs cap _ HS Hh Hlt Hfit eq_refl)
                (wpp_Reserve el al this n s xs cap HS Hh (fun _ => Hfit)))
      | |].
    + by intros [] s' [_ Hrun].
    + intros e s' [Hx Hrun]. split; [done|]. by apply Hun.
  - intros args Hfull.
    assert (cap ≤ len) as Hfull' by lia.
    pose proof (view_full_holds _ _ _ _ _ Hv Hfull') as Hfl.
    eapply wp_mono;
      [exact (wp_and_wpp _ _ _ _ _ _
                (wp_EmplaceBack_realloc el al this args s xs _ HS Hfl eq_refl)
                (wpp_EmplaceBack el al this args s xs cap HS Hh))
      | |].
    + intros p s' [_ Hrun]. unfold emplace_back_run in Hrun.
      by rewrite decide_False in Hrun by (fold len; lia).
    + intros e s' [Hx Hrun]. unfold emplace_back_run in Hrun.
      rewrite decide_False in Hrun by (fold len; lia). split; [done|]. by apply Hun.
  - intros n args Hn Hfull.
    pose proof (view_full_holds _ _ _ _ _ Hv Hfull) as Hfl.
    rewrite <- (take_drop n xs) in Hfl.
    pose proof (wp_Emplace_realloc el al this args s (take n xs) (drop n xs)
                  (fresh (dom (heap s))) HS Hfl eq_refl) as Hwp.
    pose proof (wpp_Emplace_realloc el al this args s (take n xs) (drop n xs) HS Hfl)
      as Hwpp.
    rewrite length_take, Nat.min_l, take_drop in Hwp, Hwpp by done.
    eapply wp_mono; [exact (wp_and_wpp _ _ _ _ _ _ Hwp Hwpp)| |].
    + by intros p s' [_ Hrun].
    + intros e s' [Hx Hrun]. split; [done|]. by apply Hun.
Qed.

(** C1: strong exception guarantee of a reallocation that transfers by
    copy (the element type is copyable and its move may throw).  Take a
    reallocating [Reserve], [EmplaceBack], [Emplace] or [Insert] for which
    the allocation of the new block succeeds and a copy construction then
    throws [e]: the copy of one of the old elements, or the construction of
    the new element, which for [Insert] is a copy too.  The call does not
    return: it throws, and what it throws is [e].  The vector then reads
    as before (same elements, size and capacity; indeed the whole heap and
    every vector object are as before), and the log of the call shows every
    object constructed in the new block destroyed again and the block
    deleted. *)
Theorem reallocation_strong_guarantee this s (xs : list T) cap :
  Sane el al → moving el = false →
  view el s this = Some (xs, cap) →
  let len := Z.of_nat (length xs) in
  let unchanged := fun (e : E) (s' : state) =>
    view el s' this = Some (xs, cap) ∧ heap s' = heap s ∧ objs s' = objs s ∧
    ∃ evs, log s' = log s ++ evs ∧ rolled_back e evs in
  (∀ n w1 e, cap < n →
     try_new al (n * sizeof el) (world s) = Returns w1 →
     try_copy el xs w1 = Raises e →
     wp (Reserve el al this n) s
       (fun _ _ => False) (fun e' s' => e' = e ∧ unchanged e s')) ∧
  (∀ args w1 e, cap < len + 1 →
     try_new al (grown len * sizeof el) (world s) = Returns w1 →
     (r ← try_init el args w1; try_copy el xs (fst r)) = Raises e →
     wp (EmplaceBack el al this args) s
       (fun _ _ => False) (fun e' s' => e' = e ∧ unchanged e s')) ∧
  (∀ (n : nat) args w1 e, (n ≤ length xs)%nat → cap ≤ len →
     try_new al (grown len * sizeof el) (world s) = Returns w1 →
     (r ← try_init el args w1; try_copy el xs (fst r)) = Raises e →
     wp (Emplace el al this (buffer_at s this +ₚ Z.of_nat n) args) s
       (fun _ _ => False) (fun e' s' => e' = e ∧ unchanged e s')) ∧
  (∀ (n : nat) value w1 e, (n ≤ length xs)%nat → cap ≤ len →
     try_new al (grown len * sizeof el) (world s) = Returns w1 →
     (r ← try_init el (InitCopy value) w1; try_copy el xs (fst r)) = Raises e →
     wp (Insert el al this (buffer_at s this +ₚ Z.of_nat n) value) s
       (fun _ _ => False) (fun e' s' => e' = e ∧ unchanged e s')).
Proof.
  intros HS Hcopy Hv len unchanged.
  destruct (realloc_failure_unchanged this s xs cap HS Hcopy Hv) as (HR & HB & HE).
  fold len in HB, HE.
  assert (∀ (n : nat) args w1 e, (n ≤ length xs)%nat → cap ≤ len →
     try_new al (grown len * sizeof el) (world s) = Returns w1 →
     (r ← try_init el args w1; try_copy el xs (fst r)) = Raises e →
     wp (Emplace el al this (buffer_at s this +ₚ Z.of_nat n) args) s
       (fun _ _ => False) (fun e' s' => e' = e ∧ unchanged e s')) as Hemplace.
  { intros n args w1 e Hn Hfull Hnew Hc.
    pose proof (realloc_run_copy_raises _ _ _ _ _ _ Hcopy Hnew Hc) as Hrun.
    eapply wp_mono; [exact (HE n args Hn Hfull)| |].
    - intros p s' Hr. by rewrite Hrun in Hr.
    - intros e' s' [Hr Hun]. rewrite Hrun in Hr. apply raises_inj in Hr as <-. done. }
  split; [|split; [|split]].
  - intros n w1 e Hlt Hnew Hc.
    pose proof (try_new_fits _ _ _ HS Hnew) as Hfit.
    pose proof (reserve_run_copy_raises _ _ _ _ _ _ Hcopy Hlt Hnew Hc) as Hrun.
    eapply wp_mono; [exact (HR n Hlt Hfit)| |].
    + intros [] s' Hr. by rewrite Hrun in Hr.
    + intros e' s' [Hr Hun]. rewrite Hrun in Hr. apply raises_inj in Hr as <-. done.
  - intros args w1 e Hfull Hnew Hc.
    pose proof (realloc_run_copy_raises _ _ _ _ _ _ Hcopy Hnew Hc) as Hrun.
    eapply wp_mono; [exact (HB args Hfull)| |].
    + intros p s' Hr. by rewrite Hrun in Hr.
    + intros e' s' [Hr Hun]. rewrite Hrun in Hr. apply raises_inj in Hr as <-. done.
  - exact Hemplace.
  - intros n value. apply Hemplace.
Qed.

(** C2: [PushBack] appends.  A call returns or throws as the
    environment has it ([emplace_back_run]: the copy of the value alone
    where there is room, a reallocation otherwise), and when it returns the
    vector holds what it held followed by the pushed value, so its size is
    one more, within its capacity; when it throws, the vector object, its
    size included, is as before.  The calls for a list of values return
    exactly when none of them fails ([push_run]), and the vector then holds
    what it held followed by the values in the order pushed.
    [EmplaceBack] returns the address of the last element, which is the
    one it constructed. *)
Theorem push_back_appends this s (xs : list T) cap :
  Sane el al → Regular el →
  view el s this = Some (xs, cap) →
  let len := Z.of_nat (length xs) in
  (∀ value,
     wp (PushBack el al this value) s
       (fun _ s' =>
          (∃ cap', view el s' this = Some (xs ++ [value], cap') ∧
                   Z.of_nat (length (xs ++ [value])) = len + 1 ∧ len + 1 ≤ cap') ∧
          emplace_back_run el al (InitCopy value) xs cap (world s) = Returns (world s'))
       (fun e s' =>
          emplace_back_run el al (InitCopy value) xs cap (world s) = Raises e ∧
          objs s' = objs s)) ∧
  (∀ vs,
     wp (push_all el al this vs) s
       (fun _ s' =>
          (∃ cap', view el s' this = Some (xs ++ vs, cap') ∧
                   Z.of_nat (length (xs ++ vs)) ≤ cap') ∧
          push_run el al vs xs cap (world s) = Returns (world s'))
       (fun e _ => push_run el al vs xs cap (world s) = Raises e)) ∧
  (∀ args,
     wp (EmplaceBack el al this args) s
       (fun p s' =>
          (∃ v cap', init_value el args v ∧
             view el s' this = Some (xs ++ [v], cap') ∧
             p = buffer_at s' this +ₚ len ∧ cell s' p = Some (Some v)) ∧
          emplace_back_run el al args xs cap (world s) = Returns (world s'))
       (fun e s' =>
          emplace_back_run el al args xs cap (world s) = Raises e ∧ objs s' = objs s)).
Proof.
  intros HS Hreg Hv len. apply view_holds in Hv.
  split; [|split].
  - intros value.
    eapply wp_mono;
      [exact (wp_and_wpp _ _ _ _ _ _ (wp_PushBack el al this value s xs cap HS Hreg Hv)
                (wpp_PushBack el al this value s xs cap HS Hv))
      | |by intros e s' [(_ & ? & _) ?]].
    intros [] s' [Hh' Hrun]. split; [|done]. eexists. split; [by apply holds_view|].
    rewrite length_app. simpl. unfold len. split; [lia|].
    destruct Hh' as (? & _ & Hle & _). rewrite length_app in Hle. simpl in Hle. lia.
  - intros vs.
    eapply wp_mono; [by apply (wp_push_all_run el al)| |by intros e s' [? _]].
    intros [] s' [(cap' & Hh' & _) Hrun]. split; [|done].
    exists cap'. split; [by apply holds_view|].
    by destruct Hh' as (? & _ & Hle & _).
  - intros args.
    eapply wp_mono;
      [exact (wp_and_wpp _ _ _ _ _ _ (wp_EmplaceBack el al this args s xs cap HS Hreg Hv)
                (wpp_EmplaceBack el al this args s xs cap HS Hv))
      | |by intros e s' [(_ & ? & _) ?]].
    intros p s' [(v & Hiv & Hh' & Hp & Hc) Hrun]. split; [|done]. exists v. eexists.
    split; [done|]. split; [by apply holds_view|]. done.
Qed.

(** C4: growth.  A call of [EmplaceBack], [PushBack] or [Emplace] that
    finds no room runs as a reallocation to [max 1 (2 * size)] slots
    ([realloc_run]: that many slots are asked of the allocator), and when
    it returns the capacity is [max 1 (2 * size)]; when it throws, the
    vector object, its capacity included, is as before.  A list of pushes
    returns exactly when none of them fails ([push_run]); the capacities
    read after each push are then those of [caps_after], which never
    decrease, from the capacity before on; when a push throws, the
    capacity the vector is left with is at least the one before the
    pushes.  When the vector starts
    without capacity (it is then empty), the capacity read after the
    [i]-th push is the least power of two that is at least [i] (1, 2, 4,
    4, 8, ...): it is [2 ^ k] after [2 ^ k] pushes and doubles with the
    next one. *)
Theorem growth_doubles this s (xs : list T) cap :
  Sane el al → Regular el →
  view el s this = Some (xs, cap) →
  let len := Z.of_nat (length xs) in
  let grows := fun (args : init T A) (s' : state) =>
    (∃ ys, view el s' this = Some (ys, Z.max 1 (len * 2))) ∧
    realloc_run el al (Z.max 1 (len * 2)) args xs (world s) = Returns (world s') in
  let fails := fun (args : init T A) (e : E) (s' : state) =>
    realloc_run el al (Z.max 1 (len * 2)) args xs (world s) = Raises e ∧
    objs s' = objs s in
  (∀ args, cap < len + 1 →
     wp (EmplaceBack el al this args) s (fun _ => grows args) (fails args)) ∧
  (∀ value, cap < len + 1 →
     wp (PushBack el al this value) s
       (fun _ => grows (InitCopy value)) (fails (InitCopy value))) ∧
  (∀ (n : nat) args, (n ≤ length xs)%nat → cap < len + 1 →
     wp (Emplace el al this (buffer_at s this +ₚ Z.of_nat n) args) s
       (fun _ => grows args) (fails args)) ∧
  (∀ vs,
     wp (push_all el al this vs) s
       (fun _ s' =>
          (∃ ys cap', view el s' this = Some (ys, cap') ∧ cap ≤ cap') ∧
          push_run el al vs xs cap (world s) = Returns (world s'))
       (fun e s' =>
          push_run el al vs xs cap (world s) = Raises e ∧
          ∃ v, objs s' !! this = Some v ∧ cap ≤ capacity_ (data_ v))) ∧
  (∀ vs,
     wp (push_caps el al this vs) s
       (fun caps s' =>
          caps = caps_after (length vs) len cap ∧
          (∀ i j c c', (i ≤ j)%nat →
             (cap :: caps) !! i = Some c → (cap :: caps) !! j = Some c' → c ≤ c') ∧
          (cap = 0 → caps = (fun i => pow2cap (Z.of_nat i)) <$> seq 1 (length vs)) ∧
          push_run el al vs xs cap (world s) = Returns (world s'))
       (fun e s' =>
          push_run el al vs xs cap (world s) = Raises e ∧
          ∃ v, objs s' !! this = Some v ∧ cap ≤ capacity_ (data_ v))) ∧
  (∀ k, 0 ≤ k → pow2cap (2 ^ k) = 2 ^ k ∧ pow2cap (2 ^ k + 1) = 2 ^ (k + 1)).
Proof.
  intros HS Hreg Hv len grows fails.
  pose proof (view_holds _ _ _ _ _ Hv) as Hh.
  pose proof Hh as (_ & _ & Hle & _). fold len in Hle.
  assert (grown len = Z.max 1 (len * 2)) as Hgrown by (apply grown_max; lia).
  assert (∀ args, cap < len + 1 →
     wp (EmplaceBack el al this args) s (fun _ => grows args) (fails args)) as Hback.
  { intros args Hfull.
    assert (cap ≤ len) as Hfull' by lia.
    pose proof (view_full_holds _ _ _ _ _ Hv Hfull') as Hfl.
    eapply wp_mono;
      [exact (wp_and_wpp _ _ _ _ _ _
                (wp_EmplaceBack_realloc el al this args s xs _ HS Hfl eq_refl)
                (wpp_EmplaceBack el al this args s xs cap HS Hh))
      | |].
    - intros p s' [(v & ys & _ & _ & _ & _ & _ & _ & Hh' & _) Hrun].
      unfold emplace_back_run in Hrun.
      rewrite decide_False in Hrun by (fold len; lia). fold len in Hrun, Hh'.
      rewrite Hgrown in Hrun, Hh'. split; [|done]. eexists. by apply holds_view.
    - intros e s' [(_ & Ho & _) Hrun]. unfold emplace_back_run in Hrun.
      rewrite decide_False in Hrun by (fold len; lia). fold len in Hrun.
      rewrite Hgrown in Hrun. done. }
  split; [done|]. split; [|split; [|split; [|split]]].
  - intros value Hfull. unfold PushBack. apply wp_bind.
    eapply wp_mono; [exact (Hback (InitCopy value) Hfull)| |done].
    intros p s' H. by apply wp_ret.
  - intros n args Hn Hfull.
    assert (cap ≤ len) as Hfull' by lia.
    pose proof (view_full_holds _ _ _ _ _ Hv Hfull') as Hfl.
    rewrite <- (take_drop n xs) in Hfl.
    pose proof (wp_Emplace_realloc el al this args s (take n xs) (drop n xs)
                  (fresh (dom (heap s))) HS Hfl eq_refl) as Hwp.
    pose proof (wpp_Emplace_realloc el al this args s (take n xs) (drop n xs) HS Hfl)
      as Hwpp.
    rewrite length_take, Nat.min_l, take_drop in Hwp, Hwpp by done.
    fold len in Hwp, Hwpp. rewrite Hgrown in Hwp, Hwpp.
    eapply wp_mono; [exact (wp_and_wpp _ _ _ _ _ _ Hwp Hwpp)| |].
    + intros p s' [(v & ys1 & ys2 & _ & _ & _ & _ & _ & _ & _ & Hh' & _) Hrun].
      split; [|done]. eexists. by apply holds_view.
    + by intros e s' [(_ & Ho & _) Hrun].
  - intros vs.
    eapply wp_mono; [by apply (wp_push_all_run el al)| |done].
    intros [] s' [(cap' & Hh' & Hge) Hrun]. split; [|done].
    exists (xs ++ vs), cap'. split; [by apply holds_view|done].
  - intros vs.
    eapply wp_mono; [by apply (wp_push_caps_run el al)| |done].
    intros caps s' (-> & _ & Hrun). fold len.
    split; [done|]. split; [|split; [|done]].
    + apply caps_after_mono. lia.
    + intros ->. assert (len = 0) as -> by lia.
      change 0 with (pow2cap 0) at 2. by rewrite caps_after_pow2.
  - apply pow2cap_pow2.
Qed.

(** C5: copy assignment from another vector whose elements fit in the
    capacity.  The call returns or throws as the copy assignments and the
    copy constructions have it ([copy_assign_run], in which no allocation
    is asked for), and when it returns the buffer and the capacity are the
    same and the log of the call has no allocation: it is
    [min size rhs.size] copy assignments onto the first elements, followed
    by the copy constructions of the remaining [rhs.size - size] elements
    of [rhs] in the raw slots after them when [rhs.size >= size], and by
    the destruction of the trailing [size - rhs.size] elements otherwise.
    Afterwards the vector holds what [rhs] holds, which is unchanged.
    Whether the call returns or throws, the heap has the blocks it had:
    nothing was allocated or released; and when it throws, every vector
    object, with its buffer and its capacity, is as before.  The two
    vectors are taken to own different blocks, as two live vectors do. *)
Theorem copy_assign_within_capacity this rhs s (xs ys : list T) cap capr :
  Sane el al → Regular el →
  this ≠ rhs →
  view el s this = Some (xs, cap) → view el s rhs = Some (ys, capr) →
  Z.of_nat (length ys) ≤ cap →
  buffer_at s this = nullptr ∨ buffer_at s this ≠ buffer_at s rhs →
  let dst := buffer_at s this in
  let src := buffer_at s rhs in
  let n := length xs in
  let m := length ys in
  wp (Vector_copy_assign el al this rhs) s
    (fun _ s' =>
       view el s' this = Some (ys, cap) ∧ view el s' rhs = Some (ys, capr) ∧
       buffer_at s' this = dst ∧
       log s' = log s
         ++ (if decide (n ≤ m)%nat then
               ev_forward EvCopyAssign dst src n
               ++ ev_forward EvCopyConstruct
                    (dst +ₚ Z.of_nat n) (src +ₚ Z.of_nat n) (m - n)
             else
               ev_forward EvCopyAssign dst src m
               ++ ev_destroy (dst +ₚ Z.of_nat m) (n - m)) ∧
       dom (heap s') = dom (heap s) ∧
       copy_assign_run el xs ys (world s) = Returns (world s'))
    (fun e s' =>
       copy_assign_run el xs ys (world s) = Raises e ∧
       objs s' = objs s ∧ dom (heap s') = dom (heap s)).
Proof.
  intros HS Hreg Hne Hv Hvr Hle Hsep dst src n m.
  apply view_holds in Hv, Hvr.
  eapply wp_mono;
    [exact (wp_and_wpp _ _ _ _ _ _
              (wp_and_wpp _ _ _ _ _ _
                 (wp_Vector_copy_assign_holds el al this rhs s xs ys cap capr
                    HS Hreg Hne Hv Hvr Hle Hsep)
                 (wpp_Vector_copy_assign_fits el al this rhs s xs ys cap capr
                    HS Hreg Hne Hv Hvr Hle Hsep))
              (wpp_Vector_copy_assign_fits_kept el al this rhs s xs ys cap capr
                 Hne Hv Hvr Hle))
    | |].
  - intros [] s' [[(Ht & Hr & Hb & Hl) Hrun] Hd].
    by repeat split; try apply holds_view.
  - by intros e s' [[_ Hrun] [Ho Hd]].
Qed.

(** C6: insertion at a position.  [Emplace] and [Insert] at the position
    after the elements [xs1], anywhere from [begin()] to [end()], return or
    throw as the environment has it ([emplace_run]: where there is room,
    the construction of the new element, the move of the last element one
    slot up, the shift of the others and the assignment into the gap;
    otherwise a reallocation).  When they return the vector holds [xs1],
    the new element, and the elements [xs2] that followed, in their order:
    the size is one more, and the iterator returned is that of the new
    element.  When they throw, the vector object (buffer, size and
    capacity) is as before. *)
Theorem insert_at_position this s (xs1 xs2 : list T) cap :
  Sane el al → Regular el →
  view el s this = Some (xs1 ++ xs2, cap) →
  let pos := buffer_at s this +ₚ Z.of_nat (length xs1) in
  let inserted := fun (v : T) (p : ptr) (s' : state) =>
    ∃ cap', view el s' this = Some (xs1 ++ v :: xs2, cap') ∧
      Z.of_nat (length (xs1 ++ v :: xs2)) = Z.of_nat (length (xs1 ++ xs2)) + 1 ∧
      p = buffer_at s' this +ₚ Z.of_nat (length xs1) ∧
      cell s' p = Some (Some v) in
  let run := fun (args : init T A) => emplace_run el al args xs1 xs2 cap (world s) in
  (∀ args,
     wp (Emplace el al this pos args) s
       (fun p s' => (∃ v, init_value el args v ∧ inserted v p s') ∧
                    run args = Returns (world s'))
       (fun e s' => run args = Raises e ∧ objs s' = objs s)) ∧
  (∀ value,
     wp (Insert el al this pos value) s
       (fun p s' => inserted value p s' ∧ run (InitCopy value) = Returns (world s'))
       (fun e s' => run (InitCopy value) = Raises e ∧ objs s' = objs s)) ∧
  (∀ value,
     wp (Insert_rvalue el al this pos value) s
       (fun p s' => inserted value p s' ∧ run (InitMove value) = Returns (world s'))
       (fun e s' => run (InitMove value) = Raises e ∧ objs s' = objs s)).
Proof.
  intros HS Hreg Hv pos inserted run. apply view_holds in Hv.
  assert (∀ args,
     wp (Emplace el al this pos args) s
       (fun p s' => (∃ v, init_value el args v ∧ inserted v p s') ∧
                    run args = Returns (world s'))
       (fun e s' => run args = Raises e ∧ objs s' = objs s)) as Hemplace.
  { intros args.
    eapply wp_mono;
      [exact (wp_and_wpp _ _ _ _ _ _
                (wp_and_wpp _ _ _ _ _ _
                   (wp_Emplace el al this args s xs1 xs2 cap HS Hreg Hv)
                   (wpp_Emplace el al this args s xs1 xs2 cap HS Hreg Hv))
                (wpp_Emplace_kept el al this args s xs1 xs2 cap HS Hv))
      | |by intros e s' [[_ ?] ?]].
    intros p s' [[(v & Hiv & Hh' & ->) Hrun] _]. split; [|done]. exists v. split; [done|].
    eexists. split; [by apply holds_view|]. split; [|split; [done|]].
    - rewrite !length_app. simpl. lia.
    - eapply holds_buffer_at; [exact Hh'|]. by apply list_lookup_middle. }
  split; [done|]. split; intros value.
  - unfold Insert. eapply wp_mono; [apply Hemplace| |done].
    intros p s' [(v & Hiv & Hins) Hrun]. split; [|done].
    by apply (init_value_regular el _ _ Hreg) in Hiv as ->.
  - unfold Insert_rvalue. eapply wp_mono; [apply Hemplace| |done].
    intros p s' [(v & Hiv & Hins) Hrun]. split; [|done].
    by apply (init_value_regular el _ _ Hreg) in Hiv as ->.
Qed.

(** C9: moving a vector.  Move construction and move assignment always
    return, and they leave the source without elements and without
    capacity; this is so for any source and destination, one and the same
    vector included.  The object move-constructed, a new object and so at
    a location other than the source's, holds what the source held, with
    its capacity; so does the destination of a move assignment, source and
    destination being two vectors.  No element is constructed, assigned or
    destroyed. *)
Theorem move_takes_over rhs s (xs : list T) cap :
  view el s rhs = Some (xs, cap) →
  wp (Vector_move_ctor (E:=E) rhs) s
    (fun v s' =>
       view el s' rhs = Some ([], 0) ∧
       (∀ this, this ≠ rhs → view el (with_obj this v s') this = Some (xs, cap)) ∧
       log s' = log s)
    (fun _ _ => False) ∧
  (∀ this, is_Some (objs s !! this) →
     wp (Vector_move_assign (E:=E) this rhs) s
       (fun _ s' =>
          view el s' rhs = Some ([], 0) ∧
          (this ≠ rhs → view el s' this = Some (xs, cap)) ∧
          log s' = log s)
       (fun _ _ => False)).
Proof.
  intros Hv.
  destruct (objs s !! rhs) as [vr|] eqn:Hr; [|by unfold view in Hv; rewrite Hr in Hv].
  split.
  - eapply wp_rewrite; [by apply Vector_move_ctor_eq|]. cbv beta iota.
    split; [|split; [|done]].
    + apply view_default. apply lookup_insert_eq.
    + intros this Hne. rewrite <- Hv. apply view_ext; [|done]. simpl.
      by rewrite lookup_insert_eq.
  - intros this [vt Ht].
    destruct (decide (this = rhs)) as [->|Hne].
    + eapply wp_rewrite; [by eapply Vector_move_assign_self|]. cbv beta iota.
      split; [|split; [done|done]].
      apply view_default. apply lookup_insert_eq.
    + eapply wp_rewrite; [by eapply Vector_move_assign_distinct|]. cbv beta iota.
      split; [|split; [|done]].
      * apply view_default. apply lookup_insert_eq.
      * intros _. rewrite <- Hv. apply view_ext; [|done]. simpl.
        by rewrite lookup_insert_ne, lookup_insert_eq.
Qed.

End Outcomes.

(** * Further properties, with the outcome of each call *)

Section FurtherOutcomes.

Context {T W E A : Type} (el : ElemType T W E A) (al : Allocator W E).

Abbreviation state := (@state T W E).
Abbreviation Mach := (M state E).

Implicit Types (s : state) (p q : ptr) (b : nat) (cells : list (slot T)).

(** ** Pushing where there is room *)

(** Where there is room for them all, the pushes amount to the copy
    constructions of the values: nothing is asked of the allocator. *)
Lemma push_run_room (vs xs : list T) cap (w : W) :
  Z.of_nat (length xs) + Z.of_nat (length vs) ≤ cap →
  push_run el al vs xs cap w = try_copy el vs w.
Proof.
  revert xs w. induction vs as [|v vs IH]; intros xs w Hroom; [done|].
  simpl in Hroom. cbn [push_run try_copy]. unfold emplace_back_run, cap_after_push.
  rewrite !decide_True by lia. cbn [try_init].
  destruct (snd (copy_ctor el v w)); run_simpl; [|done].
  apply IH. rewrite length_app. simpl. lia.
Qed.

Lemma wp_push_all_room_run this vs : ∀ s (xs : list T) cap,
  Sane el al → Regular el →
  holds el s this xs cap →
  Z.of_nat (length xs) + Z.of_nat (length vs) ≤ cap →
  wp (push_all el al this vs) s
    (fun _ s' =>
       holds el s' this (xs ++ vs) cap ∧
       buffer_at s' this = buffer_at s this ∧
       log s' = log s
         ++ ev_push (buffer_at s this +ₚ Z.of_nat (length xs)) (length vs) ∧
       try_copy el vs (world s) = Returns (world s'))
    (fun e s' =>
       try_copy el vs (world s) = Raises e ∧
       buffer_at s' this = buffer_at s this ∧
       ∃ k, (k < length vs)%nat ∧ holds el s' this (xs ++ take k vs) cap).
Proof.
  induction vs as [|v vs IH]; intros s xs cap HS Hreg Hh Hroom.
  - apply wp_ret. by rewrite !app_nil_r.
  - simpl in Hroom. cbn [push_all try_copy length]. apply wp_bind.
    unfold PushBack. apply wp_bind.
    pose proof (wp_and_wpp _ _ _ _ _ _
                  (wp_EmplaceBack_inplace el al this (InitCopy v) s xs cap HS Hh
                     ltac:(lia))
                  (wpp_EmplaceBack el al this (InitCopy v) s xs cap HS Hh)) as Hstep.
    unfold emplace_back_run in Hstep. rewrite decide_True in Hstep by lia.
    cbn [try_init] in Hstep.
    eapply wp_mono; [exact Hstep| |].
    + intros p s1 [(v' & bo & Hv & Hbuf & -> & Hh1 & Ho1 & Hholds & Hl1) Hrun1].
      apply (init_value_regular el _ _ Hreg) in Hv as ->.
      apply wp_ret. simpl.
      destruct (snd (copy_ctor el v (world s))) as [y|e0]; run_simpl in Hrun1; [|done].
      injection Hrun1 as Hw1. rewrite Hw1.
      assert (buffer_at s1 this = buffer_at s this) as Hb1
        by (unfold buffer_at at 1; by rewrite Ho1, lookup_insert_eq).
      eapply wp_mono; [eapply (IH s1 (xs ++ [v]) cap); [done|done|done|]| |].
      { rewrite length_app. simpl. lia. }
      * intros [] s2 (Hh2 & Hb2 & Hl2 & Hrun2).
        rewrite <- app_assoc in Hh2. split; [done|]. split; [by rewrite Hb2|].
        split; [|done].
        rewrite Hl2, Hl1, Hb1, Hbuf, <- app_assoc, length_app. simpl.
        rewrite !at_add, !Nat2Z.id by lia. simpl.
        done.
      * intros e s2 (Hrun2 & Hb2 & k & Hk & Hh2).
        split; [done|]. split; [by rewrite Hb2|].
        exists (S k). split; [lia|]. by rewrite <- app_assoc in Hh2.
    + intros e s1 [(_ & Hh1 & Ho1 & _) Hrun1].
      destruct (snd (copy_ctor el v (world s))) as [y|e0]; run_simpl in Hrun1; [done|].
      split; [by rewrite Hrun1|].
      split; [unfold buffer_at; by rewrite Ho1|].
      exists 0%nat. split; [lia|]. rewrite take_0, app_nil_r.
      eapply holds_frame; [exact Hh|by rewrite Ho1|]. intros b0 _. by rewrite Hh1.
Qed.

(** X1: [Reserve] returns or throws as the environment has it
    ([reserve_run]: nothing where the capacity asked for is not above the
    one there is; otherwise the allocation and the transfer of the
    elements).  When it returns it has kept the elements and the size, and
    the capacity is the larger of the old one and the one asked for; asked
    for no more than the capacity, it returns and leaves the whole state
    as it is.  When it throws, the vector object (buffer, size and
    capacity) is as before, and where the transfer is by copy the vector
    still holds what it held.  A capacity above the one there is is taken
    to have a size in bytes that fits a [size_t]. *)
Theorem Reserve_keeps_elements this new_capacity s (xs : list T) cap :
  Sane el al → Regular el →
  view el s this = Some (xs, cap) →
  (cap < new_capacity → new_capacity * sizeof el < SIZE_MOD) →
  let run := reserve_run el al new_capacity xs cap (world s) in
  wp (Reserve el al this new_capacity) s
    (fun _ s' =>
       view el s' this = Some (xs, Z.max cap new_capacity) ∧
       (new_capacity ≤ cap → s' = s) ∧
       run = Returns (world s'))
    (fun e s' =>
       run = Raises e ∧ cap < new_capacity ∧ objs s' = objs s ∧
       (moving el = false → view el s' this = Some (xs, cap))).
Proof.
  intros HS Hreg Hv Hfit run. pose proof (view_holds _ _ _ _ _ Hv) as Hh.
  destruct (decide (new_capacity ≤ cap)) as [Hle|Hgt].
  - eapply wp_rewrite; [by eapply Reserve_noop|]. cbv beta iota.
    rewrite Z.max_l by done. split; [done|]. split; [done|].
    unfold run, reserve_run. by rewrite decide_True.
  - eapply wp_mono;
      [exact (wp_and_wpp _ _ _ _ _ _
                (wp_Reserve el al this new_capacity s xs cap HS Hreg Hh Hfit)
                (wpp_Reserve el al this new_capacity s xs cap HS Hh Hfit))
      | |].
    + intros [] s' [[Hh' _] Hrun]. split; [by apply holds_view|]. split; [lia|done].
    + intros e s' [(He & Ho & Hheap) Hrun]. split; [done|]. split; [lia|].
      split; [done|]. intros Hcopy.
      rewrite <- Hv. apply view_ext; [by rewrite Ho|by apply Hheap].
Qed.

(** X2: pushing within the capacity never reallocates.  The calls
    return or throw as the copy constructions of the values have it
    ([try_copy]: nothing is asked of the allocator).  When they return,
    the buffer and the capacity are the same and the log of the calls is
    one copy construction per value, from the caller's object into the
    next free slot.  When one of them throws, the buffer and the capacity
    are the same too, and the vector holds what it held followed by the
    values pushed before. *)
Theorem push_within_capacity this vs s (xs : list T) cap :
  Sane el al → Regular el →
  view el s this = Some (xs, cap) →
  Z.of_nat (length xs) + Z.of_nat (length vs) ≤ cap →
  wp (push_all el al this vs) s
    (fun _ s' =>
       view el s' this = Some (xs ++ vs, cap) ∧
       buffer_at s' this = buffer_at s this ∧
       log s' = log s
         ++ ev_push (buffer_at s this +ₚ Z.of_nat (length xs)) (length vs) ∧
       try_copy el vs (world s) = Returns (world s'))
    (fun e s' =>
       try_copy el vs (world s) = Raises e ∧
       buffer_at s' this = buffer_at s this ∧
       ∃ k, (k < length vs)%nat ∧ view el s' this = Some (xs ++ take k vs, cap)).
Proof.
  intros HS Hreg Hv Hroom. apply view_holds in Hv.
  eapply wp_mono; [by eapply wp_push_all_room_run| |].
  - intros [] s' (Hh' & Hb & Hl & Hrun). split; [by apply holds_view|done].
  - intros e s' (Hrun & Hb & k & Hk & Hh'). split; [done|]. split; [done|].
    exists k. split; [done|]. by apply holds_view.
Qed.

(** X3: after [Reserve(n)], pushing values up to the size [n] leaves
    [begin()] where it was after the reservation, and the capacity the one
    reserved.  The calls return or throw as the reservation and then the
    copy constructions of the values have it: nothing more is asked of the
    allocator.  A capacity above the one there is is taken to have a size
    in bytes that fits a [size_t]. *)
Theorem Reserve_then_push_stable this n vs s (xs : list T) cap :
  Sane el al → Regular el →
  view el s this = Some (xs, cap) →
  Z.of_nat (length xs) + Z.of_nat (length vs) ≤ n →
  (cap < n → n * sizeof el < SIZE_MOD) →
  let run := w1 ← reserve_run el al n xs cap (world s); try_copy el vs w1 in
  wp (Reserve el al this n ;;
      first ← begin_ this;
      push_all el al this vs ;;
      first' ← begin_ this;
      capacity ← Capacity this;
      mret (first, first', capacity)) s
    (fun r s' =>
       r.1.1 = r.1.2 ∧ r.2 = Z.max cap n ∧
       view el s' this = Some (xs ++ vs, Z.max cap n) ∧
       run = Returns (world s'))
    (fun e _ => run = Raises e).
Proof.
  intros HS Hreg Hv Hroom Hfit run. apply view_holds in Hv.
  apply wp_bind.
  eapply wp_mono;
    [exact (wp_and_wpp _ _ _ _ _ _
              (wp_Reserve el al this n s xs cap HS Hreg Hv Hfit)
              (wpp_Reserve el al this n s xs cap HS Hv Hfit))
    | |].
  2:{ intros e s' [_ Hrun]. unfold run. by rewrite Hrun. }
  intros [] s1 [[Hh1 _] Hrun1]. pose proof Hh1 as (buf1 & Hobj1 & _).
  unfold run. rewrite Hrun1. run_simpl.
  wp_pure begin_eq. apply wp_bind.
  eapply wp_mono;
    [eapply (wp_push_all_room_run this vs s1 xs); [done|done|done|lia]| |by intros e s' [? _]].
  intros [] s2 (Hh2 & Hb2 & _ & Hrun2). pose proof Hh2 as (buf2 & Hobj2 & _).
  wp_pure begin_eq. wp_pure Capacity_eq. apply wp_ret. simpl.
  unfold buffer_at in Hb2. rewrite Hobj1, Hobj2 in Hb2. simpl in Hb2.
  split; [done|]. split; [done|]. split; [by apply holds_view|done].
Qed.

(** X4: the copy constructor.  It returns or throws as the environment
    has it ([copy_ctor_run]: for an empty source nothing at all, so nothing
    is allocated and the call returns; otherwise the allocation and the
    copy constructions, first to last).  When it returns, the new vector
    holds the elements of the source, in order, with a capacity equal to
    their number, and the source is unchanged; for an empty source the
    whole state is as it was.  When it throws, the heap and the vectors
    are as before: every copy made is destroyed and the block is
    released. *)
Theorem copy_ctor_copies other s (xs : list T) cap :
  Sane el al → Regular el →
  view el s other = Some (xs, cap) →
  let len := Z.of_nat (length xs) in
  let run := copy_ctor_run el al xs (world s) in
  wp (Vector_copy_ctor el al other) s
    (fun v s' =>
       (∀ this, objs s !! this = None →
          view el (with_obj this v s') this = Some (xs, len) ∧
          view el (with_obj this v s') other = Some (xs, cap)) ∧
       (xs = [] → s' = s) ∧
       run = Returns (world s'))
    (fun e s' =>
       run = Raises e ∧ xs ≠ [] ∧ heap s' = heap s ∧ objs s' = objs s ∧
       ∃ evs, log s' = log s ++ evs ∧ rolled_back e evs).
Proof.
  intros HS Hreg Hv len run. pose proof (view_holds _ _ _ _ _ Hv) as Hh.
  pose proof Hh as (bufo & Hobjo & Hleno & Hfitso & Hoffo & Howno).
  destruct (decide (xs = [])) as [->|Hne].
  - eapply wp_rewrite; [by eapply Vector_copy_ctor_empty|]. cbv beta iota.
    split; [|done]. intros this Hfree. split.
    + apply view_default. apply lookup_insert_eq.
    + rewrite <- Hv. apply view_ext; [|done]. simpl.
      rewrite lookup_insert_ne; [done|]. intros ->. by rewrite Hobjo in Hfree.
  - eapply wp_mono;
      [exact (wp_and_wpp _ _ _ _ _ _
                (wp_Vector_copy_ctor el al other s xs cap _ HS Hreg Hh Hne eq_refl)
                (wpp_Vector_copy_ctor el al other s xs cap HS Hh))
      | |].
    2:{ by intros e s' [(_ & ? & ? & ?) ?]. }
    intros v s' [(-> & Hfresh & Hh' & Ho' & Hl') Hrun]. split; [|done].
    intros this Hfree.
    assert (this ≠ other) as Hto by (intros ->; by rewrite Hobjo in Hfree).
    split; apply holds_view.
    + eapply holds_intro; simpl.
      * apply lookup_insert_eq.
      * done.
      * lia.
      * pose proof (sizeof_pos _ _ HS). unfold len. nia.
      * split; [done|]. simpl. unfold len. rewrite Hh', lookup_insert_eq.
        by rewrite cells_of_full.
    + eapply holds_frame; [exact Hh| |].
      * simpl. by rewrite lookup_insert_ne, Ho'.
      * intros b0 Hb0. simpl. rewrite Hh', lookup_insert_ne; [done|].
        intros <-. by rewrite (holds_block _ _ _ _ _ _ Hh Hb0) in Hfresh.
Qed.

(** X6: copy assignment from a vector with more elements than the
    capacity.  It returns or throws as the environment has it
    ([copy_assign_realloc_run]: the allocation, the copy constructions,
    then the destruction of the old elements).  When it returns, the
    elements have been copied into a new block of exactly that many slots,
    the old elements are destroyed and their block is released; [rhs] is
    unchanged.  When the allocation or a copy throws, nothing has happened
    to either vector: the heap and the vectors are as before. *)
Theorem copy_assign_beyond_capacity this rhs s (xs ys : list T) cap capr :
  Sane el al → Regular el →
  this ≠ rhs →
  view el s this = Some (xs, cap) → view el s rhs = Some (ys, capr) →
  cap < Z.of_nat (length ys) →
  let len := Z.of_nat (length ys) in
  let old := buffer_at s this in
  let run := copy_assign_realloc_run el al xs ys (world s) in
  wp (Vector_copy_assign el al this rhs) s
    (fun _ s' =>
       view el s' this = Some (ys, len) ∧ view el s' rhs = Some (ys, capr) ∧
       (∀ b, blk old = Some b → heap s' !! b = None) ∧
       (∃ b, buffer_at s' this = at_ b 0 ∧ heap s !! b = None ∧
          log s' = log s
            ++ EvNew b (len * sizeof el)
            :: ev_forward EvCopyConstruct (at_ b 0) (buffer_at s rhs) (length ys)
            ++ ev_destroy old (length xs)
            ++ ev_release old) ∧
       run = Returns (world s'))
    (fun e s' =>
       run = Raises e ∧ heap s' = heap s ∧ objs s' = objs s ∧
       view el s' this = Some (xs, cap) ∧ view el s' rhs = Some (ys, capr)).
Proof.
  intros HS Hreg Hne Hv Hvr Hlt len old run. subst len old.
  pose proof (view_holds _ _ _ _ _ Hv) as Hh.
  pose proof (view_holds _ _ _ _ _ Hvr) as Hhr.
  eapply wp_mono;
    [exact (wp_and_wpp _ _ _ _ _ _
              (wp_Vector_copy_assign_realloc el al this rhs s xs ys cap capr _
                 HS Hreg Hne Hh Hhr Hlt eq_refl)
              (wpp_Vector_copy_assign_realloc el al this rhs s xs ys cap capr
                 HS Hreg Hne Hh Hhr Hlt))
    | |].
  - intros [] s' [(Hfresh & Hh' & Ho' & Hl') Hrun].
    pose proof Hhr as (_ & _ & Hlenr & Hfitsr & _).
    pose proof (sizeof_pos _ _ HS) as Hsz.
    split; [|split; [|split; [|split; [|done]]]].
    + apply holds_view. eapply holds_intro; simpl.
      * rewrite Ho'. apply lookup_insert_eq.
      * done.
      * lia.
      * nia.
      * split; [done|]. simpl. rewrite Hh', lookup_insert_eq. by rewrite cells_of_full.
    + apply holds_view. eapply holds_frame; [exact Hhr| |].
      * by rewrite Ho', lookup_insert_ne.
      * intros b0 Hb0. pose proof (holds_block _ _ _ _ _ _ Hhr Hb0) as Hbr.
        rewrite Hh', lookup_insert_ne by (intros <-; by rewrite Hbr in Hfresh).
        unfold released. destruct (blk (buffer_at s this)) as [bt|] eqn:Hbt; [|done].
        rewrite lookup_delete_ne; [done|]. intros <-.
        pose proof (holds_block _ _ _ _ _ _ Hh Hbt) as Hbt'. rewrite Hbr in Hbt'.
        injection Hbt' as Heq. apply (f_equal length) in Heq. unfold cells_of in Heq.
        rewrite !length_app, !length_replicate, !length_fmap in Heq.
        pose proof Hh as (_ & _ & Hlent & _). lia.
    + intros b0 Hb0. rewrite Hh'. unfold released. rewrite Hb0.
      rewrite lookup_insert_ne, lookup_delete_eq; [done|].
      intros <-. by rewrite (holds_block _ _ _ _ _ _ Hh Hb0) in Hfresh.
    + eexists. split; [|split; [exact Hfresh|exact Hl']].
      unfold buffer_at. by rewrite Ho', lookup_insert_eq.
  - intros e s' [(He & Hh' & Ho' & _) Hrun]. split; [done|]. split; [done|].
    split; [done|].
    split; [rewrite <- Hv|rewrite <- Hvr]; apply view_ext; by rewrite ?Ho'.
Qed.

(** X12: [PushBack] returns or throws as the environment has it
    ([emplace_back_run]), and when it returns the vector holds what it
    held followed by the value.  When it throws, the vector object
    (buffer, size and capacity) is as before; where there was room, or
    where reallocation transfers by copy, it has the strong guarantee: the
    heap is as before too, and the vector holds what it held. *)
Theorem PushBack_strong_guarantee this value s (xs : list T) cap :
  Sane el al → Regular el →
  view el s this = Some (xs, cap) →
  let run := emplace_back_run el al (InitCopy value) xs cap (world s) in
  wp (PushBack el al this value) s
    (fun _ s' =>
       (∃ cap', view el s' this = Some (xs ++ [value], cap')) ∧
       run = Returns (world s'))
    (fun e s' =>
       run = Raises e ∧ objs s' = objs s ∧
       (Z.of_nat (length xs) + 1 ≤ cap ∨ moving el = false →
        heap s' = heap s ∧ view el s' this = Some (xs, cap))).
Proof.
  intros HS Hreg Hv run. pose proof (view_holds _ _ _ _ _ Hv) as Hh.
  assert (∀ s', heap s' = heap s → objs s' = objs s →
            heap s' = heap s ∧ view el s' this = Some (xs, cap)) as Hsame.
  { intros s' Hh' Ho'. split; [done|].
    rewrite <- Hv. apply view_ext; by rewrite ?Ho'. }
  destruct (decide (Z.of_nat (length xs) + 1 ≤ cap)) as [Hroom|Hfull].
  - unfold PushBack. apply wp_bind.
    eapply wp_mono;
      [exact (wp_and_wpp _ _ _ _ _ _
                (wp_EmplaceBack_inplace el al this (InitCopy value) s xs cap HS Hh Hroom)
                (wpp_EmplaceBack el al this (InitCopy value) s xs cap HS Hh))
      | |].
    + intros p s' [(v & bo & Hiv & _ & _ & _ & _ & Hh' & _) Hrun]. apply wp_ret.
      apply (init_value_regular el _ _ Hreg) in Hiv as ->. split; [|done].
      eexists. by apply holds_view.
    + intros e s' [(He & Hh' & Ho' & _) Hrun]. split; [done|]. split; [done|].
      intros _. by apply Hsame.
  - eapply wp_mono;
      [exact (wp_and_wpp _ _ _ _ _ _
                (wp_PushBack el al this value s xs cap HS Hreg Hh)
                (wpp_PushBack el al this value s xs cap HS Hh))
      | |].
    + intros [] s' [Hh' Hrun]. split; [|done]. eexists. by apply holds_view.
    + intros e s' [(He & Ho' & Hheap) Hrun]. split; [done|]. split; [done|].
      intros [?|Hcopy]; [lia|]. apply Hsame; [by apply Hheap|done].
Qed.

(** X15: [Resize] to a larger size returns or throws as the
    environment has it ([resize_run]: the reservation, then one
    construction without arguments per new element).  When it returns it
    has kept the elements and appended value-initialised ones up to the
    new size, and the capacity is the larger of the old one and the new
    size.  A size above the capacity is taken to have a size in bytes that
    fits a [size_t]. *)
Theorem Resize_grows noargs this (n : nat) s (xs : list T) cap :
  Sane el al → Regular el →
  view el s this = Some (xs, cap) →
  (length xs < n)%nat →
  (cap < Z.of_nat n → Z.of_nat n * sizeof el < SIZE_MOD) →
  let run := resize_run el al noargs n xs cap (world s) in
  wp (Resize el al noargs this (Z.of_nat n)) s
    (fun _ s' =>
       (∃ vs, length vs = (n - length xs)%nat ∧
          Forall (init_value el (InitArgs noargs)) vs ∧
          view el s' this = Some (xs ++ vs, Z.max cap (Z.of_nat n))) ∧
       run = Returns (world s'))
    (fun e _ => run = Raises e).
Proof.
  intros HS Hreg Hv Hn Hfit run. apply view_holds in Hv.
  eapply wp_mono;
    [exact (wp_and_wpp _ _ _ _ _ _
              (wp_Resize_grow el al noargs this n s xs cap HS Hreg Hv Hn Hfit)
              (wpp_Resize_grow el al noargs this n s xs cap HS Hreg Hv Hn Hfit))
    | |by intros e s' [_ ?]].
  intros [] s' [(vs & Hl & Hvs & Hh') Hrun]. split; [|done].
  exists vs. split; [done|]. split; [done|].
  by apply holds_view.
Qed.

(** X16: the constructor from a size, the size taken to be one whose
    size in bytes fits a [size_t].  It returns or throws as the
    environment has it ([size_ctor_run]: for the size 0 nothing at all;
    otherwise the allocation and one construction without arguments per
    element).  When it returns, the new vector holds that many
    value-initialised elements, with a capacity equal to the size; for the
    size 0 the whole state is as it was.  When the allocation or a
    constructor throws, the heap and the vectors are as before. *)
Theorem size_ctor_fills noargs size s :
  Sane el al → 0 ≤ size → size * sizeof el < SIZE_MOD →
  let run := size_ctor_run el al noargs size (world s) in
  wp (Vector_size_ctor el al noargs size) s
    (fun v s' =>
       (∃ vs, Z.of_nat (length vs) = size ∧
          Forall (init_value el (InitArgs noargs)) vs ∧
          (∀ this, objs s !! this = None →
             view el (with_obj this v s') this = Some (vs, size)) ∧
          (size = 0 → s' = s)) ∧
       run = Returns (world s'))
    (fun e s' =>
       run = Raises e ∧ size ≠ 0 ∧ heap s' = heap s ∧ objs s' = objs s ∧
       ∃ evs, log s' = log s ++ evs ∧ rolled_back e evs).
Proof.
  intros HS Hpos Hfit run.
  destruct (decide (size = 0)) as [->|Hne].
  - eapply wp_rewrite; [apply Vector_size_ctor_zero|]. cbv beta iota.
    split; [|done].
    exists []. split; [done|]. split; [constructor|]. split; [|done].
    intros this _. apply view_default. apply lookup_insert_eq.
  - eapply wp_mono;
      [exact (wp_and_wpp _ _ _ _ _ _
                (wp_Vector_size_ctor el al noargs size s _ HS ltac:(lia) Hfit eq_refl)
                (wpp_Vector_size_ctor el al noargs size s HS Hpos Hfit))
      | |].
    2:{ by intros e s' [(_ & ? & ? & ?) ?]. }
    intros v s' [(vs & Hlen & Hvs & -> & Hfresh & Hbytes & Hh' & Ho' & Hl') Hrun].
    split; [|done].
    exists vs. split; [lia|]. split; [done|]. split; [|lia].
    intros this _. apply holds_view. eapply holds_intro; simpl.
    + apply lookup_insert_eq.
    + lia.
    + lia.
    + done.
    + split; [done|]. simpl. rewrite Hh', lookup_insert_eq. f_equal.
      unfold cells_of. rewrite Hlen, Nat.sub_diag. by rewrite app_nil_r.
Qed.

(** X18: [PushBack] of an rvalue returns or throws as the environment
    has it ([emplace_back_run] for a move construction of the new
    element).  A call that returns has appended the value by one move
    construction from the caller's object into the new last slot; where
    reallocation moves the elements, the log of such a call has no copy
    construction and no copy assignment. *)
Theorem PushBack_rvalue_moves this value s (xs : list T) cap :
  Sane el al → Regular el →
  view el s this = Some (xs, cap) →
  let run := emplace_back_run el al (InitMove value) xs cap (world s) in
  wp (PushBack_rvalue el al this value) s
    (fun _ s' =>
       (∃ cap' evs, view el s' this = Some (xs ++ [value], cap') ∧
          log s' = log s ++ evs ∧
          EvMoveConstruct (Slot (buffer_at s' this +ₚ Z.of_nat (length xs))) Caller ∈ evs ∧
          (moving el = true → copies_nothing evs = true)) ∧
       run = Returns (world s'))
    (fun e _ => run = Raises e).
Proof.
  intros HS Hreg Hv run. pose proof (view_holds _ _ _ _ _ Hv) as Hh.
  unfold PushBack_rvalue. apply wp_bind.
  destruct (decide (Z.of_nat (length xs) + 1 ≤ cap)) as [Hroom|Hfull].
  - eapply wp_mono;
      [exact (wp_and_wpp _ _ _ _ _ _
                (wp_EmplaceBack_inplace el al this (InitMove value) s xs cap HS Hh Hroom)
                (wpp_EmplaceBack el al this (InitMove value) s xs cap HS Hh))
      | |by intros e s' [_ ?]].
    intros p s' [(v & bo & Hiv & Hbuf & -> & _ & Ho' & Hh' & Hl') Hrun]. apply wp_ret.
    apply (init_value_regular el _ _ Hreg) in Hiv as ->. split; [|done].
    eexists _, _. split; [by apply holds_view|]. split; [exact Hl'|]. split; [|done].
    unfold buffer_at. rewrite Ho', lookup_insert_eq. simpl. rewrite Hbuf.
    rewrite at_add, Nat2Z.id by lia. simpl. set_solver.
  - assert (cap = Z.of_nat (length xs)) as Hcap.
    { destruct Hh as (? & _ & ? & _). lia. }
    pose proof Hh as Hfl. rewrite Hcap in Hfl.
    eapply wp_mono;
      [exact (wp_and_wpp _ _ _ _ _ _
                (wp_EmplaceBack_realloc el al this (InitMove value) s xs _ HS Hfl eq_refl)
                (wpp_EmplaceBack el al this (InitMove value) s xs cap HS Hh))
      | |by intros e s' [_ ?]].
    intros p s' [(v & ys & Hiv & Hys & -> & _ & _ & Ho' & Hh' & Hl') Hrun]. apply wp_ret.
    apply (init_value_regular el _ _ Hreg) in Hiv as ->.
    apply (transferred_regular _ _ _ Hreg) in Hys as ->. split; [|done].
    eexists _, _. split; [by apply holds_view|]. split; [exact Hl'|]. split.
    + unfold buffer_at. rewrite Ho', lookup_insert_eq. simpl.
      rewrite at_add, Nat2Z.id by lia. simpl. set_solver.
    + intros Hm. rewrite !copies_nothing_app, copies_nothing_transfer,
        copies_nothing_destroy, copies_nothing_release by done. done.
Qed.

End FurtherOutcomes.

(** ** The outcomes on the concrete element type *)

Example Demo_reserve_run_fails :
  reserve_run Demo.copying Demo.alloc 5 [10; 20] 2 0%nat = Raises Demo.CopyFailed ∧
  reserve_run Demo.plain Demo.alloc 5 [10; 20] 2 0%nat = Returns 0%nat.
Proof. vm_compute. done. Qed.

Lemma reallocation_strong_guarantee_witness :
  wp (Reserve Demo.copying Demo.alloc 0 5) Demo.full
    (fun _ _ => False)
    (fun e' s' =>
       e' = Demo.CopyFailed ∧
       view Demo.copying s' 0 = Some ([10; 20], 2) ∧
       heap s' = heap Demo.full ∧ objs s' = objs Demo.full ∧
       ∃ evs, log s' = log Demo.full ++ evs ∧ rolled_back Demo.CopyFailed evs).
Proof.
  apply (proj1 (reallocation_strong_guarantee Demo.copying Demo.alloc 0 Demo.full
                  [10; 20] 2 (Demo_sane _ _ _) eq_refl Demo_view_full)
           5 0%nat Demo.CopyFailed).
  - lia.
  - vm_compute. reflexivity.
  - vm_compute. reflexivity.
Defined.

Lemma push_back_appends_witness :
  wp (push_all Demo.plain Demo.alloc 0 [10; 20; 30]) Demo.empty
    (fun _ s' =>
       (∃ cap', view Demo.plain s' 0 = Some ([] ++ [10; 20; 30], cap') ∧
                Z.of_nat (length ([] ++ [10; 20; 30])) ≤ cap') ∧
       push_run Demo.plain Demo.alloc [10; 20; 30] [] 0 (world Demo.empty)
       = Returns (world s'))
    (fun e _ =>
       push_run Demo.plain Demo.alloc [10; 20; 30] [] 0 (world Demo.empty) = Raises e).
Proof.
  apply (proj1 (proj2 (push_back_appends Demo.plain Demo.alloc 0 Demo.empty [] 0
                         (Demo_sane _ _ _) (Demo_regular _ _ _) eq_refl))).
Defined.

Lemma growth_doubles_witness :
  wp (push_caps Demo.plain Demo.alloc 0 [1; 2; 3; 4; 5]) Demo.empty
    (fun caps s' =>
       caps = caps_after 5 0 0 ∧
       (∀ i j c c', (i ≤ j)%nat →
          (0 :: caps) !! i = Some c → (0 :: caps) !! j = Some c' → c ≤ c') ∧
       (0 = 0 → caps = (fun i => pow2cap (Z.of_nat i)) <$> seq 1 5) ∧
       push_run Demo.plain Demo.alloc [1; 2; 3; 4; 5] [] 0 (world Demo.empty)
       = Returns (world s'))
    (fun e s' =>
       push_run Demo.plain Demo.alloc [1; 2; 3; 4; 5] [] 0 (world Demo.empty) = Raises e ∧
       ∃ v, objs s' !! 0%nat = Some v ∧ 0 ≤ capacity_ (data_ v)).
Proof.
  apply (proj1 (proj2 (proj2 (proj2 (proj2
           (growth_doubles Demo.plain Demo.alloc 0 Demo.empty [] 0
              (Demo_sane _ _ _) (Demo_regular _ _ _) eq_refl)))))).
Defined.

Lemma copy_assign_within_capacity_witness :
  wp (Vector_copy_assign Demo.plain Demo.alloc 0 1) Demo.roomy
    (fun _ s' =>
       view Demo.plain s' 0 = Some ([7; 8; 9], 4) ∧
       view Demo.plain s' 1 = Some ([7; 8; 9], 3) ∧
       buffer_at s' 0 = at_ 1 0 ∧
       log s' = [EvCopyAssign (Slot (at_ 1 0)) (Slot (at_ 2 0));
                 EvCopyAssign (Slot (at_ 1 1)) (Slot (at_ 2 1));
                 EvCopyConstruct (Slot (at_ 1 2)) (Slot (at_ 2 2))] ∧
       dom (heap s') = dom (heap Demo.roomy) ∧
       copy_assign_run Demo.plain [10; 20] [7; 8; 9] (world Demo.roomy)
       = Returns (world s'))
    (fun e s' =>
       copy_assign_run Demo.plain [10; 20] [7; 8; 9] (world Demo.roomy) = Raises e ∧
       objs s' = objs Demo.roomy ∧ dom (heap s') = dom (heap Demo.roomy)).
Proof.
  apply (copy_assign_within_capacity Demo.plain Demo.alloc 0 1 Demo.roomy
           [10; 20] [7; 8; 9] 4 3 (Demo_sane _ _ _) (Demo_regular _ _ _)).
  - lia.
  - vm_compute. reflexivity.
  - vm_compute. reflexivity.
  - simpl. lia.
  - right. vm_compute. discriminate.
Defined.

Lemma insert_at_position_witness :
  wp (Insert Demo.plain Demo.alloc 0 (buffer_at Demo.roomy 0 +ₚ 1) 15) Demo.roomy
    (fun p s' =>
       (∃ cap', view Demo.plain s' 0 = Some ([10] ++ 15 :: [20], cap') ∧
          Z.of_nat (length ([10] ++ 15 :: [20])) = Z.of_nat (length ([10] ++ [20])) + 1 ∧
          p = buffer_at s' 0 +ₚ 1 ∧ cell s' p = Some (Some 15)) ∧
       emplace_run Demo.plain Demo.alloc (InitCopy 15) [10] [20] 4 (world Demo.roomy)
       = Returns (world s'))
    (fun e s' =>
       emplace_run Demo.plain Demo.alloc (InitCopy 15) [10] [20] 4 (world Demo.roomy)
       = Raises e ∧
       objs s' = objs Demo.roomy).
Proof.
  apply (proj1 (proj2 (insert_at_position Demo.plain Demo.alloc 0 Demo.roomy [10] [20] 4
                         (Demo_sane _ _ _) (Demo_regular _ _ _)
                         ltac:(vm_compute; reflexivity)))).
Defined.

Lemma move_takes_over_witness :
  wp (Vector_move_assign 0 1) Demo.roomy
    (fun _ s' =>
       view Demo.plain s' 1 = Some ([], 0) ∧
       (0%nat ≠ 1%nat → view Demo.plain s' 0 = Some ([7; 8; 9], 3)) ∧
       log s' = log Demo.roomy)
    (fun _ _ => False) ∧
  wp (Vector_move_assign 0 0) Demo.roomy
    (fun _ s' =>
       view Demo.plain s' 0 = Some ([], 0) ∧
       (0%nat ≠ 0%nat → view Demo.plain s' 0 = Some ([10; 20], 4)) ∧
       log s' = log Demo.roomy)
    (fun _ _ => False).
Proof.
  split.
  - apply (proj2 (move_takes_over Demo.plain 1 Demo.roomy [7; 8; 9] 3
                    ltac:(vm_compute; reflexivity)) 0%nat).
    vm_compute. eauto.
  - apply (proj2 (move_takes_over Demo.plain 0 Demo.roomy [10; 20] 4
                    ltac:(vm_compute; reflexivity)) 0%nat).
    vm_compute. eauto.
Defined.

Lemma Reserve_keeps_elements_witness :
  wp (Reserve Demo.plain Demo.alloc 0 8) Demo.roomy
    (fun _ s' =>
       view Demo.plain s' 0 = Some ([10; 20], Z.max 4 8) ∧
       (8 ≤ 4 → s' = Demo.roomy) ∧
       reserve_run Demo.plain Demo.alloc 8 [10; 20] 4 (world Demo.roomy)
       = Returns (world s'))
    (fun e s' =>
       reserve_run Demo.plain Demo.alloc 8 [10; 20] 4 (world Demo.roomy) = Raises e ∧
       4 < 8 ∧ objs s' = objs Demo.roomy ∧
       (moving Demo.plain = false → view Demo.plain s' 0 = Some ([10; 20], 4))) ∧
  wp (Reserve Demo.copying Demo.alloc 0 5) Demo.full
    (fun _ s' =>
       view Demo.copying s' 0 = Some ([10; 20], Z.max 2 5) ∧
       (5 ≤ 2 → s' = Demo.full) ∧
       reserve_run Demo.copying Demo.alloc 5 [10; 20] 2 (world Demo.full)
       = Returns (world s'))
    (fun e s' =>
       reserve_run Demo.copying Demo.alloc 5 [10; 20] 2 (world Demo.full) = Raises e ∧
       2 < 5 ∧ objs s' = objs Demo.full ∧
       (moving Demo.copying = false → view Demo.copying s' 0 = Some ([10; 20], 2))).
Proof.
  split.
  - apply (Reserve_keeps_elements Demo.plain Demo.alloc 0 8 Demo.roomy [10; 20] 4
             (Demo_sane _ _ _) (Demo_regular _ _ _)).
    + vm_compute. reflexivity.
    + reflexivity.
  - apply (Reserve_keeps_elements Demo.copying Demo.alloc 0 5 Demo.full [10; 20] 2
             (Demo_sane _ _ _) (Demo_regular _ _ _)).
    + vm_compute. reflexivity.
    + reflexivity.
Defined.

Lemma push_within_capacity_witness :
  wp (push_all Demo.plain Demo.alloc 0 [30; 40]) Demo.roomy
    (fun _ s' =>
       view Demo.plain s' 0 = Some ([10; 20] ++ [30; 40], 4) ∧
       buffer_at s' 0 = buffer_at Demo.roomy 0 ∧
       log s' = log Demo.roomy ++ ev_push (buffer_at Demo.roomy 0 +ₚ 2) 2 ∧
       try_copy Demo.plain [30; 40] (world Demo.roomy) = Returns (world s'))
    (fun e s' =>
       try_copy Demo.plain [30; 40] (world Demo.roomy) = Raises e ∧
       buffer_at s' 0 = buffer_at Demo.roomy 0 ∧
       ∃ k, (k < 2)%nat ∧ view Demo.plain s' 0 = Some ([10; 20] ++ take k [30; 40], 4)) ∧
  wp (push_all Demo.copying Demo.alloc 0 [30; 40]) Demo.roomy
    (fun _ s' =>
       view Demo.copying s' 0 = Some ([10; 20] ++ [30; 40], 4) ∧
       buffer_at s' 0 = buffer_at Demo.roomy 0 ∧
       log s' = log Demo.roomy ++ ev_push (buffer_at Demo.roomy 0 +ₚ 2) 2 ∧
       try_copy Demo.copying [30; 40] (world Demo.roomy) = Returns (world s'))
    (fun e s' =>
       try_copy Demo.copying [30; 40] (world Demo.roomy) = Raises e ∧
       buffer_at s' 0 = buffer_at Demo.roomy 0 ∧
       ∃ k, (k < 2)%nat ∧
         view Demo.copying s' 0 = Some ([10; 20] ++ take k [30; 40], 4)).
Proof.
  split.
  - apply (push_within_capacity Demo.plain Demo.alloc 0 [30; 40] Demo.roomy [10; 20] 4
             (Demo_sane _ _ _) (Demo_regular _ _ _)).
    + vm_compute. reflexivity.
    + simpl. lia.
  - apply (push_within_capacity Demo.copying Demo.alloc 0 [30; 40] Demo.roomy [10; 20] 4
             (Demo_sane _ _ _) (Demo_regular _ _ _)).
    + vm_compute. reflexivity.
    + simpl. lia.
Defined.

Lemma Reserve_then_push_stable_witness :
  wp (Reserve Demo.plain Demo.alloc 0 4 ;;
      first ← begin_ 0;
      push_all Demo.plain Demo.alloc 0 [30; 40] ;;
      first' ← begin_ 0;
      capacity ← Capacity 0;
      mret (first, first', capacity)) Demo.full
    (fun r s' =>
       r.1.1 = r.1.2 ∧ r.2 = Z.max 2 4 ∧
       view Demo.plain s' 0 = Some ([10; 20] ++ [30; 40], Z.max 2 4) ∧
       (w1 ← reserve_run Demo.plain Demo.alloc 4 [10; 20] 2 (world Demo.full);
        try_copy Demo.plain [30; 40] w1) = Returns (world s'))
    (fun e _ =>
       (w1 ← reserve_run Demo.plain Demo.alloc 4 [10; 20] 2 (world Demo.full);
        try_copy Demo.plain [30; 40] w1) = Raises e).
Proof.
  apply (Reserve_then_push_stable Demo.plain Demo.alloc 0 4 [30; 40] Demo.full [10; 20] 2
           (Demo_sane _ _ _) (Demo_regular _ _ _)).
  - vm_compute. reflexivity.
  - simpl. lia.
  - reflexivity.
Defined.

Lemma copy_ctor_copies_witness :
  wp (Vector_copy_ctor Demo.plain Demo.alloc 1) Demo.roomy
    (fun v s' =>
       (∀ this, objs Demo.roomy !! this = None →
          view Demo.plain (with_obj this v s') this = Some ([7; 8; 9], 3) ∧
          view Demo.plain (with_obj this v s') 1 = Some ([7; 8; 9], 3)) ∧
       ([7; 8; 9] = [] → s' = Demo.roomy) ∧
       copy_ctor_run Demo.plain Demo.alloc [7; 8; 9] (world Demo.roomy)
       = Returns (world s'))
    (fun e s' =>
       copy_ctor_run Demo.plain Demo.alloc [7; 8; 9] (world Demo.roomy) = Raises e ∧
       [7; 8; 9] ≠ [] ∧ heap s' = heap Demo.roomy ∧
       objs s' = objs Demo.roomy ∧
       ∃ evs, log s' = log Demo.roomy ++ evs ∧ rolled_back e evs) ∧
  wp (Vector_copy_ctor Demo.plain Demo.alloc 0) Demo.empty
    (fun v s' =>
       (∀ this, objs Demo.empty !! this = None →
          view Demo.plain (with_obj this v s') this = Some ([], 0) ∧
          view Demo.plain (with_obj this v s') 0 = Some ([], 0)) ∧
       (([] : list Z) = [] → s' = Demo.empty) ∧
       copy_ctor_run Demo.plain Demo.alloc [] (world Demo.empty) = Returns (world s'))
    (fun e s' =>
       copy_ctor_run Demo.plain Demo.alloc [] (world Demo.empty) = Raises e ∧
       ([] : list Z) ≠ [] ∧ heap s' = heap Demo.empty ∧
       objs s' = objs Demo.empty ∧
       ∃ evs, log s' = log Demo.empty ++ evs ∧ rolled_back e evs).
Proof.
  split.
  - apply (copy_ctor_copies Demo.plain Demo.alloc 1 Demo.roomy [7; 8; 9] 3
             (Demo_sane _ _ _) (Demo_regular _ _ _)).
    vm_compute. reflexivity.
  - apply (copy_ctor_copies Demo.plain Demo.alloc 0 Demo.empty [] 0
             (Demo_sane _ _ _) (Demo_regular _ _ _)).
    vm_compute. reflexivity.
Defined.

Lemma copy_assign_beyond_capacity_witness :
  wp (Vector_copy_assign Demo.plain Demo.alloc 0 1) Demo2.tight
    (fun _ s' =>
       view Demo.plain s' 0 = Some ([7; 8; 9], 3) ∧
       view Demo.plain s' 1 = Some ([7; 8; 9], 3) ∧
       (∀ b, blk (buffer_at Demo2.tight 0) = Some b → heap s' !! b = None) ∧
       (∃ b, buffer_at s' 0 = at_ b 0 ∧ heap Demo2.tight !! b = None ∧
          log s' = log Demo2.tight
            ++ EvNew b (3 * 4)
            :: ev_forward EvCopyConstruct (at_ b 0) (buffer_at Demo2.tight 1) 3
            ++ ev_destroy (buffer_at Demo2.tight 0) 1
            ++ ev_release (buffer_at Demo2.tight 0)) ∧
       copy_assign_realloc_run Demo.plain Demo.alloc [5] [7; 8; 9] (world Demo2.tight)
       = Returns (world s'))
    (fun e s' =>
       copy_assign_realloc_run Demo.plain Demo.alloc [5] [7; 8; 9] (world Demo2.tight)
       = Raises e ∧
       heap s' = heap Demo2.tight ∧ objs s' = objs Demo2.tight ∧
       view Demo.plain s' 0 = Some ([5], 1) ∧ view Demo.plain s' 1 = Some ([7; 8; 9], 3)).
Proof.
  apply (copy_assign_beyond_capacity Demo.plain Demo.alloc 0 1 Demo2.tight [5] [7; 8; 9] 1 3
           (Demo_sane _ _ _) (Demo_regular _ _ _)).
  - lia.
  - vm_compute. reflexivity.
  - vm_compute. reflexivity.
  - simpl. lia.
Defined.

Lemma PushBack_strong_guarantee_witness :
  wp (PushBack Demo.copying Demo.alloc 0 30) Demo.full
    (fun _ s' =>
       (∃ cap', view Demo.copying s' 0 = Some ([10; 20] ++ [30], cap')) ∧
       emplace_back_run Demo.copying Demo.alloc (InitCopy 30) [10; 20] 2 (world Demo.full)
       = Returns (world s'))
    (fun e s' =>
       emplace_back_run Demo.copying Demo.alloc (InitCopy 30) [10; 20] 2 (world Demo.full)
       = Raises e ∧
       objs s' = objs Demo.full ∧
       (Z.of_nat (length [10; 20]) + 1 ≤ 2 ∨ moving Demo.copying = false →
        heap s' = heap Demo.full ∧ view Demo.copying s' 0 = Some ([10; 20], 2))).
Proof.
  apply (PushBack_strong_guarantee Demo.copying Demo.alloc 0 30 Demo.full [10; 20] 2
           (Demo_sane _ _ _) (Demo_regular _ _ _)).
  vm_compute. reflexivity.
Defined.

Lemma Resize_grows_witness :
  wp (Resize Demo.plain Demo.alloc 0 0 5) Demo.roomy
    (fun _ s' =>
       (∃ vs, length vs = (5 - 2)%nat ∧
          Forall (init_value Demo.plain (InitArgs 0)) vs ∧
          view Demo.plain s' 0 = Some ([10; 20] ++ vs, Z.max 4 5)) ∧
       resize_run Demo.plain Demo.alloc 0 5 [10; 20] 4 (world Demo.roomy)
       = Returns (world s'))
    (fun e _ =>
       resize_run Demo.plain Demo.alloc 0 5 [10; 20] 4 (world Demo.roomy) = Raises e).
Proof.
  apply (Resize_grows Demo.plain Demo.alloc 0 0 5 Demo.roomy [10; 20] 4
           (Demo_sane _ _ _) (Demo_regular _ _ _)).
  - vm_compute. reflexivity.
  - simpl. lia.
  - reflexivity.
Defined.

Lemma size_ctor_fills_witness :
  wp (Vector_size_ctor Demo.plain Demo.alloc 0 3) Demo.empty
    (fun v s' =>
       (∃ vs, Z.of_nat (length vs) = 3 ∧
          Forall (init_value Demo.plain (InitArgs 0)) vs ∧
          (∀ this, objs Demo.empty !! this = None →
             view Demo.plain (with_obj this v s') this = Some (vs, 3)) ∧
          (3 = 0 → s' = Demo.empty)) ∧
       size_ctor_run Demo.plain Demo.alloc 0 3 (world Demo.empty) = Returns (world s'))
    (fun e s' =>
       size_ctor_run Demo.plain Demo.alloc 0 3 (world Demo.empty) = Raises e ∧
       3 ≠ 0 ∧ heap s' = heap Demo.empty ∧
       objs s' = objs Demo.empty ∧
       ∃ evs, log s' = log Demo.empty ++ evs ∧ rolled_back e evs).
Proof.
  apply (size_ctor_fills Demo.plain Demo.alloc 0 3 Demo.empty (Demo_sane _ _ _)).
  - lia.
  - reflexivity.
Defined.

Lemma PushBack_rvalue_moves_witness :
  wp (PushBack_rvalue Demo.plain Demo.alloc 0 30) Demo.full
    (fun _ s' =>
       (∃ cap' evs, view Demo.plain s' 0 = Some ([10; 20] ++ [30], cap') ∧
          log s' = log Demo.full ++ evs ∧
          EvMoveConstruct (Slot (buffer_at s' 0 +ₚ 2)) Caller ∈ evs ∧
          (moving Demo.plain = true → copies_nothing evs = true)) ∧
       emplace_back_run Demo.plain Demo.alloc (InitMove 30) [10; 20] 2 (world Demo.full)
       = Returns (world s'))
    (fun e _ =>
       emplace_back_run Demo.plain Demo.alloc (InitMove 30) [10; 20] 2 (world Demo.full)
       = Raises e).
Proof.
  apply (PushBack_rvalue_moves Demo.plain Demo.alloc 0 30 Demo.full [10; 20] 2
           (Demo_sane _ _ _) (Demo_regular _ _ _)).
  vm_compute. reflexivity.
Defined.

(** The capacities read after five pushes: onto a vector without
    capacity, and onto an empty vector after [Reserve(3)]. *)
Example Demo_caps_after :
  caps_after 5 0 0 = [1; 2; 4; 4; 8] ∧ caps_after 5 0 3 = [3; 3; 3; 6; 6].
Proof. vm_compute. done. Qed.
